(** * OpenEDI specification importer: a shallow embedding

    The importer (shared/utils/openedi-importer.ts) converts EdiNation
    OpenEDI descriptions of X12 transaction sets, in a legacy nested format
    and in an OpenAPI schema format, into the editor's document model of
    Loops, Segments and Elements (shared/models/edi-types.ts).

    Conventions of the embedding.
    - The numbers the importer copies out of a parsed document (lengths,
      repeat counts) and the order indices it counts are integers [Z].
    - The position of an element is a Number the code computes, with
      [parseInt], [Math.max], [+] and [-]: a [JS.number], which is an
      integer that a double holds, an infinity or NaN, with the rounding
      of doubles in every operation.
    - A string is a [string] of ASCII characters: case conversion, [trim]
      and the character classes of the regular expressions act on ASCII.
    - An optional field ([f?: T], or a field the code guards with [||] or
      [?.]) is an [option]; the other fields have their declared types.
    - A JSON object used as a mapping is the association list of its own
      entries in the order [Object.entries] enumerates them; a lookup
      [m[k]] also finds what objects inherit from [Object.prototype].
    - [uuidv4()], the allocation of arrays of code values and the clock are
      effects on a [World].
    - [JSON.parse] is a parameter of the dispatcher.
    - The recursion of [importOpenAPILoop] along the references of a schema
      has no bound in the source; its embedding takes the depth of call
      nesting that is available and has no result beyond it. *)

From Stdlib Require Import String Ascii List ZArith Lia Bool Arith.
From Stdlib Require Import Sorted Permutation.
From Stdlib Require DecimalString DecimalPos.
Import ListNotations.
Local Open Scope string_scope.
Local Open Scope Z_scope.

Set Implicit Arguments.
#[local] Set Warnings "-register-all".


(** ** Host-language primitives *)

Module JS.

(** [x || d] on an optional string: the empty string is falsy. *)
Definition truthy (s : option string) : option string :=
  match s with
  | Some "" => None
  | Some v => Some v
  | None => None
  end.

Definition or_string (s : option string) (d : string) : string :=
  match truthy s with Some v => v | None => d end.

(** [x || d] on an optional number: zero is falsy. *)
Definition or_number (n : option Z) (d : Z) : Z :=
  match n with
  | Some 0 => d
  | Some v => v
  | None => d
  end.

Definition is_upper (c : ascii) : bool :=
  let n := nat_of_ascii c in (65 <=? n)%nat && (n <=? 90)%nat.

Definition is_lower (c : ascii) : bool :=
  let n := nat_of_ascii c in (97 <=? n)%nat && (n <=? 122)%nat.

Definition is_digit (c : ascii) : bool :=
  let n := nat_of_ascii c in (48 <=? n)%nat && (n <=? 57)%nat.

(** The white space [String.prototype.trim] strips, within ASCII. *)
Definition is_space (c : ascii) : bool :=
  let n := nat_of_ascii c in
  (n =? 32)%nat || ((9 <=? n)%nat && (n <=? 13)%nat).

Definition upper_char (c : ascii) : ascii :=
  if is_lower c then ascii_of_nat (nat_of_ascii c - 32) else c.

(** [s.toUpperCase()] on a string of ASCII characters: the letters a to z
    are the only ones with an upper case of their own. *)
Fixpoint toUpperCase (s : string) : string :=
  match s with
  | EmptyString => EmptyString
  | String c r => String (upper_char c) (toUpperCase r)
  end.

Definition startsWith (s p : string) : bool := String.prefix p s.

(** [s.includes(p)] *)
Fixpoint includes (s p : string) : bool :=
  String.prefix p s ||
  match s with
  | EmptyString => false
  | String _ r => includes r p
  end.

Fixpoint drop (n : nat) (s : string) : string :=
  match n, s with
  | O, _ => s
  | S _, EmptyString => EmptyString
  | S k, String _ r => drop k r
  end.

(** [s.replace(p, '')] with a string pattern: the first occurrence of [p]
    is removed. *)
Fixpoint remove_first (p s : string) : string :=
  if String.prefix p s then drop (String.length p) s
  else match s with
       | EmptyString => EmptyString
       | String c r => String c (remove_first p r)
       end.

Fixpoint all_digits (s : string) : bool :=
  match s with
  | EmptyString => true
  | String c r => is_digit c && all_digits r
  end.

(** [s.match(/_(\d+)$/)]: the leftmost underscore that is followed by
    digits only, and at least one, up to the end of [s]; the result is
    the captured group. *)
Fixpoint match_digit_suffix (s : string) : option string :=
  match s with
  | EmptyString => None
  | String c r =>
      if Ascii.eqb c "_" && negb (String.eqb r "") && all_digits r
      then Some r
      else match_digit_suffix r
  end.

(** [s.replace(/_\d+$/, '')] *)
Fixpoint strip_digit_suffix (s : string) : string :=
  match s with
  | EmptyString => EmptyString
  | String c r =>
      if Ascii.eqb c "_" && negb (String.eqb r "") && all_digits r
      then EmptyString
      else String c (strip_digit_suffix r)
  end.

(** *** Numbers

    The Numbers that hold an integer, the infinities and NaN: what
    [parseInt], [Math.max] and the sums and differences of such Numbers
    give.  A Number is a double: it holds an integer of up to 53 bits as
    it is, and a longer one by its 53 leading bits. *)
Inductive number : Set :=
| Finite (z : Z)
| PosInfinity
| NegInfinity
| NaN.

(** The double nearest to the natural number [n], the even one of two that
    are as near: [n] itself up to 53 bits, and beyond them the 53 leading
    bits of [n], rounded on the bits that follow. *)
Definition round53 (n : Z) : Z :=
  let e := Z.log2 n - 52 in
  if e <=? 0 then n
  else
    let q := Z.shiftr n e in
    let r := Z.land n (Z.ones e) in
    let half := Z.shiftl 1 (e - 1) in
    if (r <? half) || ((r =? half) && Z.even q)
    then Z.shiftl q e
    else Z.shiftl (q + 1) e.

(** The Number for the integer [z]: the nearest double, and an infinity
    when that is beyond the largest double, (2^53 - 1) * 2^971. *)
Definition toNumber (z : Z) : number :=
  let m := round53 (Z.abs z) in
  if 2 ^ 1024 <=? m
  then (if z <? 0 then NegInfinity else PosInfinity)
  else Finite (Z.sgn z * m).

(** [- a] *)
Definition neg (a : number) : number :=
  match a with
  | Finite z => Finite (- z)
  | PosInfinity => NegInfinity
  | NegInfinity => PosInfinity
  | NaN => NaN
  end.

(** [a + b]: the sum of two integers is rounded to a double. *)
Definition add (a b : number) : number :=
  match a, b with
  | NaN, _ | _, NaN => NaN
  | PosInfinity, NegInfinity | NegInfinity, PosInfinity => NaN
  | PosInfinity, _ | _, PosInfinity => PosInfinity
  | NegInfinity, _ | _, NegInfinity => NegInfinity
  | Finite x, Finite y => toNumber (x + y)
  end.

(** [a - b] *)
Definition sub (a b : number) : number := add a (neg b).

(** [Math.max(a, b)] *)
Definition max (a b : number) : number :=
  match a, b with
  | NaN, _ | _, NaN => NaN
  | PosInfinity, _ | _, PosInfinity => PosInfinity
  | NegInfinity, c | c, NegInfinity => c
  | Finite x, Finite y => Finite (Z.max x y)
  end.

(** [Math.max(...xs)]: the largest of the arguments, NaN when one of them
    is, and the negative infinity of no argument at all. *)
Definition Math_max (xs : list number) : number := fold_left max xs NegInfinity.

(** [a === b] *)
Definition strictly_equal (a b : number) : bool :=
  match a, b with
  | Finite x, Finite y => x =? y
  | PosInfinity, PosInfinity | NegInfinity, NegInfinity => true
  | _, _ => false
  end.

(** [a < b] *)
Definition less (a b : number) : bool :=
  match a, b with
  | NaN, _ | _, NaN => false
  | _, NegInfinity => false
  | NegInfinity, _ => true
  | PosInfinity, _ => false
  | _, PosInfinity => true
  | Finite x, Finite y => x <? y
  end.

(** [a <= b] *)
Definition less_or_equal (a b : number) : bool := less a b || strictly_equal a b.

(** What [sort] makes of the Number its [compareFn] returns: negative,
    zero or positive, NaN being taken for zero. *)
Definition sign (v : number) : Z :=
  match v with
  | Finite z => Z.sgn z
  | PosInfinity => 1
  | NegInfinity => -1
  | NaN => 0
  end.

Definition digit_value (c : ascii) : Z := Z.of_nat (nat_of_ascii c - 48).

(** The integer a string of decimal digits spells. *)
Fixpoint parse_digits (acc : Z) (s : string) : Z :=
  match s with
  | EmptyString => acc
  | String c r => parse_digits (10 * acc + digit_value c) r
  end.

(** [parseInt(s, 10)] on a string of decimal digits: the Number for the
    integer the digits spell, all of them read, and NaN when there is no
    digit. *)
Definition parseInt (s : string) : number :=
  match s with
  | EmptyString => NaN
  | _ => toNumber (parse_digits 0 s)
  end.

(** [s.replace(/([A-Z])/g, ' $1')] *)
Fixpoint space_before_capitals (s : string) : string :=
  match s with
  | EmptyString => EmptyString
  | String c r =>
      if is_upper c then String " " (String c (space_before_capitals r))
      else String c (space_before_capitals r)
  end.

Fixpoint trimStart (s : string) : string :=
  match s with
  | EmptyString => EmptyString
  | String c r => if is_space c then trimStart r else s
  end.

Fixpoint trimEnd (s : string) : string :=
  match s with
  | EmptyString => EmptyString
  | String c r =>
      match trimEnd r with
      | EmptyString => if is_space c then EmptyString else String c EmptyString
      | r' => String c r'
      end
  end.

Definition trim (s : string) : string := trimEnd (trimStart s).

(** [xs.includes(s)] on an array of strings. *)
Definition array_includes (xs : list string) (s : string) : bool :=
  existsb (String.eqb s) xs.

(** The properties every plain object inherits from [Object.prototype].
    [obj[k]] finds them when [obj] has no entry of its own for [k]. *)
Definition prototype_keys : list string :=
  [ "constructor"; "__defineGetter__"; "__defineSetter__"; "hasOwnProperty";
    "__lookupGetter__"; "__lookupSetter__"; "isPrototypeOf";
    "propertyIsEnumerable"; "toString"; "valueOf"; "__proto__";
    "toLocaleString" ].

Definition inherited (k : string) : bool := array_includes prototype_keys k.

(** The entry of a mapping under its own key [k]. *)
Fixpoint own (A : Type) (m : list (string * A)) (k : string) : option A :=
  match m with
  | [] => None
  | (k', v) :: r => if String.eqb k k' then Some v else own r k
  end.

(** [m[k]]: the mapping's own entry, else what the prototype supplies
    (a function, or the prototype itself: truthy, and without any of the
    fields the importer reads), else [undefined]. *)
Inductive Lookup (A : Type) : Type :=
| Own (v : A)
| Inherited
| Undefined.
Arguments Inherited {A}.
Arguments Undefined {A}.

Definition get (A : Type) (m : list (string * A)) (k : string) : Lookup A :=
  match own m k with
  | Some v => Own v
  | None => if inherited k then Inherited else Undefined
  end.

(** [xs.sort(compareFn)] for a [compareFn] that orders the items
    consistently, as a difference of numeric keys does: the items end up
    in ascending order, and the sort being stable, an item only moves in
    front of those that [compareFn] puts after it. *)
Section Sort.
Variable A : Type.
Variable compareFn : A -> A -> number.

Fixpoint insert (x : A) (l : list A) : list A :=
  match l with
  | [] => [x]
  | y :: r => if sign (compareFn x y) <=? 0 then x :: y :: r else y :: insert x r
  end.

Fixpoint sort (l : list A) : list A :=
  match l with
  | [] => []
  | x :: r => insert x (sort r)
  end.
End Sort.

End JS.

(** ** The document model (edi-types.ts)

    The records carry the fields the importer writes; the optional fields
    that only the editor fills in later (comments, condition descriptions,
    inline examples, variants) are left out: after import they are all
    undefined. *)

Module Usage.
Inductive UsageType : Set := M | O | C.

Definition eqb (a b : UsageType) : bool :=
  match a, b with
  | M, M | O, O | C, C => true
  | _, _ => false
  end.
End Usage.
Abbreviation UsageType := Usage.UsageType.

Record CodeValue : Set := mkCodeValue {
  code : string;
  description : string;
  included : bool
}.

(** An array of code values, with the address of the array object: the
    document model keeps a working list and a base list per element, and
    whether the two are one array or two is part of its contract. *)
Record CodeArray : Set := mkCodeArray {
  address : nat;
  items : list CodeValue
}.

Module Element.
Record t : Set := mk {
  id : nat;
  position : JS.number;
  name : string;
  dataType : string;
  minLength : Z;
  maxLength : Z;
  usage : UsageType;
  codeValues : option CodeArray;
  baseUsage : option UsageType;
  baseCodes : option CodeArray
}.
End Element.
Abbreviation Element := Element.t.

Module Segment.
Record t : Set := mk {
  id : nat;
  name : string;
  description : string;
  usage : UsageType;
  minUse : Z;
  maxUse : Z;
  elements : list Element;
  order : option Z;
  baseUsage : option UsageType;
  baseMinUse : option Z;
  baseMaxUse : option Z
}.

(** [segment.order = n] *)
Definition set_order (s : t) (n : option Z) : t :=
  mk (id s) (name s) (description s) (usage s) (minUse s) (maxUse s)
     (elements s) n (baseUsage s) (baseMinUse s) (baseMaxUse s).
End Segment.
Abbreviation Segment := Segment.t.

Module Loop.
Inductive t : Set := mk {
  id : nat;
  name : string;
  description : option string;
  usage : UsageType;
  minUse : Z;
  maxUse : Z;
  segments : list Segment;
  loops : list t;
  order : option Z;
  baseUsage : option UsageType;
  baseMinUse : option Z;
  baseMaxUse : option Z
}.
End Loop.
Abbreviation Loop := Loop.t.

Record ExampleEDI : Set := mkExampleEDI {
  example_id : nat;
  title : string;
  content : string
}.

Module Metadata.
Record t : Set := mk {
  name : string;
  version : string;
  transactionSet : string;
  transactionSetName : string;
  ediVersion : string;
  createdDate : string;
  modifiedDate : string;
  baseSpecReference : option string
}.
End Metadata.
Abbreviation SpecificationMetadata := Metadata.t.

Module Specification.
Record t : Set := mk {
  id : nat;
  metadata : SpecificationMetadata;
  loops : list Loop;
  examples : list ExampleEDI
}.
End Specification.
Abbreviation Specification := Specification.t.

(** *** The legacy import types *)

Record OpenEDICode : Set := mkOpenEDICode {
  Code : string;
  Description : string
}.

Module OpenEDIElement.
Record t : Set := mk {
  Id : string;
  Name : option string;
  DataType : option string;
  MinLength : option Z;
  MaxLength : option Z;
  Req : option string;
  Codes : option (list OpenEDICode)
}.
End OpenEDIElement.
Abbreviation OpenEDIElement := OpenEDIElement.t.

Module OpenEDISegment.
Record t : Set := mk {
  Id : string;
  Name : option string;
  Req : option string;
  Max : option Z;
  Elements : option (list OpenEDIElement)
}.
End OpenEDISegment.
Abbreviation OpenEDISegment := OpenEDISegment.t.

Module OpenEDILoop.
Inductive t : Set := mk {
  Id : option string;
  Name : string;
  Req : option string;
  Max : option Z;
  Segments : option (list OpenEDISegment);
  Loops : option (list t)
}.
End OpenEDILoop.
Abbreviation OpenEDILoop := OpenEDILoop.t.

Module OpenEDITransactionSet.
Record t : Set := mk {
  TransactionSetId : string;
  Name : string;
  Version : option string;
  Loops : option (list OpenEDILoop)
}.
End OpenEDITransactionSet.
Abbreviation OpenEDITransactionSet := OpenEDITransactionSet.t.

(** ** Effects

    The [k]-th call of [uuidv4()] in a run yields the identifier [k]
    (identifiers are opaque and only ever compared); the [k]-th array of code
    values lives at address [k]; [new Date().toISOString()] reads [clock]. *)

Record World : Set := mkWorld {
  uuids : nat;
  arrays : nat;
  clock : string
}.

Definition Gen (A : Type) : Type := World -> A * World.

Definition ret (A : Type) (a : A) : Gen A := fun w => (a, w).

Definition bind (A B : Type) (m : Gen A) (k : A -> Gen B) : Gen B :=
  fun w => let (a, w') := m w in k a w'.

Declare Scope gen_scope.
Delimit Scope gen_scope with gen.
Notation "x <- m ;; k" := (bind m (fun x => k))
  (at level 61, m at next level, right associativity) : gen_scope.

Definition uuidv4 : Gen nat :=
  fun w => (uuids w, mkWorld (S (uuids w)) (arrays w) (clock w)).

Definition new_array (xs : list CodeValue) : Gen CodeArray :=
  fun w => (mkCodeArray (arrays w) xs, mkWorld (uuids w) (S (arrays w)) (clock w)).

Definition now : Gen string := fun w => (clock w, w).

(** [xs.map(f)] for an [f] with effects, with the index of each item. *)
Definition mapi_gen (A B : Type) (f : A -> nat -> Gen B) : list A -> nat -> Gen (list B) :=
  fix go (l : list A) (i : nat) : Gen (list B) :=
    match l with
    | [] => ret []
    | x :: r => (y <- f x i ;; ys <- go r (S i) ;; ret (y :: ys))%gen
    end.

Definition map_gen (A B : Type) (f : A -> Gen B) : list A -> Gen (list B) :=
  fix go (l : list A) : Gen (list B) :=
    match l with
    | [] => ret []
    | x :: r => (y <- f x ;; ys <- go r ;; ret (y :: ys))%gen
    end.

(** ** The usage classifier and the legacy converter *)

Definition parseUsage (req : option string) : UsageType :=
  match req with
  | None => Usage.O
  | Some r =>
      let u := JS.toUpperCase r in
      if String.eqb u "M" then Usage.M
      else if String.eqb u "O" then Usage.O
      else if String.eqb u "C" || String.eqb u "X" then Usage.C
      else Usage.O
  end.

Definition minUse_of (usage : UsageType) : Z :=
  if Usage.eqb usage Usage.M then 1 else 0.

Definition convertCode (c : OpenEDICode) : CodeValue :=
  mkCodeValue (Code c) (Description c) true.

Definition convertElement (openEDIElement : OpenEDIElement) (position : JS.number)
    : Gen Element :=
  (let usage := parseUsage (OpenEDIElement.Req openEDIElement) in
   codeValues <- new_array
     (map convertCode
        (match OpenEDIElement.Codes openEDIElement with Some cs => cs | None => [] end)) ;;
   id <- uuidv4 ;;
   let present := (0 <? Z.of_nat (length (items codeValues))) in
   baseCodes <- (if present
                 then (copy <- new_array (items codeValues) ;; ret (Some copy))
                 else ret None) ;;
   ret (Element.mk id position
          (JS.or_string (OpenEDIElement.Name openEDIElement) (OpenEDIElement.Id openEDIElement))
          (JS.or_string (OpenEDIElement.DataType openEDIElement) "AN")
          (JS.or_number (OpenEDIElement.MinLength openEDIElement) 0)
          (JS.or_number (OpenEDIElement.MaxLength openEDIElement) 0)
          usage
          (if present then Some codeValues else None)
          (Some usage)
          baseCodes))%gen.

Definition convertSegment (openEDISegment : OpenEDISegment) : Gen Segment :=
  (let usage := parseUsage (OpenEDISegment.Req openEDISegment) in
   let maxUse := JS.or_number (OpenEDISegment.Max openEDISegment) 1 in
   id <- uuidv4 ;;
   elements <- mapi_gen (fun el idx =>
                           convertElement el (JS.add (JS.Finite (Z.of_nat idx)) (JS.Finite 1)))
     (match OpenEDISegment.Elements openEDISegment with Some es => es | None => [] end) 0%nat ;;
   ret (Segment.mk id
          (OpenEDISegment.Id openEDISegment)
          (JS.or_string (OpenEDISegment.Name openEDISegment) (OpenEDISegment.Id openEDISegment))
          usage (minUse_of usage) maxUse elements None
          (Some usage) (Some (minUse_of usage)) (Some maxUse)))%gen.

Fixpoint convertLoop (openEDILoop : OpenEDILoop) : Gen Loop :=
  (let usage := parseUsage (OpenEDILoop.Req openEDILoop) in
   let maxUse := JS.or_number (OpenEDILoop.Max openEDILoop) 1 in
   id <- uuidv4 ;;
   segments <- map_gen convertSegment
     (match OpenEDILoop.Segments openEDILoop with Some ss => ss | None => [] end) ;;
   loops <- match OpenEDILoop.Loops openEDILoop with
            | Some ls => map_gen convertLoop ls
            | None => ret []
            end ;;
   ret (Loop.mk id
          (JS.or_string (OpenEDILoop.Id openEDILoop) (OpenEDILoop.Name openEDILoop))
          (Some (OpenEDILoop.Name openEDILoop))
          usage (minUse_of usage) maxUse segments loops None
          (Some usage) (Some (minUse_of usage)) (Some maxUse)))%gen.

Definition importOpenEDISpec (openEDISpec : OpenEDITransactionSet) : Gen Specification :=
  (date <- now ;;
   id <- uuidv4 ;;
   loops <- map_gen convertLoop
     (match OpenEDITransactionSet.Loops openEDISpec with Some ls => ls | None => [] end) ;;
   let version := OpenEDITransactionSet.Version openEDISpec in
   let tsid := OpenEDITransactionSet.TransactionSetId openEDISpec in
   ret (Specification.mk id
          (Metadata.mk
             (tsid ++ " - " ++ OpenEDITransactionSet.Name openEDISpec)
             "1.0"
             tsid
             (OpenEDITransactionSet.Name openEDISpec)
             (JS.or_string version "005010")
             date date
             (Some ("OpenEDI/" ++ match version with Some v => v | None => "undefined" end
                      ++ "/" ++ tsid)))
          loops
          []))%gen.

(** ** The OpenAPI schema format *)

(** [{ $ref?: string }] *)
Record Reference : Set := mkReference {
  ref : option string
}.

Module OpenAPIProperty.
Record t : Set := mk {
  type : option string;
  minLength : option Z;
  maxLength : option Z;
  maxItems : option Z;
  format : option string;
  enum : option (list string);
  allOf : option (list Reference);
  ref : option string;
  items : option Reference;
  x_openedi_element_id : option string
}.
End OpenAPIProperty.
Abbreviation OpenAPIProperty := OpenAPIProperty.t.

Module OpenAPISchemaDefinition.
Record t : Set := mk {
  type : option string;
  required : option (list string);
  properties : option (list (string * OpenAPIProperty));
  enum : option (list string);
  allOf : option (list Reference);
  x_openedi_segment_id : option string;
  x_openedi_message_id : option string;
  x_openedi_message_standard : option string;
  x_openedi_loop_id : option string
}.
End OpenAPISchemaDefinition.
Abbreviation OpenAPISchemaDefinition := OpenAPISchemaDefinition.t.

Definition Schemas : Set := list (string * OpenAPISchemaDefinition).

Record OpenAPIInfo : Set := mkOpenAPIInfo {
  info_title : option string;
  info_version : option string
}.

Record OpenAPIComponents : Set := mkOpenAPIComponents {
  schemas : option Schemas
}.

Module OpenAPISchema.
Record t : Set := mk {
  openapi : string;
  info : option OpenAPIInfo;
  components : option OpenAPIComponents
}.
End OpenAPISchema.
Abbreviation OpenAPISchema := OpenAPISchema.t.

Definition parseDataTypeFromFormat (format : option string) : string :=
  match JS.truthy format with
  | None => "AN"
  | Some f =>
      let formatUpper := JS.toUpperCase f in
      if JS.includes formatUpper "_ID" then "ID"
      else if JS.includes formatUpper "_N0" then "N0"
      else if JS.includes formatUpper "_N2" then "N2"
      else if JS.includes formatUpper "_R" then "R"
      else if JS.includes formatUpper "_DT" then "DT"
      else if JS.includes formatUpper "_TM" then "TM"
      else "AN"
  end.

Definition parseElementNameFromKey (key : string) : string :=
  let withoutSuffix := JS.strip_digit_suffix key in
  JS.trim (JS.space_before_capitals withoutSuffix).

Definition getElementPosition (key : string) : JS.number :=
  match JS.match_digit_suffix key with
  | Some digits => JS.parseInt digits
  | None => JS.Finite 1
  end.

(** [ref.replace('#/components/schemas/', '')] *)
Definition schema_name (r : string) : string :=
  JS.remove_first "#/components/schemas/" r.

Definition enumCode (c : string) : CodeValue := mkCodeValue c c true.

(** The loop over [prop.allOf]: every entry whose reference leads to a
    definition with an [enum] replaces [codeValues] by a new array. *)
Fixpoint allOfCodes (allSchemas : Schemas) (allOf : list Reference)
    (codeValues : option CodeArray) : Gen (option CodeArray) :=
  match allOf with
  | [] => ret codeValues
  | r :: rest =>
      match JS.truthy (ref r) with
      | Some target =>
          match JS.get allSchemas (schema_name target) with
          | JS.Own refSchema =>
              match OpenAPISchemaDefinition.enum refSchema with
              | Some codes =>
                  (found <- new_array (map enumCode codes) ;;
                   allOfCodes allSchemas rest (Some found))%gen
              | None => allOfCodes allSchemas rest codeValues
              end
          | _ => allOfCodes allSchemas rest codeValues
          end
      | None => allOfCodes allSchemas rest codeValues
      end
  end.

(** The body of the loop over [propEntries] in [importOpenAPISegment]. *)
Definition importOpenAPIElement (schema : OpenAPISchemaDefinition) (allSchemas : Schemas)
    (entry : string * OpenAPIProperty) : Gen Element :=
  (let (propKey, prop) := entry in
   let position := getElementPosition propKey in
   let isElementRequired :=
     match OpenAPISchemaDefinition.required schema with
     | Some req => JS.array_includes req propKey
     | None => false
     end in
   referenced <- match OpenAPIProperty.allOf prop with
                 | Some allOf => allOfCodes allSchemas allOf None
                 | None => ret None
                 end ;;
   codeValues <- match OpenAPIProperty.enum prop with
                 | Some codes => (inline <- new_array (map enumCode codes) ;; ret (Some inline))
                 | None => ret referenced
                 end ;;
   id <- uuidv4 ;;
   baseCodes <- match codeValues with
                | Some cv => (copy <- new_array (items cv) ;; ret (Some copy))
                | None => ret None
                end ;;
   ret (Element.mk id position
          (parseElementNameFromKey propKey)
          (parseDataTypeFromFormat (OpenAPIProperty.format prop))
          (JS.or_number (OpenAPIProperty.minLength prop) 0)
          (JS.or_number (OpenAPIProperty.maxLength prop) 0)
          (if isElementRequired then Usage.M else Usage.O)
          codeValues
          (Some (if isElementRequired then Usage.M else Usage.O))
          baseCodes))%gen.

(** [(a, b) => a.position - b.position] *)
Definition by_position (a b : Element) : JS.number :=
  JS.sub (Element.position a) (Element.position b).

Definition importOpenAPISegment (segmentId : string) (schema : OpenAPISchemaDefinition)
    (allSchemas : Schemas) (requiredSegments : list string) (maxUse : Z) : Gen Segment :=
  (let isRequired := JS.array_includes requiredSegments segmentId in
   elements <- match OpenAPISchemaDefinition.properties schema with
               | Some properties =>
                   let propEntries :=
                     filter (fun e => negb (JS.startsWith (fst e) "Model")
                                      && negb (String.eqb (fst e) "$ref")) properties in
                   (collected <- map_gen (importOpenAPIElement schema allSchemas) propEntries ;;
                    ret (JS.sort by_position collected))
               | None => ret []
               end ;;
   id <- uuidv4 ;;
   ret (Segment.mk id segmentId segmentId
          (if isRequired then Usage.M else Usage.O)
          (if isRequired then 1 else 0)
          maxUse
          elements
          None
          (Some (if isRequired then Usage.M else Usage.O))
          (Some (if isRequired then 1 else 0))
          (Some maxUse)))%gen.

(** *** Computations that may not return

    [importOpenAPILoop] calls itself along the references of the schema
    graph.  Its embedding takes the depth of call nesting it may use; a run
    that needs more has no result (the engine, whose call stack is finite,
    ends such a run with a [RangeError]). *)

Definition Run (A : Type) : Type := World -> option (A * World).

Definition done (A : Type) (a : A) : Run A := fun w => Some (a, w).

Definition lift (A : Type) (m : Gen A) : Run A := fun w => Some (m w).

Definition exhausted (A : Type) : Run A := fun _ => None.

Definition andThen (A B : Type) (m : Run A) (k : A -> Run B) : Run B :=
  fun w => match m w with
           | Some (a, w') => k a w'
           | None => None
           end.

Declare Scope run_scope.
Delimit Scope run_scope with run.
Notation "x <- m ;; k" := (andThen m (fun x => k))
  (at level 61, m at next level, right associativity) : run_scope.

(** The reference of a structural property: [prop.$ref], else for an array
    [prop.items?.$ref], with the path prefix removed. *)
Definition refNameOf (prop : OpenAPIProperty) : option string :=
  let isArray :=
    match OpenAPIProperty.type prop with Some t => String.eqb t "array" | None => false end in
  match JS.truthy (OpenAPIProperty.ref prop) with
  | Some r => Some (schema_name r)
  | None =>
      if isArray then
        match OpenAPIProperty.items prop with
        | Some it =>
            match JS.truthy (ref it) with
            | Some r => Some (schema_name r)
            | None => None
            end
        | None => None
        end
      else None
  end.

Definition itemMaxUseOf (prop : OpenAPIProperty) : Z :=
  match OpenAPIProperty.type prop with
  | Some t => if String.eqb t "array"
              then JS.or_number (OpenAPIProperty.maxItems prop) 999999
              else 1
  | None => 1
  end.

Section Properties.

(** The recursive call. *)
Variable importLoop :
  OpenAPISchemaDefinition -> Schemas -> Z -> bool -> option Z -> Run Loop.
Variable allSchemas : Schemas.
Variable requiredItems : list string.

(** The loop over [Object.entries(properties)], which the source has
    twice with the same body: in [importOpenAPILoop], and in
    [importOpenAPIFormat] for the transaction set itself.  [itemOrder],
    [segments] and [nestedLoops] are the variables the loop updates. *)
Fixpoint importProperties (entries : list (string * OpenAPIProperty)) (itemOrder : Z)
    (segments : list Segment) (nestedLoops : list Loop)
    : Run (list Segment * list Loop) :=
  match entries with
  | [] => done (segments, nestedLoops)
  | (propKey, prop) :: rest =>
      if String.eqb propKey "Model"
      then importProperties rest itemOrder segments nestedLoops
      else
        let itemMaxUse := itemMaxUseOf prop in
        match JS.truthy (refNameOf prop) with
        | None => importProperties rest itemOrder segments nestedLoops
        | Some refName =>
            match JS.get allSchemas refName with
            | JS.Undefined => importProperties rest itemOrder segments nestedLoops
            | JS.Inherited => importProperties rest (itemOrder + 1) segments nestedLoops
            | JS.Own refSchema =>
                match JS.truthy (OpenAPISchemaDefinition.x_openedi_loop_id refSchema) with
                | Some _ =>
                    (nestedLoop <- importLoop refSchema allSchemas itemMaxUse
                                     (JS.array_includes requiredItems propKey)
                                     (Some itemOrder) ;;
                     importProperties rest (itemOrder + 1) segments
                       (nestedLoops ++ [nestedLoop]))%run
                | None =>
                    match JS.truthy (OpenAPISchemaDefinition.x_openedi_segment_id refSchema) with
                    | Some segmentId =>
                        (segment <- lift (importOpenAPISegment segmentId refSchema
                                            allSchemas requiredItems itemMaxUse) ;;
                         importProperties rest (itemOrder + 1)
                           (segments ++ [Segment.set_order segment (Some itemOrder)])
                           nestedLoops)%run
                    | None => importProperties rest (itemOrder + 1) segments nestedLoops
                    end
                end
            end
        end
  end.

End Properties.

Fixpoint importOpenAPILoop (depth : nat) (loopSchema : OpenAPISchemaDefinition)
    (allSchemas : Schemas) (maxUse : Z) (isRequired : bool) (order : option Z) : Run Loop :=
  match depth with
  | O => exhausted Loop
  | S depth' =>
      (let loopId := JS.or_string (OpenAPISchemaDefinition.x_openedi_loop_id loopSchema) "LOOP" in
       let requiredItems :=
         match OpenAPISchemaDefinition.required loopSchema with Some r => r | None => [] end in
       children <- match OpenAPISchemaDefinition.properties loopSchema with
                   | Some properties =>
                       importProperties (importOpenAPILoop depth') allSchemas requiredItems
                         properties 0 [] []
                   | None => done ([], [])
                   end ;;
       id <- lift uuidv4 ;;
       done (Loop.mk id loopId (Some loopId)
               (if isRequired then Usage.M else Usage.O)
               (if isRequired then 1 else 0)
               maxUse
               (fst children) (snd children)
               order
               (Some (if isRequired then Usage.M else Usage.O))
               (Some (if isRequired then 1 else 0))
               (Some maxUse)))%run
  end.

(** *** Exceptions *)

Inductive Exception : Set :=
| SyntaxError                         (* raised by [JSON.parse] *)
| Error (message : string)            (* [new Error(message)] *)
| OpenAPIResult (spec : Specification). (* the object [{ isOpenAPI: true, spec }] *)

Inductive Outcome (A : Type) : Type :=
| Returns (a : A)
| Throws (e : Exception).
Arguments Throws {A}.

(** *** The template registry *)

Record Template : Set := mkTemplate {
  template_name : string;
  template_description : string
}.

Definition TRANSACTION_SET_TEMPLATES : list (string * Template) :=
  [ ("315", mkTemplate "Status Details (Ocean)" "Ocean shipment status details");
    ("810", mkTemplate "Invoice" "Invoice transaction set");
    ("850", mkTemplate "Purchase Order" "Purchase order transaction set");
    ("855", mkTemplate "Purchase Order Acknowledgment" "PO acknowledgment");
    ("856", mkTemplate "Ship Notice/Manifest" "Advance ship notice (ASN)");
    ("820", mkTemplate "Payment Order/Remittance Advice" "Payment information");
    ("990", mkTemplate "Response to a Load Tender" "Load tender response");
    ("997", mkTemplate "Functional Acknowledgment" "FA transaction set");
    ("999", mkTemplate "Implementation Acknowledgment" "IA transaction set");
    ("204", mkTemplate "Motor Carrier Load Tender" "Load tender");
    ("210", mkTemplate "Motor Carrier Freight Details and Invoice" "Freight invoice");
    ("214", mkTemplate "Transportation Carrier Shipment Status Message" "Shipment status");
    ("270", mkTemplate "Eligibility, Coverage or Benefit Inquiry" "Healthcare eligibility inquiry");
    ("271", mkTemplate "Eligibility, Coverage or Benefit Information" "Healthcare eligibility response");
    ("276", mkTemplate "Health Care Claim Status Request" "Claim status request");
    ("277", mkTemplate "Health Care Claim Status Response" "Claim status response");
    ("834", mkTemplate "Benefit Enrollment and Maintenance" "Enrollment transaction");
    ("835", mkTemplate "Health Care Claim Payment/Advice" "Remittance advice");
    ("837", mkTemplate "Health Care Claim"
              "Healthcare claim (Professional/Institutional/Dental)") ].

(** [TRANSACTION_SET_TEMPLATES[id]?.name].  An inherited key finds a method
    of [Object.prototype], whose [name] is the key ("Object" for the
    constructor), or the prototype itself, which has no [name]. *)
Definition templateName (transactionSetId : string) : option string :=
  match JS.get TRANSACTION_SET_TEMPLATES transactionSetId with
  | JS.Own template => Some (template_name template)
  | JS.Inherited =>
      if String.eqb transactionSetId "__proto__" then None
      else if String.eqb transactionSetId "constructor" then Some "Object"
      else Some transactionSetId
  | JS.Undefined => None
  end.

(** *** The schema-format converter *)

(** The scan for the first definition with a message id. *)
Fixpoint findTransactionSet (entries : Schemas) : option (string * OpenAPISchemaDefinition) :=
  match entries with
  | [] => None
  | (_, schema) :: rest =>
      match JS.truthy (OpenAPISchemaDefinition.x_openedi_message_id schema) with
      | Some transactionSetId => Some (transactionSetId, schema)
      | None => findTransactionSet rest
      end
  end.

Definition missing_transaction_set : string :=
  "No transaction set found in OpenAPI schema (missing x-openedi-message-id)".

Definition importOpenAPIFormat (depth : nat) (parsed : OpenAPISchema)
    : Run (Outcome Specification) :=
  (date <- lift now ;;
   let schemas :=
     match OpenAPISchema.components parsed with
     | Some c => match schemas c with Some s => s | None => [] end
     | None => []
     end in
   match findTransactionSet schemas with
   | None => done (Throws (Error missing_transaction_set))
   | Some (transactionSetId, transactionSetSchema) =>
       let requiredItems :=
         match OpenAPISchemaDefinition.required transactionSetSchema with
         | Some r => r
         | None => []
         end in
       children <- match OpenAPISchemaDefinition.properties transactionSetSchema with
                   | Some properties =>
                       importProperties (importOpenAPILoop depth) schemas requiredItems
                         properties 0 [] []
                   | None => done ([], [])
                   end ;;
       mainId <- lift uuidv4 ;;
       let mainLoop :=
         Loop.mk mainId ("TS" ++ transactionSetId)
           (Some ("Transaction Set " ++ transactionSetId))
           Usage.M 1 1 (fst children) (snd children) None
           (Some Usage.M) (Some 1) (Some 1) in
       let template := templateName transactionSetId in
       id <- lift uuidv4 ;;
       done (Returns
               (Specification.mk id
                  (Metadata.mk
                     (JS.or_string template ("Transaction Set " ++ transactionSetId))
                     "1.0"
                     transactionSetId
                     (JS.or_string template transactionSetId)
                     "005010"
                     date date
                     (Some ("EdiNation/OpenAPI/" ++ transactionSetId)))
                  [mainLoop]
                  []))
   end)%run.

(** *** The dispatcher *)

(** What [JSON.parse] returned, as the dispatcher tells it apart: an object
    with the keys [openapi] and [components]; an array; any other value,
    which the code takes for a legacy document. *)
Inductive Parsed : Set :=
| ParsedOpenAPI (document : OpenAPISchema)
| ParsedArray (documents : list OpenEDITransactionSet)
| ParsedObject (document : OpenEDITransactionSet).

Definition isOpenAPIFormat (parsed : Parsed) : bool :=
  match parsed with
  | ParsedOpenAPI _ => true
  | _ => false
  end.

Definition empty_specification_array : string := "Empty specification array".

Section Dispatcher.

(** [JSON.parse]; [None] when it raises a syntax error. *)
Variable JSON_parse : string -> option Parsed.

Definition parseOpenEDIJson (depth : nat) (jsonContent : string)
    : Run (Outcome OpenEDITransactionSet) :=
  match JSON_parse jsonContent with
  | None => done (Throws SyntaxError)
  | Some parsed =>
      match parsed with
      | ParsedOpenAPI document =>
          (converted <- importOpenAPIFormat depth document ;;
           match converted with
           | Returns spec => done (Throws (OpenAPIResult spec))
           | Throws e => done (Throws e)
           end)%run
      | ParsedArray [] => done (Throws (Error empty_specification_array))
      | ParsedArray (first :: _) => done (Returns first)
      | ParsedObject document => done (Returns document)
      end
  end.

Definition parseAndImportSpec (depth : nat) (jsonContent : string)
    : Run (Outcome Specification) :=
  (parsed <- parseOpenEDIJson depth jsonContent ;;
   match parsed with
   | Returns openEDISpec =>
       spec <- lift (importOpenEDISpec openEDISpec) ;;
       done (Returns spec)
   | Throws (OpenAPIResult spec) => done (Returns spec)
   | Throws e => done (Throws e)
   end)%run.

End Dispatcher.

(** ** The rest of the importer *)

(** [createEmptySpecification(transactionSetId, name, ediVersion)]; the
    default of [ediVersion] applies when the argument is left out. *)
Definition createEmptySpecification (transactionSetId : string) (name : option string)
    (ediVersion : option string) : Gen Specification :=
  (let template := templateName transactionSetId in
   date <- now ;;
   id <- uuidv4 ;;
   ret (Specification.mk id
          (Metadata.mk
             (JS.or_string name
                (JS.or_string template ("Transaction Set " ++ transactionSetId)))
             "1.0"
             transactionSetId
             (JS.or_string template transactionSetId)
             (match ediVersion with Some v => v | None => "005010" end)
             date date
             None)
          []
          []))%gen.

(** ** The editors of the tree (LoopEditor, SegmentEditor)

    The editors rebuild the specification along a path of loop
    identifiers.  An object of updates [u : Partial<T>] enters through what
    the spread [{ ...x, ...u }] makes of a record [x]. *)

(** [{ ...l, loops }] and [{ ...l, segments }] *)
Definition with_loops (l : Loop) (loops : list Loop) : Loop :=
  Loop.mk (Loop.id l) (Loop.name l) (Loop.description l) (Loop.usage l)
    (Loop.minUse l) (Loop.maxUse l) (Loop.segments l) loops (Loop.order l)
    (Loop.baseUsage l) (Loop.baseMinUse l) (Loop.baseMaxUse l).

Definition with_segments (l : Loop) (segments : list Segment) : Loop :=
  Loop.mk (Loop.id l) (Loop.name l) (Loop.description l) (Loop.usage l)
    (Loop.minUse l) (Loop.maxUse l) segments (Loop.loops l) (Loop.order l)
    (Loop.baseUsage l) (Loop.baseMinUse l) (Loop.baseMaxUse l).

(** [{ ...s, elements }] *)
Definition with_elements (s : Segment) (elements : list Element) : Segment :=
  Segment.mk (Segment.id s) (Segment.name s) (Segment.description s) (Segment.usage s)
    (Segment.minUse s) (Segment.maxUse s) elements (Segment.order s)
    (Segment.baseUsage s) (Segment.baseMinUse s) (Segment.baseMaxUse s).

(** [{ ...spec, loops }] *)
Definition with_top_loops (spec : Specification) (loops : list Loop) : Specification :=
  Specification.mk (Specification.id spec) (Specification.metadata spec) loops
    (Specification.examples spec).

(** [x.id === targetPath[depth]]: false beyond the end of the path. *)
Definition at_path (targetPath : list nat) (depth : nat) (id : nat) : bool :=
  match nth_error targetPath depth with
  | Some target => Nat.eqb id target
  | None => false
  end.

(** [depth === targetPath.length - k] *)
Definition is_level (targetPath : list nat) (depth : nat) (k : Z) : bool :=
  Z.of_nat depth =? Z.of_nat (length targetPath) - k.

Module TreeNavigation.

(** [handleAddLoop]: the identifier is drawn when the button is pressed,
    the updater is applied to the specification of that moment. *)
Definition handleAddLoop : Gen (Specification -> Specification) :=
  (id <- uuidv4 ;;
   ret (fun spec =>
          with_top_loops spec
            (Specification.loops spec
             ++ [Loop.mk id "NEW" (Some "New Loop") Usage.O 0 1 [] [] None None None None])))%gen.

End TreeNavigation.

Module LoopEditor.

Section Update.

(** [l => ({ ...l, ...updates })] *)
Variable updates : Loop -> Loop.
Variable targetPath : list nat.

(** The function [updateLoopInTree] maps over the loops. *)
Fixpoint updateLoopInTree_item (depth : nat) (l : Loop) : Loop :=
  if at_path targetPath depth (Loop.id l) then
    if is_level targetPath depth 1 then updates l
    else with_loops l (map (updateLoopInTree_item (S depth)) (Loop.loops l))
  else l.

Definition updateLoopInTree (loops : list Loop) (depth : nat) : list Loop :=
  map (updateLoopInTree_item depth) loops.

End Update.

(** [updateLoop(updates)], as the updater of the specification. *)
Definition updateLoop (updates : Loop -> Loop) (path : list nat) (spec : Specification)
    : Specification :=
  with_top_loops spec (updateLoopInTree updates path (Specification.loops spec) 0).

(** [handleAddSegment] and [handleAddNestedLoop], for the editor of the
    loop [loop] at [path]: the new list is made of the segments (loops) of
    [loop] as the editor has them. *)
Definition handleAddSegment (loop : Loop) (path : list nat)
    : Gen (Specification -> Specification) :=
  (id <- uuidv4 ;;
   let newSegment := Segment.mk id "SEG" "New Segment" Usage.O 0 1 [] None None None None in
   ret (updateLoop (fun l => with_segments l (Loop.segments loop ++ [newSegment])) path))%gen.

Definition handleAddNestedLoop (loop : Loop) (path : list nat)
    : Gen (Specification -> Specification) :=
  (id <- uuidv4 ;;
   let newLoop :=
     Loop.mk id "LOOP" (Some "New Nested Loop") Usage.O 0 1 [] [] None None None None in
   ret (updateLoop (fun l => with_loops l (Loop.loops loop ++ [newLoop])) path))%gen.

(** [handleDeleteSegment(segmentId)] and [handleDeleteNestedLoop(loopId)],
    once the user has confirmed: the list without the item, made of the
    segments (loops) of [loop] as the editor has them. *)
Definition handleDeleteSegment (loop : Loop) (segmentId : nat) (path : list nat)
    (spec : Specification) : Specification :=
  updateLoop
    (fun l => with_segments l
                (filter (fun s => negb (Nat.eqb (Segment.id s) segmentId))
                   (Loop.segments loop)))
    path spec.

Definition handleDeleteNestedLoop (loop : Loop) (loopId : nat) (path : list nat)
    (spec : Specification) : Specification :=
  updateLoop
    (fun l => with_loops l
                (filter (fun c => negb (Nat.eqb (Loop.id c) loopId)) (Loop.loops loop)))
    path spec.

Section Delete.

Variable targetPath : list nat.

(** [{ ...l, loops: deleteFromLoops(l.loops, targetPath, depth) }] *)
Fixpoint deleteFromLoops_below (depth : nat) (l : Loop) : Loop :=
  with_loops l
    (if is_level targetPath depth 1
     then filter (fun c => negb (at_path targetPath depth (Loop.id c))) (Loop.loops l)
     else map (fun c => if at_path targetPath depth (Loop.id c)
                        then deleteFromLoops_below (S depth) c
                        else c)
              (Loop.loops l)).

Definition deleteFromLoops (loops : list Loop) (depth : nat) : list Loop :=
  if is_level targetPath depth 1
  then filter (fun l => negb (at_path targetPath depth (Loop.id l))) loops
  else map (fun l => if at_path targetPath depth (Loop.id l)
                     then deleteFromLoops_below (S depth) l
                     else l)
           loops.

End Delete.

(** The updater [handleDeleteLoop] hands to [onUpdate], once the user has
    confirmed. *)
Definition handleDeleteLoop (path : list nat) (spec : Specification) : Specification :=
  with_top_loops spec (deleteFromLoops path (Specification.loops spec) 0).

End LoopEditor.

Module SegmentEditor.

Section Update.

(** [s => ({ ...s, ...updates })] *)
Variable updates : Segment -> Segment.
Variable targetPath : list nat.

(** The function [updateInLoops] maps over the loops. *)
Fixpoint updateInLoops_item (depth : nat) (loop : Loop) : Loop :=
  if at_path targetPath depth (Loop.id loop) then
    if is_level targetPath depth 2 then
      with_segments loop
        (map (fun s => if at_path targetPath (depth + 1) (Segment.id s) then updates s else s)
           (Loop.segments loop))
    else with_loops loop (map (updateInLoops_item (S depth)) (Loop.loops loop))
  else loop.

Definition updateInLoops (loops : list Loop) (depth : nat) : list Loop :=
  map (updateInLoops_item depth) loops.

End Update.

Definition updateSegment (updates : Segment -> Segment) (path : list nat)
    (spec : Specification) : Specification :=
  with_top_loops spec (updateInLoops updates path (Specification.loops spec) 0).

Section Delete.

Variable targetPath : list nat.

(** The function [deleteFromLoops] maps over the loops. *)
Fixpoint deleteFromLoops_item (depth : nat) (loop : Loop) : Loop :=
  if at_path targetPath depth (Loop.id loop) then
    if is_level targetPath depth 2 then
      with_segments loop
        (filter (fun s => negb (at_path targetPath (depth + 1) (Segment.id s)))
           (Loop.segments loop))
    else with_loops loop (map (deleteFromLoops_item (S depth)) (Loop.loops loop))
  else loop.

Definition deleteFromLoops (loops : list Loop) (depth : nat) : list Loop :=
  map (deleteFromLoops_item depth) loops.

End Delete.

Definition handleDeleteSegment (path : list nat) (spec : Specification) : Specification :=
  with_top_loops spec (deleteFromLoops path (Specification.loops spec) 0).

(** The position [handleAddElement] gives the new element:
    [elements.length > 0 ? Math.max(...elements.map(e => e.position)) + 1 : 1]. *)
Definition newPosition (elements : list Element) : JS.number :=
  match elements with
  | [] => JS.Finite 1
  | _ => JS.add (JS.Math_max (map Element.position elements)) (JS.Finite 1)
  end.

(** The elements [handleAddElement] passes to [updateSegment]. *)
Definition handleAddElement (segment : Segment) : Gen (list Element) :=
  (let position := newPosition (Segment.elements segment) in
   id <- uuidv4 ;;
   ret (Segment.elements segment
        ++ [Element.mk id position "New Element" "AN" 1 50 Usage.O None None None])%list)%gen.

(** [handleAddElement] as the updater of the specification, for the
    editor of the segment [segment] at [path]. *)
Definition addElement (segment : Segment) (path : list nat)
    : Gen (Specification -> Specification) :=
  (elements <- handleAddElement segment ;;
   ret (updateSegment (fun s => with_elements s elements) path))%gen.

(** The elements [handleUpdateElement] and [handleDeleteElement] pass on. *)
Definition handleUpdateElement (updates : Element -> Element) (elementId : nat)
    (segment : Segment) : list Element :=
  map (fun e => if Nat.eqb (Element.id e) elementId then updates e else e)
      (Segment.elements segment).

Definition handleDeleteElement (elementId : nat) (segment : Segment) : list Element :=
  filter (fun e => negb (Nat.eqb (Element.id e) elementId)) (Segment.elements segment).

End SegmentEditor.

(** *** Drag and drop

    [handleDrop] copies the array, takes the dragged item out with
    [splice(sourceIndex, 1)] and puts it back with
    [splice(targetIndex, 0, removed)].  Beyond the end of the array the
    first splice removes nothing and the second inserts [undefined]: the
    result is then no array of items, and there is none here. *)

Definition spliced_out (A : Type) (index : nat) (items : list A) : list A :=
  firstn index items ++ skipn (S index) items.

Definition spliced_in (A : Type) (index : nat) (item : A) (items : list A) : list A :=
  firstn index items ++ item :: skipn index items.

Definition dropped (A : Type) (sourceIndex targetIndex : nat) (items : list A)
    : option (list A) :=
  match nth_error items sourceIndex with
  | Some removed => Some (spliced_in targetIndex removed (spliced_out sourceIndex items))
  | None => None
  end.

(** ** Notions the statements are written with *)

(** All loops of a tree, the root first. *)
Fixpoint sub_loops (l : Loop) : list Loop :=
  l :: flat_map sub_loops (Loop.loops l).

(** The loops strictly below a loop. *)
Definition descendants (l : Loop) : list Loop :=
  flat_map sub_loops (Loop.loops l).

Definition spec_loops (s : Specification) : list Loop :=
  flat_map sub_loops (Specification.loops s).

Definition spec_segments (s : Specification) : list Segment :=
  flat_map Loop.segments (spec_loops s).

Definition spec_elements (s : Specification) : list Element :=
  flat_map Segment.elements (spec_segments s).

(** *** Base snapshots *)

Definition loop_snapshot (l : Loop) : Prop :=
  Loop.baseUsage l = Some (Loop.usage l)
  /\ Loop.baseMinUse l = Some (Loop.minUse l)
  /\ Loop.baseMaxUse l = Some (Loop.maxUse l).

Definition segment_snapshot (s : Segment) : Prop :=
  Segment.baseUsage s = Some (Segment.usage s)
  /\ Segment.baseMinUse s = Some (Segment.minUse s)
  /\ Segment.baseMaxUse s = Some (Segment.maxUse s).

(** The base codes hold the same values as the working codes in an array
    of their own, or both are absent. *)
Definition codes_snapshot (e : Element) : Prop :=
  match Element.codeValues e, Element.baseCodes e with
  | Some working, Some base =>
      items base = items working /\ address base <> address working
  | None, None => True
  | _, _ => False
  end.

Definition element_snapshot (e : Element) : Prop :=
  Element.baseUsage e = Some (Element.usage e) /\ codes_snapshot e.

(** A code list that is present has at least one code. *)
Definition codes_nonempty (e : Element) : Prop :=
  match Element.codeValues e with
  | Some working => items working <> []
  | None => True
  end.

(** *** Cardinality *)

Definition loop_minUse_derived (l : Loop) : Prop :=
  (Loop.usage l = Usage.M -> Loop.minUse l = 1)
  /\ (Loop.usage l <> Usage.M -> Loop.minUse l = 0).

Definition segment_minUse_derived (s : Segment) : Prop :=
  (Segment.usage s = Usage.M -> Segment.minUse s = 1)
  /\ (Segment.usage s <> Usage.M -> Segment.minUse s = 0).

(** The properties and the required list of a definition, empty when the
    definition has none. *)
Definition propertiesOf (d : OpenAPISchemaDefinition) : list (string * OpenAPIProperty) :=
  match OpenAPISchemaDefinition.properties d with Some ps => ps | None => [] end.

Definition requiredOf (d : OpenAPISchemaDefinition) : list string :=
  match OpenAPISchemaDefinition.required d with Some r => r | None => [] end.

(** *** The reference resolver

    What the loop over the properties makes of one property: it passes it
    over without counting it (the reserved key, no reference, a reference
    the mapping does not know); it counts it and builds nothing (the
    reference finds a value without a loop or segment marker); or it counts
    it and builds a Loop or a Segment.  The loop marker is tried first. *)

Inductive Kind : Set :=
| Passed
| Counted
| LoopLike (refSchema : OpenAPISchemaDefinition)
| SegmentLike (segmentId : string) (refSchema : OpenAPISchemaDefinition).

Definition kindOf (allSchemas : Schemas) (entry : string * OpenAPIProperty) : Kind :=
  if String.eqb (fst entry) "Model" then Passed
  else
    match JS.truthy (refNameOf (snd entry)) with
    | None => Passed
    | Some refName =>
        match JS.get allSchemas refName with
        | JS.Undefined => Passed
        | JS.Inherited => Counted
        | JS.Own refSchema =>
            match JS.truthy (OpenAPISchemaDefinition.x_openedi_loop_id refSchema) with
            | Some _ => LoopLike refSchema
            | None =>
                match JS.truthy (OpenAPISchemaDefinition.x_openedi_segment_id refSchema) with
                | Some segmentId => SegmentLike segmentId refSchema
                | None => Counted
                end
            end
        end
    end.

(** *** The reference graph of loop definitions *)

Fixpoint loopReferencesOf (allSchemas : Schemas) (entries : list (string * OpenAPIProperty))
    : list OpenAPISchemaDefinition :=
  match entries with
  | [] => []
  | entry :: rest =>
      match kindOf allSchemas entry with
      | LoopLike refSchema => refSchema :: loopReferencesOf allSchemas rest
      | _ => loopReferencesOf allSchemas rest
      end
  end.

Definition loopReferences (allSchemas : Schemas) (d : OpenAPISchemaDefinition)
    : list OpenAPISchemaDefinition :=
  loopReferencesOf allSchemas (propertiesOf d).

(** [d] refers to the loop definition [c]. *)
Definition refersTo (allSchemas : Schemas) (d c : OpenAPISchemaDefinition) : Prop :=
  In c (loopReferences allSchemas d).

(** Every chain of loop references that starts at [d] ends. *)
Inductive Grounded (allSchemas : Schemas) : OpenAPISchemaDefinition -> Prop :=
| Grounded_intro (d : OpenAPISchemaDefinition) :
    (forall c, refersTo allSchemas d c -> Grounded allSchemas c) ->
    Grounded allSchemas d.

(** A chain of one or more loop references. *)
Inductive Reaches (allSchemas : Schemas) : OpenAPISchemaDefinition -> OpenAPISchemaDefinition -> Prop :=
| Reaches_step d c : refersTo allSchemas d c -> Reaches allSchemas d c
| Reaches_trans d c e :
    refersTo allSchemas d c -> Reaches allSchemas c e -> Reaches allSchemas d e.

(** [d] is on a reference cycle, or a chain from [d] leads to one. *)
Definition ReachesCycle (allSchemas : Schemas) (d : OpenAPISchemaDefinition) : Prop :=
  Reaches allSchemas d d
  \/ exists c, Reaches allSchemas d c /\ Reaches allSchemas c c.

(** *** Document order *)

Inductive Node : Set :=
| SegmentNode (s : Segment)
| LoopNode (l : Loop).

Definition node_order (n : Node) : option Z :=
  match n with
  | SegmentNode s => Segment.order s
  | LoopNode l => Loop.order l
  end.

(** The comparison for sorting nodes on [order]; every node of a level
    carries one, and the default stands for none. *)
Definition order_key (n : Node) : Z :=
  match node_order n with Some k => k | None => 0 end.

Definition by_order (a b : Node) : JS.number :=
  JS.sub (JS.Finite (order_key a)) (JS.Finite (order_key b)).

(** The segments and loops of a level, taken together. *)
Definition level_nodes (segments : list Segment) (loops : list Loop) : list Node :=
  map SegmentNode segments ++ map LoopNode loops.

Definition segments_of (nodes : list Node) : list Segment :=
  flat_map (fun n => match n with SegmentNode s => [s] | LoopNode _ => [] end) nodes.

Definition loops_of (nodes : list Node) : list Loop :=
  flat_map (fun n => match n with SegmentNode _ => [] | LoopNode l => [l] end) nodes.

(** A property the loop counts: its reference finds a value. *)
Definition resolves (allSchemas : Schemas) (entry : string * OpenAPIProperty) : bool :=
  match kindOf allSchemas entry with
  | Passed => false
  | _ => true
  end.

(** A property the loop builds a Loop or a Segment for. *)
Definition structural (allSchemas : Schemas) (entry : string * OpenAPIProperty) : bool :=
  match kindOf allSchemas entry with
  | LoopLike _ | SegmentLike _ _ => true
  | _ => false
  end.

Section DocumentOrder.

Variable importLoop :
  OpenAPISchemaDefinition -> Schemas -> Z -> bool -> option Z -> Run Loop.
Variable allSchemas : Schemas.
Variable requiredItems : list string.

(** The nodes of a level in the order of the properties they come from,
    after the specification's description of the tree build: the
    properties are visited in their declared order, a loop-like reference
    yields a Loop and a segment-like one a Segment, each with the running
    index, and the node joins the level.  Here the level is one sequence
    of nodes, not a list per kind. *)
Fixpoint documentOrder (entries : list (string * OpenAPIProperty)) (itemOrder : Z)
    : Run (list Node) :=
  match entries with
  | [] => done []
  | entry :: rest =>
      match kindOf allSchemas entry with
      | Passed => documentOrder rest itemOrder
      | Counted => documentOrder rest (itemOrder + 1)
      | LoopLike refSchema =>
          (nestedLoop <- importLoop refSchema allSchemas (itemMaxUseOf (snd entry))
                           (JS.array_includes requiredItems (fst entry))
                           (Some itemOrder) ;;
           later <- documentOrder rest (itemOrder + 1) ;;
           done (LoopNode nestedLoop :: later))%run
      | SegmentLike segmentId refSchema =>
          (segment <- lift (importOpenAPISegment segmentId refSchema allSchemas
                              requiredItems (itemMaxUseOf (snd entry))) ;;
           later <- documentOrder rest (itemOrder + 1) ;;
           done (SegmentNode (Segment.set_order segment (Some itemOrder)) :: later))%run
      end
  end.

End DocumentOrder.

(** [0; 1; ...; n-1] as order indices, from [start]. *)
Fixpoint consecutive (start : Z) (n : nat) : list (option Z) :=
  match n with
  | O => []
  | S k => Some start :: consecutive (start + 1) k
  end.

(** No property whose reference finds a definition that is neither loop
    nor segment is declared before a structural property: such a property
    may only follow the last structural one. *)
Fixpoint gapless (allSchemas : Schemas) (entries : list (string * OpenAPIProperty)) : bool :=
  match entries with
  | [] => true
  | entry :: rest =>
      if resolves allSchemas entry && negb (structural allSchemas entry)
      then forallb (fun later => negb (structural allSchemas later)) rest
      else gapless allSchemas rest
  end.

(** *** Statements about every entity of a tree *)

Section Entities.

Variable PL : Loop -> Prop.
Variable PS : Segment -> Prop.
Variable PE : Element -> Prop.

(** [PL] of a loop, [PS] of its segments and [PE] of their elements. *)
Definition entities (l : Loop) : Prop :=
  PL l /\ Forall (fun s => PS s /\ Forall PE (Segment.elements s)) (Loop.segments l).

Definition everywhere (l : Loop) : Prop := Forall entities (sub_loops l).

End Entities.

(** *** Trees up to the order indices of a level *)

Definition loop_set_order (l : Loop) (n : option Z) : Loop :=
  Loop.mk (Loop.id l) (Loop.name l) (Loop.description l) (Loop.usage l)
    (Loop.minUse l) (Loop.maxUse l) (Loop.segments l) (Loop.loops l) n
    (Loop.baseUsage l) (Loop.baseMinUse l) (Loop.baseMaxUse l).

(** Two runs of the loop over the properties that agree on everything but
    the [order] of the nodes they add to the level. *)
Definition same_nodes (r1 r2 : option ((list Segment * list Loop) * World)) : Prop :=
  match r1, r2 with
  | Some ((s1, l1), w1), Some ((s2, l2), w2) =>
      map (fun s => Segment.set_order s None) s1 = map (fun s => Segment.set_order s None) s2
      /\ map (fun l => loop_set_order l None) l1 = map (fun l => loop_set_order l None) l2
      /\ w1 = w2
  | None, None => True
  | _, _ => False
  end.

(** Order on a numeric key. *)
Definition key_le (A : Type) (key : A -> Z) (a b : A) : Prop := key a <= key b.

(** The Numbers in their order, as integers: a finite one by its value,
    between the infinities. *)
Definition rank (v : JS.number) : Z :=
  match v with
  | JS.Finite z => z
  | JS.PosInfinity => 2 ^ 1024
  | JS.NegInfinity => - 2 ^ 1024
  | JS.NaN => 0
  end.

(** A Number that is not NaN, and whose integer is in the range of the
    doubles. *)
Definition in_range (v : JS.number) : Prop :=
  match v with
  | JS.Finite z => - 2 ^ 1024 < z < 2 ^ 1024
  | JS.NaN => False
  | _ => True
  end.

(** A comparison by the rank of the position. *)
Definition by_rank (a b : Element) : JS.number :=
  JS.Finite (rank (Element.position a) - rank (Element.position b)).

(** The entries of a segment definition that become elements. *)
Definition elementEntries (schema : OpenAPISchemaDefinition) : list (string * OpenAPIProperty) :=
  match OpenAPISchemaDefinition.properties schema with
  | Some properties =>
      filter (fun e => negb (JS.startsWith (fst e) "Model")
                       && negb (String.eqb (fst e) "$ref")) properties
  | None => []
  end.

Definition positioned (p : JS.number) (e : Element) : bool :=
  JS.strictly_equal (Element.position e) p.

(** [a] is not after [b] by position. *)
Definition position_le (a b : Element) : Prop :=
  JS.less_or_equal (Element.position a) (Element.position b) = true.

(** An element whose position is a safe integer: an integer within 2^53
    on either side, where every integer and its neighbours are Numbers. *)
Definition safely_positioned (x : Element) : Prop :=
  exists z, Element.position x = JS.Finite z /\ - 2 ^ 53 < z < 2 ^ 53.

(** The schemas of a document, as [importOpenAPIFormat] reads them. *)
Definition schemasOf (parsed : OpenAPISchema) : Schemas :=
  match OpenAPISchema.components parsed with
  | Some c => match schemas c with Some s => s | None => [] end
  | None => []
  end.

(** *** The records the schema-format converter builds *)

Definition schemaSegment (id : nat) (segmentId : string) (isRequired : bool) (maxUse : Z)
    (elements : list Element) : Segment :=
  Segment.mk id segmentId segmentId
    (if isRequired then Usage.M else Usage.O)
    (if isRequired then 1 else 0) maxUse elements None
    (Some (if isRequired then Usage.M else Usage.O))
    (Some (if isRequired then 1 else 0)) (Some maxUse).

Definition schemaLoop (id : nat) (loopId : string) (isRequired : bool) (maxUse : Z)
    (segments : list Segment) (loops : list Loop) (order : option Z) : Loop :=
  Loop.mk id loopId (Some loopId)
    (if isRequired then Usage.M else Usage.O)
    (if isRequired then 1 else 0) maxUse segments loops order
    (Some (if isRequired then Usage.M else Usage.O))
    (Some (if isRequired then 1 else 0)) (Some maxUse).

Definition mainLoopOf (id : nat) (transactionSetId : string)
    (segments : list Segment) (loops : list Loop) : Loop :=
  Loop.mk id ("TS" ++ transactionSetId) (Some ("Transaction Set " ++ transactionSetId))
    Usage.M 1 1 segments loops None (Some Usage.M) (Some 1) (Some 1).

Definition schemaMetadata (transactionSetId date : string) : SpecificationMetadata :=
  Metadata.mk
    (JS.or_string (templateName transactionSetId) ("Transaction Set " ++ transactionSetId))
    "1.0" transactionSetId
    (JS.or_string (templateName transactionSetId) transactionSetId)
    "005010" date date (Some ("EdiNation/OpenAPI/" ++ transactionSetId)).

Definition drawn (w : World) : World := mkWorld (S (uuids w)) (arrays w) (clock w).

(** *** The records the legacy converter builds *)

Definition codesOf (el : OpenEDIElement) : list OpenEDICode :=
  match OpenEDIElement.Codes el with Some cs => cs | None => [] end.

Definition nestedLoopsOf (l : OpenEDILoop) : list OpenEDILoop :=
  match OpenEDILoop.Loops l with Some ls => ls | None => [] end.

Definition legacySegment (id : nat) (name description : string) (usage : UsageType)
    (maxUse : Z) (elements : list Element) : Segment :=
  Segment.mk id name description usage (minUse_of usage) maxUse elements None
    (Some usage) (Some (minUse_of usage)) (Some maxUse).

Definition legacyLoop (id : nat) (name : string) (description : option string)
    (usage : UsageType) (maxUse : Z) (segments : list Segment) (loops : list Loop) : Loop :=
  Loop.mk id name description usage (minUse_of usage) maxUse segments loops None
    (Some usage) (Some (minUse_of usage)) (Some maxUse).

(** ** Sample documents *)

Module Sample.

Definition world : World := mkWorld 0 0 "2026-01-01T00:00:00.000Z".

(** [{ "$ref": "#/components/schemas/<name>" }] *)
Definition reference (name : string) : OpenAPIProperty :=
  OpenAPIProperty.mk None None None None None None None
    (Some ("#/components/schemas/" ++ name)) None None.

(** [{ "type": "array", "items": { "$ref": ... } }] *)
Definition arrayOf (name : string) (maxItems : option Z) : OpenAPIProperty :=
  OpenAPIProperty.mk (Some "array") None None maxItems None None None None
    (Some (mkReference (Some ("#/components/schemas/" ++ name)))) None.

(** A string element with a format, an inline enumeration and references
    to enumerations. *)
Definition element (format : option string) (enum : option (list string))
    (allOf : option (list Reference)) : OpenAPIProperty :=
  OpenAPIProperty.mk (Some "string") (Some 1) (Some 3) None format enum allOf
    None None None.

Definition definition (required : option (list string))
    (properties : option (list (string * OpenAPIProperty)))
    (enum : option (list string)) (segmentId messageId loopId : option string)
    : OpenAPISchemaDefinition :=
  OpenAPISchemaDefinition.mk None required properties enum None
    segmentId messageId None loopId.

Definition document (entries : Schemas) : OpenAPISchema :=
  OpenAPISchema.mk "3.0.1" None (Some (mkOpenAPIComponents (Some entries))).

Definition codes143 : OpenAPISchemaDefinition :=
  definition None None (Some ["810"; "850"]) None None None.

Definition ST : OpenAPISchemaDefinition :=
  definition (Some ["TransactionSetIdentifierCode_01"])
    (Some [ ("TransactionSetControlNumber_02", element None None None);
            ("TransactionSetIdentifierCode_01",
             element (Some "X12_ID")
               None
               (Some [mkReference (Some "#/components/schemas/X12_ID_143")])) ])
    None (Some "ST") None None.

Definition N1 : OpenAPISchemaDefinition :=
  definition None
    (Some [ ("EntityIdentifierCode_01", element (Some "X12_ID") (Some ["ST"; "BT"]) None) ])
    None (Some "N1") None None.

Definition N1Loop : OpenAPISchemaDefinition :=
  definition (Some ["N1"]) (Some [ ("N1", reference "N1") ]) None None None (Some "N1").

(** An invoice with a header segment and a repeating loop. *)
Definition invoiceRoot : OpenAPISchemaDefinition :=
  definition (Some ["ST"])
    (Some [ ("Model", element None None None);
            ("ST", reference "ST");
            ("N1Loop", arrayOf "N1Loop" None) ])
    None None (Some "810") None.

Definition invoiceSchemas : Schemas :=
  [ ("X12_00501_810", invoiceRoot); ("ST", ST); ("X12_ID_143", codes143);
    ("N1Loop", N1Loop); ("N1", N1) ].

Definition invoice : OpenAPISchema := document invoiceSchemas.

(** A hierarchical-level loop whose items are hierarchical-level loops. *)
Definition HLLoop : OpenAPISchemaDefinition :=
  definition None (Some [ ("HLLoop", arrayOf "HLLoop" None) ]) None None None (Some "HL").

Definition shipNoticeRoot : OpenAPISchemaDefinition :=
  definition None (Some [ ("HLLoop", arrayOf "HLLoop" None) ]) None None (Some "856") None.

Definition shipNoticeSchemas : Schemas :=
  [ ("X12_00501_856", shipNoticeRoot); ("HLLoop", HLLoop) ].

Definition shipNotice : OpenAPISchema := document shipNoticeSchemas.

(** A definition whose message id is the empty string. *)
Definition unnamedRoot : OpenAPISchemaDefinition :=
  definition None (Some [ ("ST", reference "ST") ]) None None (Some "") None.

Definition unnamed : OpenAPISchema :=
  document [ ("X12_00501_810", unnamedRoot); ("ST", ST) ].

(** A transaction set whose first property refers to a list of codes and
    whose second property refers to a segment. *)
Definition codesFirstRoot : OpenAPISchemaDefinition :=
  definition None
    (Some [ ("Purpose", reference "X12_ID_143"); ("ST", reference "ST") ])
    None None (Some "810") None.

Definition codesFirstSchemas : Schemas :=
  [ ("X12_00501_810", codesFirstRoot); ("X12_ID_143", codes143); ("ST", ST) ].

Definition codesFirst : OpenAPISchema := document codesFirstSchemas.

(** A segment whose property keys end in the digits of 2^53 + 1 and of
    2^53, in this order. *)
Definition longSuffixes : OpenAPISchemaDefinition :=
  definition None
    (Some [ ("Quantity_9007199254740993", element None None None);
            ("Price_9007199254740992", element None None None) ])
    None (Some "LIN") None None.

(** A segment with an element whose enumeration is empty. *)
Definition REF : OpenAPISchemaDefinition :=
  definition None
    (Some [ ("ReferenceIdentificationQualifier_01", element (Some "X12_ID") (Some []) None) ])
    None (Some "REF") None None.

Definition noCodes : OpenAPISchema :=
  document
    [ ("X12_00501_810",
       definition None (Some [ ("REF", reference "REF") ]) None None (Some "810") None);
      ("REF", REF) ].

(** A transaction set with a reference to a definition the mapping lacks. *)
Definition danglingRoot : OpenAPISchemaDefinition :=
  definition (Some ["ST"])
    (Some [ ("Extension", reference "VendorExtension");
            ("ST", reference "ST");
            ("N1Loop", arrayOf "N1Loop" None) ])
    None None (Some "810") None.

(** Legacy documents. *)
Definition ST01 : OpenEDIElement :=
  OpenEDIElement.mk "ST01" (Some "Transaction Set Identifier Code") (Some "ID")
    (Some 3) (Some 3) (Some "M") (Some [mkOpenEDICode "810" "Invoice"]).

Definition ST02 : OpenEDIElement :=
  OpenEDIElement.mk "ST02" (Some "Transaction Set Control Number") (Some "AN")
    (Some 4) (Some 9) (Some "M") (Some []).

Definition legacyST : OpenEDISegment :=
  OpenEDISegment.mk "ST" (Some "Transaction Set Header") (Some "M") (Some 1)
    (Some [ST01; ST02]).

Definition legacyN1Loop : OpenEDILoop :=
  OpenEDILoop.mk (Some "N1_LOOP") "Party Identification" (Some "C") (Some 200)
    (Some []) (Some []).

Definition legacyHeader : OpenEDILoop :=
  OpenEDILoop.mk (Some "ST_LOOP") "Transaction Set Header" (Some "M") (Some 1)
    (Some [legacyST]) (Some [legacyN1Loop]).

Definition legacyInvoice : OpenEDITransactionSet :=
  OpenEDITransactionSet.mk "810" "Invoice" (Some "005010") (Some [legacyHeader]).

(** A segment that declares a maximum of zero. *)
Definition legacyZeroMax : OpenEDISegment :=
  OpenEDISegment.mk "N9" (Some "Reference Identification") (Some "O") (Some 0) None.

End Sample.

(** *** Usage without conditions *)

Definition unconditional (u : UsageType) : Prop := u = Usage.M \/ u = Usage.O.

(** *** Runs of the loop conversion *)

(** The conversion of [loopSchema] returns, within some depth of calls,
    whatever its other arguments and the world it starts in; the result
    does not change with more depth. *)
Definition Returning (allSchemas : Schemas) (loopSchema : OpenAPISchemaDefinition) : Prop :=
  exists depth,
    forall maxUse isRequired order w,
    exists l w',
      forall depth', (depth <= depth')%nat ->
        importOpenAPILoop depth' loopSchema allSchemas maxUse isRequired order w
        = Some (l, w').

(** The conversion of [loopSchema] returns from no depth of calls. *)
Definition Diverging (allSchemas : Schemas) (loopSchema : OpenAPISchemaDefinition) : Prop :=
  forall depth maxUse isRequired order w,
    importOpenAPILoop depth loopSchema allSchemas maxUse isRequired order w = None.

Fixpoint loop_size (l : Loop) : nat :=
  S (list_sum (map loop_size (Loop.loops l))).

(** *** The transaction set of a document *)

(** A definition without a message id that counts: none, or the empty one. *)
Definition unmarked (entry : string * OpenAPISchemaDefinition) : Prop :=
  JS.truthy (OpenAPISchemaDefinition.x_openedi_message_id (snd entry)) = None.

(** [root] is the first definition of the mapping with a message id,
    [transactionSetId]. *)
Definition firstMarked (entries : Schemas) (transactionSetId : string)
    (root : OpenAPISchemaDefinition) : Prop :=
  exists earlier name later,
    entries = (earlier ++ (name, root) :: later)%list
    /\ Forall unmarked earlier
    /\ JS.truthy (OpenAPISchemaDefinition.x_openedi_message_id root) = Some transactionSetId.

(** The conversion of a document returns, within some depth of calls, in
    the world [w]; the result does not change with more depth. *)
Definition ReturningFormat (parsed : OpenAPISchema) (w : World) : Prop :=
  exists depth spec w',
    forall depth', (depth <= depth')%nat ->
      importOpenAPIFormat depth' parsed w = Some (Returns spec, w').

(** The nodes of a level carry increasing order indices. *)
Definition increasing_order (nodes : list Node) : Prop :=
  StronglySorted (fun a b => order_key a < order_key b) nodes.

(** Every node of a level carries an index from [first] up to [first + n],
    the latter excluded. *)
Definition indexed_within (first : Z) (n : nat) (nodes : list Node) : Prop :=
  Forall (fun x => exists k, node_order x = Some k /\ first <= k < first + Z.of_nat n) nodes.

(** A chain of loop references from [d] through the definitions of a list,
    in turn. *)
Inductive Chain (allSchemas : Schemas)
  : OpenAPISchemaDefinition -> list OpenAPISchemaDefinition -> Prop :=
| Chain_end d : Chain allSchemas d []
| Chain_step d c rest :
    refersTo allSchemas d c -> Chain allSchemas c rest -> Chain allSchemas d (c :: rest).

(** ** Notions for the further properties *)

(** *** Identifiers *)

Definition segment_ids (s : Segment) : list nat :=
  Segment.id s :: map Element.id (Segment.elements s).

Definition own_ids (l : Loop) : list nat :=
  Loop.id l :: flat_map segment_ids (Loop.segments l).

(** The identifiers of a loop, of its segments and elements, and of all
    that is below it. *)
Definition loop_ids (l : Loop) : list nat := flat_map own_ids (sub_loops l).

(** All the identifiers of a specification. *)
Definition all_ids (spec : Specification) : list nat :=
  Specification.id spec
  :: (map Loop.id (spec_loops spec)
      ++ map Segment.id (spec_segments spec)
      ++ map Element.id (spec_elements spec)).

(** The identifiers [uuidv4()] yields from the world [w] up to the world
    [w']. *)
Definition drawn_between (w w' : World) : list nat :=
  seq (uuids w) (uuids w' - uuids w).

(** [ids] are the identifiers drawn from the count [a] up to the count
    [b], each once. *)
Definition issued (ids : list nat) (a b : nat) : Prop :=
  (a <= b)%nat /\ Permutation ids (seq a (b - a)).

Definition node_ids (n : Node) : list nat :=
  match n with
  | SegmentNode s => segment_ids s
  | LoopNode l => loop_ids l
  end.

(** *** Elements *)

(** The data types the element editor offers (ElementRow, the options of
    its select). *)
Definition dataTypeOptions : list string := ["AN"; "ID"; "N0"; "N2"; "R"; "DT"; "TM"].

(** The code lists of an element. *)
Definition code_lists (e : Element) : list CodeArray :=
  (match Element.codeValues e with Some cv => [cv] | None => [] end)
  ++ (match Element.baseCodes e with Some cv => [cv] | None => [] end).

(** [codeValues.filter(c => c.included)], what the element editor counts
    and the document prints, leaves out no code of the lists of [e]. *)
Definition all_included (e : Element) : Prop :=
  Forall (fun cv => filter included (items cv) = items cv) (code_lists e).

(** Every code of the lists of [e] is described by itself. *)
Definition self_described (e : Element) : Prop :=
  Forall (fun cv => Forall (fun c => description c = code c) (items cv)) (code_lists e).

(** The enumeration an entry of [allOf] leads to: that of the definition
    its reference names, when the mapping has one of its own with an
    [enum]. *)
Definition enumOf (allSchemas : Schemas) (r : Reference) : option (list string) :=
  match JS.truthy (ref r) with
  | Some target =>
      match JS.get allSchemas (schema_name target) with
      | JS.Own refSchema => OpenAPISchemaDefinition.enum refSchema
      | _ => None
      end
  | None => None
  end.

(** A string without the white space in it. *)
Fixpoint without_spaces (s : string) : string :=
  match s with
  | EmptyString => EmptyString
  | String c r => if JS.is_space c then without_spaces r else String c (without_spaces r)
  end.

(** *** The outline of a specification

    The full traversal of the tree of a specification: a loop, then its
    segments, each followed by its elements, then its nested loops, one
    level deeper each.  An entry carries the entity without what is below
    it.  The outline is not what the navigation tree renders: the tree
    leaves out what is below a collapsed node ([tree_rows], below). *)

Inductive Entry : Set :=
| LoopEntry (depth : nat) (l : Loop)
| SegmentEntry (depth : nat) (s : Segment)
| ElementEntry (depth : nat) (e : Element).

Definition segment_outline (depth : nat) (s : Segment) : list Entry :=
  SegmentEntry depth (with_elements s [])
  :: map (ElementEntry (S depth)) (Segment.elements s).

Fixpoint loop_outline (depth : nat) (l : Loop) : list Entry :=
  LoopEntry depth (with_loops (with_segments l []) [])
  :: (flat_map (segment_outline (S depth)) (Loop.segments l)
      ++ flat_map (loop_outline (S depth)) (Loop.loops l)).

Definition forest_outline (depth : nat) (loops : list Loop) : list Entry :=
  flat_map (loop_outline depth) loops.

Definition outline (spec : Specification) : list Entry :=
  forest_outline 0 (Specification.loops spec).

(** *** The rows of the navigation tree (TreeNavigation.tsx)

    [LoopTreeItem] renders the row of its loop and, when the loop is among
    the expanded nodes, the items of its segments and then of its nested
    loops, one level deeper.  [SegmentTreeItem] renders the row of its
    segment and, when the segment is expanded and has elements, an
    [ElementTreeItem] for each.  [TreeNavigation] renders a [LoopTreeItem]
    at depth 0 for each loop of the specification. *)
Section TreeRows.

(** [expandedNodes.has(id)] *)
Variable expandedNodes : nat -> bool.

Definition segment_rows (depth : nat) (s : Segment) : list Entry :=
  let isExpanded := expandedNodes (Segment.id s) in
  let hasElements := (0 <? Z.of_nat (length (Segment.elements s))) in
  SegmentEntry depth (with_elements s [])
  :: (if isExpanded && hasElements
      then map (ElementEntry (S depth)) (Segment.elements s)
      else []).

Fixpoint loop_rows (depth : nat) (l : Loop) : list Entry :=
  let isExpanded := expandedNodes (Loop.id l) in
  LoopEntry depth (with_loops (with_segments l []) [])
  :: (if isExpanded
      then (flat_map (segment_rows (S depth)) (Loop.segments l)
            ++ flat_map (loop_rows (S depth)) (Loop.loops l))%list
      else []).

Definition tree_rows (spec : Specification) : list Entry :=
  flat_map (loop_rows 0) (Specification.loops spec).

End TreeRows.

(** [l1] is [l2] with some of its items left out. *)
Inductive Subsequence (A : Type) : list A -> list A -> Prop :=
| Subsequence_nil : Subsequence [] []
| Subsequence_skip x l1 l2 : Subsequence l1 l2 -> Subsequence l1 (x :: l2)
| Subsequence_keep x l1 l2 : Subsequence l1 l2 -> Subsequence (x :: l1) (x :: l2).

(** What a row of the navigation tree shows of an entry: the name, the
    usage and, for the badge of a repeating loop or segment, [maxUse]; of
    an element the position, the name and the usage. *)
Inductive Label : Set :=
| LoopLabel (depth : nat) (name : string) (usage : UsageType) (maxUse : Z)
| SegmentLabel (depth : nat) (name : string) (usage : UsageType) (maxUse : Z)
| ElementLabel (depth : nat) (position : JS.number) (name : string) (usage : UsageType).

Definition label (entry : Entry) : Label :=
  match entry with
  | LoopEntry depth l => LoopLabel depth (Loop.name l) (Loop.usage l) (Loop.maxUse l)
  | SegmentEntry depth s =>
      SegmentLabel depth (Segment.name s) (Segment.usage s) (Segment.maxUse s)
  | ElementEntry depth e =>
      ElementLabel depth (Element.position e) (Element.name e) (Element.usage e)
  end.

(** The same read off a legacy document: the elements of a segment
    numbered from 1 in the order of the document, the number of an element
    being the Number for it. *)
Fixpoint legacy_element_labels (depth : nat) (idx : nat) (elements : list OpenEDIElement)
    : list Label :=
  match elements with
  | [] => []
  | el :: rest =>
      ElementLabel depth (JS.toNumber (Z.of_nat idx + 1))
        (JS.or_string (OpenEDIElement.Name el) (OpenEDIElement.Id el))
        (parseUsage (OpenEDIElement.Req el))
      :: legacy_element_labels depth (S idx) rest
  end.

Definition legacy_segment_labels (depth : nat) (s : OpenEDISegment) : list Label :=
  SegmentLabel depth (OpenEDISegment.Id s) (parseUsage (OpenEDISegment.Req s))
    (JS.or_number (OpenEDISegment.Max s) 1)
  :: legacy_element_labels (S depth) 0
       (match OpenEDISegment.Elements s with Some es => es | None => [] end).

Fixpoint legacy_loop_labels (depth : nat) (l : OpenEDILoop) : list Label :=
  LoopLabel depth (JS.or_string (OpenEDILoop.Id l) (OpenEDILoop.Name l))
    (parseUsage (OpenEDILoop.Req l)) (JS.or_number (OpenEDILoop.Max l) 1)
  :: (flat_map (legacy_segment_labels (S depth))
        (match OpenEDILoop.Segments l with Some ss => ss | None => [] end)
      ++ match OpenEDILoop.Loops l with
         | Some ls => flat_map (legacy_loop_labels (S depth)) ls
         | None => []
         end).

Definition legacy_labels (t : OpenEDITransactionSet) : list Label :=
  flat_map (legacy_loop_labels 0)
    (match OpenEDITransactionSet.Loops t with Some ls => ls | None => [] end).

(** *** Paths

    The navigation tree gives a loop the path [[...parentPath, loop.id]],
    the identifiers from a loop of the specification down to the loop;
    the path of a segment is the path of its loop followed by the
    identifier of the segment. *)

Inductive LoopAt : list Loop -> list nat -> Loop -> Prop :=
| LoopAt_here (loops : list Loop) (l : Loop) :
    In l loops -> LoopAt loops [Loop.id l] l
| LoopAt_below (loops : list Loop) (parent : Loop) (path : list nat) (l : Loop) :
    In parent loops -> LoopAt (Loop.loops parent) path l ->
    LoopAt loops (Loop.id parent :: path) l.

Inductive SegmentAt (loops : list Loop) : list nat -> Segment -> Prop :=
| SegmentAt_intro (loopPath : list nat) (parent : Loop) (s : Segment) :
    LoopAt loops loopPath parent -> In s (Loop.segments parent) ->
    SegmentAt loops (loopPath ++ [Segment.id s]) s.

(** *** Identifiers under editing *)

Definition entry_id (entry : Entry) : nat :=
  match entry with
  | LoopEntry _ l => Loop.id l
  | SegmentEntry _ s => Segment.id s
  | ElementEntry _ e => Element.id e
  end.

(** The identifiers of [spec] are distinct, and [uuidv4()] has yielded
    them all before the world [w]: what it yields from [w] on is new to
    [spec]. *)
Definition known (w : World) (spec : Specification) : Prop :=
  NoDup (all_ids spec) /\ Forall (fun id => (id < uuids w)%nat) (all_ids spec).

(** *** Further sample documents *)

Module Cases.

Definition codes353 : OpenAPISchemaDefinition :=
  Sample.definition None None (Some ["00"; "05"]) None None None.

Definition schemas : Schemas :=
  [ ("X12_ID_143", Sample.codes143); ("X12_ID_353", codes353) ].

(** A property without an inline enumeration whose [allOf] refers to two
    lists of codes and then to a definition the mapping lacks. *)
Definition purpose : OpenAPIProperty :=
  Sample.element (Some "X12_ID") None
    (Some [ mkReference (Some "#/components/schemas/X12_ID_143");
            mkReference (Some "#/components/schemas/X12_ID_353");
            mkReference (Some "#/components/schemas/X12_ID_999") ]).

Definition BEG : OpenAPISchemaDefinition :=
  Sample.definition None (Some [ ("TransactionSetPurposeCode_01", purpose) ])
    None (Some "BEG") None None.

(** The sample legacy invoice as the legacy converter leaves it: the loop
    of the header with its segment and the loop of the parties in it. *)
Definition invoice : Specification :=
  fst (importOpenEDISpec Sample.legacyInvoice Sample.world).

Definition ST01 : Element :=
  Element.mk 3 (JS.Finite 1) "Transaction Set Identifier Code" "ID" 3 3 Usage.M
    (Some (mkCodeArray 0 [mkCodeValue "810" "Invoice" true]))
    (Some Usage.M)
    (Some (mkCodeArray 1 [mkCodeValue "810" "Invoice" true])).

Definition ST02 : Element :=
  Element.mk 4 (JS.Finite 2) "Transaction Set Control Number" "AN" 4 9 Usage.M None (Some Usage.M) None.

Definition ST : Segment :=
  Segment.mk 2 "ST" "Transaction Set Header" Usage.M 1 1 [ST01; ST02] None
    (Some Usage.M) (Some 1) (Some 1).

Definition party : Loop :=
  Loop.mk 5 "N1_LOOP" (Some "Party Identification") Usage.C 0 200 [] [] None
    (Some Usage.C) (Some 0) (Some 200).

Definition header : Loop :=
  Loop.mk 1 "ST_LOOP" (Some "Transaction Set Header") Usage.M 1 1 [ST] [party] None
    (Some Usage.M) (Some 1) (Some 1).

(** [updateLoop({ name })] *)
Definition rename (name : string) (l : Loop) : Loop :=
  Loop.mk (Loop.id l) name (Loop.description l) (Loop.usage l) (Loop.minUse l)
    (Loop.maxUse l) (Loop.segments l) (Loop.loops l) (Loop.order l)
    (Loop.baseUsage l) (Loop.baseMinUse l) (Loop.baseMaxUse l).

(** [updateSegment({ usage })] *)
Definition reclassify (usage : UsageType) (s : Segment) : Segment :=
  Segment.mk (Segment.id s) (Segment.name s) (Segment.description s) usage
    (Segment.minUse s) (Segment.maxUse s) (Segment.elements s) (Segment.order s)
    (Segment.baseUsage s) (Segment.baseMinUse s) (Segment.baseMaxUse s).

End Cases.

(** * Numbers *)

(** ** Rounding to a double *)

(** An integer of up to 53 bits, and 2^53, is a double. *)
Lemma round53_exact (n : Z) : 0 <= n <= 2 ^ 53 -> JS.round53 n = n.
Proof.
  intros [L U]. unfold JS.round53. cbv zeta.
  destruct (Z.eq_dec n (2 ^ 53)) as [->|N]; [vm_compute; reflexivity|].
  destruct (Z.leb_spec (Z.log2 n - 52) 0) as [_|G]; [reflexivity|].
  exfalso.
  destruct (Z.eq_dec n 0) as [->|N0]; [vm_compute in G; discriminate G|].
  assert (Z.log2 n < 53) by (apply Z.log2_lt_pow2; lia). lia.
Qed.

Lemma round53_positive (n : Z) : 0 < n -> 0 < JS.round53 n.
Proof.
  intros L. unfold JS.round53. cbv zeta.
  destruct (Z.leb_spec (Z.log2 n - 52) 0) as [_|G]; [exact L|].
  set (e := Z.log2 n - 52) in *.
  assert (P : 0 < 2 ^ e) by (apply Z.pow_pos_nonneg; lia).
  assert (Q : 1 <= Z.shiftr n e).
  { rewrite Z.shiftr_div_pow2 by lia.
    apply Z.div_le_lower_bound; [exact P|].
    rewrite Z.mul_1_r.
    apply Z.le_trans with (2 ^ Z.log2 n).
    - apply Z.pow_le_mono_r; lia.
    - apply Z.log2_spec. exact L. }
  destruct (_ || _); rewrite Z.shiftl_mul_pow2 by lia; nia.
Qed.

Lemma round53_nonnegative (n : Z) : 0 <= n -> 0 <= JS.round53 n.
Proof.
  intros L. destruct (Z.eq_dec n 0) as [->|N]; [vm_compute; discriminate|].
  apply Z.lt_le_incl, round53_positive. lia.
Qed.

(** ** The Number for an integer *)

(** The integers from -2^53 to 2^53 are Numbers. *)
Lemma toNumber_exact (z : Z) : - 2 ^ 53 <= z <= 2 ^ 53 -> JS.toNumber z = JS.Finite z.
Proof.
  intros R. unfold JS.toNumber. cbv zeta.
  rewrite round53_exact by lia.
  destruct (Z.leb_spec (2 ^ 1024) (Z.abs z)) as [B|_].
  - exfalso. assert (2 ^ 53 < 2 ^ 1024) by (apply Z.pow_lt_mono_r; lia). lia.
  - f_equal. rewrite Z.mul_comm. apply Z.abs_sgn.
Qed.

(** Rounding keeps the sign. *)
Lemma sign_toNumber (z : Z) : JS.sign (JS.toNumber z) = Z.sgn z.
Proof.
  unfold JS.toNumber. cbv zeta.
  assert (P : 0 < 2 ^ 1024) by (apply Z.pow_pos_nonneg; lia).
  destruct (Z.leb_spec (2 ^ 1024) (JS.round53 (Z.abs z))) as [B|S].
  - assert (N : z <> 0).
    { intros ->. change (JS.round53 (Z.abs 0)) with 0 in B. lia. }
    destruct (Z.ltb_spec z 0) as [L|G]; simpl; lia.
  - simpl. destruct (Z.eq_dec z 0) as [->|N]; [reflexivity|].
    assert (M : 0 < JS.round53 (Z.abs z)) by (apply round53_positive; lia).
    rewrite Z.sgn_mul, (Z.sgn_pos (JS.round53 (Z.abs z))) by exact M.
    rewrite Z.mul_1_r. apply Z.sgn_sgn.
Qed.

Lemma toNumber_in_range (z : Z) : in_range (JS.toNumber z).
Proof.
  unfold JS.toNumber. cbv zeta.
  destruct (Z.leb_spec (2 ^ 1024) (JS.round53 (Z.abs z))) as [B|S].
  - destruct (z <? 0); exact I.
  - simpl.
    assert (M : 0 <= JS.round53 (Z.abs z)) by (apply round53_nonnegative; lia).
    destruct (Z.sgn_spec z) as [[_ ->]|[[_ ->]|[_ ->]]]; lia.
Qed.

(** Rounding gives the multiple of the unit in the last place that is
    nearest to the number, the even one of two that are as near; the unit
    is 1 up to 53 bits and doubles with every bit beyond. *)
Lemma round53_nearest (n : Z) :
  0 <= n ->
  let ulp := 2 ^ Z.max 0 (Z.log2 n - 52) in
  let m := JS.round53 n in
  (ulp | m)
  /\ 2 * Z.abs (m - n) <= ulp
  /\ (2 * Z.abs (m - n) = ulp -> Z.even (m / ulp) = true)
  /\ (0 < n -> 2 ^ Z.log2 n <= m).
Proof.
  intros L. cbv zeta. unfold JS.round53. cbv zeta.
  destruct (Z.leb_spec (Z.log2 n - 52) 0) as [S|G].
  - rewrite Z.max_l by lia. change (2 ^ 0) with 1.
    split; [apply Z.divide_1_l|]. split; [lia|]. split; [lia|].
    intros N. apply Z.log2_spec. exact N.
  - rewrite Z.max_r by lia.
    assert (Npos : 0 < n).
    { destruct (Z.eq_dec n 0) as [->|N]; [vm_compute in G; discriminate G | lia]. }
    set (e := Z.log2 n - 52) in *.
    assert (P : 0 < 2 ^ (e - 1)) by (apply Z.pow_pos_nonneg; lia).
    assert (Pe : 0 < 2 ^ e) by (apply Z.pow_pos_nonneg; lia).
    assert (E : 2 ^ e = 2 * 2 ^ (e - 1)).
    { replace e with (Z.succ (e - 1)) at 1 by lia. apply Z.pow_succ_r. lia. }
    rewrite Z.shiftr_div_pow2, Z.land_ones by lia.
    rewrite (Z.shiftl_mul_pow2 1 (e - 1)) by lia. rewrite Z.mul_1_l.
    pose proof (Z.div_mod n (2 ^ e) ltac:(lia)) as D.
    pose proof (Z.mod_pos_bound n (2 ^ e) ltac:(lia)) as B.
    set (q := n / 2 ^ e) in *. set (r := n mod 2 ^ e) in *.
    assert (Q : 2 ^ 52 <= q).
    { unfold q. apply Z.div_le_lower_bound; [exact Pe|].
      rewrite <- Z.pow_add_r by lia. replace (e + 52) with (Z.log2 n) by (unfold e; lia).
      apply Z.log2_spec. exact Npos. }
    assert (T : 2 ^ Z.log2 n = 2 ^ 52 * 2 ^ e).
    { rewrite <- Z.pow_add_r by lia. f_equal. unfold e. lia. }
    destruct ((r <? 2 ^ (e - 1)) || ((r =? 2 ^ (e - 1)) && Z.even q)) eqn:C;
      rewrite Z.shiftl_mul_pow2 by lia.
    + split; [exists q; reflexivity|].
      assert (R : r < 2 ^ (e - 1) \/ (r = 2 ^ (e - 1) /\ Z.even q = true)).
      { apply orb_prop in C. destruct C as [C|C].
        - left. apply Z.ltb_lt. exact C.
        - right. apply andb_prop in C. destruct C as [C1 C2].
          split; [apply Z.eqb_eq; exact C1 | exact C2]. }
      split; [destruct R as [R|[R _]]; lia|]. split.
      * intros Tie. rewrite Z.div_mul by lia.
        destruct R as [R|[_ R]]; [exfalso; lia | exact R].
      * intros _. rewrite T. nia.
    + apply orb_false_elim in C. destruct C as [C1 C2].
      apply Z.ltb_ge in C1. apply andb_false_elim in C2.
      split; [exists (q + 1); reflexivity|].
      split; [lia|]. split.
      * intros Tie. rewrite Z.div_mul by lia.
        destruct C2 as [C2|C2].
        -- apply Z.eqb_neq in C2. exfalso. lia.
        -- rewrite Z.even_add, C2. reflexivity.
      * intros _. rewrite T. nia.
Qed.

(** The Number for a natural number is the nearest double, or the infinity
    when the number is at least half way from the largest double to
    2^1024. *)
Lemma toNumber_nearest (v : Z) :
  0 <= v ->
  let ulp := 2 ^ Z.max 0 (Z.log2 v - 52) in
  match JS.toNumber v with
  | JS.Finite m =>
      0 <= m < 2 ^ 1024
      /\ (ulp | m)
      /\ 2 * Z.abs (m - v) <= ulp
      /\ (2 * Z.abs (m - v) = ulp -> Z.even (m / ulp) = true)
  | JS.PosInfinity => 2 ^ 1024 - 2 ^ 970 <= v
  | _ => False
  end.
Proof.
  intros L. cbv zeta.
  destruct (@round53_nearest v L) as (D & N & T & B). cbv zeta in D, N, T.
  unfold JS.toNumber. cbv zeta. rewrite (Z.abs_eq v L).
  destruct (Z.leb_spec (2 ^ 1024) (JS.round53 v)) as [Big|Small].
  - destruct (Z.ltb_spec v 0) as [Neg|_]; [lia|].
    destruct (Z.le_gt_cases (2 ^ 1024) v) as [Hv|Hv].
    + assert (0 < 2 ^ 970) by (apply Z.pow_pos_nonneg; lia). lia.
    + assert (Pv : 0 < v).
      { destruct (Z.eq_dec v 0) as [->|]; [|lia].
        change (JS.round53 0) with 0 in Big.
        assert (0 < 2 ^ 1024) by (apply Z.pow_pos_nonneg; lia). lia. }
      assert (Lg : Z.log2 v < 1024) by (apply Z.log2_lt_pow2; assumption).
      assert (U : 2 ^ Z.max 0 (Z.log2 v - 52) <= 2 ^ 971)
        by (apply Z.pow_le_mono_r; lia).
      assert (H : 2 ^ 971 = 2 * 2 ^ 970) by (apply (Z.pow_succ_r 2 970); lia).
      lia.
  - assert (M : 0 <= JS.round53 v).
    { destruct (Z.eq_dec v 0) as [->|]; [vm_compute; discriminate|].
      apply Z.le_trans with (2 ^ Z.log2 v); [apply Z.pow_nonneg; lia | apply B; lia]. }
    assert (S : Z.sgn v * JS.round53 v = JS.round53 v).
    { destruct (Z.eq_dec v 0) as [->|]; [reflexivity|].
      rewrite Z.sgn_pos by lia. apply Z.mul_1_l. }
    rewrite S. split; [lia|]. split; [exact D|]. split; [exact N | exact T].
Qed.

(** ** Comparisons, on the rank *)

(** The difference of two integers has the sign of their order, rounded
    or not. *)
Lemma sign_sub_finite (x y : Z) :
  (JS.sign (JS.sub (JS.Finite x) (JS.Finite y)) <=? 0) = (x <=? y).
Proof.
  unfold JS.sub. cbn [JS.neg JS.add]. rewrite sign_toNumber.
  destruct (Z.leb_spec x y), (Z.leb_spec (Z.sgn (x + - y)) 0); try reflexivity;
    exfalso; destruct (Z.sgn_spec (x + - y)) as [[? ?]|[[? ?]|[? ?]]]; lia.
Qed.

Lemma sign_sub_rank (p q : JS.number) :
  in_range p -> in_range q ->
  (JS.sign (JS.sub p q) <=? 0) = (rank p <=? rank q).
Proof.
  assert (P : 0 < 2 ^ 1024) by (apply Z.pow_pos_nonneg; lia).
  destruct p as [x| | |], q as [y| | |];
    [intros _ _; apply sign_sub_finite|..];
    simpl; intros Hp Hq; try contradiction; unfold JS.sub; simpl.
  - symmetry. apply Z.leb_le. lia.
  - symmetry. apply Z.leb_gt. lia.
  - symmetry. apply Z.leb_gt. lia.
  - symmetry. apply Z.leb_le. lia.
  - symmetry. apply Z.leb_gt. lia.
  - symmetry. apply Z.leb_le. lia.
  - symmetry. apply Z.leb_le. lia.
  - symmetry. apply Z.leb_le. lia.
Qed.

Lemma less_or_equal_rank (p q : JS.number) :
  in_range p -> in_range q ->
  JS.less_or_equal p q = (rank p <=? rank q).
Proof.
  assert (P : 0 < 2 ^ 1024) by (apply Z.pow_pos_nonneg; lia).
  destruct p as [x| | |], q as [y| | |]; simpl; intros Hp Hq;
    try contradiction; unfold JS.less_or_equal; simpl.
  - destruct (Z.leb_spec x y), (Z.ltb_spec x y), (Z.eqb_spec x y);
      try reflexivity; exfalso; lia.
  - symmetry. apply Z.leb_le. lia.
  - symmetry. apply Z.leb_gt. lia.
  - symmetry. apply Z.leb_gt. lia.
  - symmetry. apply Z.leb_le. lia.
  - symmetry. apply Z.leb_gt. lia.
  - symmetry. apply Z.leb_le. lia.
  - symmetry. apply Z.leb_le. lia.
  - symmetry. apply Z.leb_le. lia.
Qed.

Lemma strictly_equal_rank (p q : JS.number) :
  in_range p -> in_range q ->
  JS.strictly_equal p q = (rank p =? rank q).
Proof.
  assert (P : 0 < 2 ^ 1024) by (apply Z.pow_pos_nonneg; lia).
  destruct p as [x| | |], q as [y| | |]; cbn [rank in_range JS.strictly_equal];
    intros Hp Hq; try contradiction; try reflexivity;
    symmetry; try (apply Z.eqb_neq; lia); apply Z.eqb_eq; lia.
Qed.

(** A Number is equal to itself alone, and NaN not even to itself. *)
Lemma strictly_equal_spec (p q : JS.number) :
  JS.strictly_equal p q = true <-> p = q /\ p <> JS.NaN.
Proof.
  destruct p as [x| | |], q as [y| | |]; simpl; split;
    try discriminate; try (intros [E N]; try discriminate E; congruence);
    try (intros _; split; [reflexivity | discriminate]).
  - intros E. apply Z.eqb_eq in E. subst y. split; [reflexivity | discriminate].
  - intros [E _]. injection E as ->. apply Z.eqb_refl.
Qed.

(** ** Decimal numerals *)

Lemma of_uint_digit (u : Decimal.uint) (k : positive) :
  Z.pos (Pos.of_uint_acc u k)
  = Z.pos k * 10 ^ Z.of_N (DecimalPos.Unsigned.usize u) + Z.of_uint u.
Proof.
  change (Z.pos (Pos.of_uint_acc u k)) with (Z.of_N (N.pos (Pos.of_uint_acc u k))).
  rewrite DecimalPos.Unsigned.of_uint_acc_rev, <- DecimalPos.Unsigned.of_uint_alt.
  rewrite N2Z.inj_add, N2Z.inj_mul, N2Z.inj_pow. unfold Z.of_uint. simpl Z.of_N.
  apply Z.add_comm.
Qed.

(** The digits of a numeral spell its value. *)
Lemma parse_digits_numeral (u : Decimal.uint) :
  forall acc,
    JS.parse_digits acc (DecimalString.NilEmpty.string_of_uint u)
    = acc * 10 ^ Z.of_N (DecimalPos.Unsigned.usize u) + Z.of_uint u.
Proof.
  induction u as [|u IH|u IH|u IH|u IH|u IH|u IH|u IH|u IH|u IH|u IH]; intros acc;
    cbn [DecimalString.NilEmpty.string_of_uint JS.parse_digits DecimalPos.Unsigned.usize];
    try (rewrite IH; rewrite N2Z.inj_succ, Z.pow_succ_r by apply N2Z.is_nonneg;
         unfold Z.of_uint at 2; cbn [Pos.of_uint Z.of_N]; rewrite ?of_uint_digit;
         change (JS.digit_value "0") with 0; change (JS.digit_value "1") with 1;
         change (JS.digit_value "2") with 2; change (JS.digit_value "3") with 3;
         change (JS.digit_value "4") with 4; change (JS.digit_value "5") with 5;
         change (JS.digit_value "6") with 6; change (JS.digit_value "7") with 7;
         change (JS.digit_value "8") with 8; change (JS.digit_value "9") with 9;
         fold (Z.of_uint u); lia).
  change (acc = acc * 1 + 0). lia.
Qed.

(** A string of digits is a numeral. *)
Lemma all_digits_numeral (s : string) :
  JS.all_digits s = true ->
  exists u, DecimalString.NilEmpty.uint_of_string s = Some u /\ DecimalString.NilEmpty.string_of_uint u = s.
Proof.
  induction s as [|c r IH]; intros H.
  - exists Decimal.Nil. split; reflexivity.
  - simpl in H. apply andb_prop in H. destruct H as [Hc Hr].
    destruct (IH Hr) as (u & E & S).
    cbn [DecimalString.NilEmpty.uint_of_string]. rewrite E.
    destruct c as [[] [] [] [] [] [] [] []]; try discriminate Hc;
      eexists; (split; [reflexivity|]); cbn [DecimalString.NilEmpty.string_of_uint]; rewrite S;
      reflexivity.
Qed.

Lemma of_uint_nonnegative (u : Decimal.uint) : 0 <= Z.of_uint u.
Proof. unfold Z.of_uint. apply N2Z.is_nonneg. Qed.

(** [parseInt] of a string of digits is the Number for the value of the
    numeral. *)
Lemma parseInt_numeral (digits : string) :
  digits <> "" -> JS.all_digits digits = true ->
  exists u,
    DecimalString.NilEmpty.uint_of_string digits = Some u
    /\ JS.parseInt digits = JS.toNumber (Z.of_uint u).
Proof.
  intros Hne Hd. destruct (all_digits_numeral digits Hd) as (u & E & S).
  exists u. split; [exact E|].
  unfold JS.parseInt. destruct digits as [|c r]; [contradiction|].
  rewrite <- S, parse_digits_numeral. f_equal.
Qed.

Lemma parseInt_in_range (digits : string) : digits <> "" -> in_range (JS.parseInt digits).
Proof.
  intros Hne. unfold JS.parseInt. destruct digits as [|c r]; [contradiction|].
  apply toNumber_in_range.
Qed.

(** * Properties *)

(** ** The usage classifier *)

Lemma upper_char_M (c : ascii) :
  JS.upper_char c = "M"%char -> c = "M"%char \/ c = "m"%char.
Proof.
  destruct c as [[] [] [] [] [] [] [] []]; vm_compute; intros H;
    try discriminate H; auto.
Qed.

Lemma upper_char_C (c : ascii) :
  JS.upper_char c = "C"%char -> c = "C"%char \/ c = "c"%char.
Proof.
  destruct c as [[] [] [] [] [] [] [] []]; vm_compute; intros H;
    try discriminate H; auto.
Qed.

Lemma upper_char_X (c : ascii) :
  JS.upper_char c = "X"%char -> c = "X"%char \/ c = "x"%char.
Proof.
  destruct c as [[] [] [] [] [] [] [] []]; vm_compute; intros H;
    try discriminate H; auto.
Qed.

Lemma toUpperCase_single (s : string) (c : ascii) :
  JS.toUpperCase s = String c EmptyString ->
  exists c', s = String c' EmptyString /\ JS.upper_char c' = c.
Proof.
  destruct s as [|c' [|c'' r]]; simpl; intros H; try discriminate H.
  injection H as H. eauto.
Qed.

(** ** Sorting on a numeric key *)

Section KeySort.

Variable A : Type.
Variable key : A -> Z.
Variable compareFn : A -> A -> JS.number.
Hypothesis compareFn_key :
  forall a b, (JS.sign (compareFn a b) <=? 0) = (key a <=? key b).

Lemma insert_perm (x : A) (l : list A) :
  Permutation (x :: l) (JS.insert compareFn x l).
Proof.
  induction l as [|y r IH]; simpl.
  - apply Permutation_refl.
  - destruct (JS.sign (compareFn x y) <=? 0).
    + apply Permutation_refl.
    + eapply perm_trans; [apply perm_swap|]. apply perm_skip. exact IH.
Qed.

Lemma sort_perm (l : list A) : Permutation l (JS.sort compareFn l).
Proof.
  induction l as [|x r IH]; simpl.
  - apply perm_nil.
  - eapply perm_trans; [apply perm_skip; exact IH|]. apply insert_perm.
Qed.

Lemma insert_sorted (x : A) (l : list A) :
  StronglySorted (key_le key) l -> StronglySorted (key_le key) (JS.insert compareFn x l).
Proof.
  induction l as [|y r IH]; simpl; intros S.
  - constructor; constructor.
  - inversion S as [|? ? Sr Hy]; subst.
    rewrite compareFn_key. destruct (Z.leb_spec (key x) (key y)) as [L|G].
    + constructor; [exact S|].
      constructor; [unfold key_le; lia|].
      eapply Forall_impl; [|exact Hy]. unfold key_le. intros; lia.
    + constructor; [apply IH; exact Sr|].
      eapply Permutation_Forall; [apply insert_perm|].
      constructor; [unfold key_le; lia | exact Hy].
Qed.

Lemma sort_sorted (l : list A) : StronglySorted (key_le key) (JS.sort compareFn l).
Proof.
  induction l as [|x r IH]; simpl.
  - constructor.
  - apply insert_sorted. exact IH.
Qed.

(** An insertion passes smaller keys only, so it keeps the order among
    the items of any one key. *)
Lemma insert_stable (p : Z) (x : A) (l : list A) :
  filter (fun e => key e =? p) (JS.insert compareFn x l)
  = filter (fun e => key e =? p) (x :: l).
Proof.
  induction l as [|y r IH]; simpl.
  - reflexivity.
  - rewrite compareFn_key. destruct (Z.leb_spec (key x) (key y)) as [L|G].
    + reflexivity.
    + simpl. rewrite IH. simpl.
      destruct (Z.eqb_spec (key y) p) as [Ey|Ny];
        destruct (Z.eqb_spec (key x) p) as [Ex|Nx]; try reflexivity.
      exfalso; lia.
Qed.

Lemma sort_stable (p : Z) (l : list A) :
  filter (fun e => key e =? p) (JS.sort compareFn l) = filter (fun e => key e =? p) l.
Proof.
  induction l as [|x r IH]; simpl.
  - reflexivity.
  - rewrite insert_stable. simpl. rewrite IH. reflexivity.
Qed.

(** A list in strictly increasing key order is the only sorted
    arrangement of its items. *)
Lemma sorted_arrangement_unique (increasing sorted : list A) :
  StronglySorted (fun a b => key a < key b) increasing ->
  StronglySorted (key_le key) sorted ->
  Permutation increasing sorted ->
  sorted = increasing.
Proof.
  intros Si. revert sorted.
  induction Si as [|x xs Sxs IH Hx]; intros sorted Ss P.
  - apply Permutation_nil in P. exact P.
  - destruct sorted as [|y ys].
    + apply Permutation_sym, Permutation_nil in P. discriminate P.
    + inversion Ss as [|? ? Sys Hy]; subst.
      assert (Exy : x = y).
      { assert (Iy : In y (x :: xs))
          by (eapply Permutation_in; [apply Permutation_sym; exact P | left; reflexivity]).
        assert (Ix : In x (y :: ys))
          by (eapply Permutation_in; [exact P | left; reflexivity]).
        destruct Iy as [E|Iy]; [exact E|].
        destruct Ix as [E|Ix]; [symmetry; exact E|].
        rewrite Forall_forall in Hx, Hy.
        specialize (Hx _ Iy). specialize (Hy _ Ix). unfold key_le in Hy.
        exfalso; lia. }
      subst y. f_equal. apply IH; [exact Sys|].
      eapply Permutation_cons_inv. exact P.
Qed.

Lemma sort_increasing (increasing l : list A) :
  StronglySorted (fun a b => key a < key b) increasing ->
  Permutation increasing l ->
  JS.sort compareFn l = increasing.
Proof.
  intros Si P. apply sorted_arrangement_unique.
  - exact Si.
  - apply sort_sorted.
  - eapply perm_trans; [exact P | apply sort_perm].
Qed.

End KeySort.

(** The sort only asks its [compareFn] about the items of the list. *)
Lemma insert_agree (A : Type) (f g : A -> A -> JS.number) (x : A) (l : list A) :
  (forall b, In b l -> (JS.sign (f x b) <=? 0) = (JS.sign (g x b) <=? 0)) ->
  JS.insert f x l = JS.insert g x l.
Proof.
  induction l as [|y r IH]; intros H; simpl.
  - reflexivity.
  - rewrite (H y (or_introl eq_refl)).
    destruct (JS.sign (g x y) <=? 0); [reflexivity|].
    f_equal. apply IH. intros b Hb. apply H. right. exact Hb.
Qed.

Lemma sort_agree (A : Type) (f g : A -> A -> JS.number) (l : list A) :
  (forall a b, In a l -> In b l -> (JS.sign (f a b) <=? 0) = (JS.sign (g a b) <=? 0)) ->
  JS.sort f l = JS.sort g l.
Proof.
  induction l as [|x r IH]; intros H; simpl.
  - reflexivity.
  - rewrite IH by (intros a b Ha Hb; apply H; right; assumption).
    apply insert_agree. intros b Hb. apply H; [left; reflexivity|].
    right. eapply Permutation_in; [apply Permutation_sym, sort_perm | exact Hb].
Qed.

(** A sorted list stays sorted under another order that agrees on its
    items. *)
Lemma StronglySorted_agree (A : Type) (R1 R2 : A -> A -> Prop) (l : list A) :
  (forall a b, In a l -> In b l -> R1 a b -> R2 a b) ->
  StronglySorted R1 l -> StronglySorted R2 l.
Proof.
  intros H S. induction S as [|x r Sr IH Hx].
  - constructor.
  - constructor.
    + apply IH. intros a b Ha Hb. apply H; right; assumption.
    + rewrite Forall_forall in *. intros b Hb.
      apply H; [left; reflexivity | right; exact Hb | apply Hx; exact Hb].
Qed.

(** ** Sorting elements by position *)

Section PositionSort.

Variable elements : list Element.
Hypothesis positions_in_range : Forall (fun e => in_range (Element.position e)) elements.

Lemma by_rank_key (a b : Element) :
  (JS.sign (by_rank a b) <=? 0)
  = (rank (Element.position a) <=? rank (Element.position b)).
Proof.
  unfold by_rank. cbn [JS.sign].
  destruct (Z.leb_spec (rank (Element.position a)) (rank (Element.position b))),
    (Z.leb_spec (Z.sgn (rank (Element.position a) - rank (Element.position b))) 0);
    try reflexivity; exfalso;
    destruct (Z.sgn_spec (rank (Element.position a) - rank (Element.position b)))
      as [[? ?]|[[? ?]|[? ?]]]; lia.
Qed.

Lemma sort_by_position_rank : JS.sort by_position elements = JS.sort by_rank elements.
Proof.
  apply sort_agree. intros a b Ha Hb. rewrite by_rank_key. unfold by_position.
  rewrite Forall_forall in positions_in_range.
  apply sign_sub_rank; apply positions_in_range; assumption.
Qed.

Lemma sort_by_position_sorted : StronglySorted position_le (JS.sort by_position elements).
Proof.
  rewrite sort_by_position_rank.
  assert (R : Forall (fun e => in_range (Element.position e)) (JS.sort by_rank elements))
    by (eapply Permutation_Forall; [apply sort_perm | exact positions_in_range]).
  rewrite Forall_forall in R.
  eapply StronglySorted_agree;
    [|exact (sort_sorted (fun e => rank (Element.position e)) by_rank by_rank_key elements)].
  intros a b Ha Hb L. unfold position_le.
  rewrite less_or_equal_rank by (apply R; assumption).
  apply Z.leb_le. exact L.
Qed.

Lemma sort_by_position_stable (p : JS.number) :
  filter (positioned p) (JS.sort by_position elements) = filter (positioned p) elements.
Proof.
  rewrite sort_by_position_rank.
  assert (R : Forall (fun e => in_range (Element.position e)) (JS.sort by_rank elements))
    by (eapply Permutation_Forall; [apply sort_perm | exact positions_in_range]).
  rewrite Forall_forall in R, positions_in_range.
  assert (N : forall l, (forall e, In e l -> positioned p e = false) ->
                        filter (positioned p) l = []).
  { induction l as [|e r IH]; intros H; [reflexivity|]. simpl.
    rewrite (H e (or_introl eq_refl)). apply IH. intros x Hx. apply H. right. exact Hx. }
  destruct (existsb (positioned p) elements) eqn:Ex.
  - apply existsb_exists in Ex. destruct Ex as (e0 & I0 & P0).
    apply strictly_equal_spec in P0. destruct P0 as [E0 _].
    assert (Rp : in_range p) by (rewrite <- E0; apply positions_in_range; exact I0).
    rewrite (filter_ext_in (positioned p)
               (fun e => rank (Element.position e) =? rank p) (JS.sort by_rank elements))
      by (intros e He; apply strictly_equal_rank; [apply R; exact He | exact Rp]).
    rewrite (filter_ext_in (positioned p)
               (fun e => rank (Element.position e) =? rank p) elements)
      by (intros e He; apply strictly_equal_rank;
          [apply positions_in_range; exact He | exact Rp]).
    exact (sort_stable (fun e => rank (Element.position e)) by_rank by_rank_key
             (rank p) elements).
  - assert (F : forall e, In e elements -> positioned p e = false).
    { intros e He. destruct (positioned p e) eqn:Pe; [|reflexivity].
      assert (X : existsb (positioned p) elements = true)
        by (apply existsb_exists; exists e; split; assumption).
      rewrite X in Ex. discriminate Ex. }
    rewrite !N; [reflexivity | exact F |].
    intros e He. apply F.
    eapply Permutation_in; [apply Permutation_sym, sort_perm | exact He].
Qed.

End PositionSort.

(** ** Effects: running a conversion on every item of a list *)

Lemma map_gen_image (A B C : Type) (f : A -> Gen B) (h : B -> C) (g : A -> C) :
  (forall x w, h (fst (f x w)) = g x) ->
  forall l w, map h (fst (map_gen f l w)) = map g l.
Proof.
  intros H. induction l as [|x r IH]; intros w; simpl.
  - reflexivity.
  - unfold bind. specialize (H x w). destruct (f x w) as [y w1]. simpl in H.
    specialize (IH w1). destruct (map_gen f r w1) as [ys w2]. simpl in *.
    congruence.
Qed.

Lemma map_gen_Forall (A B : Type) (f : A -> Gen B) (P : B -> Prop) (l : list A) :
  (forall x, In x l -> forall w, P (fst (f x w))) ->
  forall w, Forall P (fst (map_gen f l w)).
Proof.
  induction l as [|x r IH]; intros H w; simpl.
  - constructor.
  - unfold bind. pose proof (H x (or_introl eq_refl) w) as Hx.
    destruct (f x w) as [y w1]. simpl in Hx.
    assert (Hr : Forall P (fst (map_gen f r w1)))
      by (apply IH; intros z Iz; apply H; right; exact Iz).
    destruct (map_gen f r w1) as [ys w2]. simpl in *.
    constructor; assumption.
Qed.

Lemma mapi_gen_Forall (A B : Type) (f : A -> nat -> Gen B) (P : B -> Prop) (l : list A) :
  (forall x i w, P (fst (f x i w))) ->
  forall i w, Forall P (fst (mapi_gen f l i w)).
Proof.
  intros H. induction l as [|x r IH]; intros i w; simpl.
  - constructor.
  - unfold bind. pose proof (H x i w) as Hx.
    destruct (f x i w) as [y w1]. simpl in Hx.
    specialize (IH (S i) w1).
    destruct (mapi_gen f r (S i) w1) as [ys w2]. simpl in *.
    constructor; assumption.
Qed.

(** ** Element positions *)

Lemma all_digits_underscore (pre d : string) :
  JS.all_digits (pre ++ String "_" d) = false.
Proof.
  induction pre as [|c r IH]; simpl.
  - reflexivity.
  - rewrite IH. apply andb_false_r.
Qed.

Lemma match_digit_suffix_found (pre digits : string) :
  digits <> "" -> JS.all_digits digits = true ->
  JS.match_digit_suffix (pre ++ String "_" digits) = Some digits.
Proof.
  intros Hne Hd. induction pre as [|c r IH]; simpl.
  - rewrite Hd. destruct (String.eqb_spec digits ""); [contradiction | reflexivity].
  - rewrite all_digits_underscore, !andb_false_r. exact IH.
Qed.

Lemma match_digit_suffix_sound (key digits : string) :
  JS.match_digit_suffix key = Some digits ->
  exists pre, key = pre ++ String "_" digits /\ digits <> "" /\ JS.all_digits digits = true.
Proof.
  induction key as [|c r IH]; simpl; [discriminate|].
  destruct (Ascii.eqb_spec c "_") as [->|Nc]; simpl.
  - destruct (String.eqb_spec r "") as [Er|Nr]; simpl.
    + subst r. simpl. discriminate.
    + destruct (JS.all_digits r) eqn:Hd.
      * intros H. injection H as <-. exists "". auto.
      * intros H. destruct (IH H) as (pre & -> & ? & ?).
        exists (String "_" pre). auto.
  - intros H. destruct (IH H) as (pre & -> & ? & ?).
    exists (String c pre). auto.
Qed.

Lemma getElementPosition_in_range (key : string) : in_range (getElementPosition key).
Proof.
  unfold getElementPosition.
  destruct (JS.match_digit_suffix key) as [digits|] eqn:Em.
  - apply match_digit_suffix_sound in Em. destruct Em as (pre & _ & Hne & _).
    apply parseInt_in_range. exact Hne.
  - cbn [in_range]. assert (0 < 2 ^ 1024) by (apply Z.pow_pos_nonneg; lia). lia.
Qed.

(** ** Every entity of a tree *)

Section EntitiesFacts.

Variable PL : Loop -> Prop.
Variable PS : Segment -> Prop.
Variable PE : Element -> Prop.

Lemma everywhere_intro (l : Loop) :
  entities PL PS PE l ->
  Forall (everywhere PL PS PE) (Loop.loops l) ->
  everywhere PL PS PE l.
Proof.
  intros Hl Hc. unfold everywhere. destruct l; simpl in *.
  constructor; [exact Hl|]. apply Forall_flat_map. exact Hc.
Qed.

Lemma everywhere_spec (spec : Specification) :
  Forall (everywhere PL PS PE) (Specification.loops spec) ->
  Forall PL (spec_loops spec)
  /\ Forall PS (spec_segments spec)
  /\ Forall PE (spec_elements spec).
Proof.
  intros H.
  assert (A : Forall (entities PL PS PE) (spec_loops spec))
    by (apply Forall_flat_map; exact H).
  assert (B : Forall (fun s => PS s /\ Forall PE (Segment.elements s)) (spec_segments spec)).
  { apply Forall_flat_map. eapply Forall_impl; [|exact A]. intros l [_ Hs]. exact Hs. }
  split; [|split].
  - eapply Forall_impl; [|exact A]. intros l [Hl _]. exact Hl.
  - eapply Forall_impl; [|exact B]. intros s [Hs _]. exact Hs.
  - apply Forall_flat_map. eapply Forall_impl; [|exact B]. intros s [_ He]. exact He.
Qed.

End EntitiesFacts.

(** ** The loop over the properties, one property at a time *)

Section PropertiesFacts.

Variable importLoop :
  OpenAPISchemaDefinition -> Schemas -> Z -> bool -> option Z -> Run Loop.
Variable allSchemas : Schemas.
Variable requiredItems : list string.

Lemma importProperties_step entry rest itemOrder segments nestedLoops :
  importProperties importLoop allSchemas requiredItems (entry :: rest)
    itemOrder segments nestedLoops
  = match kindOf allSchemas entry with
    | Passed =>
        importProperties importLoop allSchemas requiredItems rest
          itemOrder segments nestedLoops
    | Counted =>
        importProperties importLoop allSchemas requiredItems rest
          (itemOrder + 1) segments nestedLoops
    | LoopLike refSchema =>
        (nestedLoop <- importLoop refSchema allSchemas (itemMaxUseOf (snd entry))
                         (JS.array_includes requiredItems (fst entry))
                         (Some itemOrder) ;;
         importProperties importLoop allSchemas requiredItems rest
           (itemOrder + 1) segments (nestedLoops ++ [nestedLoop]))%run
    | SegmentLike segmentId refSchema =>
        (segment <- lift (importOpenAPISegment segmentId refSchema allSchemas
                            requiredItems (itemMaxUseOf (snd entry))) ;;
         importProperties importLoop allSchemas requiredItems rest
           (itemOrder + 1)
           (segments ++ [Segment.set_order segment (Some itemOrder)])
           nestedLoops)%run
    end.
Proof.
  destruct entry as [propKey prop]. unfold kindOf. simpl.
  destruct (String.eqb propKey "Model"); [reflexivity|].
  destruct (JS.truthy (refNameOf prop)) as [refName|]; [|reflexivity].
  destruct (JS.get allSchemas refName) as [refSchema| |]; try reflexivity.
  destruct (JS.truthy (OpenAPISchemaDefinition.x_openedi_loop_id refSchema));
    [reflexivity|].
  destruct (JS.truthy (OpenAPISchemaDefinition.x_openedi_segment_id refSchema));
    reflexivity.
Qed.

(** What holds of the nodes a level starts with and of every node built
    holds of the nodes of the level. *)
Lemma importProperties_Forall (QS : Segment -> Prop) (QL : Loop -> Prop) :
  (forall d s m r o w l w', importLoop d s m r o w = Some (l, w') -> QL l) ->
  (forall segmentId d s r m w o,
      QS (Segment.set_order (fst (importOpenAPISegment segmentId d s r m w)) o)) ->
  forall entries itemOrder segments nestedLoops w segments' nestedLoops' w',
    importProperties importLoop allSchemas requiredItems entries
      itemOrder segments nestedLoops w = Some ((segments', nestedLoops'), w') ->
    Forall QS segments -> Forall QL nestedLoops ->
    Forall QS segments' /\ Forall QL nestedLoops'.
Proof.
  intros HL HS. induction entries as [|entry rest IH];
    intros itemOrder segments nestedLoops w segments' nestedLoops' w' Hrun FS FL.
  - simpl in Hrun. unfold done in Hrun. injection Hrun as <- <- <-. auto.
  - rewrite importProperties_step in Hrun.
    destruct (kindOf allSchemas entry) as [| |refSchema|segmentId refSchema].
    + eapply IH; eassumption.
    + eapply IH; eassumption.
    + unfold andThen in Hrun.
      destruct (importLoop _ _ _ _ _ w) as [[l w1]|] eqn:EL; [|discriminate].
      eapply IH; [exact Hrun | exact FS |].
      apply Forall_app. split; [exact FL|]. constructor; [|constructor].
      eapply HL. exact EL.
    + unfold andThen, lift in Hrun.
      pose proof (HS segmentId refSchema allSchemas requiredItems
                    (itemMaxUseOf (snd entry)) w (Some itemOrder)) as Hs.
      destruct (importOpenAPISegment _ _ _ _ _ w) as [s w1].
      eapply IH; [exact Hrun | | exact FL].
      apply Forall_app. split; [exact FS|]. constructor; [exact Hs|constructor].
Qed.

End PropertiesFacts.

(** ** The conversions, run *)

Lemma importOpenAPIElement_position schema allSchemas entry w :
  Element.position (fst (importOpenAPIElement schema allSchemas entry w))
  = getElementPosition (fst entry).
Proof.
  destruct entry as [propKey prop]. unfold importOpenAPIElement, bind, ret. simpl.
  repeat match goal with
         | |- context [let (_, _) := ?m in _] => destruct m
         end.
  reflexivity.
Qed.

Lemma importOpenAPISegment_run segmentId schema allSchemas requiredSegments maxUse w :
  importOpenAPISegment segmentId schema allSchemas requiredSegments maxUse w
  = let (collected, w1) :=
      map_gen (importOpenAPIElement schema allSchemas) (elementEntries schema) w in
    (schemaSegment (uuids w1) segmentId (JS.array_includes requiredSegments segmentId)
       maxUse (JS.sort by_position collected),
     drawn w1).
Proof.
  unfold importOpenAPISegment, elementEntries, bind, ret, uuidv4.
  destruct (OpenAPISchemaDefinition.properties schema) as [properties|]; simpl.
  - destruct (map_gen _ _ w) as [collected w1]. reflexivity.
  - reflexivity.
Qed.

Lemma importOpenAPISegment_elements_collected
    segmentId schema allSchemas requiredSegments maxUse w :
  Segment.elements
    (fst (importOpenAPISegment segmentId schema allSchemas requiredSegments maxUse w))
  = JS.sort by_position
      (fst (map_gen (importOpenAPIElement schema allSchemas) (elementEntries schema) w)).
Proof.
  rewrite importOpenAPISegment_run.
  destruct (map_gen _ _ w) as [collected w1]. reflexivity.
Qed.

Lemma importOpenAPILoop_run depth loopSchema allSchemas maxUse isRequired order w :
  importOpenAPILoop (S depth) loopSchema allSchemas maxUse isRequired order w
  = match importProperties (importOpenAPILoop depth) allSchemas (requiredOf loopSchema)
            (propertiesOf loopSchema) 0 [] [] w with
    | Some ((segments, loops), w1) =>
        Some (schemaLoop (uuids w1)
                (JS.or_string (OpenAPISchemaDefinition.x_openedi_loop_id loopSchema) "LOOP")
                isRequired maxUse segments loops order,
              drawn w1)
    | None => None
    end.
Proof.
  simpl. unfold andThen, lift, done, uuidv4, propertiesOf, requiredOf.
  destruct (OpenAPISchemaDefinition.properties loopSchema) as [properties|]; simpl.
  - destruct (importProperties _ _ _ _ _ _ _ w) as [[[segments loops] w1]|]; reflexivity.
  - reflexivity.
Qed.

Lemma importOpenAPIFormat_run depth parsed w :
  importOpenAPIFormat depth parsed w
  = match findTransactionSet (schemasOf parsed) with
    | None => Some (Throws (Error missing_transaction_set), w)
    | Some (transactionSetId, root) =>
        match importProperties (importOpenAPILoop depth) (schemasOf parsed)
                (requiredOf root) (propertiesOf root) 0 [] [] w with
        | Some ((segments, loops), w1) =>
            Some (Returns
                    (Specification.mk (S (uuids w1))
                       (schemaMetadata transactionSetId (clock w))
                       [mainLoopOf (uuids w1) transactionSetId segments loops]
                       []),
                  drawn (drawn w1))
        | None => None
        end
    end.
Proof.
  unfold importOpenAPIFormat, andThen, lift, done, now, uuidv4, propertiesOf, requiredOf.
  fold (schemasOf parsed).
  destruct (findTransactionSet (schemasOf parsed)) as [[transactionSetId root]|];
    [|reflexivity].
  destruct (OpenAPISchemaDefinition.properties root) as [properties|]; simpl.
  - destruct (importProperties _ _ _ _ _ _ _ w) as [[[segments loops] w1]|]; reflexivity.
  - reflexivity.
Qed.

(** ** Every entity the schema-format converter builds *)

Section SchemaEntities.

Variable PL : Loop -> Prop.
Variable PS : Segment -> Prop.
Variable PE : Element -> Prop.

Hypothesis element_built :
  forall schema allSchemas entry w,
    PE (fst (importOpenAPIElement schema allSchemas entry w)).
Hypothesis segment_built :
  forall id segmentId isRequired maxUse elements order,
    PS (Segment.set_order (schemaSegment id segmentId isRequired maxUse elements) order).
Hypothesis loop_built :
  forall id name description (isRequired : bool) maxUse segments loops order,
    PL (Loop.mk id name description
          (if isRequired then Usage.M else Usage.O)
          (if isRequired then 1 else 0) maxUse segments loops order
          (Some (if isRequired then Usage.M else Usage.O))
          (Some (if isRequired then 1 else 0)) (Some maxUse)).

Lemma importOpenAPISegment_entities segmentId schema allSchemas requiredSegments maxUse w o :
  let segment :=
    Segment.set_order
      (fst (importOpenAPISegment segmentId schema allSchemas requiredSegments maxUse w)) o in
  PS segment /\ Forall PE (Segment.elements segment).
Proof.
  intros segment. split.
  - subst segment. rewrite importOpenAPISegment_run.
    destruct (map_gen _ _ w) as [collected w1]. apply segment_built.
  - assert (E : Segment.elements segment
                = JS.sort by_position
                    (fst (map_gen (importOpenAPIElement schema allSchemas)
                            (elementEntries schema) w)))
      by apply importOpenAPISegment_elements_collected.
    rewrite E. eapply Permutation_Forall; [apply sort_perm|].
    apply map_gen_Forall. intros x _ w'. apply element_built.
Qed.

Lemma importProperties_entities importLoop allSchemas requiredItems entries w
    segments loops w' :
  (forall d s m r o w0 l w1, importLoop d s m r o w0 = Some (l, w1) ->
                             everywhere PL PS PE l) ->
  importProperties importLoop allSchemas requiredItems entries 0 [] [] w
  = Some ((segments, loops), w') ->
  Forall (fun s => PS s /\ Forall PE (Segment.elements s)) segments
  /\ Forall (everywhere PL PS PE) loops.
Proof.
  intros HL Hrun.
  eapply importProperties_Forall; [exact HL | | exact Hrun | constructor | constructor].
  intros. apply importOpenAPISegment_entities.
Qed.

Lemma importOpenAPILoop_everywhere :
  forall depth loopSchema allSchemas maxUse isRequired order w l w',
    importOpenAPILoop depth loopSchema allSchemas maxUse isRequired order w = Some (l, w') ->
    everywhere PL PS PE l.
Proof.
  induction depth as [|depth IH];
    intros loopSchema allSchemas maxUse isRequired order w l w' Hrun.
  - discriminate Hrun.
  - rewrite importOpenAPILoop_run in Hrun.
    destruct (importProperties _ _ _ _ _ _ _ w) as [[[segments loops] w1]|] eqn:Ec;
      [|discriminate].
    injection Hrun as <- <-.
    apply importProperties_entities in Ec; [|exact IH].
    destruct Ec as [FS FL].
    apply everywhere_intro; simpl; [|exact FL].
    split; [apply loop_built | exact FS].
Qed.

Lemma importOpenAPIFormat_everywhere :
  forall depth parsed w spec w',
    importOpenAPIFormat depth parsed w = Some (Returns spec, w') ->
    Forall PL (spec_loops spec)
    /\ Forall PS (spec_segments spec)
    /\ Forall PE (spec_elements spec).
Proof.
  intros depth parsed w spec w' Hrun.
  rewrite importOpenAPIFormat_run in Hrun.
  destruct (findTransactionSet (schemasOf parsed)) as [[transactionSetId root]|];
    [|discriminate].
  destruct (importProperties _ _ _ _ _ _ _ w) as [[[segments loops] w1]|] eqn:Ec;
    [|discriminate].
  injection Hrun as <- <-.
  apply importProperties_entities in Ec; [|apply importOpenAPILoop_everywhere].
  destruct Ec as [FS FL].
  apply everywhere_spec. simpl. constructor; [|constructor].
  apply everywhere_intro; simpl; [|exact FL].
  split; [|exact FS].
  exact (loop_built _ _ _ true _ _ _ _).
Qed.

End SchemaEntities.

(** ** Every entity the legacy converter builds *)

Section OpenEDILoopInduction.

Variable P : OpenEDILoop -> Prop.
Hypothesis nested : forall l, (forall c, In c (nestedLoopsOf l) -> P c) -> P l.

Lemma OpenEDILoop_nested_ind : forall l, P l.
Proof.
  fix IH 1. intros l. apply nested.
  destruct l as [Id Name Req Max Segments Loops]. unfold nestedLoopsOf. simpl.
  destruct Loops as [ls|]; [|intros c []].
  induction ls as [|x r IHr]; intros c I; [destruct I|].
  destruct I as [E|I].
  - subst c. apply IH.
  - apply IHr. exact I.
Qed.

End OpenEDILoopInduction.

Lemma convertSegment_run openEDISegment w :
  convertSegment openEDISegment w
  = let (elements, w1) :=
      mapi_gen (fun el idx => convertElement el (JS.add (JS.Finite (Z.of_nat idx)) (JS.Finite 1)))
        (match OpenEDISegment.Elements openEDISegment with Some es => es | None => [] end)
        0%nat (drawn w) in
    (legacySegment (uuids w) (OpenEDISegment.Id openEDISegment)
       (JS.or_string (OpenEDISegment.Name openEDISegment) (OpenEDISegment.Id openEDISegment))
       (parseUsage (OpenEDISegment.Req openEDISegment))
       (JS.or_number (OpenEDISegment.Max openEDISegment) 1)
       elements,
     w1).
Proof.
  unfold convertSegment, bind, ret, uuidv4, drawn.
  destruct (mapi_gen _ _ _ _) as [elements w1]. reflexivity.
Qed.

Lemma convertLoop_run openEDILoop w :
  convertLoop openEDILoop w
  = let (segments, w1) :=
      map_gen convertSegment
        (match OpenEDILoop.Segments openEDILoop with Some ss => ss | None => [] end)
        (drawn w) in
    let (loops, w2) := map_gen convertLoop (nestedLoopsOf openEDILoop) w1 in
    (legacyLoop (uuids w)
       (JS.or_string (OpenEDILoop.Id openEDILoop) (OpenEDILoop.Name openEDILoop))
       (Some (OpenEDILoop.Name openEDILoop))
       (parseUsage (OpenEDILoop.Req openEDILoop))
       (JS.or_number (OpenEDILoop.Max openEDILoop) 1)
       segments loops,
     w2).
Proof.
  destruct openEDILoop as [Id Name Req Max Segments Loops].
  unfold nestedLoopsOf. simpl. unfold bind, ret, uuidv4, drawn. simpl.
  destruct (map_gen convertSegment _ _) as [segments w1].
  destruct Loops as [ls|]; simpl.
  - destruct (map_gen convertLoop ls w1) as [loops w2]. reflexivity.
  - reflexivity.
Qed.

Section LegacyEntities.

Variable PL : Loop -> Prop.
Variable PS : Segment -> Prop.
Variable PE : Element -> Prop.

Hypothesis element_built :
  forall openEDIElement position w, PE (fst (convertElement openEDIElement position w)).
Hypothesis segment_built :
  forall id name description usage maxUse elements,
    PS (legacySegment id name description usage maxUse elements).
Hypothesis loop_built :
  forall id name description usage maxUse segments loops,
    PL (legacyLoop id name description usage maxUse segments loops).

Lemma convertSegment_entities openEDISegment w :
  PS (fst (convertSegment openEDISegment w))
  /\ Forall PE (Segment.elements (fst (convertSegment openEDISegment w))).
Proof.
  rewrite convertSegment_run.
  pose proof (mapi_gen_Forall (fun el idx => convertElement el (JS.add (JS.Finite (Z.of_nat idx)) (JS.Finite 1))) PE
                (match OpenEDISegment.Elements openEDISegment with
                 | Some es => es | None => [] end)
                (fun x i w' => element_built x (JS.add (JS.Finite (Z.of_nat i)) (JS.Finite 1)) w') 0%nat (drawn w)) as F.
  destruct (mapi_gen _ _ _ _) as [elements w1]. simpl in *.
  split; [apply segment_built | exact F].
Qed.

Lemma convertLoop_everywhere :
  forall openEDILoop w, everywhere PL PS PE (fst (convertLoop openEDILoop w)).
Proof.
  induction openEDILoop as [l IH] using OpenEDILoop_nested_ind. intros w.
  rewrite convertLoop_run.
  pose proof (map_gen_Forall convertSegment
                (fun s => PS s /\ Forall PE (Segment.elements s))
                (match OpenEDILoop.Segments l with Some ss => ss | None => [] end)
                (fun x _ w' => convertSegment_entities x w') (drawn w)) as FS.
  destruct (map_gen convertSegment _ _) as [segments w1].
  pose proof (map_gen_Forall convertLoop (everywhere PL PS PE) (nestedLoopsOf l) IH w1)
    as FL.
  destruct (map_gen convertLoop _ _) as [loops w2]. simpl in *.
  apply everywhere_intro; simpl; [|exact FL].
  split; [apply loop_built | exact FS].
Qed.

Lemma importOpenEDISpec_everywhere :
  forall openEDISpec w,
    let spec := fst (importOpenEDISpec openEDISpec w) in
    Forall PL (spec_loops spec)
    /\ Forall PS (spec_segments spec)
    /\ Forall PE (spec_elements spec).
Proof.
  intros openEDISpec w spec. apply everywhere_spec. subst spec.
  unfold importOpenEDISpec, bind, ret, now, uuidv4.
  pose proof (map_gen_Forall convertLoop (everywhere PL PS PE)
                (match OpenEDITransactionSet.Loops openEDISpec with
                 | Some ls => ls | None => [] end)
                (fun x _ w' => convertLoop_everywhere x w')
                (mkWorld (S (uuids w)) (arrays w) (clock w))) as F.
  destruct (map_gen convertLoop _ _) as [loops w1]. simpl in *. exact F.
Qed.

End LegacyEntities.

(** ** Code lists and their copies *)

Lemma convertElement_run el position w :
  convertElement el position w
  = match map convertCode (codesOf el) with
    | [] =>
        (Element.mk (uuids w) position
           (JS.or_string (OpenEDIElement.Name el) (OpenEDIElement.Id el))
           (JS.or_string (OpenEDIElement.DataType el) "AN")
           (JS.or_number (OpenEDIElement.MinLength el) 0)
           (JS.or_number (OpenEDIElement.MaxLength el) 0)
           (parseUsage (OpenEDIElement.Req el))
           None (Some (parseUsage (OpenEDIElement.Req el))) None,
         mkWorld (S (uuids w)) (S (arrays w)) (clock w))
    | codes =>
        (Element.mk (uuids w) position
           (JS.or_string (OpenEDIElement.Name el) (OpenEDIElement.Id el))
           (JS.or_string (OpenEDIElement.DataType el) "AN")
           (JS.or_number (OpenEDIElement.MinLength el) 0)
           (JS.or_number (OpenEDIElement.MaxLength el) 0)
           (parseUsage (OpenEDIElement.Req el))
           (Some (mkCodeArray (arrays w) codes))
           (Some (parseUsage (OpenEDIElement.Req el)))
           (Some (mkCodeArray (S (arrays w)) codes)),
         mkWorld (S (uuids w)) (S (S (arrays w))) (clock w))
    end.
Proof.
  unfold convertElement, codesOf, bind, ret, new_array, uuidv4. simpl.
  destruct (map convertCode _) as [|c cs]; reflexivity.
Qed.

Lemma convertElement_snapshot el position w :
  element_snapshot (fst (convertElement el position w))
  /\ codes_nonempty (fst (convertElement el position w)).
Proof.
  rewrite convertElement_run. unfold element_snapshot, codes_snapshot, codes_nonempty.
  destruct (map convertCode (codesOf el)) as [|c cs]; simpl.
  - auto.
  - repeat split; auto. discriminate.
Qed.

(** The array the [allOf] loop leaves in [codeValues] was allocated before
    the loop ended. *)
Lemma allOfCodes_allocated allSchemas allOf :
  forall codeValues w,
    (forall c, codeValues = Some c -> (address c < arrays w)%nat) ->
    forall c, fst (allOfCodes allSchemas allOf codeValues w) = Some c ->
              (address c < arrays (snd (allOfCodes allSchemas allOf codeValues w)))%nat.
Proof.
  induction allOf as [|r rest IH]; intros codeValues w Hc c; simpl.
  - unfold ret. simpl. apply Hc.
  - destruct (JS.truthy (ref r)) as [target|]; [|apply IH; exact Hc].
    destruct (JS.get allSchemas (schema_name target)) as [refSchema| |];
      try (apply IH; exact Hc).
    destruct (OpenAPISchemaDefinition.enum refSchema) as [codes|]; [|apply IH; exact Hc].
    unfold bind, new_array. apply IH. simpl.
    intros c' E. injection E as <-. simpl. lia.
Qed.

Lemma importOpenAPIElement_snapshot schema allSchemas entry w :
  element_snapshot (fst (importOpenAPIElement schema allSchemas entry w)).
Proof.
  destruct entry as [propKey prop].
  assert (T : forall referenced w1,
             (forall c, referenced = Some c -> (address c < arrays w1)%nat) ->
             element_snapshot
               (fst ((codeValues <- match OpenAPIProperty.enum prop with
                                    | Some codes =>
                                        (inline <- new_array (map enumCode codes) ;;
                                         ret (Some inline))
                                    | None => ret referenced
                                    end ;;
                      id <- uuidv4 ;;
                      baseCodes <- match codeValues with
                                   | Some cv =>
                                       (copy <- new_array (items cv) ;; ret (Some copy))
                                   | None => ret None
                                   end ;;
                      ret (Element.mk id (getElementPosition propKey)
                             (parseElementNameFromKey propKey)
                             (parseDataTypeFromFormat (OpenAPIProperty.format prop))
                             (JS.or_number (OpenAPIProperty.minLength prop) 0)
                             (JS.or_number (OpenAPIProperty.maxLength prop) 0)
                             (if match OpenAPISchemaDefinition.required schema with
                                 | Some req => JS.array_includes req propKey
                                 | None => false
                                 end then Usage.M else Usage.O)
                             codeValues
                             (Some (if match OpenAPISchemaDefinition.required schema with
                                       | Some req => JS.array_includes req propKey
                                       | None => false
                                       end then Usage.M else Usage.O))
                             baseCodes))%gen w1))).
  { intros referenced w1 A.
    unfold element_snapshot, codes_snapshot, bind, ret, uuidv4, new_array.
    destruct (OpenAPIProperty.enum prop) as [codes|]; simpl.
    - repeat split; auto.
    - destruct referenced as [c|]; simpl.
      + specialize (A c eq_refl). repeat split; auto. lia.
      + auto. }
  unfold importOpenAPIElement.
  destruct (OpenAPIProperty.allOf prop) as [allOf|].
  - pose proof (@allOfCodes_allocated allSchemas allOf None w) as A.
    unfold bind at 1.
    destruct (allOfCodes allSchemas allOf None w) as [referenced w1]. simpl in A.
    apply T. apply A. discriminate.
  - unfold bind at 1. unfold ret at 1. apply T. discriminate.
Qed.

Lemma importOpenAPIElement_codes schema allSchemas propKey prop w :
  let e := fst (importOpenAPIElement schema allSchemas (propKey, prop) w) in
  (OpenAPIProperty.enum prop = None -> OpenAPIProperty.allOf prop = None ->
   Element.codeValues e = None /\ Element.baseCodes e = None)
  /\ (forall codes, OpenAPIProperty.enum prop = Some codes ->
        exists working base,
          Element.codeValues e = Some working /\ Element.baseCodes e = Some base
          /\ items working = map enumCode codes).
Proof.
  unfold importOpenAPIElement, bind, ret, uuidv4, new_array. split.
  - intros -> ->. simpl. auto.
  - intros codes ->.
    destruct (match OpenAPIProperty.allOf prop with
              | Some allOf => allOfCodes allSchemas allOf None
              | None => fun w0 => (None, w0)
              end w) as [referenced w1].
    simpl. eauto.
Qed.

Lemma importOpenAPIElement_usage schema allSchemas propKey prop w :
  Element.usage (fst (importOpenAPIElement schema allSchemas (propKey, prop) w))
  = if JS.array_includes (requiredOf schema) propKey then Usage.M else Usage.O.
Proof.
  unfold importOpenAPIElement, bind, ret, requiredOf.
  repeat match goal with
         | |- context [let (_, _) := ?m in _] => destruct m
         end.
  simpl. destruct (OpenAPISchemaDefinition.required schema); reflexivity.
Qed.

(** ** Termination of the loop conversion *)

Lemma importProperties_extends importLoop1 importLoop2 allSchemas requiredItems :
  (forall d s m r o w res,
      importLoop1 d s m r o w = Some res -> importLoop2 d s m r o w = Some res) ->
  forall entries itemOrder segments nestedLoops w res,
    importProperties importLoop1 allSchemas requiredItems entries
      itemOrder segments nestedLoops w = Some res ->
    importProperties importLoop2 allSchemas requiredItems entries
      itemOrder segments nestedLoops w = Some res.
Proof.
  intros H. induction entries as [|entry rest IH];
    intros itemOrder segments nestedLoops w res Hrun.
  - exact Hrun.
  - rewrite importProperties_step in *.
    destruct (kindOf allSchemas entry) as [| |refSchema|segmentId refSchema].
    + apply IH. exact Hrun.
    + apply IH. exact Hrun.
    + unfold andThen in *.
      destruct (importLoop1 _ _ _ _ _ w) as [[l w1]|] eqn:E1; [|discriminate].
      rewrite (H _ _ _ _ _ _ _ E1). apply IH. exact Hrun.
    + unfold andThen, lift in *.
      destruct (importOpenAPISegment _ _ _ _ _ w) as [s w1].
      apply IH. exact Hrun.
Qed.

(** More depth does not change a result. *)
Lemma importOpenAPILoop_deeper :
  forall depth depth' loopSchema allSchemas maxUse isRequired order w res,
    (depth <= depth')%nat ->
    importOpenAPILoop depth loopSchema allSchemas maxUse isRequired order w = Some res ->
    importOpenAPILoop depth' loopSchema allSchemas maxUse isRequired order w = Some res.
Proof.
  induction depth as [|depth IH];
    intros depth' loopSchema allSchemas maxUse isRequired order w res Hle Hrun.
  - discriminate Hrun.
  - destruct depth' as [|depth']; [lia|].
    rewrite importOpenAPILoop_run in *.
    destruct (importProperties (importOpenAPILoop depth) _ _ _ _ _ _ w)
      as [[[segments loops] w1]|] eqn:E; [|discriminate].
    rewrite (importProperties_extends (importOpenAPILoop depth) (importOpenAPILoop depth')
               allSchemas (requiredOf loopSchema)
               (fun d s m r o w0 res0 H0 =>
                  IH depth' d s m r o w0 res0 (le_S_n _ _ Hle) H0)
               _ _ _ _ _ E).
    exact Hrun.
Qed.

(** The loop over the properties returns when the conversions it calls do. *)
Lemma importProperties_returns importLoop allSchemas requiredItems :
  forall entries,
    (forall c, In c (loopReferencesOf allSchemas entries) ->
               forall m r o w, exists l w', importLoop c allSchemas m r o w = Some (l, w')) ->
    forall itemOrder segments nestedLoops w,
    exists segments' nestedLoops' w',
      importProperties importLoop allSchemas requiredItems entries
        itemOrder segments nestedLoops w = Some ((segments', nestedLoops'), w').
Proof.
  induction entries as [|entry rest IH]; intros H itemOrder segments nestedLoops w.
  - simpl. unfold done. eauto.
  - rewrite importProperties_step. simpl in H.
    destruct (kindOf allSchemas entry) as [| |refSchema|segmentId refSchema].
    + apply IH. exact H.
    + apply IH. exact H.
    + unfold andThen.
      destruct (H refSchema (or_introl eq_refl) (itemMaxUseOf (snd entry))
                  (JS.array_includes requiredItems (fst entry)) (Some itemOrder) w)
        as (l & w1 & ->).
      apply IH. intros c Hc. apply H. right. exact Hc.
    + unfold andThen, lift.
      destruct (importOpenAPISegment _ _ _ _ _ w) as [s w1].
      apply IH. exact H.
Qed.

(** A run of the loop over the properties that returned has called the
    conversion of every loop definition the properties refer to, and each
    call returned. *)
Lemma importProperties_called importLoop allSchemas requiredItems :
  forall entries itemOrder segments nestedLoops w res,
    importProperties importLoop allSchemas requiredItems entries
      itemOrder segments nestedLoops w = Some res ->
    forall c, In c (loopReferencesOf allSchemas entries) ->
              exists m r o w0 res0, importLoop c allSchemas m r o w0 = Some res0.
Proof.
  induction entries as [|entry rest IH];
    intros itemOrder segments nestedLoops w res Hrun c Hc.
  - destruct Hc.
  - rewrite importProperties_step in Hrun. simpl in Hc.
    destruct (kindOf allSchemas entry) as [| |refSchema|segmentId refSchema].
    + eapply IH; eassumption.
    + eapply IH; eassumption.
    + unfold andThen in Hrun.
      destruct (importLoop refSchema _ _ _ _ w) as [[l w1]|] eqn:E; [|discriminate].
      destruct Hc as [<- | Hc].
      * eauto 6.
      * eapply IH; eassumption.
    + unfold andThen, lift in Hrun.
      destruct (importOpenAPISegment _ _ _ _ _ w) as [s w1].
      eapply IH; eassumption.
Qed.

Lemma importOpenAPILoop_grounded :
  forall depth loopSchema allSchemas maxUse isRequired order w res,
    importOpenAPILoop depth loopSchema allSchemas maxUse isRequired order w = Some res ->
    Grounded allSchemas loopSchema.
Proof.
  induction depth as [|depth IH];
    intros loopSchema allSchemas maxUse isRequired order w res Hrun.
  - discriminate Hrun.
  - rewrite importOpenAPILoop_run in Hrun.
    destruct (importProperties (importOpenAPILoop depth) _ _ _ _ _ _ w)
      as [[[segments loops] w1]|] eqn:E; [|discriminate].
    constructor. intros c Hc. unfold refersTo, loopReferences in Hc.
    eapply importProperties_called with (c := c) in E; [|exact Hc].
    destruct E as (m & r & o & w0 & res0 & H0).
    eapply IH. exact H0.
Qed.

(** One depth serves all the definitions of a list. *)
Lemma common_depth allSchemas (cs : list OpenAPISchemaDefinition) :
  (forall c, In c cs ->
     exists depth, forall m r o w, exists l w',
       importOpenAPILoop depth c allSchemas m r o w = Some (l, w')) ->
  exists depth, forall c, In c cs -> forall m r o w, exists l w',
    importOpenAPILoop depth c allSchemas m r o w = Some (l, w').
Proof.
  induction cs as [|c cs IH]; intros H.
  - exists 0%nat. intros c [].
  - destruct (H c (or_introl eq_refl)) as [d1 H1].
    destruct IH as [d2 H2]; [intros c' Hc'; apply H; right; exact Hc'|].
    exists (Nat.max d1 d2). intros c' [<- | Hc'] m r o w.
    + destruct (H1 m r o w) as (l & w' & E). exists l, w'.
      eapply importOpenAPILoop_deeper; [|exact E]. lia.
    + destruct (H2 c' Hc' m r o w) as (l & w' & E). exists l, w'.
      eapply importOpenAPILoop_deeper; [|exact E]. lia.
Qed.

Lemma Grounded_returns allSchemas loopSchema :
  Grounded allSchemas loopSchema ->
  exists depth, forall m r o w, exists l w',
    importOpenAPILoop depth loopSchema allSchemas m r o w = Some (l, w').
Proof.
  induction 1 as [d _ IH].
  destruct (common_depth allSchemas (loopReferences allSchemas d) IH) as [depth Hd].
  exists (S depth). intros m r o w. rewrite importOpenAPILoop_run.
  destruct (importProperties_returns (importOpenAPILoop depth) allSchemas (requiredOf d)
              (propertiesOf d)) with (itemOrder := 0) (segments := @nil Segment)
              (nestedLoops := @nil Loop) (w := w) as (segments & loops & w1 & E).
  - intros c Hc. apply Hd. exact Hc.
  - rewrite E. eauto.
Qed.

Lemma Returning_iff_Grounded allSchemas loopSchema :
  Returning allSchemas loopSchema <-> Grounded allSchemas loopSchema.
Proof.
  split.
  - intros [depth H].
    destruct (H 1 false None Sample.world) as (l & w' & E).
    eapply importOpenAPILoop_grounded. apply (E depth). lia.
  - intros G. destruct (Grounded_returns G) as [depth H].
    exists depth. intros m r o w. destruct (H m r o w) as (l & w' & E).
    exists l, w'. intros depth' Hle.
    eapply importOpenAPILoop_deeper; eassumption.
Qed.

(** *** Reference cycles *)

Lemma Reaches_snoc allSchemas a b c :
  Reaches allSchemas a b -> refersTo allSchemas b c -> Reaches allSchemas a c.
Proof.
  induction 1 as [d e H | d e f H _ IH]; intros Hc.
  - eapply Reaches_trans; [exact H|]. apply Reaches_step. exact Hc.
  - eapply Reaches_trans; [exact H|]. apply IH. exact Hc.
Qed.

Lemma Grounded_Reaches allSchemas d c :
  Grounded allSchemas d -> Reaches allSchemas d c -> Grounded allSchemas c.
Proof.
  intros G R. induction R as [d c H | d c e H _ IH].
  - destruct G as [d G]. apply G. exact H.
  - apply IH. destruct G as [d G]. apply G. exact H.
Qed.

Lemma Grounded_irreflexive allSchemas d :
  Grounded allSchemas d -> ~ Reaches allSchemas d d.
Proof.
  induction 1 as [d _ IH]. intros R.
  inversion R as [? ? H | ? c ? H Rc]; subst.
  - exact (IH d H R).
  - apply (IH c H). eapply Reaches_snoc; eassumption.
Qed.

Lemma ReachesCycle_not_Grounded allSchemas d :
  ReachesCycle allSchemas d -> ~ Grounded allSchemas d.
Proof.
  intros [R | (c & R & Rc)] G.
  - exact (Grounded_irreflexive G R).
  - exact (Grounded_irreflexive (Grounded_Reaches G R) Rc).
Qed.

Lemma ReachesCycle_Diverging allSchemas d :
  ReachesCycle allSchemas d -> Diverging allSchemas d.
Proof.
  intros Hc depth maxUse isRequired order w.
  destruct (importOpenAPILoop depth d allSchemas maxUse isRequired order w) as [res|] eqn:E;
    [|reflexivity].
  exfalso. eapply ReachesCycle_not_Grounded; [exact Hc|].
  eapply importOpenAPILoop_grounded. exact E.
Qed.

(** *** A mapping is finite: chains that do not end run into a cycle *)

Lemma definition_eq_dec (a b : OpenAPISchemaDefinition) : {a = b} + {a <> b}.
Proof. repeat decide equality. Qed.

Lemma own_In (A : Type) (m : list (string * A)) (k : string) (v : A) :
  JS.own m k = Some v -> In v (map snd m).
Proof.
  induction m as [|[k' v'] r IH]; simpl; [discriminate|].
  destruct (String.eqb k k').
  - intros H. injection H as ->. left. reflexivity.
  - intros H. right. apply IH. exact H.
Qed.

Lemma kindOf_LoopLike_In allSchemas entry c :
  kindOf allSchemas entry = LoopLike c -> In c (map snd allSchemas).
Proof.
  unfold kindOf, JS.get.
  destruct (String.eqb (fst entry) "Model"); [discriminate|].
  destruct (JS.truthy (refNameOf (snd entry))) as [refName|]; [|discriminate].
  destruct (JS.own allSchemas refName) as [refSchema|] eqn:Eo.
  - destruct (JS.truthy (OpenAPISchemaDefinition.x_openedi_loop_id refSchema)).
    + intros H. injection H as <-. eapply own_In. exact Eo.
    + destruct (JS.truthy (OpenAPISchemaDefinition.x_openedi_segment_id refSchema));
        discriminate.
  - destruct (JS.inherited refName); discriminate.
Qed.

Lemma refersTo_In allSchemas d c :
  refersTo allSchemas d c -> In c (map snd allSchemas).
Proof.
  unfold refersTo, loopReferences.
  induction (propertiesOf d) as [|entry rest IH]; simpl; [intros []|].
  destruct (kindOf allSchemas entry) as [| |refSchema|segmentId refSchema] eqn:K;
    try exact IH.
  intros [<- | H]; [|exact (IH H)].
  eapply kindOf_LoopLike_In. exact K.
Qed.

Lemma Chain_In allSchemas d path :
  Chain allSchemas d path -> incl path (map snd allSchemas).
Proof.
  induction 1 as [d | d c rest R _ IH]; intros x Hx.
  - destruct Hx.
  - destruct Hx as [<- | Hx]; [eapply refersTo_In; exact R | exact (IH x Hx)].
Qed.

(** Either some chain from [d] has [n] steps, or all chains from [d] end. *)
Lemma chain_or_grounded allSchemas :
  forall n d,
    (exists path, Chain allSchemas d path /\ length path = n) \/ Grounded allSchemas d.
Proof.
  induction n as [|n IH]; intros d.
  - left. exists []. split; [constructor | reflexivity].
  - assert (H : forall cs,
               (exists c path, In c cs /\ Chain allSchemas c path /\ length path = n)
               \/ (forall c, In c cs -> Grounded allSchemas c)).
    { induction cs as [|c cs IHcs].
      - right. intros c [].
      - destruct (IH c) as [(path & Hp & Hn) | G].
        + left. exists c, path. split; [left; reflexivity | auto].
        + destruct IHcs as [(c' & path & Hc' & Hp & Hn) | Gs].
          * left. exists c', path. split; [right; exact Hc' | auto].
          * right. intros c' [<- | Hc']; [exact G | exact (Gs c' Hc')]. }
    destruct (H (loopReferences allSchemas d)) as [(c & path & Hc & Hp & Hn) | Gs].
    + left. exists (c :: path). split; [constructor; assumption | simpl; congruence].
    + right. constructor. exact Gs.
Qed.

Lemma repeated_item (l : list OpenAPISchemaDefinition) :
  NoDup l \/ exists x l1 l2 l3, l = (l1 ++ x :: l2 ++ x :: l3)%list.
Proof.
  induction l as [|x l IH].
  - left. constructor.
  - destruct (in_dec definition_eq_dec x l) as [I|N].
    + right. apply in_split in I. destruct I as (l2 & l3 & ->).
      exists x, [], l2, l3. reflexivity.
    + destruct IH as [ND | (y & l1 & l2 & l3 & ->)].
      * left. constructor; assumption.
      * right. exists y, (x :: l1), l2, l3. reflexivity.
Qed.

Lemma Chain_split allSchemas d l1 c l2 :
  Chain allSchemas d (l1 ++ c :: l2)%list ->
  Reaches allSchemas d c /\ Chain allSchemas c l2.
Proof.
  revert d. induction l1 as [|x l1 IH]; intros d H; simpl in H.
  - inversion H; subst. split; [apply Reaches_step|]; assumption.
  - inversion H as [|? ? ? R Hc]; subst. destruct (IH x Hc) as [Rc Hl2].
    split; [|exact Hl2]. eapply Reaches_trans; eassumption.
Qed.

Lemma Grounded_or_ReachesCycle allSchemas d :
  Grounded allSchemas d \/ ReachesCycle allSchemas d.
Proof.
  destruct (chain_or_grounded allSchemas (S (length allSchemas)) d)
    as [(path & Hp & Hn) | G]; [|left; exact G].
  right. destruct (repeated_item path) as [ND | (x & l1 & l2 & l3 & ->)].
  - exfalso. pose proof (NoDup_incl_length ND (Chain_In Hp)) as L.
    rewrite length_map in L. lia.
  - apply Chain_split in Hp. destruct Hp as [Rx Hrest].
    apply Chain_split in Hrest. destruct Hrest as [Rxx _].
    right. exists x. split; assumption.
Qed.

Lemma Grounded_iff_no_cycle allSchemas d :
  Grounded allSchemas d <-> ~ ReachesCycle allSchemas d.
Proof.
  split.
  - intros G C. exact (ReachesCycle_not_Grounded C G).
  - intros N. destruct (Grounded_or_ReachesCycle allSchemas d) as [G | C];
      [exact G | contradiction].
Qed.

(** *** A loop is a finite tree *)

Section LoopInduction.

Variable P : Loop -> Prop.
Hypothesis nested : forall l, (forall c, In c (Loop.loops l) -> P c) -> P l.

Lemma Loop_nested_ind : forall l, P l.
Proof.
  fix IH 1. intros l. apply nested.
  destruct l as [id name description usage minUse maxUse segments loops
                 order baseUsage baseMinUse baseMaxUse]. simpl.
  induction loops as [|x r IHr]; intros c I; [destruct I|].
  destruct I as [E|I].
  - subst c. apply IH.
  - apply IHr. exact I.
Qed.

End LoopInduction.

Lemma in_list_sum (x : nat) (l : list nat) : In x l -> (x <= list_sum l)%nat.
Proof.
  induction l as [|y r IH]; intros I; [destruct I|].
  destruct I as [E|I]; simpl.
  - subst. lia.
  - specialize (IH I). lia.
Qed.

Lemma sub_loops_size : forall l c, In c (sub_loops l) -> (loop_size c <= loop_size l)%nat.
Proof.
  induction l as [l IH] using Loop_nested_ind. intros c Hc.
  destruct l as [id name description usage minUse maxUse segments loops
                 order baseUsage baseMinUse baseMaxUse].
  simpl in *. destruct Hc as [<- | Hc]; [simpl; lia|].
  apply in_flat_map in Hc. destruct Hc as (child & Hchild & Hc).
  specialize (IH child Hchild c Hc).
  assert (loop_size child <= list_sum (map loop_size loops))%nat
    by (apply in_list_sum, in_map; exact Hchild).
  lia.
Qed.

Lemma loop_not_own_descendant (l : Loop) : ~ In l (descendants l).
Proof.
  unfold descendants. intros H. apply in_flat_map in H.
  destruct H as (child & Hchild & Hc).
  apply sub_loops_size in Hc.
  assert (loop_size child <= list_sum (map loop_size (Loop.loops l)))%nat
    by (apply in_list_sum, in_map; exact Hchild).
  destruct l; simpl in *. lia.
Qed.

(** ** The transaction set of a document *)

Lemma findTransactionSet_None entries :
  findTransactionSet entries = None <-> Forall unmarked entries.
Proof.
  induction entries as [|[name schema] rest IH]; simpl.
  - split; [constructor | reflexivity].
  - destruct (JS.truthy (OpenAPISchemaDefinition.x_openedi_message_id schema)) as [v|] eqn:E.
    + split; [discriminate|]. intros F. inversion F as [|? ? U _]; subst.
      unfold unmarked in U. simpl in U. congruence.
    + rewrite IH. split.
      * intros F. constructor; [exact E | exact F].
      * intros F. inversion F; assumption.
Qed.

Lemma findTransactionSet_Some entries transactionSetId root :
  findTransactionSet entries = Some (transactionSetId, root)
  <-> firstMarked entries transactionSetId root.
Proof.
  unfold firstMarked. induction entries as [|[name schema] rest IH]; simpl.
  - split; [discriminate|]. intros (earlier & n & later & E & _).
    destruct earlier; discriminate E.
  - destruct (JS.truthy (OpenAPISchemaDefinition.x_openedi_message_id schema)) as [v|] eqn:Ev.
    + split.
      * intros H. injection H as <- <-. exists [], name, rest. auto.
      * intros (earlier & n & later & E & U & Hid).
        destruct earlier as [|[n0 s0] earlier]; simpl in E; injection E as <- <- ->.
        -- congruence.
        -- inversion U as [|? ? U0 _]; subst. unfold unmarked in U0. simpl in U0. congruence.
    + rewrite IH. split.
      * intros (earlier & n & later & -> & U & Hid).
        exists ((name, schema) :: earlier), n, later. repeat split; auto.
      * intros (earlier & n & later & E & U & Hid).
        destruct earlier as [|[n0 s0] earlier]; simpl in E; injection E as <- <- ->.
        -- congruence.
        -- inversion U; subst. exists earlier, n, later. auto.
Qed.

(** The conversion of a document whose transaction set is [root] returns
    exactly when every chain of loop references from [root] ends. *)
Lemma importOpenAPIFormat_grounded depth parsed w transactionSetId root res :
  findTransactionSet (schemasOf parsed) = Some (transactionSetId, root) ->
  importOpenAPIFormat depth parsed w = Some res ->
  Grounded (schemasOf parsed) root.
Proof.
  intros Hroot Hrun. rewrite importOpenAPIFormat_run, Hroot in Hrun.
  destruct (importProperties (importOpenAPILoop depth) _ _ _ _ _ _ w)
    as [[[segments loops] w1]|] eqn:E; [|discriminate].
  constructor. intros c Hc.
  eapply importProperties_called with (c := c) in E; [|exact Hc].
  destruct E as (m & r & o & w0 & res0 & H0).
  eapply importOpenAPILoop_grounded. exact H0.
Qed.

Lemma importOpenAPIFormat_deeper depth depth' parsed w res :
  (depth <= depth')%nat ->
  importOpenAPIFormat depth parsed w = Some res ->
  importOpenAPIFormat depth' parsed w = Some res.
Proof.
  intros Hle Hrun. rewrite importOpenAPIFormat_run in *.
  destruct (findTransactionSet (schemasOf parsed)) as [[transactionSetId root]|];
    [|exact Hrun].
  destruct (importProperties (importOpenAPILoop depth) _ _ _ _ _ _ w)
    as [[[segments loops] w1]|] eqn:E; [|discriminate].
  rewrite (importProperties_extends (importOpenAPILoop depth) (importOpenAPILoop depth')
             (schemasOf parsed) (requiredOf root)
             (fun d s m r o w0 res0 H0 =>
                @importOpenAPILoop_deeper depth depth' d s m r o w0 res0 Hle H0)
             _ _ _ _ _ E).
  exact Hrun.
Qed.

Lemma importOpenAPIFormat_returns parsed w transactionSetId root :
  findTransactionSet (schemasOf parsed) = Some (transactionSetId, root) ->
  Grounded (schemasOf parsed) root ->
  ReturningFormat parsed w.
Proof.
  intros Hroot G. destruct G as [d G].
  destruct (common_depth (schemasOf parsed) (loopReferences (schemasOf parsed) d)) as [depth Hd].
  { intros c Hc. apply Grounded_returns. apply G. exact Hc. }
  destruct (importProperties_returns (importOpenAPILoop depth) (schemasOf parsed)
              (requiredOf d) (propertiesOf d)) with (itemOrder := 0)
              (segments := @nil Segment) (nestedLoops := @nil Loop) (w := w)
    as (segments & loops & w1 & E).
  { intros c Hc. apply Hd. exact Hc. }
  assert (R : exists spec w', importOpenAPIFormat depth parsed w = Some (Returns spec, w')).
  { rewrite importOpenAPIFormat_run, Hroot, E. eauto. }
  destruct R as (spec & w' & R). exists depth, spec, w'.
  intros depth' Hle. eapply importOpenAPIFormat_deeper; eassumption.
Qed.

(** ** References the mapping does not resolve *)

Lemma kindOf_unresolved allSchemas propKey prop refName :
  JS.truthy (refNameOf prop) = Some refName ->
  JS.own allSchemas refName = None ->
  kindOf allSchemas (propKey, prop)
  = if String.eqb propKey "Model" then Passed
    else if JS.inherited refName then Counted else Passed.
Proof.
  intros Hr Ho. unfold kindOf, JS.get. simpl. rewrite Hr, Ho.
  destruct (String.eqb propKey "Model"); [reflexivity|].
  destruct (JS.inherited refName); reflexivity.
Qed.

(** The order a loop is converted with only shows in its [order] field. *)
Lemma importOpenAPILoop_order depth loopSchema allSchemas maxUse isRequired order w :
  importOpenAPILoop depth loopSchema allSchemas maxUse isRequired order w
  = match importOpenAPILoop depth loopSchema allSchemas maxUse isRequired None w with
    | Some (l, w') => Some (loop_set_order l order, w')
    | None => None
    end.
Proof.
  destruct depth as [|depth]; [reflexivity|].
  rewrite !importOpenAPILoop_run.
  destruct (importProperties _ _ _ _ _ _ _ w) as [[[segments loops] w1]|]; reflexivity.
Qed.

Lemma same_nodes_refl r : same_nodes r r.
Proof. destruct r as [[[s l] w]|]; simpl; auto. Qed.

(** Starting the count elsewhere changes the order indices of the level
    and nothing else. *)
Lemma importProperties_order_shift depth allSchemas requiredItems :
  forall entries n1 n2 segments1 segments2 loops1 loops2 w,
    map (fun s => Segment.set_order s None) segments1
    = map (fun s => Segment.set_order s None) segments2 ->
    map (fun l => loop_set_order l None) loops1
    = map (fun l => loop_set_order l None) loops2 ->
    same_nodes
      (importProperties (importOpenAPILoop depth) allSchemas requiredItems entries
         n1 segments1 loops1 w)
      (importProperties (importOpenAPILoop depth) allSchemas requiredItems entries
         n2 segments2 loops2 w).
Proof.
  induction entries as [|entry rest IH];
    intros n1 n2 segments1 segments2 loops1 loops2 w HS HL.
  - simpl. auto.
  - rewrite !importProperties_step.
    destruct (kindOf allSchemas entry) as [| |refSchema|segmentId refSchema].
    + apply IH; assumption.
    + apply IH; assumption.
    + unfold andThen.
      rewrite (importOpenAPILoop_order depth refSchema allSchemas _ _ (Some n1) w).
      rewrite (importOpenAPILoop_order depth refSchema allSchemas _ _ (Some n2) w).
      destruct (importOpenAPILoop depth refSchema allSchemas _ _ None w) as [[l w1]|];
        [|exact I].
      apply IH; [exact HS|]. rewrite !map_app, HL. reflexivity.
    + unfold andThen, lift.
      destruct (importOpenAPISegment _ _ _ _ _ w) as [s w1].
      apply IH; [|exact HL]. rewrite !map_app, HS. reflexivity.
Qed.

(** ** Document order *)

Section DocumentOrderFacts.

Variable depth : nat.
Variable allSchemas : Schemas.
Variable requiredItems : list string.

(** The loop over the properties files the nodes of the document order
    under their kinds. *)
Lemma importProperties_documentOrder :
  forall entries itemOrder segments nestedLoops w,
    importProperties (importOpenAPILoop depth) allSchemas requiredItems entries
      itemOrder segments nestedLoops w
    = match documentOrder (importOpenAPILoop depth) allSchemas requiredItems entries
              itemOrder w with
      | Some (nodes, w') =>
          Some (((segments ++ segments_of nodes)%list,
                 (nestedLoops ++ loops_of nodes)%list), w')
      | None => None
      end.
Proof.
  induction entries as [|entry rest IH]; intros itemOrder segments nestedLoops w.
  - simpl. unfold done. rewrite !app_nil_r. reflexivity.
  - rewrite importProperties_step. simpl documentOrder.
    destruct (kindOf allSchemas entry) as [| |refSchema|segmentId refSchema].
    + apply IH.
    + apply IH.
    + unfold andThen.
      destruct (importOpenAPILoop depth refSchema _ _ _ _ w) as [[l w1]|]; [|reflexivity].
      rewrite IH.
      destruct (documentOrder _ _ _ rest (itemOrder + 1) w1) as [[nodes w2]|];
        [|reflexivity].
      unfold done. simpl. rewrite <- app_assoc. reflexivity.
    + unfold andThen, lift.
      destruct (importOpenAPISegment _ _ _ _ _ w) as [s w1].
      rewrite IH.
      destruct (documentOrder _ _ _ rest (itemOrder + 1) w1) as [[nodes w2]|];
        [|reflexivity].
      unfold done. simpl. rewrite <- app_assoc. reflexivity.
Qed.

Lemma importOpenAPILoop_order_field loopSchema maxUse isRequired order w l w' :
  importOpenAPILoop depth loopSchema allSchemas maxUse isRequired order w = Some (l, w') ->
  Loop.order l = order.
Proof.
  intros Hrun. destruct depth as [|d]; [discriminate|].
  rewrite importOpenAPILoop_run in Hrun.
  destruct (importProperties _ _ _ _ _ _ _ w) as [[[segments loops] w1]|];
    [|discriminate].
  injection Hrun as <- <-. reflexivity.
Qed.

(** The indices of a level: one per node, in increasing order, counted
    from the start over the properties that resolve. *)
Lemma documentOrder_indices :
  forall entries itemOrder w nodes w',
    documentOrder (importOpenAPILoop depth) allSchemas requiredItems entries itemOrder w
    = Some (nodes, w') ->
    indexed_within itemOrder (length (filter (resolves allSchemas) entries)) nodes
    /\ increasing_order nodes
    /\ length nodes = length (filter (structural allSchemas) entries).
Proof.
  unfold indexed_within, increasing_order.
  induction entries as [|entry rest IH]; intros itemOrder w nodes w' Hrun.
  - injection Hrun as <- <-. repeat split; constructor.
  - simpl in Hrun. simpl filter.
    assert (R : resolves allSchemas entry
                = match kindOf allSchemas entry with Passed => false | _ => true end)
      by reflexivity.
    assert (T : structural allSchemas entry
                = match kindOf allSchemas entry with
                  | LoopLike _ | SegmentLike _ _ => true
                  | _ => false
                  end) by reflexivity.
    rewrite R, T. clear R T.
    destruct (kindOf allSchemas entry) as [| |refSchema|segmentId refSchema] eqn:K.
    + apply IH in Hrun. exact Hrun.
    + apply IH in Hrun. destruct Hrun as (A & B & C).
      repeat split; [|exact B|exact C].
      eapply Forall_impl; [|exact A]. simpl length.
      intros x (k & Hk & Hr). exists k. split; [exact Hk|lia].
    + unfold andThen in Hrun.
      destruct (importOpenAPILoop depth refSchema _ _ _ _ w) as [[l w1]|] eqn:EL;
        [|discriminate].
      apply importOpenAPILoop_order_field in EL.
      destruct (documentOrder _ _ _ rest (itemOrder + 1) w1) as [[later w2]|] eqn:ED;
        [|discriminate].
      injection Hrun as <- <-.
      apply IH in ED. destruct ED as (A & B & C).
      assert (A' : Forall (fun x => exists k, node_order x = Some k
                                    /\ itemOrder < k
                                       < itemOrder + Z.of_nat (S (length
                                           (filter (resolves allSchemas) rest)))) later).
      { eapply Forall_impl; [|exact A].
        intros x (k & Hk & Hr). exists k. split; [exact Hk|lia]. }
      simpl length. repeat split.
      * constructor.
        -- exists itemOrder. simpl. split; [exact EL|lia].
        -- eapply Forall_impl; [|exact A'].
           intros x (k & Hk & Hr). exists k. split; [exact Hk|lia].
      * constructor; [exact B|].
        eapply Forall_impl; [|exact A'].
        intros x (k & Hk & Hr). unfold order_key. simpl. rewrite EL, Hk. lia.
      * f_equal. exact C.
    + unfold andThen, lift in Hrun.
      destruct (importOpenAPISegment _ _ _ _ _ w) as [s w1].
      destruct (documentOrder _ _ _ rest (itemOrder + 1) w1) as [[later w2]|] eqn:ED;
        [|discriminate].
      injection Hrun as <- <-.
      apply IH in ED. destruct ED as (A & B & C).
      assert (A' : Forall (fun x => exists k, node_order x = Some k
                                    /\ itemOrder < k
                                       < itemOrder + Z.of_nat (S (length
                                           (filter (resolves allSchemas) rest)))) later).
      { eapply Forall_impl; [|exact A].
        intros x (k & Hk & Hr). exists k. split; [exact Hk|lia]. }
      simpl length. repeat split.
      * constructor.
        -- exists itemOrder. simpl. split; [reflexivity|lia].
        -- eapply Forall_impl; [|exact A'].
           intros x (k & Hk & Hr). exists k. split; [exact Hk|lia].
      * constructor; [exact B|].
        eapply Forall_impl; [|exact A'].
        intros x (k & Hk & Hr). unfold order_key. simpl. rewrite Hk. lia.
      * f_equal. exact C.
Qed.

(** When every property that resolves is structural, the indices are the
    numbers from the start on, without gaps. *)
Lemma documentOrder_consecutive :
  forall entries itemOrder w nodes w',
    (forall entry, In entry entries ->
                   resolves allSchemas entry = true -> structural allSchemas entry = true) ->
    documentOrder (importOpenAPILoop depth) allSchemas requiredItems entries itemOrder w
    = Some (nodes, w') ->
    map node_order nodes = consecutive itemOrder (length nodes).
Proof.
  induction entries as [|entry rest IH]; intros itemOrder w nodes w' Hs Hrun.
  - injection Hrun as <- <-. reflexivity.
  - simpl in Hrun.
    assert (Hrest : forall e, In e rest ->
              resolves allSchemas e = true -> structural allSchemas e = true)
      by (intros e He; apply Hs; right; exact He).
    pose proof (Hs entry (or_introl eq_refl)) as He. unfold resolves, structural in He.
    destruct (kindOf allSchemas entry) as [| |refSchema|segmentId refSchema] eqn:K.
    + eapply IH; eassumption.
    + specialize (He eq_refl). discriminate He.
    + unfold andThen in Hrun.
      destruct (importOpenAPILoop depth refSchema _ _ _ _ w) as [[l w1]|] eqn:EL;
        [|discriminate].
      apply importOpenAPILoop_order_field in EL.
      destruct (documentOrder _ _ _ rest (itemOrder + 1) w1) as [[later w2]|] eqn:ED;
        [|discriminate].
      injection Hrun as <- <-. simpl. rewrite EL. f_equal.
      eapply IH; eassumption.
    + unfold andThen, lift in Hrun.
      destruct (importOpenAPISegment _ _ _ _ _ w) as [s w1].
      destruct (documentOrder _ _ _ rest (itemOrder + 1) w1) as [[later w2]|] eqn:ED;
        [|discriminate].
      injection Hrun as <- <-. simpl. f_equal.
      eapply IH; eassumption.
Qed.

(** The index of the node of a structural property is the start advanced
    once for every property declared before it whose reference finds a
    value. *)
Lemma documentOrder_index_reached :
  forall before entry after itemOrder w nodes w',
    documentOrder (importOpenAPILoop depth) allSchemas requiredItems
      (before ++ entry :: after) itemOrder w = Some (nodes, w') ->
    structural allSchemas entry = true ->
    nth_error (map node_order nodes) (length (filter (structural allSchemas) before))
    = Some (Some (itemOrder + Z.of_nat (length (filter (resolves allSchemas) before)))).
Proof.
  induction before as [|b before IH]; intros entry after itemOrder w nodes w' Hrun Hs.
  - simpl in Hrun. unfold structural in Hs. simpl.
    destruct (kindOf allSchemas entry) as [| |refSchema|segmentId refSchema] eqn:K;
      try discriminate Hs.
    + unfold andThen in Hrun.
      destruct (importOpenAPILoop depth refSchema _ _ _ _ w) as [[l w1]|] eqn:EL;
        [|discriminate].
      apply importOpenAPILoop_order_field in EL.
      destruct (documentOrder _ _ _ after (itemOrder + 1) w1) as [[later w2]|];
        [|discriminate].
      injection Hrun as <- <-. simpl. rewrite EL, Z.add_0_r. reflexivity.
    + unfold andThen, lift in Hrun.
      destruct (importOpenAPISegment _ _ _ _ _ w) as [s w1].
      destruct (documentOrder _ _ _ after (itemOrder + 1) w1) as [[later w2]|];
        [|discriminate].
      injection Hrun as <- <-. simpl. rewrite Z.add_0_r. reflexivity.
  - cbn [app] in Hrun. simpl documentOrder in Hrun. cbn [filter].
    unfold resolves at 1, structural at 1.
    destruct (kindOf allSchemas b) as [| |refSchema|segmentId refSchema] eqn:K;
      cbv iota.
    + apply (IH _ _ _ _ _ _ Hrun Hs).
    + rewrite (IH _ _ _ _ _ _ Hrun Hs). cbn [length]. do 2 f_equal. lia.
    + unfold andThen in Hrun.
      destruct (importOpenAPILoop depth refSchema _ _ _ _ w) as [[l w1]|]; [|discriminate].
      destruct (documentOrder _ _ _ (before ++ entry :: after)%list (itemOrder + 1) w1)
        as [[later w2]|] eqn:ED; [|discriminate].
      injection Hrun as <- <-. cbn [length map nth_error].
      rewrite (IH _ _ _ _ _ _ ED Hs). do 2 f_equal. lia.
    + unfold andThen, lift in Hrun.
      destruct (importOpenAPISegment _ _ _ _ _ w) as [s w1].
      destruct (documentOrder _ _ _ (before ++ entry :: after)%list (itemOrder + 1) w1)
        as [[later w2]|] eqn:ED; [|discriminate].
      injection Hrun as <- <-. cbn [length map nth_error].
      rewrite (IH _ _ _ _ _ _ ED Hs). do 2 f_equal. lia.
Qed.

(** The indices of a level are the numbers from the start on exactly when
    the properties are [gapless]. *)
Lemma documentOrder_gapless :
  forall entries itemOrder w nodes w',
    documentOrder (importOpenAPILoop depth) allSchemas requiredItems entries itemOrder w
    = Some (nodes, w') ->
    map node_order nodes = consecutive itemOrder (length nodes)
    <-> gapless allSchemas entries = true.
Proof.
  induction entries as [|entry rest IH]; intros itemOrder w nodes w' Hrun.
  - injection Hrun as <- <-. split; reflexivity.
  - simpl in Hrun. simpl gapless. unfold resolves at 1, structural at 1.
    destruct (kindOf allSchemas entry) as [| |refSchema|segmentId refSchema] eqn:K.
    + simpl. eapply IH; exact Hrun.
    + simpl.
      destruct (documentOrder_indices _ _ _ Hrun) as (A & _ & C).
      split.
      * intros E. destruct nodes as [|n later].
        -- symmetry in C. apply length_zero_iff_nil in C.
           apply forallb_forall. intros x Hx.
           destruct (structural allSchemas x) eqn:Sx; [|reflexivity].
           assert (I : In x (filter (structural allSchemas) rest))
             by (apply filter_In; split; assumption).
           rewrite C in I. destruct I.
        -- simpl in E. injection E as E _.
           apply Forall_inv in A. destruct A as (k & Hk & Hr).
           rewrite Hk in E. injection E as ->. lia.
      * intros F.
        assert (N : filter (structural allSchemas) rest = []).
        { clear - F. induction rest as [|x rest IH]; [reflexivity|].
          simpl in F. apply andb_prop in F. destruct F as [Fx F].
          simpl. destruct (structural allSchemas x); [discriminate Fx|].
          apply IH. exact F. }
        rewrite N in C. apply length_zero_iff_nil in C. subst nodes. reflexivity.
    + simpl. unfold andThen in Hrun.
      destruct (importOpenAPILoop depth refSchema _ _ _ _ w) as [[l w1]|] eqn:EL;
        [|discriminate].
      apply importOpenAPILoop_order_field in EL.
      destruct (documentOrder _ _ _ rest (itemOrder + 1) w1) as [[later w2]|] eqn:ED;
        [|discriminate].
      injection Hrun as <- <-. simpl. rewrite EL.
      rewrite <- (IH _ _ _ _ ED). split.
      * intros E. injection E as E. exact E.
      * intros E. f_equal. exact E.
    + simpl. unfold andThen, lift in Hrun.
      destruct (importOpenAPISegment _ _ _ _ _ w) as [s w1].
      destruct (documentOrder _ _ _ rest (itemOrder + 1) w1) as [[later w2]|] eqn:ED;
        [|discriminate].
      injection Hrun as <- <-. simpl.
      rewrite <- (IH _ _ _ _ ED). split.
      * intros E. injection E as E. exact E.
      * intros E. f_equal. exact E.
Qed.

End DocumentOrderFacts.

Lemma level_nodes_permutation (nodes : list Node) :
  Permutation nodes (level_nodes (segments_of nodes) (loops_of nodes)).
Proof.
  unfold level_nodes. induction nodes as [|[s|l] rest IH]; simpl.
  - constructor.
  - apply perm_skip. exact IH.
  - eapply perm_trans; [apply perm_skip; exact IH|].
    apply Permutation_middle.
Qed.

(** Sorting the segments and loops of a level on [order] gives the
    document order. *)
Lemma level_sorted_is_document_order depth allSchemas requiredItems entries w
    segments loops w' :
  importProperties (importOpenAPILoop depth) allSchemas requiredItems entries 0 [] [] w
  = Some ((segments, loops), w') ->
  exists nodes,
    documentOrder (importOpenAPILoop depth) allSchemas requiredItems entries 0 w
    = Some (nodes, w')
    /\ segments = segments_of nodes
    /\ loops = loops_of nodes
    /\ JS.sort by_order (level_nodes segments loops) = nodes.
Proof.
  intros Hrun. rewrite importProperties_documentOrder in Hrun.
  destruct (documentOrder _ _ _ entries 0 w) as [[nodes w1]|] eqn:ED; [|discriminate].
  simpl in Hrun. injection Hrun as <- <- <-.
  exists nodes. repeat split.
  apply (sort_increasing order_key by_order
           (fun a b => sign_sub_finite (order_key a) (order_key b))).
  - apply documentOrder_indices in ED. apply ED.
  - apply level_nodes_permutation.
Qed.

(** ** The conversions on the sample documents *)

Example parseUsage_tokens :
  map parseUsage [Some "M"; Some "O"; Some "C"; Some "X"; None; Some "mandatory"]
  = [Usage.M; Usage.O; Usage.C; Usage.C; Usage.O; Usage.O].
Proof. reflexivity. Qed.

Example getElementPosition_keys :
  map getElementPosition
      ["TransactionSetIdentifierCode_01"; "Date_373"; "N1_Loop"; "Name"; "A_1_2"; "B_"]
  = map JS.Finite [1; 373; 1; 1; 2; 1].
Proof. reflexivity. Qed.

(** An integer of up to 53 bits is a Number as it is; a longer one is
    rounded to 53 bits, to the even neighbour when it is half way, and
    from 2^1024 - 2^970 on the Number is the infinity. *)
Example toNumber_roundings :
  map JS.toNumber
      [0; 1; -7; 2 ^ 53 - 1; 2 ^ 53; 2 ^ 53 + 1; 2 ^ 53 + 2; 2 ^ 53 + 3;
       - (2 ^ 53 + 1); 2 ^ 54 + 2; 2 ^ 54 + 3; 2 ^ 54 + 6;
       2 ^ 1024 - 2 ^ 970 - 1; 2 ^ 1024 - 2 ^ 970; - 2 ^ 1024]
  = [JS.Finite 0; JS.Finite 1; JS.Finite (-7); JS.Finite (2 ^ 53 - 1);
     JS.Finite (2 ^ 53); JS.Finite (2 ^ 53); JS.Finite (2 ^ 53 + 2);
     JS.Finite (2 ^ 53 + 4); JS.Finite (- 2 ^ 53); JS.Finite (2 ^ 54);
     JS.Finite (2 ^ 54 + 4); JS.Finite (2 ^ 54 + 8);
     JS.Finite (2 ^ 1024 - 2 ^ 971); JS.PosInfinity; JS.NegInfinity].
Proof. vm_compute. reflexivity. Qed.

Example parseInt_digits :
  map JS.parseInt ["0"; "01"; "373"; "9007199254740992"; "9007199254740993"; ""]
  = [JS.Finite 0; JS.Finite 1; JS.Finite 373; JS.Finite 9007199254740992;
     JS.Finite 9007199254740992; JS.NaN].
Proof. vm_compute. reflexivity. Qed.

(** A numeral of 400 digits is beyond the doubles. *)
Example parseInt_long_numeral :
  JS.parseInt (string_of_list_ascii (repeat "9"%char 400)) = JS.PosInfinity
  /\ JS.parseInt (string_of_list_ascii (repeat "0"%char 400 ++ ["7"%char])) = JS.Finite 7.
Proof. vm_compute. split; reflexivity. Qed.

Example number_operations :
  JS.add (JS.Finite (2 ^ 53)) (JS.Finite 1) = JS.Finite (2 ^ 53)
  /\ JS.add (JS.Finite (2 ^ 53 - 1)) (JS.Finite 1) = JS.Finite (2 ^ 53)
  /\ JS.add JS.PosInfinity (JS.Finite 1) = JS.PosInfinity
  /\ JS.sub JS.PosInfinity JS.PosInfinity = JS.NaN
  /\ JS.sub (JS.Finite 2) (JS.Finite 5) = JS.Finite (-3)
  /\ JS.Math_max [] = JS.NegInfinity
  /\ JS.Math_max [JS.Finite 3; JS.Finite 7; JS.Finite 5] = JS.Finite 7
  /\ JS.Math_max [JS.Finite 3; JS.NaN; JS.Finite 5] = JS.NaN
  /\ JS.Math_max [JS.Finite 3; JS.PosInfinity] = JS.PosInfinity
  /\ map JS.sign [JS.Finite (-3); JS.Finite 0; JS.Finite 8; JS.NaN; JS.NegInfinity]
     = [-1; 0; 1; 0; -1].
Proof. vm_compute. repeat split. Qed.

Example parseElementNameFromKey_key :
  parseElementNameFromKey "TransactionSetIdentifierCode_01"
  = "Transaction Set Identifier Code".
Proof. reflexivity. Qed.

Example parseDataTypeFromFormat_formats :
  map parseDataTypeFromFormat
      [Some "X12_ID"; Some "x12_n0"; Some "X12_N2"; Some "X12_R"; Some "X12_DT";
       Some "X12_TM"; Some "X12_AN"; Some ""; None]
  = ["ID"; "N0"; "N2"; "R"; "DT"; "TM"; "AN"; "AN"; "AN"].
Proof. reflexivity. Qed.

(** The elements of the sample header segment are declared with position 2
    before position 1, and the segment has them in the order 1, 2. *)
Example sample_segment_positions :
  map Element.position
      (Segment.elements
         (fst (importOpenAPISegment "ST" Sample.ST Sample.invoiceSchemas ["ST"] 1
                 Sample.world)))
  = [JS.Finite 1; JS.Finite 2].
Proof. reflexivity. Qed.

(** The legacy scenario of the specification: one loop [ST_LOOP],
    Mandatory, whose segment has an element with the code 810. *)
Example legacy_invoice :
  let spec := fst (importOpenEDISpec Sample.legacyInvoice Sample.world) in
  Metadata.transactionSet (Specification.metadata spec) = "810"
  /\ Metadata.name (Specification.metadata spec) = "810 - Invoice"
  /\ Metadata.baseSpecReference (Specification.metadata spec) = Some "OpenEDI/005010/810"
  /\ map Loop.name (Specification.loops spec) = ["ST_LOOP"]
  /\ map Loop.usage (Specification.loops spec) = [Usage.M]
  /\ map (fun e => option_map items (Element.codeValues e)) (spec_elements spec)
     = [Some [mkCodeValue "810" "Invoice" true]; None].
Proof. vm_compute. repeat split. Qed.

(** The schema scenario: one top-level loop [TS810] with the segment [ST],
    whose element with the identifier format is Mandatory. *)
Example schema_invoice :
  exists spec w',
    importOpenAPIFormat 1 Sample.invoice Sample.world = Some (Returns spec, w')
    /\ Metadata.name (Specification.metadata spec) = "Invoice"
    /\ map Loop.name (Specification.loops spec) = ["TS810"]
    /\ map Loop.name (spec_loops spec) = ["TS810"; "N1"]
    /\ map Segment.name (spec_segments spec) = ["ST"; "N1"]
    /\ map (fun e => (Element.position e, Element.dataType e, Element.usage e))
         (spec_elements spec)
       = [(JS.Finite 1, "ID", Usage.M); (JS.Finite 2, "AN", Usage.O);
          (JS.Finite 1, "ID", Usage.O)].
Proof. do 2 eexists. split; [vm_compute; reflexivity|]. repeat split. Qed.

(** ** Reference cycles *)

(** C1, as the claim has it, fails: the definition of a hierarchical-level
    loop whose items are hierarchical-level loops refers to itself, the
    conversion follows the reference, and no depth of calls is enough for
    it to return. *)
Lemma self_reference_is_followed :
  refersTo Sample.shipNoticeSchemas Sample.HLLoop Sample.HLLoop
  /\ Diverging Sample.shipNoticeSchemas Sample.HLLoop.
Proof.
  assert (R : refersTo Sample.shipNoticeSchemas Sample.HLLoop Sample.HLLoop)
    by (left; reflexivity).
  split; [exact R|].
  apply ReachesCycle_Diverging. left. apply Reaches_step. exact R.
Qed.

(** C1, amended.  The loop conversion follows every reference to a loop
    definition and keeps no record of the definitions it is in.  It returns
    (within some depth of calls, for all its other arguments, with a result
    that more depth does not change) exactly when the definition is not on
    a cycle of loop references and no chain of loop references leads from
    it to one; otherwise it returns from no depth of calls.  A Loop it
    returns is a finite tree: it is not among its own descendants. *)
Theorem importOpenAPILoop_returns_iff_acyclic :
  forall allSchemas loopSchema,
    (Returning allSchemas loopSchema <-> ~ ReachesCycle allSchemas loopSchema)
    /\ (Diverging allSchemas loopSchema <-> ReachesCycle allSchemas loopSchema)
    /\ (forall depth maxUse isRequired order w l w',
          importOpenAPILoop depth loopSchema allSchemas maxUse isRequired order w
          = Some (l, w') ->
          ~ ReachesCycle allSchemas loopSchema /\ ~ In l (descendants l)).
Proof.
  intros allSchemas loopSchema. split; [|split].
  - rewrite Returning_iff_Grounded. apply Grounded_iff_no_cycle.
  - split; [|apply ReachesCycle_Diverging].
    intros D. destruct (Grounded_or_ReachesCycle allSchemas loopSchema) as [G | C];
      [|exact C].
    exfalso. apply Returning_iff_Grounded in G. destruct G as [depth H].
    destruct (H 1 false None Sample.world) as (l & w' & E).
    specialize (E depth (le_n depth)). rewrite D in E. discriminate E.
  - intros depth maxUse isRequired order w l w' Hrun. split.
    + apply Grounded_iff_no_cycle. eapply importOpenAPILoop_grounded. exact Hrun.
    + apply loop_not_own_descendant.
Qed.

(** The sample invoice has no cycle of loop references, and the conversion
    of its definitions returns. *)
Lemma importOpenAPILoop_returns_iff_acyclic_witness :
  ~ ReachesCycle Sample.invoiceSchemas Sample.invoiceRoot
  /\ Returning Sample.invoiceSchemas Sample.invoiceRoot.
Proof.
  assert (G : Grounded Sample.invoiceSchemas Sample.invoiceRoot).
  { constructor. intros c Hc. destruct Hc as [<- | []].
    constructor. intros c' Hc'. destruct Hc'. }
  assert (N : ~ ReachesCycle Sample.invoiceSchemas Sample.invoiceRoot)
    by (intros C; exact (ReachesCycle_not_Grounded C G)).
  split; [exact N|].
  exact (proj2 (proj1 (importOpenAPILoop_returns_iff_acyclic
                         Sample.invoiceSchemas Sample.invoiceRoot)) N).
Defined.

(** C3.  The usage classifier is a total function on requirement tokens.
    It answers Mandatory exactly on [M] and [m], Conditional exactly on
    [C], [c], [X] and [x], and Optional on every other token, among them
    [O], [o], the empty token and the absent one. *)
Theorem parseUsage_classifies :
  forall req : option string,
    (parseUsage req = Usage.M <-> req = Some "M" \/ req = Some "m")
    /\ (parseUsage req = Usage.C <->
          req = Some "C" \/ req = Some "c" \/ req = Some "X" \/ req = Some "x")
    /\ (parseUsage req = Usage.O <->
          ~ (req = Some "M" \/ req = Some "m" \/ req = Some "C" \/ req = Some "c"
             \/ req = Some "X" \/ req = Some "x"))
    /\ parseUsage (Some "O") = Usage.O
    /\ parseUsage (Some "o") = Usage.O
    /\ parseUsage (Some "") = Usage.O
    /\ parseUsage None = Usage.O.
Proof.
  intros req.
  assert (HM : parseUsage req = Usage.M <-> req = Some "M" \/ req = Some "m").
  { split.
    - destruct req as [r|]; simpl; [|discriminate].
      destruct (String.eqb_spec (JS.toUpperCase r) "M") as [E|_].
      + intros _. apply toUpperCase_single in E. destruct E as (c & -> & E).
        apply upper_char_M in E. destruct E as [-> | ->]; auto.
      + destruct (String.eqb (JS.toUpperCase r) "O"); [discriminate|].
        destruct (String.eqb (JS.toUpperCase r) "C" || String.eqb (JS.toUpperCase r) "X");
          discriminate.
    - intros [-> | ->]; reflexivity. }
  assert (HC : parseUsage req = Usage.C <->
               req = Some "C" \/ req = Some "c" \/ req = Some "X" \/ req = Some "x").
  { split.
    - destruct req as [r|]; simpl; [|discriminate].
      destruct (String.eqb (JS.toUpperCase r) "M"); [discriminate|].
      destruct (String.eqb (JS.toUpperCase r) "O"); [discriminate|].
      destruct (String.eqb_spec (JS.toUpperCase r) "C") as [E|_]; simpl.
      + intros _. apply toUpperCase_single in E. destruct E as (c & -> & E).
        apply upper_char_C in E. destruct E as [-> | ->]; auto.
      + destruct (String.eqb_spec (JS.toUpperCase r) "X") as [E|_]; [|discriminate].
        intros _. apply toUpperCase_single in E. destruct E as (c & -> & E).
        apply upper_char_X in E. destruct E as [-> | ->]; auto.
    - intros [-> | [-> | [-> | ->]]]; reflexivity. }
  split; [exact HM|]. split; [exact HC|].
  split; [|repeat split; reflexivity].
  split.
  - intros HO [H | [H | H]].
    + assert (parseUsage req = Usage.M) by (apply HM; auto). congruence.
    + assert (parseUsage req = Usage.M) by (apply HM; auto). congruence.
    + assert (parseUsage req = Usage.C) by (apply HC; tauto). congruence.
  - intros Hnot.
    assert (NM : parseUsage req <> Usage.M) by (intros E; apply HM in E; tauto).
    assert (NC : parseUsage req <> Usage.C) by (intros E; apply HC in E; tauto).
    destruct (parseUsage req); congruence.
Qed.

(** ** Base snapshots *)

(** C2, as the claim has it, fails on the schema-format converter: an
    element whose enumeration is empty keeps a working list and a base list,
    both empty, where the claim has both omitted. *)
Lemma empty_enumeration_keeps_code_lists :
  exists spec w' e,
    importOpenAPIFormat 0 Sample.noCodes Sample.world = Some (Returns spec, w')
    /\ spec_elements spec = [e]
    /\ Element.codeValues e = Some (mkCodeArray 0 [])
    /\ Element.baseCodes e = Some (mkCodeArray 1 []).
Proof.
  do 3 eexists. split; [vm_compute; reflexivity|].
  split; [vm_compute; reflexivity|]. split; reflexivity.
Qed.

(** C2, amended.  Right after import by either converter every Loop,
    Segment and Element has [baseUsage] equal to [usage], every Loop and
    Segment has [baseMinUse] and [baseMaxUse] equal to [minUse] and
    [maxUse], and every Element has either no code list at all or a base
    list holding the same values as its working list in a different array.
    The legacy converter omits both lists when the source has no codes; the
    schema-format converter omits them when the property has neither an
    inline enumeration nor [allOf] references, and builds both for an
    inline enumeration even when it is empty. *)
Theorem base_snapshot_after_import :
  (forall openEDISpec w,
      let spec := fst (importOpenEDISpec openEDISpec w) in
      Forall loop_snapshot (spec_loops spec)
      /\ Forall segment_snapshot (spec_segments spec)
      /\ Forall element_snapshot (spec_elements spec)
      /\ Forall codes_nonempty (spec_elements spec))
  /\ (forall depth parsed w spec w',
        importOpenAPIFormat depth parsed w = Some (Returns spec, w') ->
        Forall loop_snapshot (spec_loops spec)
        /\ Forall segment_snapshot (spec_segments spec)
        /\ Forall element_snapshot (spec_elements spec))
  /\ (forall openEDIElement position w,
        OpenEDIElement.Codes openEDIElement = None
        \/ OpenEDIElement.Codes openEDIElement = Some [] ->
        Element.codeValues (fst (convertElement openEDIElement position w)) = None
        /\ Element.baseCodes (fst (convertElement openEDIElement position w)) = None)
  /\ (forall schema allSchemas propKey prop w,
        let e := fst (importOpenAPIElement schema allSchemas (propKey, prop) w) in
        (OpenAPIProperty.enum prop = None -> OpenAPIProperty.allOf prop = None ->
         Element.codeValues e = None /\ Element.baseCodes e = None)
        /\ (forall codes, OpenAPIProperty.enum prop = Some codes ->
              exists working base,
                Element.codeValues e = Some working /\ Element.baseCodes e = Some base
                /\ items working = map enumCode codes)).
Proof.
  split; [|split; [|split]].
  - intros openEDISpec w spec.
    destruct (importOpenEDISpec_everywhere
                loop_snapshot segment_snapshot
                (fun e => element_snapshot e /\ codes_nonempty e)) with
      (openEDISpec := openEDISpec) (w := w) as (FL & FS & FE).
    + intros. apply convertElement_snapshot.
    + intros. unfold segment_snapshot. simpl. auto.
    + intros. unfold loop_snapshot. simpl. auto.
    + fold spec in FL, FS, FE. repeat split; try assumption.
      * eapply Forall_impl; [|exact FE]. intros e [H _]. exact H.
      * eapply Forall_impl; [|exact FE]. intros e [_ H]. exact H.
  - intros depth parsed w spec w' Hrun.
    eapply importOpenAPIFormat_everywhere; [| | |exact Hrun].
    + intros. apply importOpenAPIElement_snapshot.
    + intros. unfold segment_snapshot. simpl. auto.
    + intros. unfold loop_snapshot. simpl. auto.
  - intros el position w H. rewrite convertElement_run. unfold codesOf.
    destruct H as [-> | ->]; simpl; auto.
  - intros. apply importOpenAPIElement_codes.
Qed.

(** The snapshots of the sample invoice. *)
Lemma base_snapshot_after_import_witness :
  exists spec w',
    importOpenAPIFormat 1 Sample.invoice Sample.world = Some (Returns spec, w')
    /\ Forall loop_snapshot (spec_loops spec)
    /\ Forall segment_snapshot (spec_segments spec)
    /\ Forall element_snapshot (spec_elements spec).
Proof.
  eexists. eexists. split; [vm_compute; reflexivity|].
  eapply (proj1 (proj2 base_snapshot_after_import) 1%nat Sample.invoice Sample.world).
  vm_compute; reflexivity.
Defined.

(** ** The order index *)

(** C4, as the claim has it, fails: the index is also advanced by a
    property whose reference finds a definition that is neither loop nor
    segment.  The transaction set below has one structural property,
    declared after a reference to a list of codes, and its Segment gets the
    index 1, not 0. *)
Lemma order_counts_unstructured_references :
  exists spec w' mainLoop segment,
    importOpenAPIFormat 0 Sample.codesFirst Sample.world = Some (Returns spec, w')
    /\ Specification.loops spec = [mainLoop]
    /\ Loop.segments mainLoop = [segment]
    /\ Loop.loops mainLoop = []
    /\ filter (structural Sample.codesFirstSchemas) (propertiesOf Sample.codesFirstRoot)
       = [("ST", Sample.reference "ST")]
    /\ Segment.order segment = Some 1.
Proof.
  do 4 eexists. split; [vm_compute; reflexivity|].
  repeat split; reflexivity.
Qed.

(** C4, amended.  At each level the order index advances once for every
    property whose reference finds a value in the mapping, whether the
    value is a loop definition, a segment definition or neither, and each
    structural property gives its node the index reached: the number of
    such properties declared before it.  So the nodes of a level carry
    increasing indices in the order of their properties, and sorting the
    segments and loops of the level together on [order] gives the nodes in
    the declaration order of their properties.  The indices
    are the numbers from 0 on exactly when the properties are [gapless]:
    when no property whose reference found something else is declared
    before a structural one; so they are when no reference found something
    else, and they are not in the transaction set above.
    This holds of every Loop converted from a loop definition and of the
    top-level Loop of the transaction set. *)
Theorem order_reproduces_declaration_order :
  (forall depth allSchemas requiredItems entries w segments loops w',
      importProperties (importOpenAPILoop depth) allSchemas requiredItems entries 0 [] [] w
      = Some ((segments, loops), w') ->
      exists nodes,
        documentOrder (importOpenAPILoop depth) allSchemas requiredItems entries 0 w
        = Some (nodes, w')
        /\ segments = segments_of nodes
        /\ loops = loops_of nodes
        /\ JS.sort by_order (level_nodes segments loops) = nodes
        /\ length nodes = length (filter (structural allSchemas) entries)
        /\ increasing_order nodes
        /\ indexed_within 0 (length (filter (resolves allSchemas) entries)) nodes
        /\ (forall before entry after,
              entries = (before ++ entry :: after)%list ->
              structural allSchemas entry = true ->
              nth_error (map node_order nodes)
                (length (filter (structural allSchemas) before))
              = Some (Some (Z.of_nat (length (filter (resolves allSchemas) before)))))
        /\ (map node_order nodes = consecutive 0 (length nodes)
            <-> gapless allSchemas entries = true)
        /\ ((forall entry, In entry entries ->
               resolves allSchemas entry = true -> structural allSchemas entry = true) ->
            map node_order nodes = consecutive 0 (length nodes)))
  /\ (forall depth loopSchema allSchemas maxUse isRequired order w l w',
        importOpenAPILoop (S depth) loopSchema allSchemas maxUse isRequired order w
        = Some (l, w') ->
        exists nodes w1,
          documentOrder (importOpenAPILoop depth) allSchemas (requiredOf loopSchema)
            (propertiesOf loopSchema) 0 w = Some (nodes, w1)
          /\ JS.sort by_order (level_nodes (Loop.segments l) (Loop.loops l)) = nodes)
  /\ (forall depth parsed w spec w',
        importOpenAPIFormat depth parsed w = Some (Returns spec, w') ->
        exists transactionSetId root mainLoop nodes w1,
          findTransactionSet (schemasOf parsed) = Some (transactionSetId, root)
          /\ Specification.loops spec = [mainLoop]
          /\ documentOrder (importOpenAPILoop depth) (schemasOf parsed) (requiredOf root)
               (propertiesOf root) 0 w = Some (nodes, w1)
          /\ JS.sort by_order (level_nodes (Loop.segments mainLoop) (Loop.loops mainLoop))
             = nodes).
Proof.
  split; [|split].
  - intros depth allSchemas requiredItems entries w segments loops w' Hrun.
    destruct (level_sorted_is_document_order _ _ _ _ _ Hrun) as (nodes & D & ES & EL & S).
    exists nodes.
    destruct (documentOrder_indices _ _ _ _ _ _ D) as (A & B & C).
    pose proof (@documentOrder_gapless _ _ _ _ _ _ _ _ D) as G.
    repeat split; try assumption; try apply G.
    + intros before entry after -> Hs.
      exact (@documentOrder_index_reached _ _ _ before entry after 0 _ _ _ D Hs).
    + intros Hs. eapply documentOrder_consecutive; eassumption.
  - intros depth loopSchema allSchemas maxUse isRequired order w l w' Hrun.
    rewrite importOpenAPILoop_run in Hrun.
    destruct (importProperties _ _ _ _ _ _ _ w) as [[[segments loops] w1]|] eqn:E;
      [|discriminate].
    injection Hrun as <- <-.
    destruct (level_sorted_is_document_order _ _ _ _ _ E) as (nodes & D & _ & _ & S).
    exists nodes, w1. split; [exact D | exact S].
  - intros depth parsed w spec w' Hrun.
    rewrite importOpenAPIFormat_run in Hrun.
    destruct (findTransactionSet (schemasOf parsed)) as [[transactionSetId root]|];
      [|discriminate].
    destruct (importProperties _ _ _ _ _ _ _ w) as [[[segments loops] w1]|] eqn:E;
      [|discriminate].
    injection Hrun as <- <-.
    destruct (level_sorted_is_document_order _ _ _ _ _ E) as (nodes & D & _ & _ & S).
    exists transactionSetId, root, (mainLoopOf (uuids w1) transactionSetId segments loops),
      nodes, w1.
    repeat split; assumption.
Qed.

(** The top level of the sample invoice: the segment [ST] with index 0 and
    the loop [N1] with index 1. *)
Lemma order_reproduces_declaration_order_witness :
  exists segments loops w' nodes,
    importProperties (importOpenAPILoop 1) Sample.invoiceSchemas ["ST"]
      (propertiesOf Sample.invoiceRoot) 0 [] [] Sample.world
    = Some ((segments, loops), w')
    /\ documentOrder (importOpenAPILoop 1) Sample.invoiceSchemas ["ST"]
         (propertiesOf Sample.invoiceRoot) 0 Sample.world
       = Some (nodes, w')
    /\ JS.sort by_order (level_nodes segments loops) = nodes
    /\ map node_order nodes = [Some 0; Some 1].
Proof.
  destruct (importProperties (importOpenAPILoop 1) Sample.invoiceSchemas ["ST"]
              (propertiesOf Sample.invoiceRoot) 0 [] [] Sample.world)
    as [[[segments loops] w']|] eqn:E; [|vm_compute in E; discriminate E].
  destruct (proj1 order_reproduces_declaration_order _ _ _ _ _ _ _ _ E)
    as (nodes & D & _ & _ & S & N & _ & _ & _ & G & _).
  exists segments, loops, w', nodes.
  split; [reflexivity|]. split; [exact D|]. split; [exact S|].
  rewrite (proj2 G) by (vm_compute; reflexivity).
  rewrite N. reflexivity.
Defined.

(** ** The elements of a segment, sorted *)

(** C5, as the claim has it, fails on long suffixes: a position is a
    Number, and a Number holds 53 bits of an integer.  The segment below
    declares a key that ends in the digits of 2^53 + 1 before a key that
    ends in the digits of 2^53; both elements get the position 2^53, and
    they stay in the order of their declaration, which is not the
    ascending order of the suffixes. *)
Lemma long_suffixes_share_a_position :
  let segment :=
    fst (importOpenAPISegment "LIN" Sample.longSuffixes [] [] 1 Sample.world) in
  map fst (elementEntries Sample.longSuffixes)
  = ["Quantity_9007199254740993"; "Price_9007199254740992"]
  /\ map Element.name (Segment.elements segment) = ["Quantity"; "Price"]
  /\ map Element.position (Segment.elements segment)
     = [JS.Finite 9007199254740992; JS.Finite 9007199254740992]
  /\ getElementPosition "Quantity_9007199254740993" <> JS.Finite 9007199254740993.
Proof.
  vm_compute. repeat split. discriminate.
Qed.

(** C5, amended.  The elements of a Segment converted from a segment
    definition are the elements collected from its properties in
    declaration order, rearranged so that positions never decrease,
    elements of one position keeping their declaration order.  The
    position of an element is 1 when its property key does not end in an
    underscore and digits; when it does, the position is the Number for
    the integer that the digits after the last underscore spell as a
    decimal numeral: the integer itself up to 2^53 and the nearest double
    beyond, that is, the nearest multiple of the unit in the last place,
    the even one of two that are as near, and the infinity from
    2^1024 - 2^970 on. *)
Theorem importOpenAPISegment_elements_sorted :
  forall segmentId schema allSchemas requiredSegments maxUse w,
    let segment :=
      fst (importOpenAPISegment segmentId schema allSchemas requiredSegments maxUse w) in
    let collected :=
      fst (map_gen (importOpenAPIElement schema allSchemas) (elementEntries schema) w) in
    StronglySorted
      (fun a b => JS.less_or_equal (Element.position a) (Element.position b) = true)
      (Segment.elements segment)
    /\ Permutation collected (Segment.elements segment)
    /\ (forall p, filter (positioned p) (Segment.elements segment)
                  = filter (positioned p) collected)
    /\ map Element.position collected
       = map (fun entry => getElementPosition (fst entry)) (elementEntries schema)
    /\ (forall pre digits,
          digits <> "" -> JS.all_digits digits = true ->
          exists numeral,
            DecimalString.NilEmpty.uint_of_string digits = Some numeral
            /\ getElementPosition (pre ++ "_" ++ digits) = JS.toNumber (Z.of_uint numeral)
            /\ (Z.of_uint numeral <= 2 ^ 53 ->
                getElementPosition (pre ++ "_" ++ digits) = JS.Finite (Z.of_uint numeral)))
    /\ (forall key,
          (forall pre digits,
             digits <> "" -> JS.all_digits digits = true -> key <> pre ++ "_" ++ digits) ->
          getElementPosition key = JS.Finite 1)
    /\ (forall numeral,
          let value := Z.of_uint numeral in
          let ulp := 2 ^ Z.max 0 (Z.log2 value - 52) in
          match JS.toNumber value with
          | JS.Finite m =>
              0 <= m < 2 ^ 1024
              /\ (ulp | m)
              /\ 2 * Z.abs (m - value) <= ulp
              /\ (2 * Z.abs (m - value) = ulp -> Z.even (m / ulp) = true)
          | JS.PosInfinity => 2 ^ 1024 - 2 ^ 970 <= value
          | _ => False
          end).
Proof.
  intros segmentId schema allSchemas requiredSegments maxUse w segment collected.
  assert (E : Segment.elements segment = JS.sort by_position collected)
    by apply importOpenAPISegment_elements_collected.
  assert (M : map Element.position collected
              = map (fun entry => getElementPosition (fst entry)) (elementEntries schema))
    by (apply map_gen_image; intros x w'; apply importOpenAPIElement_position).
  assert (R : Forall (fun e => in_range (Element.position e)) collected).
  { apply Forall_map with (f := Element.position) (P := in_range). rewrite M.
    apply Forall_map. apply Forall_forall. intros entry _.
    apply getElementPosition_in_range. }
  rewrite E. split; [|split; [|split; [|split; [|split; [|split]]]]].
  - exact (sort_by_position_sorted R).
  - exact (sort_perm by_position collected).
  - intros p. exact (sort_by_position_stable R p).
  - exact M.
  - intros pre digits Hne Hd.
    destruct (parseInt_numeral Hne Hd) as (numeral & En & Ep).
    assert (G : getElementPosition (pre ++ "_" ++ digits) = JS.toNumber (Z.of_uint numeral)).
    { unfold getElementPosition. simpl.
      rewrite match_digit_suffix_found by assumption. exact Ep. }
    exists numeral. split; [exact En|]. split; [exact G|].
    intros B. rewrite G. apply toNumber_exact.
    pose proof (of_uint_nonnegative numeral). lia.
  - intros key H. unfold getElementPosition.
    destruct (JS.match_digit_suffix key) as [digits|] eqn:Em; [|reflexivity].
    apply match_digit_suffix_sound in Em. destruct Em as (pre & Ek & Hne & Hd).
    exfalso. exact (H pre digits Hne Hd Ek).
  - intros numeral. apply toNumber_nearest. apply of_uint_nonnegative.
Qed.

(** ** Cardinality *)

(** C6, as the claim has it, fails: a legacy segment that declares a
    maximum of zero is given the maximum 1, not its declared one. *)
Lemma zero_maximum_is_replaced :
  OpenEDISegment.Max Sample.legacyZeroMax = Some 0
  /\ Segment.maxUse (fst (convertSegment Sample.legacyZeroMax Sample.world)) = 1.
Proof. split; reflexivity. Qed.

(** C6, amended.  Every Segment and Loop produced by either converter has
    [minUse] 1 when its usage is Mandatory and 0 otherwise; in the legacy
    converter [maxUse] is the source's [Max] when that is present and not
    zero, and 1 when it is absent or zero. *)
Theorem minUse_follows_usage :
  (forall openEDISpec w,
      let spec := fst (importOpenEDISpec openEDISpec w) in
      Forall loop_minUse_derived (spec_loops spec)
      /\ Forall segment_minUse_derived (spec_segments spec))
  /\ (forall depth parsed w spec w',
        importOpenAPIFormat depth parsed w = Some (Returns spec, w') ->
        Forall loop_minUse_derived (spec_loops spec)
        /\ Forall segment_minUse_derived (spec_segments spec))
  /\ (forall openEDISegment w,
        let maxUse := Segment.maxUse (fst (convertSegment openEDISegment w)) in
        (forall m, OpenEDISegment.Max openEDISegment = Some m -> m <> 0 -> maxUse = m)
        /\ (OpenEDISegment.Max openEDISegment = None
            \/ OpenEDISegment.Max openEDISegment = Some 0 -> maxUse = 1))
  /\ (forall openEDILoop w,
        let maxUse := Loop.maxUse (fst (convertLoop openEDILoop w)) in
        (forall m, OpenEDILoop.Max openEDILoop = Some m -> m <> 0 -> maxUse = m)
        /\ (OpenEDILoop.Max openEDILoop = None
            \/ OpenEDILoop.Max openEDILoop = Some 0 -> maxUse = 1)).
Proof.
  split; [|split; [|split]].
  - intros openEDISpec w spec.
    destruct (importOpenEDISpec_everywhere
                loop_minUse_derived segment_minUse_derived (fun _ => True)) with
      (openEDISpec := openEDISpec) (w := w) as (FL & FS & _); auto.
    + intros. unfold segment_minUse_derived. simpl.
      destruct usage; split; cbv; congruence.
    + intros. unfold loop_minUse_derived. simpl.
      destruct usage; split; cbv; congruence.
  - intros depth parsed w spec w' Hrun.
    destruct (importOpenAPIFormat_everywhere
                loop_minUse_derived segment_minUse_derived (fun _ => True)) with
      (depth := depth) (parsed := parsed) (w := w) (spec := spec) (w' := w')
      as (FL & FS & _); auto.
    + intros. unfold segment_minUse_derived. simpl.
      destruct isRequired; simpl; split; congruence.
    + intros. unfold loop_minUse_derived. simpl.
      destruct isRequired; simpl; split; congruence.
  - intros openEDISegment w maxUse. subst maxUse. rewrite convertSegment_run.
    destruct (mapi_gen _ _ _ _) as [elements w1]. simpl. split.
    + intros m -> Hm. unfold JS.or_number. destruct m; congruence.
    + intros [-> | ->]; reflexivity.
  - intros openEDILoop w maxUse. subst maxUse. rewrite convertLoop_run.
    destruct (map_gen convertSegment _ _) as [segments w1].
    destruct (map_gen convertLoop _ _) as [loops w2]. simpl. split.
    + intros m -> Hm. unfold JS.or_number. destruct m; congruence.
    + intros [-> | ->]; reflexivity.
Qed.

(** The cardinalities of the sample invoice. *)
Lemma minUse_follows_usage_witness :
  exists spec w',
    importOpenAPIFormat 1 Sample.invoice Sample.world = Some (Returns spec, w')
    /\ Forall loop_minUse_derived (spec_loops spec)
    /\ Forall segment_minUse_derived (spec_segments spec).
Proof.
  eexists. eexists. split; [vm_compute; reflexivity|].
  eapply (proj1 (proj2 minUse_follows_usage) 1%nat Sample.invoice Sample.world).
  vm_compute; reflexivity.
Defined.

(** ** The missing transaction set *)

(** C7, as the claim has it, fails twice.  A definition whose message id is
    the empty string carries the marker, and the conversion raises the
    missing-root error all the same.  And a document with a message id whose
    loop definitions refer to themselves has a root, and the conversion
    neither raises the error nor returns a Specification, at any depth. *)
Lemma message_id_does_not_ensure_a_result :
  (OpenAPISchemaDefinition.x_openedi_message_id Sample.unnamedRoot = Some ""
   /\ importOpenAPIFormat 0 Sample.unnamed Sample.world
      = Some (Throws (Error missing_transaction_set), Sample.world))
  /\ (OpenAPISchemaDefinition.x_openedi_message_id Sample.shipNoticeRoot = Some "856"
      /\ forall depth, importOpenAPIFormat depth Sample.shipNotice Sample.world = None).
Proof.
  split; [split; reflexivity|]. split; [reflexivity|].
  intros depth.
  destruct (importOpenAPIFormat depth Sample.shipNotice Sample.world) as [res|] eqn:E;
    [|reflexivity].
  exfalso.
  assert (G : Grounded Sample.shipNoticeSchemas Sample.shipNoticeRoot)
    by (eapply importOpenAPIFormat_grounded with (parsed := Sample.shipNotice);
        [reflexivity | exact E]).
  assert (R : refersTo Sample.shipNoticeSchemas Sample.shipNoticeRoot Sample.HLLoop)
    by (left; reflexivity).
  assert (C : refersTo Sample.shipNoticeSchemas Sample.HLLoop Sample.HLLoop)
    by (left; reflexivity).
  eapply ReachesCycle_not_Grounded; [|exact G].
  right. exists Sample.HLLoop. split; apply Reaches_step; assumption.
Qed.

(** C7, amended.  The schema-format conversion raises the missing-root
    error exactly when no definition of the mapping has a message id other
    than the empty string, and it raises no other error.  When [root] is
    the first definition with such a message id, a Specification the
    conversion returns has that message id as its transaction set, and the
    conversion returns a Specification exactly when no chain of loop
    references from [root] leads to a cycle of loop references; otherwise
    it does not return. *)
Theorem importOpenAPIFormat_missing_root :
  forall parsed w,
    (forall depth,
        importOpenAPIFormat depth parsed w
        = Some (Throws (Error missing_transaction_set), w)
        <-> Forall unmarked (schemasOf parsed))
    /\ (forall depth e w',
          importOpenAPIFormat depth parsed w = Some (Throws e, w') ->
          e = Error missing_transaction_set /\ Forall unmarked (schemasOf parsed))
    /\ (forall transactionSetId root,
          firstMarked (schemasOf parsed) transactionSetId root ->
          (forall depth spec w',
              importOpenAPIFormat depth parsed w = Some (Returns spec, w') ->
              Metadata.transactionSet (Specification.metadata spec) = transactionSetId)
          /\ (ReturningFormat parsed w <-> ~ ReachesCycle (schemasOf parsed) root)
          /\ (ReachesCycle (schemasOf parsed) root ->
              forall depth, importOpenAPIFormat depth parsed w = None)).
Proof.
  intros parsed w.
  assert (T : forall depth e w',
             importOpenAPIFormat depth parsed w = Some (Throws e, w') ->
             e = Error missing_transaction_set /\ w' = w
             /\ Forall unmarked (schemasOf parsed)).
  { intros depth e w' Hrun. rewrite importOpenAPIFormat_run in Hrun.
    destruct (findTransactionSet (schemasOf parsed)) as [[transactionSetId root]|] eqn:F.
    - destruct (importProperties _ _ _ _ _ _ _ w) as [[[segments loops] w1]|];
        discriminate.
    - injection Hrun as <- <-. repeat split. apply findTransactionSet_None. exact F. }
  split; [|split].
  - intros depth. split.
    + intros Hrun. apply (T depth _ _ Hrun).
    + intros U. apply findTransactionSet_None in U.
      rewrite importOpenAPIFormat_run, U. reflexivity.
  - intros depth e w' Hrun. destruct (T depth e w' Hrun) as (He & _ & U). auto.
  - intros transactionSetId root Hroot. apply findTransactionSet_Some in Hroot.
    assert (A : forall depth res, importOpenAPIFormat depth parsed w = Some res ->
                                  Grounded (schemasOf parsed) root)
      by (intros depth res Hrun; eapply importOpenAPIFormat_grounded; eassumption).
    split; [|split].
    + intros depth spec w' Hrun. rewrite importOpenAPIFormat_run, Hroot in Hrun.
      destruct (importProperties _ _ _ _ _ _ _ w) as [[[segments loops] w1]|];
        [|discriminate].
      injection Hrun as <- <-. reflexivity.
    + rewrite <- Grounded_iff_no_cycle. split.
      * intros (depth & spec & w' & Hrun). eapply (A depth). apply Hrun. lia.
      * intros G. eapply importOpenAPIFormat_returns; eassumption.
    + intros C depth.
      destruct (importOpenAPIFormat depth parsed w) as [res|] eqn:E; [|reflexivity].
      exfalso. eapply ReachesCycle_not_Grounded; [exact C|]. eapply A. exact E.
Qed.

(** The sample invoice is converted under the message id of its root. *)
Lemma importOpenAPIFormat_missing_root_witness :
  firstMarked (schemasOf Sample.invoice) "810" Sample.invoiceRoot
  /\ exists spec w',
       importOpenAPIFormat 1 Sample.invoice Sample.world = Some (Returns spec, w')
       /\ Metadata.transactionSet (Specification.metadata spec) = "810".
Proof.
  assert (F : firstMarked (schemasOf Sample.invoice) "810" Sample.invoiceRoot).
  { exists [], "X12_00501_810", (tl Sample.invoiceSchemas).
    split; [reflexivity|]. split; [constructor | reflexivity]. }
  split; [exact F|].
  eexists. eexists. split; [vm_compute; reflexivity|].
  eapply (proj1 (proj2 (proj2 (importOpenAPIFormat_missing_root Sample.invoice Sample.world))
                  "810" Sample.invoiceRoot F) 1%nat).
  vm_compute; reflexivity.
Defined.

(** ** Unresolvable references *)

(** C8.  A property whose reference names no definition of the mapping
    yields no Segment and no Loop, and raises nothing: the loop over the
    properties does with the property what it does without it.  The runs
    with and without the property both return or both do not, in the same
    world and with the same nodes, up to the order indices of the level;
    unless the name is one that every object inherits, the two runs agree on
    the order indices as well, and so do the conversions of two loop
    definitions that differ in that property only. *)
Theorem unresolvable_reference_is_dropped :
  forall allSchemas requiredItems before propKey prop after refName,
    JS.truthy (refNameOf prop) = Some refName ->
    JS.own allSchemas refName = None ->
    structural allSchemas (propKey, prop) = false
    /\ (forall depth itemOrder segments nestedLoops w,
          same_nodes
            (importProperties (importOpenAPILoop depth) allSchemas requiredItems
               (before ++ (propKey, prop) :: after) itemOrder segments nestedLoops w)
            (importProperties (importOpenAPILoop depth) allSchemas requiredItems
               (before ++ after) itemOrder segments nestedLoops w))
    /\ (JS.inherited refName = false ->
        forall importLoop itemOrder segments nestedLoops w,
          importProperties importLoop allSchemas requiredItems
            (before ++ (propKey, prop) :: after) itemOrder segments nestedLoops w
          = importProperties importLoop allSchemas requiredItems
              (before ++ after) itemOrder segments nestedLoops w)
    /\ (JS.inherited refName = false ->
        forall loopSchema loopSchema',
          propertiesOf loopSchema = (before ++ (propKey, prop) :: after)%list ->
          propertiesOf loopSchema' = (before ++ after)%list ->
          requiredOf loopSchema' = requiredOf loopSchema ->
          OpenAPISchemaDefinition.x_openedi_loop_id loopSchema'
          = OpenAPISchemaDefinition.x_openedi_loop_id loopSchema ->
          forall depth maxUse isRequired order w,
            importOpenAPILoop depth loopSchema allSchemas maxUse isRequired order w
            = importOpenAPILoop depth loopSchema' allSchemas maxUse isRequired order w).
Proof.
  intros allSchemas requiredItems before propKey prop after refName Hr Ho.
  pose proof (@kindOf_unresolved allSchemas propKey prop refName Hr Ho) as K.
  assert (Same : JS.inherited refName = false ->
                 forall importLoop required itemOrder segments nestedLoops w,
                   importProperties importLoop allSchemas required
                     (before ++ (propKey, prop) :: after) itemOrder segments nestedLoops w
                   = importProperties importLoop allSchemas required
                       (before ++ after) itemOrder segments nestedLoops w).
  { intros Hi importLoop required. rewrite Hi in K.
    assert (K' : kindOf allSchemas (propKey, prop) = Passed)
      by (rewrite K; destruct (String.eqb propKey "Model"); reflexivity).
    induction before as [|entry rest IH];
      intros itemOrder segments nestedLoops w; simpl app.
    - rewrite importProperties_step, K'. reflexivity.
    - rewrite !importProperties_step.
      destruct (kindOf allSchemas entry) as [| |refSchema|segmentId refSchema].
      + apply IH.
      + apply IH.
      + unfold andThen.
        destruct (importLoop refSchema _ _ _ _ w) as [[l w1]|]; [apply IH | reflexivity].
      + unfold andThen, lift.
        destruct (importOpenAPISegment _ _ _ _ _ w) as [s w1]. apply IH. }
  split; [|split; [|split]].
  - unfold structural. rewrite K.
    destruct (String.eqb propKey "Model"); [reflexivity|].
    destruct (JS.inherited refName); reflexivity.
  - clear Same. intros depth. induction before as [|entry rest IH];
      intros itemOrder segments nestedLoops w; simpl app.
    + rewrite importProperties_step, K.
      destruct (String.eqb propKey "Model"); [apply same_nodes_refl|].
      destruct (JS.inherited refName); [|apply same_nodes_refl].
      apply importProperties_order_shift; reflexivity.
    + rewrite !importProperties_step.
      destruct (kindOf allSchemas entry) as [| |refSchema|segmentId refSchema].
      * apply IH.
      * apply IH.
      * unfold andThen.
        destruct (importOpenAPILoop depth refSchema _ _ _ _ w) as [[l w1]|];
          [apply IH | exact I].
      * unfold andThen, lift.
        destruct (importOpenAPISegment _ _ _ _ _ w) as [s w1]. apply IH.
  - intros Hi importLoop. apply Same. exact Hi.
  - intros Hi loopSchema loopSchema' Hp Hp' Hreq Hid depth maxUse isRequired order w.
    destruct depth as [|depth]; [reflexivity|].
    rewrite !importOpenAPILoop_run, Hp, Hp', Hreq, Hid, (Same Hi). reflexivity.
Qed.

(** A transaction set with a reference to a vendor extension that the
    mapping lacks is converted as it is without that property. *)
Lemma unresolvable_reference_is_dropped_witness :
  JS.own Sample.invoiceSchemas "VendorExtension" = None
  /\ importProperties (importOpenAPILoop 1) Sample.invoiceSchemas ["ST"]
       (propertiesOf Sample.danglingRoot) 0 [] [] Sample.world
     = importProperties (importOpenAPILoop 1) Sample.invoiceSchemas ["ST"]
         (tl (propertiesOf Sample.danglingRoot)) 0 [] [] Sample.world.
Proof.
  split; [reflexivity|].
  exact (proj1 (proj2 (proj2 (@unresolvable_reference_is_dropped
                         Sample.invoiceSchemas ["ST"] [] "Extension"
                         (Sample.reference "VendorExtension")
                         (tl (propertiesOf Sample.danglingRoot))
                         "VendorExtension" eq_refl eq_refl)))
           eq_refl (importOpenAPILoop 1) 0 [] [] Sample.world).
Defined.

(** ** The dispatcher *)

(** C9.  When the parsed input is an array (and not an OpenAPI document),
    the dispatcher hands its first element to the legacy converter and
    raises the empty-specification-array error exactly when the array has
    no element; a single object is handed to the legacy converter as it is.
    In both cases without error the combined entry point returns the
    Specification the legacy converter builds. *)
Theorem legacy_dispatch :
  forall (JSON_parse : string -> option Parsed) depth jsonContent w,
    (forall documents,
        JSON_parse jsonContent = Some (ParsedArray documents) ->
        (parseAndImportSpec JSON_parse depth jsonContent w
         = Some (Throws (Error empty_specification_array), w)
         <-> documents = [])
        /\ (parseOpenEDIJson JSON_parse depth jsonContent w
            = Some (Throws (Error empty_specification_array), w)
            <-> documents = [])
        /\ (forall first rest,
              documents = first :: rest ->
              parseOpenEDIJson JSON_parse depth jsonContent w = Some (Returns first, w)
              /\ parseAndImportSpec JSON_parse depth jsonContent w
                 = Some (Returns (fst (importOpenEDISpec first w)),
                         snd (importOpenEDISpec first w))))
    /\ (forall document,
          JSON_parse jsonContent = Some (ParsedObject document) ->
          parseOpenEDIJson JSON_parse depth jsonContent w = Some (Returns document, w)
          /\ parseAndImportSpec JSON_parse depth jsonContent w
             = Some (Returns (fst (importOpenEDISpec document w)),
                     snd (importOpenEDISpec document w))).
Proof.
  intros JSON_parse depth jsonContent w. split.
  - intros documents Hp.
    unfold parseAndImportSpec, parseOpenEDIJson, andThen, done, lift. rewrite Hp.
    destruct documents as [|first rest].
    + repeat split; auto; intros; discriminate.
    + destruct (importOpenEDISpec first w) as [spec w1] eqn:E.
      split; [split; discriminate|]. split; [split; discriminate|].
      intros first' rest' H. injection H as <- <-. rewrite E. auto.
  - intros document Hp.
    unfold parseAndImportSpec, parseOpenEDIJson, andThen, done, lift. rewrite Hp.
    destruct (importOpenEDISpec document w) as [spec w1]. auto.
Qed.

(** The empty array, and an array with the sample legacy invoice. *)
Lemma legacy_dispatch_witness :
  parseAndImportSpec (fun _ => Some (ParsedArray [])) 0 "[]" Sample.world
  = Some (Throws (Error empty_specification_array), Sample.world)
  /\ exists spec w',
       parseAndImportSpec (fun _ => Some (ParsedArray [Sample.legacyInvoice])) 0
         "[{...}]" Sample.world = Some (Returns spec, w')
       /\ Metadata.transactionSet (Specification.metadata spec) = "810".
Proof.
  split.
  - apply (proj1 (legacy_dispatch (fun _ => Some (ParsedArray [])) 0 "[]" Sample.world)
             [] eq_refl).
    reflexivity.
  - destruct (proj1 (legacy_dispatch (fun _ => Some (ParsedArray [Sample.legacyInvoice]))
                       0 "[{...}]" Sample.world) [Sample.legacyInvoice] eq_refl)
      as (_ & _ & H).
    destruct (H Sample.legacyInvoice [] eq_refl) as [_ R].
    eexists. eexists. split; [exact R | reflexivity].
Defined.

(** ** Usage in the schema format *)

(** C10.  Every Loop, Segment and Element the schema-format converter
    produces is Mandatory or Optional: a Segment is Mandatory exactly when
    its segment id is in the required list of the level, a Loop exactly when
    the flag its caller computed from that list is set, an Element exactly
    when its key is in the required list of its segment definition, and the
    top-level Loop always.  Conditional usage comes from the legacy
    converter, which classifies requirement tokens. *)
Theorem schema_usage_is_unconditional :
  (forall depth parsed w spec w',
      importOpenAPIFormat depth parsed w = Some (Returns spec, w') ->
      Forall (fun l => unconditional (Loop.usage l)) (spec_loops spec)
      /\ Forall (fun s => unconditional (Segment.usage s)) (spec_segments spec)
      /\ Forall (fun e => unconditional (Element.usage e)) (spec_elements spec)
      /\ exists mainLoop,
           Specification.loops spec = [mainLoop] /\ Loop.usage mainLoop = Usage.M)
  /\ (forall segmentId schema allSchemas requiredSegments maxUse w,
        Segment.usage
          (fst (importOpenAPISegment segmentId schema allSchemas requiredSegments maxUse w))
        = if JS.array_includes requiredSegments segmentId then Usage.M else Usage.O)
  /\ (forall depth loopSchema allSchemas maxUse isRequired order w l w',
        importOpenAPILoop depth loopSchema allSchemas maxUse isRequired order w
        = Some (l, w') ->
        Loop.usage l = if isRequired then Usage.M else Usage.O)
  /\ (forall schema allSchemas propKey prop w,
        Element.usage (fst (importOpenAPIElement schema allSchemas (propKey, prop) w))
        = if JS.array_includes (requiredOf schema) propKey then Usage.M else Usage.O)
  /\ (forall w, Loop.usage (fst (convertLoop Sample.legacyN1Loop w)) = Usage.C).
Proof.
  split; [|split; [|split; [|split]]].
  - intros depth parsed w spec w' Hrun.
    destruct (importOpenAPIFormat_everywhere
                (fun l => unconditional (Loop.usage l))
                (fun s => unconditional (Segment.usage s))
                (fun e => unconditional (Element.usage e))) with
      (depth := depth) (parsed := parsed) (w := w) (spec := spec) (w' := w')
      as (FL & FS & FE); auto.
    + intros schema allSchemas [propKey prop] w0. rewrite importOpenAPIElement_usage.
      unfold unconditional. destruct (JS.array_includes _ _); auto.
    + intros. unfold unconditional. simpl. destruct isRequired; auto.
    + intros. unfold unconditional. simpl. destruct isRequired; auto.
    + repeat split; try assumption.
      rewrite importOpenAPIFormat_run in Hrun.
      destruct (findTransactionSet (schemasOf parsed)) as [[transactionSetId root]|];
        [|discriminate].
      destruct (importProperties _ _ _ _ _ _ _ w) as [[[segments loops] w1]|];
        [|discriminate].
      injection Hrun as <- <-. eexists. split; reflexivity.
  - intros. rewrite importOpenAPISegment_run.
    destruct (map_gen _ _ w) as [collected w1]. reflexivity.
  - intros depth loopSchema allSchemas maxUse isRequired order w l w' Hrun.
    destruct depth as [|depth]; [discriminate|].
    rewrite importOpenAPILoop_run in Hrun.
    destruct (importProperties _ _ _ _ _ _ _ w) as [[[segments loops] w1]|];
      [|discriminate].
    injection Hrun as <- <-. reflexivity.
  - intros. apply importOpenAPIElement_usage.
  - intros w. reflexivity.
Qed.

(** The usages of the sample invoice. *)
Lemma schema_usage_is_unconditional_witness :
  exists spec w',
    importOpenAPIFormat 1 Sample.invoice Sample.world = Some (Returns spec, w')
    /\ Forall (fun l => unconditional (Loop.usage l)) (spec_loops spec)
    /\ Forall (fun s => unconditional (Segment.usage s)) (spec_segments spec)
    /\ Forall (fun e => unconditional (Element.usage e)) (spec_elements spec)
    /\ exists mainLoop,
         Specification.loops spec = [mainLoop] /\ Loop.usage mainLoop = Usage.M.
Proof.
  eexists. eexists. split; [vm_compute; reflexivity|].
  eapply (proj1 schema_usage_is_unconditional 1%nat Sample.invoice Sample.world).
  vm_compute; reflexivity.
Defined.

(** * Further properties *)

(** ** Identifiers *)

Lemma issued_nil a : issued [] a a.
Proof. split; [lia|]. rewrite Nat.sub_diag. constructor. Qed.

Lemma issued_one a : issued [a] a (S a).
Proof.
  split; [lia|]. replace (S a - a)%nat with 1%nat by lia. simpl. apply Permutation_refl.
Qed.

Lemma issued_app ids1 ids2 a b c :
  issued ids1 a b -> issued ids2 b c -> issued (ids1 ++ ids2) a c.
Proof.
  intros [L1 P1] [L2 P2]. split; [lia|].
  replace (c - a)%nat with ((b - a) + (c - b))%nat by lia.
  rewrite seq_app. replace (a + (b - a))%nat with b by lia.
  apply Permutation_app; assumption.
Qed.

Lemma issued_perm ids ids' a b :
  Permutation ids ids' -> issued ids a b -> issued ids' a b.
Proof.
  intros P [L Q]. split; [exact L|].
  eapply perm_trans; [apply Permutation_sym; exact P | exact Q].
Qed.

Lemma issued_NoDup ids a b : issued ids a b -> NoDup ids.
Proof.
  intros [_ P]. eapply Permutation_NoDup; [apply Permutation_sym; exact P|].
  apply seq_NoDup.
Qed.

Lemma issued_known ids a b :
  issued ids a b -> NoDup ids /\ Forall (fun id => (id < b)%nat) ids.
Proof.
  intros H. split; [eapply issued_NoDup; exact H|].
  destruct H as [L P]. eapply Permutation_Forall; [apply Permutation_sym; exact P|].
  apply Forall_forall. intros id I. apply in_seq in I. lia.
Qed.

Lemma flat_map_flat_map (A B C : Type) (f : A -> list B) (g : B -> list C) (l : list A) :
  flat_map g (flat_map f l) = flat_map (fun x => flat_map g (f x)) l.
Proof.
  induction l as [|x r IH]; simpl; [reflexivity|].
  rewrite flat_map_app, IH. reflexivity.
Qed.

Lemma flat_map_cons_perm (A B : Type) (f : A -> B) (g : A -> list B) (l : list A) :
  Permutation (flat_map (fun x => f x :: g x) l) (map f l ++ flat_map g l).
Proof.
  induction l as [|x r IH]; simpl; [constructor|].
  apply perm_skip.
  eapply perm_trans; [apply Permutation_app_head; exact IH|].
  rewrite !app_assoc. apply Permutation_app_tail. apply Permutation_app_comm.
Qed.

Lemma flat_map_singleton (A B : Type) (f : A -> B) (l : list A) :
  flat_map (fun x => [f x]) l = map f l.
Proof. induction l as [|x r IH]; simpl; congruence. Qed.

Lemma loop_ids_unfold (l : Loop) :
  loop_ids l
  = Loop.id l :: (flat_map segment_ids (Loop.segments l) ++ flat_map loop_ids (Loop.loops l)).
Proof.
  unfold loop_ids. destruct l; simpl.
  rewrite flat_map_flat_map. reflexivity.
Qed.

(** The identifiers of a specification, entity by entity or tree by tree. *)
Lemma all_ids_by_tree (spec : Specification) :
  Permutation (all_ids spec)
    (Specification.id spec :: flat_map loop_ids (Specification.loops spec)).
Proof.
  unfold all_ids, spec_elements, spec_segments, spec_loops. apply perm_skip.
  unfold loop_ids. rewrite <- flat_map_flat_map.
  set (loops := flat_map sub_loops (Specification.loops spec)).
  apply Permutation_sym. unfold own_ids.
  eapply perm_trans; [apply flat_map_cons_perm|].
  apply Permutation_app_head.
  rewrite <- flat_map_flat_map.
  set (segments := flat_map Loop.segments loops).
  unfold segment_ids.
  eapply perm_trans; [apply flat_map_cons_perm|].
  apply Permutation_app_head.
  rewrite flat_map_concat_map, (flat_map_concat_map Segment.elements), concat_map, map_map.
  apply Permutation_refl.
Qed.

Lemma map_gen_issued (A B : Type) (f : A -> Gen B) (ids_of : B -> list nat) (l : list A) :
  (forall x, In x l ->
     forall w, issued (ids_of (fst (f x w))) (uuids w) (uuids (snd (f x w)))) ->
  forall w, issued (flat_map ids_of (fst (map_gen f l w)))
              (uuids w) (uuids (snd (map_gen f l w))).
Proof.
  induction l as [|x r IH]; intros H w; simpl.
  - apply issued_nil.
  - unfold bind. pose proof (H x (or_introl eq_refl) w) as Hx.
    destruct (f x w) as [y w1]. simpl in Hx.
    assert (Hr : issued (flat_map ids_of (fst (map_gen f r w1)))
                   (uuids w1) (uuids (snd (map_gen f r w1))))
      by (apply IH; intros z Iz; apply H; right; exact Iz).
    destruct (map_gen f r w1) as [ys w2]. simpl in *.
    eapply issued_app; eassumption.
Qed.

Lemma mapi_gen_issued (A B : Type) (f : A -> nat -> Gen B) (ids_of : B -> list nat)
    (l : list A) :
  (forall x i w, issued (ids_of (fst (f x i w))) (uuids w) (uuids (snd (f x i w)))) ->
  forall i w, issued (flat_map ids_of (fst (mapi_gen f l i w)))
                (uuids w) (uuids (snd (mapi_gen f l i w))).
Proof.
  intros H. induction l as [|x r IH]; intros i w; simpl.
  - apply issued_nil.
  - unfold bind. pose proof (H x i w) as Hx.
    destruct (f x i w) as [y w1]. simpl in Hx.
    specialize (IH (S i) w1).
    destruct (mapi_gen f r (S i) w1) as [ys w2]. simpl in *.
    eapply issued_app; eassumption.
Qed.

(** *** The schema-format converter *)

Lemma allOfCodes_uuids allSchemas allOf :
  forall codeValues w, uuids (snd (allOfCodes allSchemas allOf codeValues w)) = uuids w.
Proof.
  induction allOf as [|r rest IH]; intros codeValues w; simpl; [reflexivity|].
  destruct (JS.truthy (ref r)) as [target|]; [|apply IH].
  destruct (JS.get allSchemas (schema_name target)) as [refSchema| |]; try apply IH.
  destruct (OpenAPISchemaDefinition.enum refSchema) as [codes|]; [|apply IH].
  unfold bind, new_array. rewrite IH. reflexivity.
Qed.

Lemma importOpenAPIElement_id schema allSchemas entry w :
  Element.id (fst (importOpenAPIElement schema allSchemas entry w)) = uuids w
  /\ uuids (snd (importOpenAPIElement schema allSchemas entry w)) = S (uuids w).
Proof.
  destruct entry as [propKey prop]. unfold importOpenAPIElement.
  set (m := match OpenAPIProperty.allOf prop with
            | Some allOf => allOfCodes allSchemas allOf None
            | None => ret None
            end).
  assert (A : uuids (snd (m w)) = uuids w).
  { unfold m. destruct (OpenAPIProperty.allOf prop);
      [apply allOfCodes_uuids | reflexivity]. }
  unfold bind. destruct (m w) as [referenced w1]. simpl in A.
  unfold ret, uuidv4, new_array.
  destruct (OpenAPIProperty.enum prop) as [codes|]; simpl.
  - auto.
  - destruct referenced as [c|]; simpl; auto.
Qed.

Lemma importOpenAPIElement_issued schema allSchemas entry w :
  issued [Element.id (fst (importOpenAPIElement schema allSchemas entry w))]
    (uuids w) (uuids (snd (importOpenAPIElement schema allSchemas entry w))).
Proof.
  destruct (importOpenAPIElement_id schema allSchemas entry w) as [-> ->].
  apply issued_one.
Qed.

Lemma importOpenAPISegment_issued segmentId schema allSchemas requiredSegments maxUse w o :
  issued
    (segment_ids
       (Segment.set_order
          (fst (importOpenAPISegment segmentId schema allSchemas requiredSegments maxUse w)) o))
    (uuids w)
    (uuids (snd (importOpenAPISegment segmentId schema allSchemas requiredSegments maxUse w))).
Proof.
  rewrite importOpenAPISegment_run.
  pose proof (@map_gen_issued _ _ (importOpenAPIElement schema allSchemas)
                (fun e => [Element.id e]) (elementEntries schema)
                (fun x _ w0 => importOpenAPIElement_issued schema allSchemas x w0) w) as H.
  destruct (map_gen _ _ w) as [collected w1]. simpl in *.
  rewrite flat_map_singleton in H. unfold segment_ids. simpl.
  eapply issued_perm with (ids := (map Element.id collected ++ [uuids w1])%list).
  - eapply perm_trans; [apply Permutation_app_comm|]. simpl. apply perm_skip.
    apply Permutation_map. apply sort_perm.
  - eapply issued_app; [exact H | apply issued_one].
Qed.

Lemma node_ids_by_kind (nodes : list Node) :
  Permutation (flat_map node_ids nodes)
    (flat_map segment_ids (segments_of nodes) ++ flat_map loop_ids (loops_of nodes)).
Proof.
  unfold segments_of, loops_of.
  induction nodes as [|[s|l] rest IH]; cbn [flat_map node_ids app].
  - constructor.
  - rewrite <- app_assoc. apply Permutation_app_head. exact IH.
  - eapply perm_trans; [apply Permutation_app_head; exact IH|].
    rewrite !app_assoc. apply Permutation_app_tail. apply Permutation_app_comm.
Qed.

Section SchemaIdentifiers.

Variable depth : nat.
Hypothesis loops_issued :
  forall loopSchema allSchemas maxUse isRequired order w l w',
    importOpenAPILoop depth loopSchema allSchemas maxUse isRequired order w = Some (l, w') ->
    issued (loop_ids l) (uuids w) (uuids w').

Lemma documentOrder_issued allSchemas requiredItems :
  forall entries itemOrder w nodes w',
    documentOrder (importOpenAPILoop depth) allSchemas requiredItems entries itemOrder w
    = Some (nodes, w') ->
    issued (flat_map node_ids nodes) (uuids w) (uuids w').
Proof.
  induction entries as [|entry rest IH]; intros itemOrder w nodes w' Hrun.
  - injection Hrun as <- <-. apply issued_nil.
  - simpl in Hrun.
    destruct (kindOf allSchemas entry) as [| |refSchema|segmentId refSchema].
    + eapply IH; exact Hrun.
    + eapply IH; exact Hrun.
    + unfold andThen in Hrun.
      destruct (importOpenAPILoop depth refSchema _ _ _ _ w) as [[l w1]|] eqn:EL;
        [|discriminate].
      destruct (documentOrder _ _ _ rest (itemOrder + 1) w1) as [[later w2]|] eqn:ED;
        [|discriminate].
      injection Hrun as <- <-. cbn [flat_map node_ids].
      eapply issued_app; [eapply loops_issued; exact EL | eapply IH; exact ED].
    + unfold andThen, lift in Hrun.
      pose proof (importOpenAPISegment_issued segmentId refSchema allSchemas requiredItems
                    (itemMaxUseOf (snd entry)) w (Some itemOrder)) as HS.
      destruct (importOpenAPISegment _ _ _ _ _ w) as [s w1].
      destruct (documentOrder _ _ _ rest (itemOrder + 1) w1) as [[later w2]|] eqn:ED;
        [|discriminate].
      injection Hrun as <- <-. cbn [flat_map node_ids].
      eapply issued_app; [exact HS | eapply IH; exact ED].
Qed.

Lemma importProperties_issued allSchemas requiredItems entries w segments loops w' :
  importProperties (importOpenAPILoop depth) allSchemas requiredItems entries 0 [] [] w
  = Some ((segments, loops), w') ->
  issued (flat_map segment_ids segments ++ flat_map loop_ids loops) (uuids w) (uuids w').
Proof.
  intros Hrun. rewrite importProperties_documentOrder in Hrun.
  destruct (documentOrder _ _ _ entries 0 w) as [[nodes w1]|] eqn:ED; [|discriminate].
  simpl in Hrun. injection Hrun as <- <- <-.
  eapply issued_perm; [apply node_ids_by_kind|].
  eapply documentOrder_issued. exact ED.
Qed.

End SchemaIdentifiers.

Lemma importOpenAPILoop_issued :
  forall depth loopSchema allSchemas maxUse isRequired order w l w',
    importOpenAPILoop depth loopSchema allSchemas maxUse isRequired order w = Some (l, w') ->
    issued (loop_ids l) (uuids w) (uuids w').
Proof.
  induction depth as [|depth IH];
    intros loopSchema allSchemas maxUse isRequired order w l w' Hrun.
  - discriminate Hrun.
  - rewrite importOpenAPILoop_run in Hrun.
    destruct (importProperties _ _ _ _ _ _ _ w) as [[[segments loops] w1]|] eqn:E;
      [|discriminate].
    injection Hrun as <- <-.
    apply (@importProperties_issued depth IH) in E.
    rewrite loop_ids_unfold. cbn [Loop.id Loop.segments Loop.loops].
    eapply issued_perm; [apply Permutation_sym, Permutation_cons_append|].
    eapply issued_app; [exact E | apply issued_one].
Qed.

Lemma importOpenAPIFormat_issued depth parsed w spec w' :
  importOpenAPIFormat depth parsed w = Some (Returns spec, w') ->
  issued (all_ids spec) (uuids w) (uuids w').
Proof.
  intros Hrun. rewrite importOpenAPIFormat_run in Hrun.
  destruct (findTransactionSet (schemasOf parsed)) as [[transactionSetId root]|];
    [|discriminate].
  destruct (importProperties _ _ _ _ _ _ _ w) as [[[segments loops] w1]|] eqn:E;
    [|discriminate].
  injection Hrun as <- <-.
  apply (@importProperties_issued depth (importOpenAPILoop_issued depth)) in E.
  eapply issued_perm; [apply Permutation_sym, all_ids_by_tree|].
  cbn [Specification.loops Specification.id flat_map].
  rewrite app_nil_r, loop_ids_unfold. cbn [Loop.id Loop.segments Loop.loops].
  eapply issued_perm
    with (ids := ((flat_map segment_ids segments ++ flat_map loop_ids loops)
                  ++ [uuids w1] ++ [S (uuids w1)])%list).
  - eapply perm_trans; [apply Permutation_app_comm|]. cbn [app].
    apply perm_swap.
  - eapply issued_app; [exact E|].
    eapply issued_app; apply issued_one.
Qed.

(** *** The legacy converter *)

Lemma convertElement_issued el position w :
  issued [Element.id (fst (convertElement el position w))]
    (uuids w) (uuids (snd (convertElement el position w))).
Proof.
  rewrite convertElement_run.
  destruct (map convertCode (codesOf el)); simpl; apply issued_one.
Qed.

Lemma convertSegment_issued openEDISegment w :
  issued (segment_ids (fst (convertSegment openEDISegment w)))
    (uuids w) (uuids (snd (convertSegment openEDISegment w))).
Proof.
  rewrite convertSegment_run.
  pose proof (@mapi_gen_issued _ _ (fun el idx => convertElement el (JS.add (JS.Finite (Z.of_nat idx)) (JS.Finite 1)))
                (fun e => [Element.id e])
                (match OpenEDISegment.Elements openEDISegment with
                 | Some es => es | None => [] end)
                (fun x i w0 => convertElement_issued x (JS.add (JS.Finite (Z.of_nat i)) (JS.Finite 1)) w0)
                0%nat (drawn w)) as H.
  destruct (mapi_gen _ _ _ _) as [elements w1]. simpl in *.
  rewrite flat_map_singleton in H. unfold segment_ids. simpl.
  apply (@issued_app [uuids w] _ _ (S (uuids w)) _ (issued_one (uuids w)) H).
Qed.

Lemma convertLoop_issued :
  forall openEDILoop w,
    issued (loop_ids (fst (convertLoop openEDILoop w)))
      (uuids w) (uuids (snd (convertLoop openEDILoop w))).
Proof.
  induction openEDILoop as [l IH] using OpenEDILoop_nested_ind. intros w.
  rewrite convertLoop_run.
  pose proof (@map_gen_issued _ _ convertSegment segment_ids
                (match OpenEDILoop.Segments l with Some ss => ss | None => [] end)
                (fun x _ w0 => convertSegment_issued x w0) (drawn w)) as HS.
  destruct (map_gen convertSegment _ _) as [segments w1].
  pose proof (@map_gen_issued _ _ convertLoop loop_ids (nestedLoopsOf l) IH w1) as HL.
  destruct (map_gen convertLoop _ _) as [loops w2]. simpl in *.
  rewrite loop_ids_unfold. simpl.
  apply (@issued_app [uuids w] _ _ (S (uuids w)) _ (issued_one (uuids w))).
  eapply issued_app; eassumption.
Qed.

Lemma importOpenEDISpec_issued openEDISpec w :
  issued (all_ids (fst (importOpenEDISpec openEDISpec w)))
    (uuids w) (uuids (snd (importOpenEDISpec openEDISpec w))).
Proof.
  eapply issued_perm; [apply Permutation_sym, all_ids_by_tree|].
  unfold importOpenEDISpec, bind, ret, now, uuidv4.
  pose proof (@map_gen_issued _ _ convertLoop loop_ids
                (match OpenEDITransactionSet.Loops openEDISpec with
                 | Some ls => ls | None => [] end)
                (fun x _ w0 => convertLoop_issued x w0)
                (mkWorld (S (uuids w)) (arrays w) (clock w))) as H.
  destruct (map_gen convertLoop _ _) as [loops w1]. simpl in *.
  apply (@issued_app [uuids w] _ _ (S (uuids w)) _ (issued_one (uuids w)) H).
Qed.

(** ** Identifiers *)

(** Every identifier the schema-format converter draws from [uuidv4()]
    during an import that returns is the identifier of exactly one entity
    of the result: the identifiers of the Specification, its Loops,
    Segments and Elements are pairwise distinct, and they are the
    identifiers drawn during the run, none left out.  Identifiers drawn
    after the import are new to the Specification. *)
Theorem importOpenAPIFormat_identifiers :
  forall depth parsed w spec w',
    importOpenAPIFormat depth parsed w = Some (Returns spec, w') ->
    NoDup (all_ids spec)
    /\ Permutation (all_ids spec) (drawn_between w w')
    /\ known w' spec.
Proof.
  intros depth parsed w spec w' Hrun.
  apply importOpenAPIFormat_issued in Hrun.
  split; [eapply issued_NoDup; exact Hrun|].
  split; [exact (proj2 Hrun) | exact (issued_known Hrun)].
Qed.

(** The identifiers of the sample invoice. *)
Lemma importOpenAPIFormat_identifiers_witness :
  exists spec w',
    importOpenAPIFormat 1 Sample.invoice Sample.world = Some (Returns spec, w')
    /\ NoDup (all_ids spec)
    /\ Permutation (all_ids spec) (drawn_between Sample.world w')
    /\ known w' spec.
Proof.
  eexists. eexists. split; [vm_compute; reflexivity|].
  eapply (importOpenAPIFormat_identifiers 1 Sample.invoice Sample.world).
  vm_compute; reflexivity.
Defined.

(** The same for the legacy converter, which always returns: the
    identifiers of the Specification and of all its Loops, Segments and
    Elements are pairwise distinct and are the identifiers drawn during
    the conversion, and identifiers drawn after it are new to the
    Specification. *)
Theorem importOpenEDISpec_identifiers :
  forall openEDISpec w,
    NoDup (all_ids (fst (importOpenEDISpec openEDISpec w)))
    /\ Permutation (all_ids (fst (importOpenEDISpec openEDISpec w)))
         (drawn_between w (snd (importOpenEDISpec openEDISpec w)))
    /\ known (snd (importOpenEDISpec openEDISpec w)) (fst (importOpenEDISpec openEDISpec w)).
Proof.
  intros openEDISpec w.
  pose proof (importOpenEDISpec_issued openEDISpec w) as H.
  split; [eapply issued_NoDup; exact H|].
  split; [exact (proj2 H) | exact (issued_known H)].
Qed.

(** ** The entry point on the schema format, and its errors *)

(** On a document of the schema format the entry point returns what the
    schema-format converter returns, fails as it fails and does not return
    where it does not return; [parseOpenEDIJson] itself never returns a
    legacy document then: it raises the object that carries the converted
    Specification. *)
Theorem schema_dispatch :
  forall (JSON_parse : string -> option Parsed) depth jsonContent w document,
    JSON_parse jsonContent = Some (ParsedOpenAPI document) ->
    parseAndImportSpec JSON_parse depth jsonContent w
    = importOpenAPIFormat depth document w
    /\ (forall openEDISpec w',
          parseOpenEDIJson JSON_parse depth jsonContent w
          <> Some (Returns openEDISpec, w'))
    /\ (forall spec w',
          importOpenAPIFormat depth document w = Some (Returns spec, w') ->
          parseOpenEDIJson JSON_parse depth jsonContent w
          = Some (Throws (OpenAPIResult spec), w')).
Proof.
  intros JSON_parse depth jsonContent w document Hp.
  unfold parseAndImportSpec, parseOpenEDIJson, andThen, done. rewrite Hp.
  pose proof (importOpenAPIFormat_run depth document w) as R.
  destruct (importOpenAPIFormat depth document w) as [[[spec|e] w1]|] eqn:E.
  - repeat split; [discriminate|].
    intros spec' w' H. injection H as <- <-. reflexivity.
  - assert (e = Error missing_transaction_set) as ->.
    { destruct (findTransactionSet (schemasOf document)) as [[transactionSetId root]|].
      - destruct (importProperties _ _ _ _ _ _ _ w) as [[[segments loops] w2]|];
          discriminate.
      - injection R as <- _. reflexivity. }
    repeat split; discriminate.
  - repeat split; discriminate.
Qed.

(** The sample invoice through the entry point. *)
Lemma schema_dispatch_witness :
  parseAndImportSpec (fun _ => Some (ParsedOpenAPI Sample.invoice)) 1 "{...}" Sample.world
  = importOpenAPIFormat 1 Sample.invoice Sample.world.
Proof.
  apply (schema_dispatch (fun _ => Some (ParsedOpenAPI Sample.invoice)) 1 "{...}"
           Sample.world eq_refl).
Defined.

Lemma parseAndImportSpec_on_schema
    (JSON_parse : string -> option Parsed) depth jsonContent w document :
  JSON_parse jsonContent = Some (ParsedOpenAPI document) ->
  parseAndImportSpec JSON_parse depth jsonContent w = importOpenAPIFormat depth document w.
Proof.
  intros Hp. unfold parseAndImportSpec, parseOpenEDIJson, andThen, done. rewrite Hp.
  pose proof (importOpenAPIFormat_run depth document w) as R.
  destruct (importOpenAPIFormat depth document w) as [[[spec|e] w1]|] eqn:E;
    [reflexivity | | reflexivity].
  assert (e = Error missing_transaction_set) as ->; [|reflexivity].
  destruct (findTransactionSet (schemasOf document)) as [[transactionSetId root]|].
  - destruct (importProperties _ _ _ _ _ _ _ w) as [[[segments loops] w2]|];
      discriminate.
  - injection R as <- _. reflexivity.
Qed.

(** On an input that is no schema document the entry point has a result,
    whatever the depth of calls. *)
Lemma parseAndImportSpec_on_others
    (JSON_parse : string -> option Parsed) jsonContent w :
  (forall document, JSON_parse jsonContent <> Some (ParsedOpenAPI document)) ->
  exists outcome,
    forall depth, parseAndImportSpec JSON_parse depth jsonContent w = Some outcome.
Proof.
  intros N. unfold parseAndImportSpec, parseOpenEDIJson, andThen, done, lift.
  destruct (JSON_parse jsonContent) as [[document|[|first rest]|document]|].
  - exfalso. exact (N document eq_refl).
  - eexists. intros depth. reflexivity.
  - destruct (importOpenEDISpec first w) as [spec w1]. eexists. intros depth. reflexivity.
  - destruct (importOpenEDISpec document w) as [spec w1]. eexists. intros depth. reflexivity.
  - eexists. intros depth. reflexivity.
Qed.

(** A schema document is converted from some depth of calls on, or at
    none: at none when its transaction set leads into a cycle of loop
    references. *)
Lemma importOpenAPIFormat_result_or_cycle parsed w :
  (exists depth outcome,
      forall depth', (depth <= depth')%nat ->
        importOpenAPIFormat depth' parsed w = Some outcome)
  \/ (exists transactionSetId root,
        firstMarked (schemasOf parsed) transactionSetId root
        /\ ReachesCycle (schemasOf parsed) root
        /\ forall depth, importOpenAPIFormat depth parsed w = None).
Proof.
  destruct (findTransactionSet (schemasOf parsed)) as [[transactionSetId root]|] eqn:F.
  - destruct (Grounded_or_ReachesCycle (schemasOf parsed) root) as [G|C].
    + left. destruct (@importOpenAPIFormat_returns parsed w transactionSetId root F G) as (depth & spec & w' & H).
      exists depth, (Returns spec, w'). exact H.
    + right. exists transactionSetId, root.
      split; [apply findTransactionSet_Some; exact F|]. split; [exact C|].
      intros depth.
      destruct (importOpenAPIFormat depth parsed w) as [res|] eqn:E; [|reflexivity].
      exfalso. eapply ReachesCycle_not_Grounded; [exact C|].
      eapply importOpenAPIFormat_grounded; eassumption.
  - left. exists 0%nat, (Throws (Error missing_transaction_set), w).
    intros depth' _. rewrite importOpenAPIFormat_run, F. reflexivity.
Qed.

(** When the parsed input has one of the shapes the importer declares, the
    entry point raises an error in three ways only: the syntax error of
    [JSON.parse], the empty-array error on an empty array, and the
    missing-transaction-set error on a schema document none of whose
    definitions has a message id; it has drawn no identifier then, and the
    object [parseOpenEDIJson] raises on the schema format never leaves the
    entry point.  There is a fourth way to fail, without an error of the
    importer: the entry point has no result, at any depth of calls, on a
    schema document whose transaction set leads, by loop references, into
    a cycle of loop references, and on such a document only.  On every
    other input it returns or raises one of the three errors, from some
    depth of calls on. *)
Theorem parseAndImportSpec_errors :
  forall (JSON_parse : string -> option Parsed) jsonContent w,
    (forall depth e w',
        parseAndImportSpec JSON_parse depth jsonContent w = Some (Throws e, w') ->
        w' = w
        /\ ((e = SyntaxError /\ JSON_parse jsonContent = None)
            \/ (e = Error empty_specification_array
                /\ JSON_parse jsonContent = Some (ParsedArray []))
            \/ (e = Error missing_transaction_set
                /\ exists document,
                     JSON_parse jsonContent = Some (ParsedOpenAPI document)
                     /\ Forall unmarked (schemasOf document))))
    /\ (forall depth,
          parseAndImportSpec JSON_parse depth jsonContent w = None ->
          exists document transactionSetId root,
            JSON_parse jsonContent = Some (ParsedOpenAPI document)
            /\ firstMarked (schemasOf document) transactionSetId root
            /\ importOpenAPIFormat depth document w = None)
    /\ ((forall depth, parseAndImportSpec JSON_parse depth jsonContent w = None)
        <-> exists document transactionSetId root,
              JSON_parse jsonContent = Some (ParsedOpenAPI document)
              /\ firstMarked (schemasOf document) transactionSetId root
              /\ ReachesCycle (schemasOf document) root)
    /\ ((exists depth outcome,
           forall depth', (depth <= depth')%nat ->
             parseAndImportSpec JSON_parse depth' jsonContent w = Some outcome)
        \/ (forall depth, parseAndImportSpec JSON_parse depth jsonContent w = None)).
Proof.
  intros JSON_parse jsonContent w.
  assert (Schema : forall document,
             JSON_parse jsonContent = Some (ParsedOpenAPI document) ->
             forall depth, parseAndImportSpec JSON_parse depth jsonContent w
                           = importOpenAPIFormat depth document w)
    by (intros document Hp depth; apply parseAndImportSpec_on_schema; exact Hp).
  assert (Cases : (exists document, JSON_parse jsonContent = Some (ParsedOpenAPI document))
                  \/ (forall document,
                         JSON_parse jsonContent <> Some (ParsedOpenAPI document))).
  { destruct (JSON_parse jsonContent) as [[document| |]|];
      [left; exists document; reflexivity | right; discriminate ..]. }
  split; [|split; [|split]].
  - intros depth e w' Hrun.
    unfold parseAndImportSpec, parseOpenEDIJson, andThen, done, lift in Hrun.
    destruct (JSON_parse jsonContent) as [[document|[|first rest]|document]|] eqn:Hp.
    + pose proof (importOpenAPIFormat_run depth document w) as R.
      destruct (importOpenAPIFormat depth document w) as [[[spec|e0] w1]|];
        [discriminate | | discriminate].
      destruct (findTransactionSet (schemasOf document)) as [[transactionSetId root]|] eqn:F.
      * destruct (importProperties _ _ _ _ _ _ _ w) as [[[segments loops] w2]|];
          discriminate.
      * injection R as -> ->. injection Hrun as <- <-.
        split; [reflexivity|]. right. right. split; [reflexivity|].
        exists document. split; [reflexivity|]. apply findTransactionSet_None. exact F.
    + injection Hrun as <- <-. split; [reflexivity|]. right. left. split; reflexivity.
    + destruct (importOpenEDISpec first w). discriminate.
    + destruct (importOpenEDISpec document w). discriminate.
    + injection Hrun as <- <-. split; [reflexivity|]. left. split; reflexivity.
  - intros depth Hrun. destruct Cases as [(document & Hp)|N].
    + rewrite (Schema document Hp) in Hrun. exists document.
      pose proof (importOpenAPIFormat_run depth document w) as R. rewrite Hrun in R.
      destruct (findTransactionSet (schemasOf document)) as [[transactionSetId root]|] eqn:F;
        [|discriminate R].
      exists transactionSetId, root. split; [exact Hp|].
      split; [apply findTransactionSet_Some; exact F | exact Hrun].
    + destruct (@parseAndImportSpec_on_others JSON_parse jsonContent w N) as (outcome & H).
      rewrite H in Hrun. discriminate Hrun.
  - split.
    + intros None_. destruct Cases as [(document & Hp)|N].
      * destruct (importOpenAPIFormat_result_or_cycle document w)
          as [(depth & outcome & H)|(transactionSetId & root & F & C & _)].
        -- specialize (H depth (Nat.le_refl depth)).
           rewrite <- (Schema document Hp), None_ in H. discriminate H.
        -- exists document, transactionSetId, root. auto.
      * destruct (@parseAndImportSpec_on_others JSON_parse jsonContent w N) as (outcome & H).
        specialize (None_ 0%nat). rewrite H in None_. discriminate None_.
    + intros (document & transactionSetId & root & Hp & F & C) depth.
      rewrite (Schema document Hp).
      destruct (importOpenAPIFormat depth document w) as [res|] eqn:E; [|reflexivity].
      exfalso. eapply ReachesCycle_not_Grounded; [exact C|].
      apply findTransactionSet_Some in F.
      eapply importOpenAPIFormat_grounded; eassumption.
  - destruct Cases as [(document & Hp)|N].
    + destruct (importOpenAPIFormat_result_or_cycle document w)
        as [(depth & outcome & H)|(transactionSetId & root & _ & _ & H)].
      * left. exists depth, outcome. intros depth' L.
        rewrite (Schema document Hp). apply H. exact L.
      * right. intros depth. rewrite (Schema document Hp). apply H.
    + left. destruct (@parseAndImportSpec_on_others JSON_parse jsonContent w N) as (outcome & H).
      exists 0%nat, outcome. intros depth' _. apply H.
Qed.

(** A text that is no JSON, and the ship notice whose loop of
    hierarchical levels refers to itself. *)
Lemma parseAndImportSpec_errors_witness :
  (exists e,
      parseAndImportSpec (fun _ => None) 0 "{" Sample.world = Some (Throws e, Sample.world)
      /\ e = SyntaxError)
  /\ (forall depth,
        parseAndImportSpec (fun _ => Some (ParsedOpenAPI Sample.shipNotice)) depth "{...}"
          Sample.world = None).
Proof.
  split.
  - exists SyntaxError. split; reflexivity.
  - apply (proj2 (proj1 (proj2 (proj2
             (parseAndImportSpec_errors (fun _ => Some (ParsedOpenAPI Sample.shipNotice))
                "{...}" Sample.world))))).
    exists Sample.shipNotice, "856", Sample.shipNoticeRoot.
    split; [reflexivity|]. split.
    + exists [], "X12_00501_856", (tl Sample.shipNoticeSchemas).
      split; [reflexivity|]. split; [constructor | reflexivity].
    + right. exists Sample.HLLoop.
      split; apply Reaches_step; left; reflexivity.
Defined.

(** ** The elements of the schema format *)

Lemma allOfCodes_step allSchemas r rest codeValues w :
  allOfCodes allSchemas (r :: rest) codeValues w
  = match enumOf allSchemas r with
    | Some codes =>
        allOfCodes allSchemas rest (Some (mkCodeArray (arrays w) (map enumCode codes)))
          (mkWorld (uuids w) (S (arrays w)) (clock w))
    | None => allOfCodes allSchemas rest codeValues w
    end.
Proof.
  simpl. unfold enumOf.
  destruct (JS.truthy (ref r)) as [target|]; [|reflexivity].
  destruct (JS.get allSchemas (schema_name target)) as [refSchema| |]; try reflexivity.
  destruct (OpenAPISchemaDefinition.enum refSchema) as [codes|]; reflexivity.
Qed.

Lemma allOfCodes_app allSchemas before after :
  forall codeValues w,
    allOfCodes allSchemas (before ++ after) codeValues w
    = allOfCodes allSchemas after
        (fst (allOfCodes allSchemas before codeValues w))
        (snd (allOfCodes allSchemas before codeValues w)).
Proof.
  induction before as [|r rest IH]; intros codeValues w.
  - reflexivity.
  - rewrite <- app_comm_cons, !allOfCodes_step.
    destruct (enumOf allSchemas r); apply IH.
Qed.

Lemma allOfCodes_without_enum allSchemas allOf :
  Forall (fun r => enumOf allSchemas r = None) allOf ->
  forall codeValues w, allOfCodes allSchemas allOf codeValues w = (codeValues, w).
Proof.
  induction 1 as [|r rest E _ IH]; intros codeValues w.
  - reflexivity.
  - rewrite allOfCodes_step, E. apply IH.
Qed.

Lemma allOfCodes_items (P : CodeValue -> Prop) allSchemas :
  (forall c, P (enumCode c)) ->
  forall allOf codeValues w,
    (forall cv, codeValues = Some cv -> Forall P (items cv)) ->
    forall cv, fst (allOfCodes allSchemas allOf codeValues w) = Some cv ->
               Forall P (items cv).
Proof.
  intros HP. induction allOf as [|r rest IH]; intros codeValues w Hc cv.
  - exact (Hc cv).
  - rewrite allOfCodes_step. destruct (enumOf allSchemas r) as [codes|].
    + apply IH. intros cv' E. injection E as <-. simpl.
      apply Forall_forall. intros c I. apply in_map_iff in I.
      destruct I as (x & <- & _). apply HP.
    + apply IH. exact Hc.
Qed.

(** The element [importOpenAPIElement] builds, given what the loop over
    [allOf] leaves in [codeValues]. *)
Lemma importOpenAPIElement_run schema allSchemas propKey prop w :
  let referenced :=
    match OpenAPIProperty.allOf prop with
    | Some allOf => allOfCodes allSchemas allOf None w
    | None => (None, w)
    end in
  let chosen :=
    match OpenAPIProperty.enum prop with
    | Some codes => Some (mkCodeArray (arrays (snd referenced)) (map enumCode codes))
    | None => fst referenced
    end in
  let e := fst (importOpenAPIElement schema allSchemas (propKey, prop) w) in
  Element.name e = parseElementNameFromKey propKey
  /\ Element.dataType e = parseDataTypeFromFormat (OpenAPIProperty.format prop)
  /\ Element.codeValues e = chosen
  /\ option_map items (Element.baseCodes e) = option_map items chosen.
Proof.
  unfold importOpenAPIElement, bind, ret, uuidv4, new_array.
  set (m := match OpenAPIProperty.allOf prop with
            | Some allOf => allOfCodes allSchemas allOf None
            | None => fun w0 => (None, w0)
            end).
  assert (E : match OpenAPIProperty.allOf prop with
              | Some allOf => allOfCodes allSchemas allOf None w
              | None => (None, w)
              end = m w) by (subst m; destruct (OpenAPIProperty.allOf prop); reflexivity).
  rewrite E. destruct (m w) as [referenced w1]. simpl.
  destruct (OpenAPIProperty.enum prop) as [codes|]; simpl.
  - repeat split.
  - destruct referenced as [cv|]; simpl; repeat split.
Qed.

Lemma parseDataTypeFromFormat_option format :
  In (parseDataTypeFromFormat format) dataTypeOptions.
Proof.
  unfold parseDataTypeFromFormat, dataTypeOptions.
  destruct (JS.truthy format) as [f|]; [|simpl; tauto].
  repeat match goal with
         | |- context [if ?b then _ else _] => destruct b
         end; simpl; tauto.
Qed.

Lemma filter_all (A : Type) (f : A -> bool) (l : list A) :
  Forall (fun x => f x = true) l -> filter f l = l.
Proof.
  induction 1 as [|x r H _ IH]; simpl; [reflexivity|]. rewrite H, IH. reflexivity.
Qed.

Lemma importOpenAPIElement_code_items (P : CodeValue -> Prop) schema allSchemas entry w :
  (forall c, P (enumCode c)) ->
  Forall (fun cv => Forall P (items cv))
    (code_lists (fst (importOpenAPIElement schema allSchemas entry w))).
Proof.
  intros HP. destruct entry as [propKey prop].
  destruct (importOpenAPIElement_run schema allSchemas propKey prop w) as (_ & _ & C & B).
  assert (G : forall cv,
             match OpenAPIProperty.enum prop with
             | Some codes =>
                 Some (mkCodeArray
                         (arrays (snd match OpenAPIProperty.allOf prop with
                                      | Some allOf => allOfCodes allSchemas allOf None w
                                      | None => (None, w)
                                      end))
                         (map enumCode codes))
             | None => fst match OpenAPIProperty.allOf prop with
                           | Some allOf => allOfCodes allSchemas allOf None w
                           | None => (None, w)
                           end
             end = Some cv -> Forall P (items cv)).
  { intros cv. destruct (OpenAPIProperty.enum prop) as [codes|].
    - intros E. injection E as <-. simpl.
      apply Forall_forall. intros c I. apply in_map_iff in I.
      destruct I as (x & <- & _). apply HP.
    - destruct (OpenAPIProperty.allOf prop) as [allOf|]; [|discriminate].
      apply (@allOfCodes_items P allSchemas HP allOf None w). discriminate. }
  unfold code_lists. rewrite C.
  destruct (Element.baseCodes _) as [base|];
    destruct (match OpenAPIProperty.enum prop with Some _ => _ | None => _ end)
      as [cv|] eqn:E; simpl in B; try discriminate.
  - injection B as B. repeat constructor; [apply G; reflexivity|].
    rewrite B. apply G. reflexivity.
  - constructor.
Qed.

(** Every data type the schema-format converter gives an element is one
    of the seven the element editor offers in its select: AN, ID, N0, N2,
    R, DT and TM. *)
Theorem schema_dataType_is_an_option :
  forall depth parsed w spec w',
    importOpenAPIFormat depth parsed w = Some (Returns spec, w') ->
    Forall (fun e => In (Element.dataType e) dataTypeOptions) (spec_elements spec).
Proof.
  intros depth parsed w spec w' Hrun.
  eapply (importOpenAPIFormat_everywhere
            (fun _ => True) (fun _ => True)
            (fun e => In (Element.dataType e) dataTypeOptions)); [| | |exact Hrun].
  - intros schema allSchemas [propKey prop] w0.
    destruct (importOpenAPIElement_run schema allSchemas propKey prop w0) as (_ & -> & _).
    apply parseDataTypeFromFormat_option.
  - intros. exact I.
  - intros. exact I.
Qed.

(** The data types of the sample invoice. *)
Lemma schema_dataType_is_an_option_witness :
  exists spec w',
    importOpenAPIFormat 1 Sample.invoice Sample.world = Some (Returns spec, w')
    /\ Forall (fun e => In (Element.dataType e) dataTypeOptions) (spec_elements spec).
Proof.
  eexists. eexists. split; [vm_compute; reflexivity|].
  eapply (schema_dataType_is_an_option 1 Sample.invoice Sample.world).
  vm_compute; reflexivity.
Defined.

Lemma convertElement_code_items (P : CodeValue -> Prop) el position w :
  (forall c, P (convertCode c)) ->
  Forall (fun cv => Forall P (items cv)) (code_lists (fst (convertElement el position w))).
Proof.
  intros HP. rewrite convertElement_run. unfold code_lists.
  assert (F : Forall P (map convertCode (codesOf el))).
  { apply Forall_forall. intros c I. apply in_map_iff in I.
    destruct I as (x & <- & _). apply HP. }
  destruct (map convertCode (codesOf el)) as [|c cs]; simpl.
  - constructor.
  - constructor; [exact F|]. constructor; [exact F | constructor].
Qed.

Lemma included_all (e : Element) :
  Forall (fun cv => Forall (fun c => included c = true) (items cv)) (code_lists e) ->
  all_included e.
Proof.
  unfold all_included. intros F. eapply Forall_impl; [|exact F].
  intros cv. apply filter_all.
Qed.

(** Right after an import by either converter every code of every
    element is included: the filter [c => c.included], by which the
    element editor counts the codes and the document lists them, leaves
    out none.  The codes of the schema format are described by
    themselves. *)
Theorem imported_codes_are_included :
  (forall openEDISpec w,
      Forall all_included (spec_elements (fst (importOpenEDISpec openEDISpec w))))
  /\ (forall depth parsed w spec w',
        importOpenAPIFormat depth parsed w = Some (Returns spec, w') ->
        Forall all_included (spec_elements spec)
        /\ Forall self_described (spec_elements spec)).
Proof.
  split.
  - intros openEDISpec w.
    destruct (importOpenEDISpec_everywhere
                (fun _ => True) (fun _ => True) all_included) with
      (openEDISpec := openEDISpec) (w := w) as (_ & _ & FE).
    + intros. apply included_all. apply convertElement_code_items. reflexivity.
    + intros. exact I.
    + intros. exact I.
    + exact FE.
  - intros depth parsed w spec w' Hrun.
    destruct (importOpenAPIFormat_everywhere
                (fun _ => True) (fun _ => True)
                (fun e => all_included e /\ self_described e)) with
      (depth := depth) (parsed := parsed) (w := w) (spec := spec) (w' := w')
      as (_ & _ & FE).
    + intros. split.
      * apply included_all. apply importOpenAPIElement_code_items. reflexivity.
      * apply (importOpenAPIElement_code_items (fun c => description c = code c)).
        reflexivity.
    + intros. exact I.
    + intros. exact I.
    + exact Hrun.
    + split; (eapply Forall_impl; [|exact FE]); intros e [A B]; assumption.
Qed.

(** The codes of the sample invoice. *)
Lemma imported_codes_are_included_witness :
  exists spec w',
    importOpenAPIFormat 1 Sample.invoice Sample.world = Some (Returns spec, w')
    /\ Forall all_included (spec_elements spec)
    /\ Forall self_described (spec_elements spec).
Proof.
  eexists. eexists. split; [vm_compute; reflexivity|].
  eapply (proj2 imported_codes_are_included 1%nat Sample.invoice Sample.world).
  vm_compute; reflexivity.
Defined.

(** When a property has no inline enumeration and several entries of its
    [allOf] lead to definitions with an enumeration, the element gets the
    codes of the last of them, in its working list and in its base list;
    when none does, the element has no code list. *)
Theorem last_referenced_enumeration_wins :
  forall schema allSchemas propKey prop w allOf,
    OpenAPIProperty.enum prop = None ->
    OpenAPIProperty.allOf prop = Some allOf ->
    let e := fst (importOpenAPIElement schema allSchemas (propKey, prop) w) in
    (forall before r after codes,
        allOf = (before ++ r :: after)%list ->
        enumOf allSchemas r = Some codes ->
        Forall (fun r' => enumOf allSchemas r' = None) after ->
        option_map items (Element.codeValues e) = Some (map enumCode codes)
        /\ option_map items (Element.baseCodes e) = Some (map enumCode codes))
    /\ (Forall (fun r => enumOf allSchemas r = None) allOf ->
        Element.codeValues e = None /\ Element.baseCodes e = None).
Proof.
  intros schema allSchemas propKey prop w allOf He Ha e.
  destruct (importOpenAPIElement_run schema allSchemas propKey prop w) as (_ & _ & C & B).
  fold e in C, B. rewrite He, Ha in C, B. simpl in C, B. split.
  - intros before r after codes -> Hr Hafter.
    rewrite allOfCodes_app, allOfCodes_step, Hr in C, B.
    rewrite (@allOfCodes_without_enum allSchemas after Hafter) in C, B. simpl in C, B.
    rewrite B, C. split; reflexivity.
  - intros Hnone. rewrite (@allOfCodes_without_enum allSchemas allOf Hnone) in C, B. simpl in C, B.
    split; [exact C|]. destruct (Element.baseCodes e); [discriminate | reflexivity].
Qed.

(** The purpose code of the sample segment refers to two enumerations and
    gets the codes of the second. *)
Lemma last_referenced_enumeration_wins_witness :
  let e := fst (importOpenAPIElement Cases.BEG Cases.schemas
                  ("TransactionSetPurposeCode_01", Cases.purpose) Sample.world) in
  option_map items (Element.codeValues e) = Some (map enumCode ["00"; "05"])
  /\ option_map items (Element.baseCodes e) = Some (map enumCode ["00"; "05"]).
Proof.
  apply (proj1 (last_referenced_enumeration_wins Cases.BEG Cases.schemas
                  "TransactionSetPurposeCode_01" Cases.purpose Sample.world
                  eq_refl eq_refl)
           [mkReference (Some "#/components/schemas/X12_ID_143")]
           (mkReference (Some "#/components/schemas/X12_ID_353"))
           [mkReference (Some "#/components/schemas/X12_ID_999")]
           ["00"; "05"] eq_refl eq_refl).
  repeat constructor.
Defined.

(** *** Property keys *)

Lemma strip_digit_suffix_key (name digits : string) :
  digits <> "" -> JS.all_digits digits = true ->
  JS.strip_digit_suffix (name ++ "_" ++ digits) = name.
Proof.
  intros Hne Hd.
  assert (N : negb (String.eqb digits "") = true).
  { destruct (String.eqb_spec digits ""); [contradiction | reflexivity]. }
  induction name as [|c r IH].
  - simpl. rewrite N, Hd. reflexivity.
  - cbn [append JS.strip_digit_suffix].
    change (r ++ "_" ++ digits) with (r ++ String "_" digits) in *.
    rewrite all_digits_underscore, !andb_false_r, IH. reflexivity.
Qed.

Lemma without_spaces_trimStart (s : string) :
  without_spaces (JS.trimStart s) = without_spaces s.
Proof.
  induction s as [|c r IH]; simpl; [reflexivity|].
  destruct (JS.is_space c) eqn:E; [exact IH|]. simpl. rewrite E. reflexivity.
Qed.

Lemma without_spaces_trimEnd (s : string) :
  without_spaces (JS.trimEnd s) = without_spaces s.
Proof.
  induction s as [|c r IH]; [reflexivity|].
  cbn [JS.trimEnd]. destruct (JS.trimEnd r) as [|c' r'] eqn:T.
  - simpl in IH. cbn [without_spaces]. rewrite <- IH.
    destruct (JS.is_space c) eqn:E; simpl; rewrite ?E; reflexivity.
  - cbn [without_spaces] in *. rewrite IH. reflexivity.
Qed.

Lemma is_upper_not_space (c : ascii) : JS.is_upper c = true -> JS.is_space c = false.
Proof.
  unfold JS.is_upper, JS.is_space. intros H.
  apply andb_true_iff in H. destruct H as [A B].
  apply Nat.leb_le in A. apply Nat.leb_le in B.
  apply orb_false_iff. split.
  - apply Nat.eqb_neq. lia.
  - apply andb_false_iff. right. apply Nat.leb_gt. lia.
Qed.

Lemma without_spaces_space_before_capitals (s : string) :
  without_spaces (JS.space_before_capitals s) = without_spaces s.
Proof.
  induction s as [|c r IH]; [reflexivity|].
  cbn [JS.space_before_capitals]. destruct (JS.is_upper c) eqn:U.
  - cbn [without_spaces]. rewrite (is_upper_not_space c U), IH.
    reflexivity.
  - cbn [without_spaces]. rewrite IH. reflexivity.
Qed.

(** The name of an element differs from its property key without the
    digit suffix by white space only: a blank before each capital letter,
    less what [trim] takes away.  With a key made of a name, an underscore
    and digits, whatever underscores and digits the name has in it, taking
    the white space out of the element's name gives the name in the key
    (without its white space, should it have any). *)
Theorem element_name_from_key :
  (forall key,
      without_spaces (parseElementNameFromKey key)
      = without_spaces (JS.strip_digit_suffix key))
  /\ (forall name digits : string,
        digits <> "" -> JS.all_digits digits = true ->
        without_spaces (parseElementNameFromKey (name ++ "_" ++ digits))
        = without_spaces name).
Proof.
  assert (G : forall key,
             without_spaces (parseElementNameFromKey key)
             = without_spaces (JS.strip_digit_suffix key)).
  { intros key. unfold parseElementNameFromKey, JS.trim.
    rewrite without_spaces_trimEnd, without_spaces_trimStart.
    apply without_spaces_space_before_capitals. }
  split; [exact G|].
  intros name digits Hne Hd. rewrite G, strip_digit_suffix_key by assumption.
  reflexivity.
Qed.

(** A key of the sample invoice. *)
Lemma element_name_from_key_witness :
  without_spaces (parseElementNameFromKey ("TransactionSetIdentifierCode" ++ "_" ++ "01"))
  = without_spaces "TransactionSetIdentifierCode".
Proof.
  apply (proj2 element_name_from_key "TransactionSetIdentifierCode" "01").
  - discriminate.
  - reflexivity.
Defined.

(** ** The outline of an imported legacy document *)

Lemma map_flat_map (A B C : Type) (g : B -> C) (f : A -> list B) (l : list A) :
  map g (flat_map f l) = flat_map (fun x => map g (f x)) l.
Proof.
  induction l as [|x r IH]; simpl; [reflexivity|]. rewrite map_app, IH. reflexivity.
Qed.

Lemma map_gen_flat_map (A B C : Type) (f : A -> Gen B) (G : B -> list C)
    (H : A -> list C) (l : list A) :
  (forall x, In x l -> forall w, G (fst (f x w)) = H x) ->
  forall w, flat_map G (fst (map_gen f l w)) = flat_map H l.
Proof.
  induction l as [|x r IH]; intros E w; simpl.
  - reflexivity.
  - unfold bind. pose proof (E x (or_introl eq_refl) w) as Ex.
    destruct (f x w) as [y w1]. simpl in Ex.
    assert (Er : flat_map G (fst (map_gen f r w1)) = flat_map H r)
      by (apply IH; intros z Iz; apply E; right; exact Iz).
    destruct (map_gen f r w1) as [ys w2]. simpl in *. congruence.
Qed.

Lemma loop_labels_unfold (depth : nat) (l : Loop) :
  map label (loop_outline depth l)
  = LoopLabel depth (Loop.name l) (Loop.usage l) (Loop.maxUse l)
    :: (flat_map (fun s => map label (segment_outline (S depth) s)) (Loop.segments l)
        ++ flat_map (fun c => map label (loop_outline (S depth) c)) (Loop.loops l)).
Proof.
  destruct l. simpl. rewrite map_app, !map_flat_map. reflexivity.
Qed.

Lemma convertElements_labels depth :
  forall elements idx w,
    map label
      (map (ElementEntry depth)
         (fst (mapi_gen (fun el i => convertElement el (JS.toNumber (Z.of_nat i + 1)))
                 elements idx w)))
    = legacy_element_labels depth idx elements.
Proof.
  induction elements as [|el rest IH]; intros idx w; simpl.
  - reflexivity.
  - unfold bind. rewrite convertElement_run.
    destruct (map convertCode (codesOf el)) as [|c cs]; cbv beta iota zeta;
      (match goal with
       | |- context [mapi_gen ?f rest (S idx) ?w1] =>
           specialize (IH (S idx) w1); destruct (mapi_gen f rest (S idx) w1) as [ys w2]
       end; unfold ret; simpl in *; f_equal; exact IH).
Qed.

Lemma convertSegment_labels depth s w :
  map label (segment_outline depth (fst (convertSegment s w)))
  = legacy_segment_labels depth s.
Proof.
  rewrite convertSegment_run.
  pose proof (convertElements_labels (S depth)
                (match OpenEDISegment.Elements s with Some es => es | None => [] end)
                0%nat (drawn w)) as E.
  destruct (mapi_gen _ _ _ _) as [elements w1]. cbn [fst] in *.
  unfold segment_outline, legacy_segment_labels, legacySegment.
  cbn [Segment.elements map]. rewrite E. reflexivity.
Qed.

Lemma convertLoop_labels :
  forall l depth w,
    map label (loop_outline depth (fst (convertLoop l w))) = legacy_loop_labels depth l.
Proof.
  induction l as [l IH] using OpenEDILoop_nested_ind. intros depth w.
  rewrite loop_labels_unfold, convertLoop_run.
  pose proof (@map_gen_flat_map _ _ _ convertSegment
                (fun s => map label (segment_outline (S depth) s))
                (legacy_segment_labels (S depth))
                (match OpenEDILoop.Segments l with Some ss => ss | None => [] end)
                (fun x _ w0 => convertSegment_labels (S depth) x w0) (drawn w)) as ES.
  destruct (map_gen convertSegment _ _) as [segments w1].
  pose proof (@map_gen_flat_map _ _ _ convertLoop
                (fun c => map label (loop_outline (S depth) c))
                (legacy_loop_labels (S depth))
                (nestedLoopsOf l)
                (fun x I w0 => IH x I (S depth) w0) w1) as EL.
  destruct (map_gen convertLoop _ _) as [loops w2]. simpl in *.
  rewrite ES, EL. destruct l as [Id Name Req Max Segments Loops].
  unfold nestedLoopsOf. simpl. destruct Loops; reflexivity.
Qed.

(** *** The rows of the navigation tree *)

Lemma Subsequence_refl (A : Type) (l : list A) : Subsequence l l.
Proof. induction l; constructor; assumption. Qed.

Lemma Subsequence_nil_l (A : Type) (l : list A) : Subsequence [] l.
Proof. induction l; constructor; assumption. Qed.

Lemma Subsequence_app (A : Type) (a1 a2 b1 b2 : list A) :
  Subsequence a1 a2 -> Subsequence b1 b2 -> Subsequence (a1 ++ b1) (a2 ++ b2).
Proof.
  intros Ha Hb. induction Ha; simpl; try constructor; assumption.
Qed.

Lemma Subsequence_flat_map (A B : Type) (f g : A -> list B) (l : list A) :
  (forall x, In x l -> Subsequence (f x) (g x)) ->
  Subsequence (flat_map f l) (flat_map g l).
Proof.
  induction l as [|x r IH]; intros H; simpl.
  - constructor.
  - apply Subsequence_app; [apply H; left; reflexivity|].
    apply IH. intros y Hy. apply H. right. exact Hy.
Qed.

Lemma Subsequence_map (A B : Type) (f : A -> B) (l1 l2 : list A) :
  Subsequence l1 l2 -> Subsequence (map f l1) (map f l2).
Proof.
  intros H. induction H; simpl; constructor; assumption.
Qed.

Lemma flat_map_same (A B : Type) (f g : A -> list B) (l : list A) :
  (forall x, In x l -> f x = g x) -> flat_map f l = flat_map g l.
Proof.
  induction l as [|x r IH]; intros H; simpl; [reflexivity|].
  rewrite (H x (or_introl eq_refl)), IH; [reflexivity|].
  intros y Hy. apply H. right. exact Hy.
Qed.

Lemma segment_rows_shown expandedNodes depth s :
  Subsequence (segment_rows expandedNodes depth s) (segment_outline depth s).
Proof.
  unfold segment_rows, segment_outline. cbv zeta. apply Subsequence_keep.
  destruct (_ && _); [apply Subsequence_refl | apply Subsequence_nil_l].
Qed.

Lemma segment_rows_expanded expandedNodes depth s :
  expandedNodes (Segment.id s) = true ->
  segment_rows expandedNodes depth s = segment_outline depth s.
Proof.
  intros E. unfold segment_rows, segment_outline. cbv zeta. rewrite E. f_equal.
  destruct (Segment.elements s); reflexivity.
Qed.

Lemma loop_rows_unfold expandedNodes depth l :
  loop_rows expandedNodes depth l
  = LoopEntry depth (with_loops (with_segments l []) [])
    :: (if expandedNodes (Loop.id l)
        then (flat_map (segment_rows expandedNodes (S depth)) (Loop.segments l)
              ++ flat_map (loop_rows expandedNodes (S depth)) (Loop.loops l))%list
        else []).
Proof. destruct l. reflexivity. Qed.

Lemma loop_outline_rows_unfold depth l :
  loop_outline depth l
  = LoopEntry depth (with_loops (with_segments l []) [])
    :: (flat_map (segment_outline (S depth)) (Loop.segments l)
        ++ flat_map (loop_outline (S depth)) (Loop.loops l))%list.
Proof. destruct l. reflexivity. Qed.

Lemma loop_rows_shown expandedNodes :
  forall l depth, Subsequence (loop_rows expandedNodes depth l) (loop_outline depth l).
Proof.
  induction l as [l IH] using Loop_nested_ind. intros depth.
  rewrite loop_rows_unfold, loop_outline_rows_unfold. apply Subsequence_keep.
  destruct (expandedNodes (Loop.id l)); [|apply Subsequence_nil_l].
  apply Subsequence_app.
  - apply Subsequence_flat_map. intros s _. apply segment_rows_shown.
  - apply Subsequence_flat_map. intros c Hc. apply IH. exact Hc.
Qed.

Lemma loop_rows_expanded expandedNodes :
  (forall id, expandedNodes id = true) ->
  forall l depth, loop_rows expandedNodes depth l = loop_outline depth l.
Proof.
  intros E. induction l as [l IH] using Loop_nested_ind. intros depth.
  rewrite loop_rows_unfold, loop_outline_rows_unfold, E. f_equal. f_equal.
  - apply flat_map_same. intros s _. apply segment_rows_expanded. apply E.
  - apply flat_map_same. intros c Hc. apply IH. exact Hc.
Qed.

Lemma convertLoop_collapsed expandedNodes (E : forall id, expandedNodes id = false) l w :
  map label (loop_rows expandedNodes 0 (fst (convertLoop l w)))
  = [LoopLabel 0 (JS.or_string (OpenEDILoop.Id l) (OpenEDILoop.Name l))
       (parseUsage (OpenEDILoop.Req l)) (JS.or_number (OpenEDILoop.Max l) 1)].
Proof.
  rewrite loop_rows_unfold, E, convertLoop_run.
  destruct (map_gen convertSegment _ _) as [segments w1].
  destruct (map_gen convertLoop _ _) as [loops w2]. reflexivity.
Qed.

(** The outline of a Specification imported from a legacy document lists
    the loops, segments and elements of the document, each once, in the
    order and at the depth the document has them, under the names, usages
    and repeat counts read off the document; the elements of a segment are
    numbered from 1, by Numbers that are exact below 2^53.  The navigation
    tree shows these rows when every node is expanded, and some of them,
    in the same order, when some nodes are collapsed: what is below a
    collapsed loop or segment is not shown. *)
Theorem importOpenEDISpec_outline :
  forall openEDISpec w,
    let spec := fst (importOpenEDISpec openEDISpec w) in
    map label (outline spec) = legacy_labels openEDISpec
    /\ (forall expandedNodes,
          (forall id, expandedNodes id = true) ->
          map label (tree_rows expandedNodes spec) = legacy_labels openEDISpec)
    /\ (forall expandedNodes,
          Subsequence (map label (tree_rows expandedNodes spec)) (legacy_labels openEDISpec))
    /\ (forall expandedNodes,
          (forall id, expandedNodes id = false) ->
          map label (tree_rows expandedNodes spec)
          = map (fun l => LoopLabel 0 (JS.or_string (OpenEDILoop.Id l) (OpenEDILoop.Name l))
                            (parseUsage (OpenEDILoop.Req l))
                            (JS.or_number (OpenEDILoop.Max l) 1))
              (match OpenEDITransactionSet.Loops openEDISpec with
               | Some ls => ls
               | None => []
               end))
    /\ (forall idx : nat,
          Z.of_nat idx < 2 ^ 53 ->
          JS.toNumber (Z.of_nat idx + 1) = JS.Finite (Z.of_nat idx + 1)).
Proof.
  intros openEDISpec w spec.
  assert (O : map label (outline spec) = legacy_labels openEDISpec).
  { unfold spec, outline, forest_outline, legacy_labels. rewrite map_flat_map.
    unfold importOpenEDISpec, bind, ret, now, uuidv4.
    pose proof (@map_gen_flat_map _ _ _ convertLoop
                  (fun c => map label (loop_outline 0 c))
                  (legacy_loop_labels 0)
                  (match OpenEDITransactionSet.Loops openEDISpec with
                   | Some ls => ls | None => [] end)
                  (fun x _ w0 => convertLoop_labels x 0 w0)
                  (mkWorld (S (uuids w)) (arrays w) (clock w))) as E.
    destruct (map_gen convertLoop _ _) as [loops w1]. simpl in *. exact E. }
  split; [exact O|]. split; [|split; [|split]].
  - intros expandedNodes E. rewrite <- O. f_equal.
    unfold tree_rows, outline, forest_outline.
    apply flat_map_same. intros l _. apply loop_rows_expanded. exact E.
  - intros expandedNodes. rewrite <- O. apply Subsequence_map.
    unfold tree_rows, outline, forest_outline.
    apply Subsequence_flat_map. intros l _. apply loop_rows_shown.
  - intros expandedNodes E.
    unfold spec, tree_rows. rewrite map_flat_map.
    unfold importOpenEDISpec, bind, ret, now, uuidv4.
    pose proof (@map_gen_flat_map _ _ _ convertLoop
                  (fun c => map label (loop_rows expandedNodes 0 c))
                  (fun l => [LoopLabel 0 (JS.or_string (OpenEDILoop.Id l) (OpenEDILoop.Name l))
                               (parseUsage (OpenEDILoop.Req l))
                               (JS.or_number (OpenEDILoop.Max l) 1)])
                  (match OpenEDITransactionSet.Loops openEDISpec with
                   | Some ls => ls | None => [] end)) as F.
    specialize (F (fun x _ w0 => convertLoop_collapsed expandedNodes E x w0)
                  (mkWorld (S (uuids w)) (arrays w) (clock w))).
    destruct (map_gen convertLoop _ _) as [loops w1]. simpl in *.
    rewrite F. apply flat_map_singleton.
  - intros idx B. apply toNumber_exact. lia.
Qed.

(** ** The editors of the tree *)

Lemma NoDup_siblings (loops : list Loop) :
  NoDup (map Loop.id (flat_map sub_loops loops)) -> NoDup (map Loop.id loops).
Proof.
  induction loops as [|l r IH]; intros H; simpl.
  - constructor.
  - destruct l as [id name description usage minUse maxUse segments loops
                   order baseUsage baseMinUse baseMaxUse].
    simpl in *. rewrite map_app in H. inversion H as [|? ? N D]; subst.
    constructor.
    + intros I. apply N. apply in_or_app. right.
      apply in_map_iff in I. destruct I as (x & Ex & Ix).
      apply in_map_iff. exists x. split; [exact Ex|].
      apply in_flat_map. exists x. split; [exact Ix|].
      destruct x; simpl; auto.
    + apply IH. eapply NoDup_app_remove_l. exact D.
Qed.

Lemma NoDup_children (loops : list Loop) (parent : Loop) :
  NoDup (map Loop.id (flat_map sub_loops loops)) -> In parent loops ->
  NoDup (map Loop.id (flat_map sub_loops (Loop.loops parent))).
Proof.
  induction loops as [|l r IH]; intros H I; [destruct I|].
  simpl in H. rewrite map_app in H. destruct I as [->|I].
  - apply NoDup_app_remove_r in H. destruct parent; simpl in *.
    inversion H; assumption.
  - apply IH; [|exact I]. eapply NoDup_app_remove_l. exact H.
Qed.

Lemma split_by_id (A : Type) (id : A -> nat) (items : list A) (x : A) :
  NoDup (map id items) -> In x items ->
  exists before after,
    items = (before ++ x :: after)%list
    /\ Forall (fun y => Nat.eqb (id y) (id x) = false) before
    /\ Forall (fun y => Nat.eqb (id y) (id x) = false) after.
Proof.
  intros N I. apply in_split in I. destruct I as (before & after & ->).
  exists before, after. split; [reflexivity|].
  rewrite map_app in N. simpl in N. apply NoDup_remove_2 in N.
  split; apply Forall_forall; intros y Iy; apply Nat.eqb_neq; intros E;
    apply N; apply in_or_app; [left | right]; rewrite <- E; apply in_map; exact Iy.
Qed.

Lemma map_at_one (A : Type) (hit : A -> bool) (f : A -> A) (before after : list A) (x : A) :
  Forall (fun y => hit y = false) before ->
  Forall (fun y => hit y = false) after ->
  hit x = true ->
  map (fun y => if hit y then f y else y) (before ++ x :: after)
  = (before ++ f x :: after)%list.
Proof.
  intros B A' H.
  assert (K : forall l, Forall (fun y => hit y = false) l ->
                        map (fun y => if hit y then f y else y) l = l).
  { induction 1 as [|y r E _ IH]; simpl; [reflexivity|]. rewrite E, IH. reflexivity. }
  rewrite map_app. simpl. rewrite H, (K _ B), (K _ A'). reflexivity.
Qed.

Lemma filter_out_one (A : Type) (hit : A -> bool) (before after : list A) (x : A) :
  Forall (fun y => hit y = false) before ->
  Forall (fun y => hit y = false) after ->
  hit x = true ->
  filter (fun y => negb (hit y)) (before ++ x :: after) = (before ++ after)%list.
Proof.
  intros B A' H.
  assert (K : forall l, Forall (fun y => hit y = false) l ->
                        filter (fun y => negb (hit y)) l = l).
  { induction 1 as [|y r E _ IH]; simpl; [reflexivity|]. rewrite E, IH. reflexivity. }
  rewrite filter_app. simpl. rewrite H, (K _ B), (K _ A'). reflexivity.
Qed.

Lemma at_path_here (prefix rest : list nat) (target id : nat) :
  at_path (prefix ++ target :: rest) (length prefix) id = Nat.eqb id target.
Proof.
  unfold at_path. rewrite nth_error_app2 by lia. rewrite Nat.sub_diag. reflexivity.
Qed.

Lemma is_level_1 (prefix rest : list nat) (target : nat) :
  is_level (prefix ++ target :: rest) (length prefix) 1
  = match rest with [] => true | _ => false end.
Proof.
  unfold is_level. rewrite length_app. simpl.
  destruct rest; [apply Z.eqb_eq | apply Z.eqb_neq]; simpl; lia.
Qed.

Lemma is_level_2 (prefix rest : list nat) (target : nat) :
  is_level (prefix ++ target :: rest) (length prefix) 2
  = match rest with [_] => true | _ => false end.
Proof.
  unfold is_level. rewrite length_app. simpl.
  destruct rest as [|x [|y r]]; [apply Z.eqb_neq | apply Z.eqb_eq | apply Z.eqb_neq];
    simpl; lia.
Qed.

Lemma LoopAt_nonempty loops path l : LoopAt loops path l -> path <> [].
Proof. destruct 1; discriminate. Qed.

Lemma forest_outline_app depth (before after : list Loop) (l : Loop) :
  forest_outline depth (before ++ l :: after)
  = (forest_outline depth before ++ loop_outline depth l ++ forest_outline depth after)%list.
Proof. unfold forest_outline. rewrite flat_map_app. reflexivity. Qed.

Lemma loop_outline_unfold depth (l : Loop) :
  loop_outline depth l
  = LoopEntry depth (with_loops (with_segments l []) [])
    :: (flat_map (segment_outline (S depth)) (Loop.segments l)
        ++ forest_outline (S depth) (Loop.loops l))%list.
Proof. destruct l; reflexivity. Qed.

Lemma loop_outline_with_loops depth (l : Loop) (loops : list Loop) :
  loop_outline depth (with_loops l loops)
  = LoopEntry depth (with_loops (with_segments l []) [])
    :: (flat_map (segment_outline (S depth)) (Loop.segments l)
        ++ forest_outline (S depth) loops)%list.
Proof. destruct l; reflexivity. Qed.

Lemma loop_outline_with_segments depth (l : Loop) (segments : list Segment) :
  loop_outline depth (with_segments l segments)
  = LoopEntry depth (with_loops (with_segments l []) [])
    :: (flat_map (segment_outline (S depth)) segments
        ++ forest_outline (S depth) (Loop.loops l))%list.
Proof. destruct l; reflexivity. Qed.

(** *** The loop editor *)

Lemma updateLoopInTree_item_unfold updates targetPath depth (l : Loop) :
  LoopEditor.updateLoopInTree_item updates targetPath depth l
  = if at_path targetPath depth (Loop.id l) then
      if is_level targetPath depth 1 then updates l
      else with_loops l
             (LoopEditor.updateLoopInTree updates targetPath (Loop.loops l) (S depth))
    else l.
Proof. destruct l; reflexivity. Qed.

Lemma updateLoopInTree_outline updates :
  forall loops path l,
    LoopAt loops path l ->
    forall prefix,
      NoDup (map Loop.id (flat_map sub_loops loops)) ->
      exists before after,
        forest_outline (length prefix) loops
        = (before ++ loop_outline (length prefix + pred (length path)) l ++ after)%list
        /\ forest_outline (length prefix)
             (LoopEditor.updateLoopInTree updates (prefix ++ path) loops (length prefix))
           = (before ++ loop_outline (length prefix + pred (length path)) (updates l)
                ++ after)%list.
Proof.
  induction 1 as [loops l I | loops parent path l I At IH]; intros prefix N.
  - destruct (split_by_id Loop.id loops l (NoDup_siblings loops N) I)
      as (b & a & -> & Hb & Ha).
    exists (forest_outline (length prefix) b), (forest_outline (length prefix) a).
    simpl. rewrite Nat.add_0_r. split; [apply forest_outline_app|].
    unfold LoopEditor.updateLoopInTree.
    rewrite (map_ext _ (fun y => if Nat.eqb (Loop.id y) (Loop.id l) then updates y else y)).
    + rewrite (@map_at_one _ (fun y => Nat.eqb (Loop.id y) (Loop.id l)) updates b a l
                 Hb Ha (Nat.eqb_refl _)).
      apply forest_outline_app.
    + intros y. rewrite updateLoopInTree_item_unfold, at_path_here.
      rewrite is_level_1. reflexivity.
  - destruct (split_by_id Loop.id loops parent (NoDup_siblings loops N) I)
      as (b & a & -> & Hb & Ha).
    destruct (IH (prefix ++ [Loop.id parent])%list (NoDup_children _ parent N I))
      as (b' & a' & E1 & E2).
    rewrite length_app in E1, E2. simpl in E1, E2.
    rewrite <- app_assoc in E2. simpl in E2.
    replace (length prefix + 1 + pred (length path))%nat
      with (length prefix + pred (length (Loop.id parent :: path)))%nat in E1, E2
      by (pose proof (LoopAt_nonempty At); destruct path; simpl; [contradiction | lia]).
    replace (length prefix + 1)%nat with (S (length prefix)) in E1, E2 by lia.
    exists (forest_outline (length prefix) b
            ++ LoopEntry (length prefix) (with_loops (with_segments parent []) [])
               :: flat_map (segment_outline (S (length prefix))) (Loop.segments parent)
            ++ b')%list,
           (a' ++ forest_outline (length prefix) a)%list.
    split.
    + rewrite forest_outline_app, loop_outline_unfold, E1.
      rewrite <- !app_assoc. simpl. rewrite <- !app_assoc. reflexivity.
    + unfold LoopEditor.updateLoopInTree at 1.
      rewrite (map_ext _ (fun y => if Nat.eqb (Loop.id y) (Loop.id parent)
                                   then with_loops y
                                          (LoopEditor.updateLoopInTree updates
                                             (prefix ++ Loop.id parent :: path)
                                             (Loop.loops y) (S (length prefix)))
                                   else y)).
      * rewrite (@map_at_one _ (fun y => Nat.eqb (Loop.id y) (Loop.id parent)) _ b a parent
                   Hb Ha (Nat.eqb_refl _)).
        rewrite forest_outline_app, loop_outline_with_loops, E2.
        rewrite <- !app_assoc. simpl. rewrite <- !app_assoc. reflexivity.
      * intros y. rewrite updateLoopInTree_item_unfold, at_path_here.
        rewrite is_level_1.
        pose proof (LoopAt_nonempty At). destruct path; [contradiction | reflexivity].
Qed.

Lemma deleteFromLoops_below_unfold targetPath depth (l : Loop) :
  LoopEditor.deleteFromLoops_below targetPath depth l
  = with_loops l (LoopEditor.deleteFromLoops targetPath (Loop.loops l) depth).
Proof. destruct l; reflexivity. Qed.

Lemma deleteFromLoops_outline :
  forall loops path l,
    LoopAt loops path l ->
    forall prefix,
      NoDup (map Loop.id (flat_map sub_loops loops)) ->
      exists before after,
        forest_outline (length prefix) loops
        = (before ++ loop_outline (length prefix + pred (length path)) l ++ after)%list
        /\ forest_outline (length prefix)
             (LoopEditor.deleteFromLoops (prefix ++ path) loops (length prefix))
           = (before ++ after)%list.
Proof.
  induction 1 as [loops l I | loops parent path l I At IH]; intros prefix N.
  - destruct (split_by_id Loop.id loops l (NoDup_siblings loops N) I)
      as (b & a & -> & Hb & Ha).
    exists (forest_outline (length prefix) b), (forest_outline (length prefix) a).
    simpl. rewrite Nat.add_0_r. split; [apply forest_outline_app|].
    unfold LoopEditor.deleteFromLoops. rewrite is_level_1.
    rewrite (filter_ext _ (fun y => negb (Nat.eqb (Loop.id y) (Loop.id l)))).
    + rewrite (@filter_out_one _ (fun y => Nat.eqb (Loop.id y) (Loop.id l)) b a l
                 Hb Ha (Nat.eqb_refl _)).
      unfold forest_outline. apply flat_map_app.
    + intros y. rewrite at_path_here. reflexivity.
  - destruct (split_by_id Loop.id loops parent (NoDup_siblings loops N) I)
      as (b & a & -> & Hb & Ha).
    destruct (IH (prefix ++ [Loop.id parent])%list (NoDup_children _ parent N I))
      as (b' & a' & E1 & E2).
    rewrite length_app in E1, E2. simpl in E1, E2.
    rewrite <- app_assoc in E2. simpl in E2.
    replace (length prefix + 1 + pred (length path))%nat
      with (length prefix + pred (length (Loop.id parent :: path)))%nat in E1
      by (pose proof (LoopAt_nonempty At); destruct path; simpl; [contradiction | lia]).
    replace (length prefix + 1)%nat with (S (length prefix)) in E1, E2 by lia.
    exists (forest_outline (length prefix) b
            ++ LoopEntry (length prefix) (with_loops (with_segments parent []) [])
               :: flat_map (segment_outline (S (length prefix))) (Loop.segments parent)
            ++ b')%list,
           (a' ++ forest_outline (length prefix) a)%list.
    split.
    + rewrite forest_outline_app, loop_outline_unfold, E1.
      rewrite <- !app_assoc. simpl. rewrite <- !app_assoc. reflexivity.
    + unfold LoopEditor.deleteFromLoops at 1. rewrite is_level_1.
      pose proof (LoopAt_nonempty At) as Np.
      destruct path as [|p0 path0]; [contradiction|].
      rewrite (map_ext _ (fun y => if Nat.eqb (Loop.id y) (Loop.id parent)
                                   then with_loops y
                                          (LoopEditor.deleteFromLoops
                                             (prefix ++ Loop.id parent :: p0 :: path0)
                                             (Loop.loops y) (S (length prefix)))
                                   else y)).
      * rewrite (@map_at_one _ (fun y => Nat.eqb (Loop.id y) (Loop.id parent)) _ b a parent
                   Hb Ha (Nat.eqb_refl _)).
        rewrite forest_outline_app, loop_outline_with_loops, E2.
        rewrite <- !app_assoc. simpl. rewrite <- !app_assoc. reflexivity.
      * intros y. rewrite at_path_here, deleteFromLoops_below_unfold. reflexivity.
Qed.

Lemma NoDup_loop_ids (spec : Specification) :
  NoDup (all_ids spec) -> NoDup (map Loop.id (spec_loops spec)).
Proof.
  unfold all_ids. intros H. apply NoDup_cons_iff in H. destruct H as [_ D].
  exact (NoDup_app_remove_r _ _ D).
Qed.

Lemma NoDup_segment_ids (spec : Specification) :
  NoDup (all_ids spec) -> NoDup (map Segment.id (spec_segments spec)).
Proof.
  unfold all_ids. intros H. apply NoDup_cons_iff in H. destruct H as [_ D].
  apply NoDup_app_remove_l in D. exact (NoDup_app_remove_r _ _ D).
Qed.

(** Saving an edit of a loop changes that loop and nothing else.  In a
    Specification whose identifiers are distinct, as they are after an
    import, the outline of the Specification after [updateLoop] is the
    outline before it with the lines of the loop at the path, those of its
    segments, elements and nested loops included, replaced by the lines of
    the updated loop; all that is before and after them stays as it is. *)
Theorem updateLoop_outline :
  forall (updates : Loop -> Loop) path spec l,
    NoDup (all_ids spec) ->
    LoopAt (Specification.loops spec) path l ->
    exists before after,
      outline spec = (before ++ loop_outline (length path - 1) l ++ after)%list
      /\ outline (LoopEditor.updateLoop updates path spec)
         = (before ++ loop_outline (length path - 1) (updates l) ++ after)%list.
Proof.
  intros updates path spec l N At.
  destruct (updateLoopInTree_outline updates At [] (NoDup_loop_ids N))
    as (before & after & E1 & E2).
  exists before, after. rewrite Nat.sub_1_r. split; [exact E1 | exact E2].
Qed.

(** The loop of the parties of the sample invoice gets another name. *)
Lemma updateLoop_outline_witness :
  exists before after,
    outline Cases.invoice = (before ++ loop_outline 1 Cases.party ++ after)%list
    /\ outline (LoopEditor.updateLoop (Cases.rename "N1") [1%nat; 5%nat] Cases.invoice)
       = (before ++ loop_outline 1 (Cases.rename "N1" Cases.party) ++ after)%list.
Proof.
  apply (@updateLoop_outline (Cases.rename "N1") [1%nat; 5%nat] Cases.invoice Cases.party).
  - vm_compute. repeat constructor; simpl; intuition discriminate.
  - apply (@LoopAt_below _ Cases.header [5%nat] Cases.party); [left; reflexivity|].
    apply (@LoopAt_here _ Cases.party). left; reflexivity.
Defined.

(** Deleting a loop takes out that loop and what is in it, and nothing
    else: in a Specification whose identifiers are distinct the outline
    after [handleDeleteLoop] is the outline before it without the lines of
    the loop at the path, of its segments and elements and of its nested
    loops. *)
Theorem handleDeleteLoop_outline :
  forall path spec l,
    NoDup (all_ids spec) ->
    LoopAt (Specification.loops spec) path l ->
    exists before after,
      outline spec = (before ++ loop_outline (length path - 1) l ++ after)%list
      /\ outline (LoopEditor.handleDeleteLoop path spec) = (before ++ after)%list.
Proof.
  intros path spec l N At.
  destruct (deleteFromLoops_outline At [] (NoDup_loop_ids N))
    as (before & after & E1 & E2).
  exists before, after. rewrite Nat.sub_1_r. split; [exact E1 | exact E2].
Qed.

(** The loop of the parties is taken out of the sample invoice. *)
Lemma handleDeleteLoop_outline_witness :
  exists before after,
    outline Cases.invoice = (before ++ loop_outline 1 Cases.party ++ after)%list
    /\ outline (LoopEditor.handleDeleteLoop [1%nat; 5%nat] Cases.invoice)
       = (before ++ after)%list.
Proof.
  apply (@handleDeleteLoop_outline [1%nat; 5%nat] Cases.invoice Cases.party).
  - vm_compute. repeat constructor; simpl; intuition discriminate.
  - apply (@LoopAt_below _ Cases.header [5%nat] Cases.party); [left; reflexivity|].
    apply (@LoopAt_here _ Cases.party). left; reflexivity.
Defined.

(** *** The segment editor *)

Lemma updateInLoops_item_unfold updates targetPath depth (loop : Loop) :
  SegmentEditor.updateInLoops_item updates targetPath depth loop
  = if at_path targetPath depth (Loop.id loop) then
      if is_level targetPath depth 2 then
        with_segments loop
          (map (fun s => if at_path targetPath (depth + 1) (Segment.id s)
                         then updates s else s)
             (Loop.segments loop))
      else with_loops loop
             (SegmentEditor.updateInLoops updates targetPath (Loop.loops loop) (S depth))
    else loop.
Proof. destruct loop; reflexivity. Qed.

Lemma deleteFromLoops_item_unfold targetPath depth (loop : Loop) :
  SegmentEditor.deleteFromLoops_item targetPath depth loop
  = if at_path targetPath depth (Loop.id loop) then
      if is_level targetPath depth 2 then
        with_segments loop
          (filter (fun s => negb (at_path targetPath (depth + 1) (Segment.id s)))
             (Loop.segments loop))
      else with_loops loop
             (SegmentEditor.deleteFromLoops targetPath (Loop.loops loop) (S depth))
    else loop.
Proof. destruct loop; reflexivity. Qed.

Lemma at_path_next (prefix rest : list nat) (parent target id : nat) :
  at_path (prefix ++ parent :: target :: rest) (length prefix + 1) id = Nat.eqb id target.
Proof.
  unfold at_path. rewrite nth_error_app2 by lia.
  replace (length prefix + 1 - length prefix)%nat with 1%nat by lia. reflexivity.
Qed.

Lemma sub_loops_children (loops : list Loop) (parent p : Loop) :
  In parent loops -> In p (flat_map sub_loops (Loop.loops parent)) ->
  In p (flat_map sub_loops loops).
Proof.
  intros I Ip. apply in_flat_map. exists parent. split; [exact I|].
  destruct parent; simpl in *. right. exact Ip.
Qed.

Lemma sub_loops_self (l : Loop) : In l (sub_loops l).
Proof. destruct l; simpl; auto. Qed.

Lemma segment_lines_app depth (before after : list Segment) (s : Segment) :
  flat_map (segment_outline depth) (before ++ s :: after)
  = (flat_map (segment_outline depth) before ++ segment_outline depth s
     ++ flat_map (segment_outline depth) after)%list.
Proof. rewrite flat_map_app. reflexivity. Qed.

Section SegmentPaths.

(** What the editor does to the segments of the parent loop, and what
    that makes of the lines of the segment [s] at the path. *)
Variable onLoops : list nat -> list Loop -> nat -> list Loop.
Variable onItem : list nat -> nat -> Loop -> Loop.
Variable onSegments : list nat -> nat -> list Segment -> list Segment.
Variable lines : nat -> Segment -> list Entry.

Hypothesis onLoops_maps :
  forall targetPath loops depth,
    onLoops targetPath loops depth = map (onItem targetPath depth) loops.
Hypothesis onItem_unfold :
  forall targetPath depth loop,
    onItem targetPath depth loop
    = if at_path targetPath depth (Loop.id loop) then
        if is_level targetPath depth 2 then
          with_segments loop (onSegments targetPath depth (Loop.segments loop))
        else with_loops loop (onLoops targetPath (Loop.loops loop) (S depth))
      else loop.
Hypothesis onSegments_lines :
  forall prefix parent (s : Segment) sb sa,
    Forall (fun y => Nat.eqb (Segment.id y) (Segment.id s) = false) sb ->
    Forall (fun y => Nat.eqb (Segment.id y) (Segment.id s) = false) sa ->
    flat_map (segment_outline (S (length prefix)))
      (onSegments (prefix ++ [parent; Segment.id s]) (length prefix) (sb ++ s :: sa))
    = (flat_map (segment_outline (S (length prefix))) sb
       ++ lines (S (length prefix)) s
       ++ flat_map (segment_outline (S (length prefix))) sa)%list.

Lemma onLoops_outline :
  forall loops loopPath parent,
    LoopAt loops loopPath parent ->
    forall prefix s,
      In s (Loop.segments parent) ->
      NoDup (map Loop.id (flat_map sub_loops loops)) ->
      (forall p, In p (flat_map sub_loops loops) ->
                 NoDup (map Segment.id (Loop.segments p))) ->
      exists before after,
        forest_outline (length prefix) loops
        = (before ++ segment_outline (length prefix + length loopPath) s ++ after)%list
        /\ forest_outline (length prefix)
             (onLoops (prefix ++ loopPath ++ [Segment.id s]) loops (length prefix))
           = (before ++ lines (length prefix + length loopPath) s ++ after)%list.
Proof.
  induction 1 as [loops l I | loops parent path l I At IH]; intros prefix s Is N NS.
  - destruct (split_by_id Loop.id loops l (NoDup_siblings loops N) I)
      as (b & a & -> & Hb & Ha).
    assert (Ns : NoDup (map Segment.id (Loop.segments l))).
    { apply NS. apply in_flat_map. exists l. split; [exact I | apply sub_loops_self]. }
    destruct (split_by_id Segment.id (Loop.segments l) s Ns Is)
      as (sb & sa & Es & Hsb & Hsa).
    exists (forest_outline (length prefix) b
            ++ LoopEntry (length prefix) (with_loops (with_segments l []) [])
               :: flat_map (segment_outline (S (length prefix))) sb)%list,
           (flat_map (segment_outline (S (length prefix))) sa
            ++ forest_outline (S (length prefix)) (Loop.loops l)
            ++ forest_outline (length prefix) a)%list.
    cbn [length app]. rewrite Nat.add_1_r. split.
    + rewrite forest_outline_app, loop_outline_unfold, Es, segment_lines_app.
      repeat (rewrite <- app_assoc || rewrite <- app_comm_cons). reflexivity.
    + rewrite onLoops_maps.
      rewrite (map_ext _ (fun y => if Nat.eqb (Loop.id y) (Loop.id l)
                                   then with_segments y
                                          (onSegments (prefix ++ [Loop.id l; Segment.id s])
                                             (length prefix) (Loop.segments y))
                                   else y)).
      * rewrite (@map_at_one _ (fun y => Nat.eqb (Loop.id y) (Loop.id l)) _ b a l
                   Hb Ha (Nat.eqb_refl _)).
        rewrite forest_outline_app, loop_outline_with_segments, Es.
        rewrite (@onSegments_lines prefix (Loop.id l) s sb sa Hsb Hsa).
        repeat (rewrite <- app_assoc || rewrite <- app_comm_cons). reflexivity.
      * intros y. rewrite onItem_unfold, at_path_here, is_level_2. reflexivity.
  - destruct (split_by_id Loop.id loops parent (NoDup_siblings loops N) I)
      as (b & a & -> & Hb & Ha).
    destruct (IH (prefix ++ [Loop.id parent])%list s Is (NoDup_children _ parent N I))
      as (b' & a' & E1 & E2).
    { intros p Ip. apply NS. eapply sub_loops_children; eassumption. }
    rewrite length_app in E1, E2. cbn [length] in E1, E2.
    rewrite <- app_assoc in E2. cbn [app] in E2.
    replace (length prefix + 1 + length path)%nat
      with (length prefix + length (Loop.id parent :: path))%nat in E1, E2
      by (cbn [length]; lia).
    replace (length prefix + 1)%nat with (S (length prefix)) in E1, E2 by lia.
    exists (forest_outline (length prefix) b
            ++ LoopEntry (length prefix) (with_loops (with_segments parent []) [])
               :: flat_map (segment_outline (S (length prefix))) (Loop.segments parent)
            ++ b')%list,
           (a' ++ forest_outline (length prefix) a)%list.
    split.
    + rewrite forest_outline_app, loop_outline_unfold, E1.
      repeat (rewrite <- app_assoc || rewrite <- app_comm_cons). reflexivity.
    + rewrite onLoops_maps.
      rewrite (map_ext _ (fun y => if Nat.eqb (Loop.id y) (Loop.id parent)
                                   then with_loops y
                                          (onLoops
                                             (prefix ++ Loop.id parent :: path
                                                ++ [Segment.id s])
                                             (Loop.loops y) (S (length prefix)))
                                   else y)).
      * rewrite (@map_at_one _ (fun y => Nat.eqb (Loop.id y) (Loop.id parent)) _ b a parent
                   Hb Ha (Nat.eqb_refl _)).
        rewrite forest_outline_app, loop_outline_with_loops, E2.
        repeat (rewrite <- app_assoc || rewrite <- app_comm_cons). reflexivity.
      * intros y. cbn [app]. rewrite onItem_unfold, at_path_here, is_level_2.
        pose proof (LoopAt_nonempty At). destruct path as [|p0 [|p1 path1]];
          [contradiction | reflexivity | reflexivity].
Qed.

End SegmentPaths.

Lemma NoDup_part (A B : Type) (f : A -> list B) (g : B -> nat) (xs : list A) (x : A) :
  NoDup (map g (flat_map f xs)) -> In x xs -> NoDup (map g (f x)).
Proof.
  induction xs as [|y r IH]; intros N I; [destruct I|].
  simpl in N. rewrite map_app in N. destruct I as [->|I].
  - exact (NoDup_app_remove_r _ _ N).
  - apply IH; [exact (NoDup_app_remove_l _ _ N) | exact I].
Qed.

Lemma updateInLoops_outline (updates : Segment -> Segment) :
  forall loops loopPath parent,
    LoopAt loops loopPath parent ->
    forall prefix s,
      In s (Loop.segments parent) ->
      NoDup (map Loop.id (flat_map sub_loops loops)) ->
      (forall p, In p (flat_map sub_loops loops) ->
                 NoDup (map Segment.id (Loop.segments p))) ->
      exists before after,
        forest_outline (length prefix) loops
        = (before ++ segment_outline (length prefix + length loopPath) s ++ after)%list
        /\ forest_outline (length prefix)
             (SegmentEditor.updateInLoops updates (prefix ++ loopPath ++ [Segment.id s])
                loops (length prefix))
           = (before ++ segment_outline (length prefix + length loopPath) (updates s)
                ++ after)%list.
Proof.
  apply (@onLoops_outline
           (SegmentEditor.updateInLoops updates)
           (SegmentEditor.updateInLoops_item updates)
           (fun targetPath depth segments =>
              map (fun s => if at_path targetPath (depth + 1) (Segment.id s)
                            then updates s else s) segments)
           (fun depth s => segment_outline depth (updates s))).
  - reflexivity.
  - apply updateInLoops_item_unfold.
  - intros prefix parent s sb sa Hsb Hsa.
    rewrite (map_ext _ (fun y => if Nat.eqb (Segment.id y) (Segment.id s)
                                 then updates y else y)).
    + rewrite (@map_at_one _ (fun y => Nat.eqb (Segment.id y) (Segment.id s)) updates
                 sb sa s Hsb Hsa (Nat.eqb_refl _)).
      apply segment_lines_app.
    + intros y. rewrite at_path_next. reflexivity.
Qed.

Lemma deleteSegment_outline :
  forall loops loopPath parent,
    LoopAt loops loopPath parent ->
    forall prefix s,
      In s (Loop.segments parent) ->
      NoDup (map Loop.id (flat_map sub_loops loops)) ->
      (forall p, In p (flat_map sub_loops loops) ->
                 NoDup (map Segment.id (Loop.segments p))) ->
      exists before after,
        forest_outline (length prefix) loops
        = (before ++ segment_outline (length prefix + length loopPath) s ++ after)%list
        /\ forest_outline (length prefix)
             (SegmentEditor.deleteFromLoops (prefix ++ loopPath ++ [Segment.id s])
                loops (length prefix))
           = (before ++ [] ++ after)%list.
Proof.
  apply (@onLoops_outline
           SegmentEditor.deleteFromLoops
           SegmentEditor.deleteFromLoops_item
           (fun targetPath depth segments =>
              filter (fun s => negb (at_path targetPath (depth + 1) (Segment.id s)))
                segments)
           (fun _ _ => [])).
  - reflexivity.
  - apply deleteFromLoops_item_unfold.
  - intros prefix parent s sb sa Hsb Hsa.
    rewrite (filter_ext _ (fun y => negb (Nat.eqb (Segment.id y) (Segment.id s)))).
    + rewrite (@filter_out_one _ (fun y => Nat.eqb (Segment.id y) (Segment.id s))
                 sb sa s Hsb Hsa (Nat.eqb_refl _)).
      apply flat_map_app.
    + intros y. rewrite at_path_next. reflexivity.
Qed.

Lemma segment_siblings (spec : Specification) :
  NoDup (all_ids spec) ->
  forall p, In p (flat_map sub_loops (Specification.loops spec)) ->
            NoDup (map Segment.id (Loop.segments p)).
Proof.
  intros N p I. apply NoDup_segment_ids in N.
  exact (NoDup_part Loop.segments Segment.id (spec_loops spec) p N I).
Qed.

(** Saving an edit of a segment changes that segment and nothing else:
    in a Specification whose identifiers are distinct the outline after
    [updateSegment] is the outline before it with the lines of the segment
    at the path and of its elements replaced by those of the updated
    segment. *)
Theorem updateSegment_outline :
  forall (updates : Segment -> Segment) path spec s,
    NoDup (all_ids spec) ->
    SegmentAt (Specification.loops spec) path s ->
    exists before after,
      outline spec = (before ++ segment_outline (length path - 1) s ++ after)%list
      /\ outline (SegmentEditor.updateSegment updates path spec)
         = (before ++ segment_outline (length path - 1) (updates s) ++ after)%list.
Proof.
  intros updates path spec s N At.
  destruct At as [loopPath parent s At Is].
  destruct (updateInLoops_outline updates At [] s Is (NoDup_loop_ids N)
              (segment_siblings N))
    as (before & after & E1 & E2).
  exists before, after. rewrite length_app, Nat.add_sub.
  split; [exact E1 | exact E2].
Qed.

(** The header segment of the sample invoice becomes optional. *)
Lemma updateSegment_outline_witness :
  exists before after,
    outline Cases.invoice = (before ++ segment_outline 1 Cases.ST ++ after)%list
    /\ outline (SegmentEditor.updateSegment (Cases.reclassify Usage.O) [1%nat; 2%nat]
                  Cases.invoice)
       = (before ++ segment_outline 1 (Cases.reclassify Usage.O Cases.ST) ++ after)%list.
Proof.
  apply (@updateSegment_outline (Cases.reclassify Usage.O) [1%nat; 2%nat] Cases.invoice
           Cases.ST).
  - vm_compute. repeat constructor; simpl; intuition discriminate.
  - apply (@SegmentAt_intro _ [1%nat] Cases.header Cases.ST); [|left; reflexivity].
    apply (@LoopAt_here _ Cases.header). left; reflexivity.
Defined.

(** Deleting a segment takes out that segment with its elements, and
    nothing else: in a Specification whose identifiers are distinct the
    outline after [handleDeleteSegment] is the outline before it without
    the lines of the segment at the path and of its elements. *)
Theorem handleDeleteSegment_outline :
  forall path spec s,
    NoDup (all_ids spec) ->
    SegmentAt (Specification.loops spec) path s ->
    exists before after,
      outline spec = (before ++ segment_outline (length path - 1) s ++ after)%list
      /\ outline (SegmentEditor.handleDeleteSegment path spec) = (before ++ after)%list.
Proof.
  intros path spec s N At.
  destruct At as [loopPath parent s At Is].
  destruct (deleteSegment_outline At [] s Is (NoDup_loop_ids N) (segment_siblings N))
    as (before & after & E1 & E2).
  exists before, after. rewrite length_app, Nat.add_sub.
  split; [exact E1 | exact E2].
Qed.

(** The header segment is taken out of the sample invoice. *)
Lemma handleDeleteSegment_outline_witness :
  exists before after,
    outline Cases.invoice = (before ++ segment_outline 1 Cases.ST ++ after)%list
    /\ outline (SegmentEditor.handleDeleteSegment [1%nat; 2%nat] Cases.invoice)
       = (before ++ after)%list.
Proof.
  apply (@handleDeleteSegment_outline [1%nat; 2%nat] Cases.invoice Cases.ST).
  - vm_compute. repeat constructor; simpl; intuition discriminate.
  - apply (@SegmentAt_intro _ [1%nat] Cases.header Cases.ST); [|left; reflexivity].
    apply (@LoopAt_here _ Cases.header). left; reflexivity.
Defined.

(** *** New elements *)

(** The largest of integers is one of them. *)
Lemma fold_max_finite (xs : list JS.number) :
  Forall (fun p => exists z, p = JS.Finite z /\ - 2 ^ 53 < z < 2 ^ 53) xs ->
  forall a,
    - 2 ^ 53 < a < 2 ^ 53 ->
    exists m,
      fold_left JS.max xs (JS.Finite a) = JS.Finite m
      /\ - 2 ^ 53 < m < 2 ^ 53
      /\ a <= m
      /\ (m = a \/ In (JS.Finite m) xs)
      /\ Forall (fun p => exists z, p = JS.Finite z /\ z <= m) xs.
Proof.
  induction 1 as [|p r (z & -> & Hz) F IH]; intros a Ha.
  - exists a. split; [reflexivity|]. split; [exact Ha|]. split; [lia|].
    split; [left; reflexivity | constructor].
  - cbn [fold_left JS.max].
    destruct (IH (Z.max a z) ltac:(lia)) as (m & E & Hm & L & I & B).
    exists m. split; [exact E|]. split; [exact Hm|]. split; [lia|]. split.
    + destruct I as [I|I]; [|right; right; exact I].
      destruct (Z.max_spec a z) as [[_ M]|[_ M]]; rewrite M in I.
      * right. left. rewrite I. reflexivity.
      * left. exact I.
    + constructor; [exists z; split; [reflexivity | lia] | exact B].
Qed.

Lemma Math_max_safe (xs : list JS.number) :
  Forall (fun p => exists z, p = JS.Finite z /\ - 2 ^ 53 < z < 2 ^ 53) xs ->
  xs <> [] ->
  exists m,
    JS.Math_max xs = JS.Finite m
    /\ - 2 ^ 53 < m < 2 ^ 53
    /\ In (JS.Finite m) xs
    /\ Forall (fun p => exists z, p = JS.Finite z /\ z <= m) xs.
Proof.
  intros F N. destruct xs as [|p r]; [contradiction|].
  inversion F as [|? ? (z & -> & Hz) Fr]; subst.
  unfold JS.Math_max. cbn [fold_left JS.max].
  destruct (fold_max_finite Fr Hz) as (m & E & Hm & L & I & B).
  exists m. split; [exact E|]. split; [exact Hm|]. split.
  - destruct I as [->|I]; [left; reflexivity | right; exact I].
  - constructor; [exists z; split; [reflexivity | exact L] | exact B].
Qed.

(** The position of a new element, among safe positions: one more than
    the largest. *)
Lemma newPosition_safe (elements : list Element) :
  Forall safely_positioned elements ->
  exists z,
    SegmentEditor.newPosition elements = JS.Finite z
    /\ - 2 ^ 53 < z <= 2 ^ 53
    /\ Forall (fun x => exists y, Element.position x = JS.Finite y /\ y < z) elements
    /\ (elements = [] -> z = 1)
    /\ (elements <> [] -> Exists (fun x => Element.position x = JS.Finite (z - 1)) elements).
Proof.
  intros F. destruct elements as [|e r].
  - exists 1. split; [reflexivity|]. split; [lia|]. split; [constructor|].
    split; [reflexivity | intros N; contradiction].
  - assert (Fp : Forall (fun p => exists z, p = JS.Finite z /\ - 2 ^ 53 < z < 2 ^ 53)
                   (map Element.position (e :: r)))
      by (apply Forall_map; exact F).
    destruct (Math_max_safe Fp ltac:(discriminate)) as (m & E & Hm & I & B).
    exists (m + 1). unfold SegmentEditor.newPosition. rewrite E.
    cbn [JS.add]. split; [apply toNumber_exact; lia|]. split; [lia|]. split.
    + apply Forall_forall. intros x Ix. rewrite Forall_forall in B.
      destruct (B (Element.position x) (in_map _ _ _ Ix)) as (y & Ey & Ly).
      exists y. split; [exact Ey | lia].
    + split; [discriminate|]. intros _.
      apply in_map_iff in I. destruct I as (x & Ex & Ix).
      apply Exists_exists. exists x. split; [exact Ix|].
      rewrite Ex. f_equal. lia.
Qed.

Lemma StronglySorted_snoc (A : Type) (R : A -> A -> Prop) (l : list A) (x : A) :
  StronglySorted R l -> Forall (fun y => R y x) l -> StronglySorted R (l ++ [x]).
Proof.
  induction 1 as [|y r S IH F]; intros H; simpl.
  - repeat constructor.
  - inversion H; subst. constructor; [apply IH; assumption|].
    apply Forall_app. split; [exact F | repeat constructor; assumption].
Qed.

(** [handleAddElement] puts the new element after all the others, under
    a fresh identifier.  When the positions of the segment are safe
    integers, the position of the new element is one more than the largest
    of them (1 in a segment without elements), so it is above every
    position of the segment: positions that were distinct stay distinct,
    and elements that were in the order of their positions stay so.
    Beyond the safe integers this fails: after an element at 2^53, or at
    Infinity, the new element gets that same position again. *)
Theorem handleAddElement_position :
  (forall segment w,
      Forall safely_positioned (Segment.elements segment) ->
      exists e z,
        fst (SegmentEditor.handleAddElement segment w)
        = (Segment.elements segment ++ [e])%list
        /\ e = Element.mk (uuids w) (JS.Finite z) "New Element" "AN" 1 50 Usage.O
                 None None None
        /\ uuids (snd (SegmentEditor.handleAddElement segment w)) = S (uuids w)
        /\ (Segment.elements segment = [] -> z = 1)
        /\ (Segment.elements segment <> [] ->
            Exists (fun x => Element.position x = JS.Finite (z - 1))
              (Segment.elements segment))
        /\ Forall (fun x => exists y, Element.position x = JS.Finite y /\ y < z)
             (Segment.elements segment)
        /\ Forall (fun x => JS.less (Element.position x) (Element.position e) = true)
             (Segment.elements segment)
        /\ (NoDup (map Element.position (Segment.elements segment)) ->
            NoDup (map Element.position (Segment.elements segment ++ [e])))
        /\ (StronglySorted position_le (Segment.elements segment) ->
            StronglySorted position_le (Segment.elements segment ++ [e])))
  /\ (forall segment w p,
        map Element.position (Segment.elements segment) = [p] ->
        p = JS.Finite (2 ^ 53) \/ p = JS.PosInfinity ->
        map Element.position (fst (SegmentEditor.handleAddElement segment w)) = [p; p]).
Proof.
  split.
  - intros segment w Safe.
    destruct (newPosition_safe Safe) as (z & E & Hz & Above & Empty & Largest).
    eexists. exists z. split; [reflexivity|]. cbn [Element.id Element.position].
    split; [rewrite E; reflexivity|]. split; [reflexivity|].
    split; [exact Empty|]. split; [exact Largest|]. split; [exact Above|].
    assert (Less : Forall (fun x => JS.less (Element.position x)
                                      (SegmentEditor.newPosition (Segment.elements segment))
                                    = true) (Segment.elements segment)).
    { eapply Forall_impl; [|exact Above]. intros x (y & Ey & Ly).
      rewrite Ey, E. cbn [JS.less]. apply Z.ltb_lt. exact Ly. }
    split; [exact Less|]. split.
    + intros N. rewrite map_app. cbn [map Element.position].
      apply NoDup_app; [exact N | repeat constructor; intros [] |].
      intros p I [Ep|[]]. rewrite Forall_forall in Above.
      apply in_map_iff in I. destruct I as (x & Ex & Ix).
      destruct (Above x Ix) as (y & Ey & Ly).
      rewrite <- Ep, E, Ey in Ex. injection Ex as Ex. lia.
    + intros S. apply StronglySorted_snoc; [exact S|].
      eapply Forall_impl; [|exact Less]. cbn beta. intros x H.
      unfold position_le, JS.less_or_equal. cbn [Element.position].
      rewrite H. reflexivity.
  - intros segment w p Ep Hp.
    unfold SegmentEditor.handleAddElement, bind, ret, uuidv4. cbn [fst].
    rewrite map_app, Ep. cbn [map app Element.position]. f_equal. f_equal.
    unfold SegmentEditor.newPosition.
    destruct (Segment.elements segment) as [|e r]; [discriminate Ep|].
    rewrite Ep. destruct Hp as [->| ->]; vm_compute; reflexivity.
Qed.

(** The header segment of the sample invoice, whose elements are at the
    positions 1 and 2, gets its new element at a position above them. *)
Lemma handleAddElement_position_witness :
  exists e z,
    fst (SegmentEditor.handleAddElement Cases.ST Sample.world)
    = (Segment.elements Cases.ST ++ [e])%list
    /\ Element.position e = JS.Finite z
    /\ Forall (fun x => exists y, Element.position x = JS.Finite y /\ y < z)
         (Segment.elements Cases.ST).
Proof.
  assert (Safe : Forall safely_positioned (Segment.elements Cases.ST)).
  { repeat constructor.
    - exists 1. split; [reflexivity | split; reflexivity].
    - exists 2. split; [reflexivity | split; reflexivity]. }
  destruct (proj1 handleAddElement_position Cases.ST Sample.world Safe)
    as (e & z & E & P & _ & _ & _ & A & _).
  exists e, z. split; [exact E|]. split; [rewrite P; reflexivity | exact A].
Defined.

(** *** Drag and drop *)

Lemma nth_error_split_at (A : Type) (items : list A) (index : nat) (x : A) :
  nth_error items index = Some x ->
  items = (firstn index items ++ x :: skipn (S index) items)%list
  /\ length (firstn index items) = index.
Proof.
  revert index. induction items as [|y r IH]; intros [|n] H; try discriminate.
  - injection H as ->. split; reflexivity.
  - simpl in H. destruct (IH n H) as [E L]. simpl.
    split; [f_equal; exact E | f_equal; exact L].
Qed.

(** A drop moves the dragged item to the place of the item it is dropped
    on and changes nothing else: the result has the dragged item at the
    target index, the other items are those of the array in the order
    they had, and nothing is lost or doubled; dropped on itself, an item
    leaves the array as it was. *)
Theorem dropped_moves :
  forall (A : Type) (sourceIndex targetIndex : nat) (items result : list A),
    dropped sourceIndex targetIndex items = Some result ->
    (targetIndex < length items)%nat ->
    nth_error result targetIndex = nth_error items sourceIndex
    /\ spliced_out targetIndex result = spliced_out sourceIndex items
    /\ Permutation items result
    /\ (sourceIndex = targetIndex -> result = items).
Proof.
  intros A sourceIndex targetIndex items result H Ht.
  unfold dropped in H.
  destruct (nth_error items sourceIndex) as [removed|] eqn:En; [|discriminate].
  injection H as <-.
  destruct (nth_error_split_at items sourceIndex En) as [Ei Ls].
  set (rest := spliced_out sourceIndex items).
  assert (Lr : S (length rest) = length items).
  { subst rest. unfold spliced_out. rewrite Ei at 3.
    rewrite !length_app. simpl. lia. }
  assert (Lf : length (firstn targetIndex rest) = targetIndex)
    by (apply firstn_length_le; lia).
  unfold spliced_in. repeat split.
  - rewrite nth_error_app2 by lia. rewrite Lf, Nat.sub_diag. reflexivity.
  - unfold spliced_out at 1.
    rewrite firstn_app, Lf, Nat.sub_diag, firstn_O, app_nil_r.
    rewrite firstn_firstn, Nat.min_id.
    rewrite skipn_app, Lf.
    replace (S targetIndex - targetIndex)%nat with 1%nat by lia.
    rewrite (skipn_all2 (firstn targetIndex rest)) by lia.
    simpl. apply firstn_skipn.
  - rewrite Ei at 1. apply Permutation_trans with (removed :: rest).
    + apply Permutation_sym. apply Permutation_middle.
    + rewrite <- (firstn_skipn targetIndex rest) at 1. apply Permutation_middle.
  - intros <-. subst rest. unfold spliced_out.
    rewrite firstn_app, Ls, Nat.sub_diag, firstn_O, app_nil_r.
    rewrite firstn_firstn, Nat.min_id.
    rewrite skipn_app, Ls, Nat.sub_diag.
    rewrite (skipn_all2 (firstn sourceIndex items)) by lia.
    simpl. symmetry. exact Ei.
Qed.

(** The second of three items is dropped on the first. *)
Lemma dropped_moves_witness :
  nth_error ["N1"; "ST"; "BIG"] 0 = nth_error ["ST"; "N1"; "BIG"] 1
  /\ spliced_out 0 ["N1"; "ST"; "BIG"] = spliced_out 1 ["ST"; "N1"; "BIG"]
  /\ Permutation ["ST"; "N1"; "BIG"] ["N1"; "ST"; "BIG"]
  /\ (1%nat = 0%nat -> ["N1"; "ST"; "BIG"] = ["ST"; "N1"; "BIG"]).
Proof.
  apply (@dropped_moves string 1 0 ["ST"; "N1"; "BIG"] ["N1"; "ST"; "BIG"]).
  - reflexivity.
  - simpl. lia.
Defined.

(** ** Identifiers under editing *)

Lemma segment_entry_ids depth (s : Segment) :
  map entry_id (segment_outline depth s) = segment_ids s.
Proof.
  unfold segment_outline, segment_ids. destruct s; simpl.
  rewrite map_map. reflexivity.
Qed.

Lemma loop_entry_ids : forall (l : Loop) depth, map entry_id (loop_outline depth l) = loop_ids l.
Proof.
  induction l as [l IH] using Loop_nested_ind. intros depth.
  rewrite loop_outline_unfold, loop_ids_unfold. unfold forest_outline.
  cbn [map]. rewrite map_app, !map_flat_map.
  change (entry_id (LoopEntry depth (with_loops (with_segments l []) []))) with (Loop.id l).
  f_equal. f_equal.
  - apply flat_map_ext. intros s. apply segment_entry_ids.
  - induction (Loop.loops l) as [|c r IHr]; [reflexivity|].
    simpl. rewrite (IH c (or_introl eq_refl)). f_equal.
    apply IHr. intros x Ix. apply IH. right. exact Ix.
Qed.

Lemma all_ids_outline (spec : Specification) :
  Permutation (all_ids spec) (Specification.id spec :: map entry_id (outline spec)).
Proof.
  eapply perm_trans; [apply all_ids_by_tree|]. apply perm_skip.
  unfold outline, forest_outline. rewrite map_flat_map.
  erewrite flat_map_ext; [apply Permutation_refl|].
  intros l. symmetry. apply loop_entry_ids.
Qed.

Lemma known_add (w : World) (spec spec' : Specification) :
  known w spec ->
  Permutation (all_ids spec') (uuids w :: all_ids spec) ->
  known (drawn w) spec'.
Proof.
  intros [N F] P. split.
  - eapply Permutation_NoDup; [apply Permutation_sym; exact P|].
    constructor; [|exact N]. intros I. rewrite Forall_forall in F.
    specialize (F _ I). lia.
  - eapply Permutation_Forall; [apply Permutation_sym; exact P|].
    constructor; [simpl; lia|]. eapply Forall_impl; [|exact F].
    simpl. intros id H. lia.
Qed.

Lemma known_remove (w : World) (spec spec' : Specification) (removed : list nat) :
  known w spec ->
  Permutation (all_ids spec) (removed ++ all_ids spec') ->
  known w spec'.
Proof.
  intros [N F] P. split.
  - eapply NoDup_app_remove_l. eapply Permutation_NoDup; [exact P | exact N].
  - pose proof (Permutation_Forall P F) as G. apply Forall_app in G. exact (proj2 G).
Qed.

Lemma all_ids_replaced (spec spec' : Specification) (before after old new : list Entry) :
  Specification.id spec' = Specification.id spec ->
  outline spec = (before ++ old ++ after)%list ->
  outline spec' = (before ++ new ++ after)%list ->
  forall added,
    Permutation (map entry_id new) (added ++ map entry_id old) ->
    Permutation (all_ids spec') (added ++ all_ids spec).
Proof.
  intros Ei E1 E2 added P.
  eapply perm_trans; [apply all_ids_outline|].
  eapply perm_trans;
    [|apply Permutation_app_head; apply Permutation_sym; apply all_ids_outline].
  rewrite Ei, E1, E2, !map_app.
  eapply perm_trans; [|apply Permutation_middle]. apply perm_skip.
  eapply perm_trans;
    [apply Permutation_app_head; apply Permutation_app_tail; exact P|].
  rewrite <- !app_assoc.
  rewrite (app_assoc (map entry_id before) added), (app_assoc added (map entry_id before)).
  apply Permutation_app_tail. apply Permutation_app_comm.
Qed.

Lemma all_ids_removed (spec spec' : Specification) (before after old : list Entry) :
  Specification.id spec' = Specification.id spec ->
  outline spec = (before ++ old ++ after)%list ->
  outline spec' = (before ++ after)%list ->
  Permutation (all_ids spec) (map entry_id old ++ all_ids spec').
Proof.
  intros Ei E1 E2.
  apply (@all_ids_replaced spec' spec before after [] old);
    [symmetry; exact Ei | exact E2 | exact E1 |].
  simpl. rewrite app_nil_r. apply Permutation_refl.
Qed.

Lemma known_after_addSegment w spec path loop :
  known w spec -> LoopAt (Specification.loops spec) path loop ->
  known (snd (LoopEditor.handleAddSegment loop path w))
    (fst (LoopEditor.handleAddSegment loop path w) spec).
Proof.
  intros K At.
  set (newSegment :=
         Segment.mk (uuids w) "SEG" "New Segment" Usage.O 0 1 [] None None None None).
  destruct (updateLoopInTree_outline
              (fun l => with_segments l (Loop.segments loop ++ [newSegment])%list)
              At [] (NoDup_loop_ids (proj1 K)))
    as (before & after & E1 & E2).
  apply (known_add K).
  apply (@all_ids_replaced spec (fst (LoopEditor.handleAddSegment loop path w) spec)
           before after _ _ eq_refl E1 E2 [uuids w]).
  rewrite !loop_entry_ids, !loop_ids_unfold. destruct loop; cbn [with_segments Loop.id Loop.segments Loop.loops app].
  rewrite flat_map_app. cbn [flat_map segment_ids newSegment Segment.id Segment.elements map app].
  eapply perm_trans; [|apply perm_swap]. apply perm_skip.
  rewrite <- app_assoc. apply Permutation_sym. apply Permutation_middle.
Qed.

Lemma known_after_addNestedLoop w spec path loop :
  known w spec -> LoopAt (Specification.loops spec) path loop ->
  known (snd (LoopEditor.handleAddNestedLoop loop path w))
    (fst (LoopEditor.handleAddNestedLoop loop path w) spec).
Proof.
  intros K At.
  set (newLoop :=
         Loop.mk (uuids w) "LOOP" (Some "New Nested Loop") Usage.O 0 1 [] [] None
           None None None).
  destruct (updateLoopInTree_outline
              (fun l => with_loops l (Loop.loops loop ++ [newLoop])%list)
              At [] (NoDup_loop_ids (proj1 K)))
    as (before & after & E1 & E2).
  apply (known_add K).
  apply (@all_ids_replaced spec (fst (LoopEditor.handleAddNestedLoop loop path w) spec)
           before after _ _ eq_refl E1 E2 [uuids w]).
  rewrite !loop_entry_ids, !loop_ids_unfold. destruct loop; cbn [with_loops Loop.id Loop.segments Loop.loops app].
  rewrite flat_map_app. cbn [flat_map]. rewrite (loop_ids_unfold newLoop).
  cbn [newLoop Loop.id Loop.segments Loop.loops flat_map app].
  eapply perm_trans; [|apply perm_swap]. apply perm_skip.
  rewrite !app_assoc. apply Permutation_sym. apply Permutation_cons_append.
Qed.

Lemma known_after_addElement w spec path segment :
  known w spec -> SegmentAt (Specification.loops spec) path segment ->
  known (snd (SegmentEditor.addElement segment path w))
    (fst (SegmentEditor.addElement segment path w) spec).
Proof.
  intros K At. destruct At as [loopPath parent s At Is].
  destruct (updateInLoops_outline
              (fun s0 => with_elements s0 (fst (SegmentEditor.handleAddElement s w)))
              At [] s Is (NoDup_loop_ids (proj1 K)) (segment_siblings (proj1 K)))
    as (before & after & E1 & E2).
  apply (known_add K).
  apply (@all_ids_replaced spec
           (fst (SegmentEditor.addElement s (loopPath ++ [Segment.id s]) w) spec)
           before after _ _ eq_refl E1 E2 [uuids w]).
  rewrite !segment_entry_ids. unfold segment_ids. destruct s; cbn.
  rewrite map_app. cbn [map Element.id app].
  eapply perm_trans; [|apply perm_swap]. apply perm_skip.
  apply Permutation_sym. apply Permutation_cons_append.
Qed.

Lemma known_after_addLoop w spec :
  known w spec ->
  known (snd (TreeNavigation.handleAddLoop w)) (fst (TreeNavigation.handleAddLoop w) spec).
Proof.
  intros K. apply (known_add K).
  set (newLoop :=
         Loop.mk (uuids w) "NEW" (Some "New Loop") Usage.O 0 1 [] [] None None None None).
  assert (E1 : outline spec = (outline spec ++ [] ++ [])%list)
    by (rewrite !app_nil_r; reflexivity).
  assert (E2 : outline (fst (TreeNavigation.handleAddLoop w) spec)
               = (outline spec ++ loop_outline 0 newLoop ++ [])%list).
  { unfold outline, forest_outline, TreeNavigation.handleAddLoop, bind, ret, uuidv4.
    cbn [fst with_top_loops Specification.loops].
    rewrite flat_map_app. cbn [flat_map]. rewrite !app_nil_r. reflexivity. }
  apply (@all_ids_replaced spec (fst (TreeNavigation.handleAddLoop w) spec)
           (outline spec) [] [] (loop_outline 0 newLoop) eq_refl E1 E2 [uuids w]).
  apply Permutation_refl.
Qed.

(** The editors keep the identifiers distinct.  When the identifiers of
    a Specification are distinct and were drawn before, they still are
    after a loop, a nested loop, a segment or an element is added under a
    new identifier at a place the tree shows, and after the loop or the
    segment at such a place is deleted. *)
Theorem editing_keeps_identifiers_distinct :
  forall w spec,
    known w spec ->
    known (snd (TreeNavigation.handleAddLoop w)) (fst (TreeNavigation.handleAddLoop w) spec)
    /\ (forall path loop,
          LoopAt (Specification.loops spec) path loop ->
          known (snd (LoopEditor.handleAddSegment loop path w))
            (fst (LoopEditor.handleAddSegment loop path w) spec)
          /\ known (snd (LoopEditor.handleAddNestedLoop loop path w))
               (fst (LoopEditor.handleAddNestedLoop loop path w) spec)
          /\ known w (LoopEditor.handleDeleteLoop path spec))
    /\ (forall path segment,
          SegmentAt (Specification.loops spec) path segment ->
          known (snd (SegmentEditor.addElement segment path w))
            (fst (SegmentEditor.addElement segment path w) spec)
          /\ known w (SegmentEditor.handleDeleteSegment path spec)).
Proof.
  intros w spec K. split; [apply known_after_addLoop; exact K|]. split.
  - intros path loop At.
    split; [apply known_after_addSegment; assumption|].
    split; [apply known_after_addNestedLoop; assumption|].
    destruct (deleteFromLoops_outline At [] (NoDup_loop_ids (proj1 K)))
      as (before & after & E1 & E2).
    eapply known_remove; [exact K|].
    exact (@all_ids_removed spec (LoopEditor.handleDeleteLoop path spec)
             before after _ eq_refl E1 E2).
  - intros path segment At.
    split; [apply known_after_addElement; assumption|].
    destruct At as [loopPath parent s At Is].
    destruct (deleteSegment_outline At [] s Is (NoDup_loop_ids (proj1 K))
                (segment_siblings (proj1 K)))
      as (before & after & E1 & E2).
    eapply known_remove; [exact K|].
    exact (@all_ids_removed spec
             (SegmentEditor.handleDeleteSegment (loopPath ++ [Segment.id s]) spec)
             before after _ eq_refl E1 E2).
Qed.

(** A loop is added to the sample invoice right after its import. *)
Lemma editing_keeps_identifiers_distinct_witness :
  known (snd (TreeNavigation.handleAddLoop
                (snd (importOpenEDISpec Sample.legacyInvoice Sample.world))))
    (fst (TreeNavigation.handleAddLoop
            (snd (importOpenEDISpec Sample.legacyInvoice Sample.world)))
       Cases.invoice).
Proof.
  apply (@editing_keeps_identifiers_distinct
           (snd (importOpenEDISpec Sample.legacyInvoice Sample.world)) Cases.invoice).
  split.
  - vm_compute. repeat constructor; simpl; intuition discriminate.
  - vm_compute. repeat constructor.
Defined.

(** ** Empty specifications *)

(** A Specification imported from the schema format is titled as the
    empty Specification that [createEmptySpecification] makes for its
    transaction set when it is given no name (or an empty one) and no EDI
    version: the two have the same name, version, transaction set,
    transaction-set name and EDI version.  The empty Specification has no
    loop and no example, its two dates are the same, and it takes one
    identifier. *)
Theorem createEmptySpecification_as_imported :
  forall depth parsed w spec w',
    importOpenAPIFormat depth parsed w = Some (Returns spec, w') ->
    forall name w0,
      name = None \/ name = Some "" ->
      let imported := Specification.metadata spec in
      let empty :=
        fst (createEmptySpecification (Metadata.transactionSet imported) name None w0) in
      Metadata.name (Specification.metadata empty) = Metadata.name imported
      /\ Metadata.version (Specification.metadata empty) = Metadata.version imported
      /\ Metadata.transactionSet (Specification.metadata empty)
         = Metadata.transactionSet imported
      /\ Metadata.transactionSetName (Specification.metadata empty)
         = Metadata.transactionSetName imported
      /\ Metadata.ediVersion (Specification.metadata empty) = Metadata.ediVersion imported
      /\ Metadata.createdDate (Specification.metadata empty)
         = Metadata.modifiedDate (Specification.metadata empty)
      /\ outline empty = []
      /\ Specification.examples empty = []
      /\ all_ids empty = [uuids w0].
Proof.
  intros depth parsed w spec w' Hrun name w0 Hname imported empty.
  subst imported empty. rewrite importOpenAPIFormat_run in Hrun.
  destruct (findTransactionSet (schemasOf parsed)) as [[transactionSetId root]|];
    [|discriminate].
  destruct (importProperties _ _ _ _ _ _ _ w) as [[[segments loops] w1]|];
    [|discriminate].
  injection Hrun as <- <-. cbn [Specification.metadata schemaMetadata Metadata.transactionSet].
  unfold createEmptySpecification, bind, ret, now, uuidv4. cbn.
  destruct Hname as [-> | ->]; repeat split; reflexivity.
Qed.

(** The sample invoice and the empty invoice. *)
Lemma createEmptySpecification_as_imported_witness :
  exists spec w',
    importOpenAPIFormat 1 Sample.invoice Sample.world = Some (Returns spec, w')
    /\ Metadata.name
         (Specification.metadata
            (fst (createEmptySpecification
                    (Metadata.transactionSet (Specification.metadata spec))
                    None None Sample.world)))
       = Metadata.name (Specification.metadata spec).
Proof.
  eexists. eexists. split; [vm_compute; reflexivity|].
  eapply (@createEmptySpecification_as_imported 1 Sample.invoice Sample.world);
    [vm_compute; reflexivity | left; reflexivity].
Defined.

(** ** Two ways to delete, and undoing an addition *)

Lemma with_loops_same (l : Loop) : with_loops l (Loop.loops l) = l.
Proof. destruct l; reflexivity. Qed.

Lemma with_segments_same (l : Loop) : with_segments l (Loop.segments l) = l.
Proof. destruct l; reflexivity. Qed.

Lemma with_top_loops_same (spec : Specification) :
  with_top_loops spec (Specification.loops spec) = spec.
Proof. destruct spec; reflexivity. Qed.

Lemma deleteSegment_item_here prefix (l : Loop) (sid : nat) :
  SegmentEditor.deleteFromLoops_item (prefix ++ [Loop.id l; sid]) (length prefix) l
  = with_segments l
      (filter (fun s => negb (Nat.eqb (Segment.id s) sid)) (Loop.segments l)).
Proof.
  rewrite deleteFromLoops_item_unfold, at_path_here, Nat.eqb_refl, is_level_2.
  f_equal. apply filter_ext. intros s. rewrite at_path_next. reflexivity.
Qed.

Lemma deleteLoop_item_here prefix (l : Loop) (cid : nat) :
  LoopEditor.deleteFromLoops_below (prefix ++ [Loop.id l; cid]) (S (length prefix)) l
  = with_loops l (filter (fun c => negb (Nat.eqb (Loop.id c) cid)) (Loop.loops l)).
Proof.
  rewrite deleteFromLoops_below_unfold. f_equal.
  unfold LoopEditor.deleteFromLoops.
  replace (prefix ++ [Loop.id l; cid])%list with ((prefix ++ [Loop.id l]) ++ [cid])%list
    by (rewrite <- app_assoc; reflexivity).
  replace (S (length prefix)) with (length (prefix ++ [Loop.id l]))
    by (rewrite length_app; simpl; lia).
  rewrite is_level_1. apply filter_ext. intros c. rewrite at_path_here. reflexivity.
Qed.

(** The loop editor's way to delete a segment of its loop, along the
    path of the loop, against the segment editor's way along the path of
    the segment. *)
Lemma deleteSegment_agree (sid : nat) :
  forall loops path loop,
    LoopAt loops path loop ->
    forall prefix,
      NoDup (map Loop.id (flat_map sub_loops loops)) ->
      LoopEditor.updateLoopInTree
        (fun l => with_segments l
                    (filter (fun s => negb (Nat.eqb (Segment.id s) sid))
                       (Loop.segments loop)))
        (prefix ++ path) loops (length prefix)
      = SegmentEditor.deleteFromLoops (prefix ++ path ++ [sid]) loops (length prefix).
Proof.
  induction 1 as [loops l I | loops parent path l I At IH]; intros prefix N.
  - destruct (split_by_id Loop.id loops l (NoDup_siblings loops N) I)
      as (b & a & -> & Hb & Ha).
    unfold LoopEditor.updateLoopInTree, SegmentEditor.deleteFromLoops.
    rewrite (map_ext _ (fun y => if Nat.eqb (Loop.id y) (Loop.id l)
                                 then with_segments y
                                        (filter (fun s => negb (Nat.eqb (Segment.id s) sid))
                                           (Loop.segments l))
                                 else y)).
    + rewrite (@map_at_one _ (fun y => Nat.eqb (Loop.id y) (Loop.id l)) _ b a l
                 Hb Ha (Nat.eqb_refl _)).
      cbn [app].
      rewrite (map_ext _ (fun y => if Nat.eqb (Loop.id y) (Loop.id l)
                                   then SegmentEditor.deleteFromLoops_item
                                          (prefix ++ [Loop.id l; sid]) (length prefix) y
                                   else y)).
      * rewrite (@map_at_one _ (fun y => Nat.eqb (Loop.id y) (Loop.id l)) _ b a l
                   Hb Ha (Nat.eqb_refl _)).
        rewrite deleteSegment_item_here. reflexivity.
      * intros y. rewrite deleteFromLoops_item_unfold, at_path_here.
        destruct (Nat.eqb (Loop.id y) (Loop.id l)); reflexivity.
    + intros y. rewrite updateLoopInTree_item_unfold, at_path_here, is_level_1.
      reflexivity.
  - unfold LoopEditor.updateLoopInTree, SegmentEditor.deleteFromLoops.
    apply map_ext_in. intros y Iy.
    rewrite updateLoopInTree_item_unfold, deleteFromLoops_item_unfold.
    cbn [app]. rewrite !at_path_here, is_level_1, is_level_2.
    destruct (Nat.eqb_spec (Loop.id y) (Loop.id parent)) as [E|]; [|reflexivity].
    pose proof (LoopAt_nonempty At) as Np.
    destruct path as [|p0 path0]; [contradiction|].
    assert (y = parent) as ->.
    { destruct (split_by_id Loop.id loops parent (NoDup_siblings loops N) I)
        as (b & a & -> & Hb & Ha).
      apply in_app_or in Iy. rewrite Forall_forall in Hb, Ha.
      destruct Iy as [Iy|[Iy|Iy]]; [| symmetry; exact Iy |].
      - specialize (Hb _ Iy). apply Nat.eqb_neq in Hb. contradiction.
      - specialize (Ha _ Iy). apply Nat.eqb_neq in Ha. contradiction. }
    destruct path0 as [|p1 path1]; cbn [app]; f_equal;
      specialize (IH (prefix ++ [Loop.id parent])%list (NoDup_children _ parent N I));
      rewrite length_app, <- !app_assoc in IH; cbn [length app] in IH;
      rewrite Nat.add_1_r in IH; exact IH.
Qed.

Lemma deleteLoop_agree (cid : nat) :
  forall loops path loop,
    LoopAt loops path loop ->
    forall prefix,
      NoDup (map Loop.id (flat_map sub_loops loops)) ->
      LoopEditor.updateLoopInTree
        (fun l => with_loops l
                    (filter (fun c => negb (Nat.eqb (Loop.id c) cid)) (Loop.loops loop)))
        (prefix ++ path) loops (length prefix)
      = LoopEditor.deleteFromLoops (prefix ++ path ++ [cid]) loops (length prefix).
Proof.
  induction 1 as [loops l I | loops parent path l I At IH]; intros prefix N.
  - destruct (split_by_id Loop.id loops l (NoDup_siblings loops N) I)
      as (b & a & -> & Hb & Ha).
    unfold LoopEditor.updateLoopInTree, LoopEditor.deleteFromLoops.
    cbn [app]. rewrite is_level_1.
    rewrite (map_ext _ (fun y => if Nat.eqb (Loop.id y) (Loop.id l)
                                 then with_loops y
                                        (filter (fun c => negb (Nat.eqb (Loop.id c) cid))
                                           (Loop.loops l))
                                 else y)).
    + rewrite (@map_at_one _ (fun y => Nat.eqb (Loop.id y) (Loop.id l)) _ b a l
                 Hb Ha (Nat.eqb_refl _)).
      rewrite (map_ext _ (fun y => if Nat.eqb (Loop.id y) (Loop.id l)
                                   then LoopEditor.deleteFromLoops_below
                                          (prefix ++ [Loop.id l; cid]) (S (length prefix)) y
                                   else y)).
      * rewrite (@map_at_one _ (fun y => Nat.eqb (Loop.id y) (Loop.id l)) _ b a l
                   Hb Ha (Nat.eqb_refl _)).
        rewrite deleteLoop_item_here. reflexivity.
      * intros y. rewrite at_path_here. reflexivity.
    + intros y. rewrite updateLoopInTree_item_unfold, at_path_here, is_level_1.
      reflexivity.
  - unfold LoopEditor.updateLoopInTree, LoopEditor.deleteFromLoops.
    cbn [app]. rewrite is_level_1.
    pose proof (LoopAt_nonempty At) as Np.
    destruct path as [|p0 path0]; [contradiction|]. cbn [app].
    apply map_ext_in. intros y Iy.
    rewrite updateLoopInTree_item_unfold, !at_path_here, is_level_1.
    destruct (Nat.eqb_spec (Loop.id y) (Loop.id parent)) as [E|]; [|reflexivity].
    assert (y = parent) as ->.
    { destruct (split_by_id Loop.id loops parent (NoDup_siblings loops N) I)
        as (b & a & -> & Hb & Ha).
      apply in_app_or in Iy. rewrite Forall_forall in Hb, Ha.
      destruct Iy as [Iy|[Iy|Iy]]; [| symmetry; exact Iy |].
      - specialize (Hb _ Iy). apply Nat.eqb_neq in Hb. contradiction.
      - specialize (Ha _ Iy). apply Nat.eqb_neq in Ha. contradiction. }
    rewrite deleteFromLoops_below_unfold. f_equal.
    specialize (IH (prefix ++ [Loop.id parent])%list (NoDup_children _ parent N I)).
    rewrite length_app, <- !app_assoc in IH. cbn [length app] in IH.
    rewrite Nat.add_1_r in IH. exact IH.
Qed.

(** The two ways to delete a segment, and the two ways to delete a nested
    loop, give the same Specification.  In a Specification whose
    identifiers are distinct, deleting a segment or a nested loop with the
    button of the editor of the loop they are in, at the path of that
    loop, is deleting it in its own editor, at its own path. *)
Theorem deleting_from_the_parent_agrees :
  forall spec path loop,
    NoDup (all_ids spec) ->
    LoopAt (Specification.loops spec) path loop ->
    (forall segmentId,
        LoopEditor.handleDeleteSegment loop segmentId path spec
        = SegmentEditor.handleDeleteSegment (path ++ [segmentId]) spec)
    /\ (forall loopId,
          LoopEditor.handleDeleteNestedLoop loop loopId path spec
          = LoopEditor.handleDeleteLoop (path ++ [loopId]) spec).
Proof.
  intros spec path loop N At. split.
  - intros segmentId.
    unfold LoopEditor.handleDeleteSegment, LoopEditor.updateLoop,
      SegmentEditor.handleDeleteSegment.
    f_equal. exact (deleteSegment_agree segmentId At [] (NoDup_loop_ids N)).
  - intros loopId.
    unfold LoopEditor.handleDeleteNestedLoop, LoopEditor.updateLoop,
      LoopEditor.handleDeleteLoop.
    f_equal. exact (deleteLoop_agree loopId At [] (NoDup_loop_ids N)).
Qed.

(** The loop of the parties is deleted from the editor of the header loop
    of the sample invoice, and in its own editor. *)
Lemma deleting_from_the_parent_agrees_witness :
  LoopEditor.handleDeleteNestedLoop Cases.header 5 [1%nat] Cases.invoice
  = LoopEditor.handleDeleteLoop [1%nat; 5%nat] Cases.invoice.
Proof.
  apply (@deleting_from_the_parent_agrees Cases.invoice [1%nat] Cases.header).
  - vm_compute. repeat constructor; simpl; intuition discriminate.
  - apply (@LoopAt_here _ Cases.header). left; reflexivity.
Defined.

(** *** Undoing an addition *)

Lemma LoopAt_in loops path l : LoopAt loops path l -> In l (flat_map sub_loops loops).
Proof.
  induction 1 as [loops l I | loops parent path l I At IH].
  - apply in_flat_map. exists l. split; [exact I | apply sub_loops_self].
  - eapply sub_loops_children; eassumption.
Qed.

Lemma LoopAt_child loops path l (c : Loop) :
  LoopAt loops path l -> In c (Loop.loops l) -> LoopAt loops (path ++ [Loop.id c]) c.
Proof.
  induction 1 as [loops l I | loops parent path l I At IH]; intros Ic.
  - apply (@LoopAt_below loops l [Loop.id c] c I). apply LoopAt_here. exact Ic.
  - apply (@LoopAt_below loops parent (path ++ [Loop.id c]) c I). apply IH. exact Ic.
Qed.

Lemma new_to (w : World) (spec : Specification) (id : nat) :
  known w spec -> In id (all_ids spec) -> Nat.eqb id (uuids w) = false.
Proof.
  intros [_ F] I. rewrite Forall_forall in F. specialize (F id I).
  apply Nat.eqb_neq. lia.
Qed.

Lemma loop_id_in (spec : Specification) (l : Loop) :
  In l (spec_loops spec) -> In (Loop.id l) (all_ids spec).
Proof.
  intros I. unfold all_ids. right. apply in_or_app. left. apply in_map. exact I.
Qed.

Lemma segment_id_in (spec : Specification) (l : Loop) (s : Segment) :
  In l (spec_loops spec) -> In s (Loop.segments l) -> In (Segment.id s) (all_ids spec).
Proof.
  intros I Is. unfold all_ids. right. apply in_or_app. right. apply in_or_app. left.
  apply in_map. unfold spec_segments. apply in_flat_map. exists l. split; assumption.
Qed.

Lemma element_id_in (spec : Specification) (l : Loop) (s : Segment) (e : Element) :
  In l (spec_loops spec) -> In s (Loop.segments l) -> In e (Segment.elements s) ->
  In (Element.id e) (all_ids spec).
Proof.
  intros I Is Ie. unfold all_ids. right. apply in_or_app. right. apply in_or_app. right.
  apply in_map. unfold spec_elements. apply in_flat_map. exists s. split; [|exact Ie].
  unfold spec_segments. apply in_flat_map. exists l. split; assumption.
Qed.

Lemma filter_out_last (A : Type) (hit : A -> bool) (items : list A) (x : A) :
  Forall (fun y => hit y = false) items -> hit x = true ->
  filter (fun y => negb (hit y)) (items ++ [x]) = items.
Proof.
  intros F H.
  rewrite (@filter_out_one A hit items [] x F (Forall_nil _) H). apply app_nil_r.
Qed.

Lemma addSegment_undone (new : Segment) :
  forall loops path loop,
    LoopAt loops path loop ->
    forall prefix,
      NoDup (map Loop.id (flat_map sub_loops loops)) ->
      Forall (fun s => Nat.eqb (Segment.id s) (Segment.id new) = false)
        (Loop.segments loop) ->
      SegmentEditor.deleteFromLoops (prefix ++ path ++ [Segment.id new])
        (LoopEditor.updateLoopInTree
           (fun l => with_segments l (Loop.segments loop ++ [new]))
           (prefix ++ path) loops (length prefix))
        (length prefix)
      = loops.
Proof.
  induction 1 as [loops l I | loops parent path l I At IH]; intros prefix N F.
  - destruct (split_by_id Loop.id loops l (NoDup_siblings loops N) I)
      as (b & a & -> & Hb & Ha).
    set (l' := with_segments l (Loop.segments l ++ [new])).
    assert (U : LoopEditor.updateLoopInTree
                  (fun l0 => with_segments l0 (Loop.segments l ++ [new]))
                  (prefix ++ [Loop.id l]) (b ++ l :: a) (length prefix)
                = (b ++ l' :: a)%list).
    { unfold LoopEditor.updateLoopInTree.
      rewrite (map_ext _ (fun y => if Nat.eqb (Loop.id y) (Loop.id l)
                                   then with_segments y (Loop.segments l ++ [new])
                                   else y)).
      - apply (@map_at_one _ (fun y => Nat.eqb (Loop.id y) (Loop.id l))
                 (fun y => with_segments y (Loop.segments l ++ [new])%list) b a l
                 Hb Ha (Nat.eqb_refl _)).
      - intros y. rewrite updateLoopInTree_item_unfold, at_path_here, is_level_1.
        reflexivity. }
    rewrite U. unfold SegmentEditor.deleteFromLoops. cbn [app].
    rewrite (map_ext _ (fun y => if Nat.eqb (Loop.id y) (Loop.id l)
                                 then SegmentEditor.deleteFromLoops_item
                                        (prefix ++ [Loop.id l; Segment.id new])
                                        (length prefix) y
                                 else y)).
    + rewrite (@map_at_one _ (fun y => Nat.eqb (Loop.id y) (Loop.id l)) _ b a l'
                 Hb Ha (Nat.eqb_refl _)).
      assert (D : SegmentEditor.deleteFromLoops_item
                    (prefix ++ [Loop.id l; Segment.id new]) (length prefix) l'
                  = with_segments l'
                      (filter (fun s => negb (Nat.eqb (Segment.id s) (Segment.id new)))
                         (Loop.segments l')))
        by exact (deleteSegment_item_here prefix l' (Segment.id new)).
      rewrite D. subst l'. destruct l; cbn [with_segments Loop.segments] in *.
      rewrite (@filter_out_last _ (fun s => Nat.eqb (Segment.id s) (Segment.id new))
                 _ new F (Nat.eqb_refl _)).
      reflexivity.
    + intros y. rewrite deleteFromLoops_item_unfold, at_path_here.
      destruct (Nat.eqb (Loop.id y) (Loop.id l)); reflexivity.
  - destruct (split_by_id Loop.id loops parent (NoDup_siblings loops N) I)
      as (b & a & -> & Hb & Ha).
    pose proof (LoopAt_nonempty At) as Np.
    destruct path as [|p0 path0]; [contradiction|].
    specialize (IH (prefix ++ [Loop.id parent])%list (NoDup_children _ parent N I) F).
    rewrite length_app, <- !app_assoc in IH. cbn [length app] in IH.
    rewrite Nat.add_1_r in IH.
    set (rest := LoopEditor.updateLoopInTree
                   (fun l0 => with_segments l0 (Loop.segments l ++ [new]))
                   (prefix ++ Loop.id parent :: p0 :: path0) (Loop.loops parent)
                   (S (length prefix))) in *.
    assert (U : LoopEditor.updateLoopInTree
                  (fun l0 => with_segments l0 (Loop.segments l ++ [new]))
                  (prefix ++ Loop.id parent :: p0 :: path0) (b ++ parent :: a)
                  (length prefix)
                = (b ++ with_loops parent rest :: a)%list).
    { unfold LoopEditor.updateLoopInTree at 1.
      rewrite (map_ext _ (fun y => if Nat.eqb (Loop.id y) (Loop.id parent)
                                   then with_loops y
                                          (LoopEditor.updateLoopInTree
                                             (fun l0 => with_segments l0
                                                          (Loop.segments l ++ [new]))
                                             (prefix ++ Loop.id parent :: p0 :: path0)
                                             (Loop.loops y) (S (length prefix)))
                                   else y)).
      - apply (@map_at_one _ (fun y => Nat.eqb (Loop.id y) (Loop.id parent))
                 (fun y => with_loops y
                             (LoopEditor.updateLoopInTree
                                (fun l0 => with_segments l0 (Loop.segments l ++ [new])%list)
                                (prefix ++ Loop.id parent :: p0 :: path0)
                                (Loop.loops y) (S (length prefix))))
                 b a parent Hb Ha (Nat.eqb_refl _)).
      - intros y. rewrite updateLoopInTree_item_unfold, at_path_here, is_level_1.
        reflexivity. }
    cbn [app]. rewrite U. unfold SegmentEditor.deleteFromLoops at 1.
    rewrite (map_ext _ (fun y => if Nat.eqb (Loop.id y) (Loop.id parent)
                                 then with_loops y
                                        (SegmentEditor.deleteFromLoops
                                           (prefix ++ Loop.id parent :: p0 :: path0
                                              ++ [Segment.id new])
                                           (Loop.loops y) (S (length prefix)))
                                 else y)).
    + rewrite (@map_at_one _ (fun y => Nat.eqb (Loop.id y) (Loop.id parent)) _ b a
                 (with_loops parent rest) Hb Ha).
      * destruct parent; cbn [with_loops Loop.loops] in *. rewrite IH. reflexivity.
      * destruct parent; apply Nat.eqb_refl.
    + intros y. rewrite deleteFromLoops_item_unfold, at_path_here, is_level_2.
      destruct path0; reflexivity.
Qed.

Lemma addNestedLoop_undone (new : Loop) :
  forall loops path loop,
    LoopAt loops path loop ->
    forall prefix,
      NoDup (map Loop.id (flat_map sub_loops loops)) ->
      Forall (fun c => Nat.eqb (Loop.id c) (Loop.id new) = false) (Loop.loops loop) ->
      LoopEditor.deleteFromLoops (prefix ++ path ++ [Loop.id new])
        (LoopEditor.updateLoopInTree
           (fun l => with_loops l (Loop.loops loop ++ [new]))
           (prefix ++ path) loops (length prefix))
        (length prefix)
      = loops.
Proof.
  induction 1 as [loops l I | loops parent path l I At IH]; intros prefix N F.
  - destruct (split_by_id Loop.id loops l (NoDup_siblings loops N) I)
      as (b & a & -> & Hb & Ha).
    set (l' := with_loops l (Loop.loops l ++ [new])).
    assert (U : LoopEditor.updateLoopInTree
                  (fun l0 => with_loops l0 (Loop.loops l ++ [new]))
                  (prefix ++ [Loop.id l]) (b ++ l :: a) (length prefix)
                = (b ++ l' :: a)%list).
    { unfold LoopEditor.updateLoopInTree.
      rewrite (map_ext _ (fun y => if Nat.eqb (Loop.id y) (Loop.id l)
                                   then with_loops y (Loop.loops l ++ [new])
                                   else y)).
      - apply (@map_at_one _ (fun y => Nat.eqb (Loop.id y) (Loop.id l))
                 (fun y => with_loops y (Loop.loops l ++ [new])%list) b a l
                 Hb Ha (Nat.eqb_refl _)).
      - intros y. rewrite updateLoopInTree_item_unfold, at_path_here, is_level_1.
        reflexivity. }
    rewrite U. unfold LoopEditor.deleteFromLoops. cbn [app]. rewrite is_level_1.
    rewrite (map_ext _ (fun y => if Nat.eqb (Loop.id y) (Loop.id l)
                                 then LoopEditor.deleteFromLoops_below
                                        (prefix ++ [Loop.id l; Loop.id new])
                                        (S (length prefix)) y
                                 else y)).
    + rewrite (@map_at_one _ (fun y => Nat.eqb (Loop.id y) (Loop.id l)) _ b a l'
                 Hb Ha (Nat.eqb_refl _)).
      assert (D : LoopEditor.deleteFromLoops_below
                    (prefix ++ [Loop.id l; Loop.id new]) (S (length prefix)) l'
                  = with_loops l'
                      (filter (fun c => negb (Nat.eqb (Loop.id c) (Loop.id new)))
                         (Loop.loops l')))
        by exact (deleteLoop_item_here prefix l' (Loop.id new)).
      rewrite D. subst l'. destruct l; cbn [with_loops Loop.loops] in *.
      rewrite (@filter_out_last _ (fun c => Nat.eqb (Loop.id c) (Loop.id new))
                 _ new F (Nat.eqb_refl _)).
      reflexivity.
    + intros y. rewrite at_path_here. reflexivity.
  - destruct (split_by_id Loop.id loops parent (NoDup_siblings loops N) I)
      as (b & a & -> & Hb & Ha).
    pose proof (LoopAt_nonempty At) as Np.
    destruct path as [|p0 path0]; [contradiction|].
    specialize (IH (prefix ++ [Loop.id parent])%list (NoDup_children _ parent N I) F).
    rewrite length_app, <- !app_assoc in IH. cbn [length app] in IH.
    rewrite Nat.add_1_r in IH.
    set (rest := LoopEditor.updateLoopInTree
                   (fun l0 => with_loops l0 (Loop.loops l ++ [new]))
                   (prefix ++ Loop.id parent :: p0 :: path0) (Loop.loops parent)
                   (S (length prefix))) in *.
    assert (U : LoopEditor.updateLoopInTree
                  (fun l0 => with_loops l0 (Loop.loops l ++ [new]))
                  (prefix ++ Loop.id parent :: p0 :: path0) (b ++ parent :: a)
                  (length prefix)
                = (b ++ with_loops parent rest :: a)%list).
    { unfold LoopEditor.updateLoopInTree at 1.
      rewrite (map_ext _ (fun y => if Nat.eqb (Loop.id y) (Loop.id parent)
                                   then with_loops y
                                          (LoopEditor.updateLoopInTree
                                             (fun l0 => with_loops l0 (Loop.loops l ++ [new]))
                                             (prefix ++ Loop.id parent :: p0 :: path0)
                                             (Loop.loops y) (S (length prefix)))
                                   else y)).
      - apply (@map_at_one _ (fun y => Nat.eqb (Loop.id y) (Loop.id parent))
                 (fun y => with_loops y
                             (LoopEditor.updateLoopInTree
                                (fun l0 => with_loops l0 (Loop.loops l ++ [new])%list)
                                (prefix ++ Loop.id parent :: p0 :: path0)
                                (Loop.loops y) (S (length prefix))))
                 b a parent Hb Ha (Nat.eqb_refl _)).
      - intros y. rewrite updateLoopInTree_item_unfold, at_path_here, is_level_1.
        reflexivity. }
    cbn [app]. rewrite U. unfold LoopEditor.deleteFromLoops at 1. rewrite is_level_1.
    rewrite (map_ext _ (fun y => if Nat.eqb (Loop.id y) (Loop.id parent)
                                 then with_loops y
                                        (LoopEditor.deleteFromLoops
                                           (prefix ++ Loop.id parent :: p0 :: path0
                                              ++ [Loop.id new])
                                           (Loop.loops y) (S (length prefix)))
                                 else y)).
    + rewrite (@map_at_one _ (fun y => Nat.eqb (Loop.id y) (Loop.id parent)) _ b a
                 (with_loops parent rest) Hb Ha).
      * destruct parent; cbn [with_loops Loop.loops] in *. rewrite IH. reflexivity.
      * destruct parent; apply Nat.eqb_refl.
    + intros y. rewrite at_path_here, deleteFromLoops_below_unfold. reflexivity.
Qed.

(** Deleting what was just added gives back the Specification.  When the
    identifiers of a Specification are distinct and were drawn before,
    adding a loop, a segment or a nested loop at a place the tree shows and
    then deleting the new item at its path leaves the Specification as it
    was; so does, for the elements of a segment, adding an element and
    deleting it. *)
Theorem undoing_an_addition :
  forall w spec,
    known w spec ->
    LoopEditor.handleDeleteLoop [uuids w] (fst (TreeNavigation.handleAddLoop w) spec) = spec
    /\ (forall path loop,
          LoopAt (Specification.loops spec) path loop ->
          SegmentEditor.handleDeleteSegment (path ++ [uuids w])
            (fst (LoopEditor.handleAddSegment loop path w) spec) = spec
          /\ LoopEditor.handleDeleteLoop (path ++ [uuids w])
               (fst (LoopEditor.handleAddNestedLoop loop path w) spec) = spec)
    /\ (forall path segment,
          SegmentAt (Specification.loops spec) path segment ->
          SegmentEditor.handleDeleteElement (uuids w)
            (with_elements segment (fst (SegmentEditor.handleAddElement segment w)))
          = Segment.elements segment).
Proof.
  intros w spec K. split; [|split].
  - unfold LoopEditor.handleDeleteLoop, TreeNavigation.handleAddLoop, bind, ret, uuidv4.
    cbn [fst with_top_loops Specification.loops Specification.id
         Specification.metadata Specification.examples].
    unfold LoopEditor.deleteFromLoops.
    change (is_level [uuids w] 0 1) with true. cbv iota.
    rewrite (filter_ext _ (fun y => negb (Nat.eqb (Loop.id y) (uuids w))))
      by (intros y; reflexivity).
    rewrite (@filter_out_last _ (fun y => Nat.eqb (Loop.id y) (uuids w))).
    + destruct spec; reflexivity.
    + apply Forall_forall. intros l I. apply (new_to K). apply loop_id_in.
      unfold spec_loops. apply in_flat_map. exists l. split; [exact I | apply sub_loops_self].
    + apply Nat.eqb_refl.
  - intros path loop At.
    pose proof (LoopAt_in At) as Il. split.
    + unfold SegmentEditor.handleDeleteSegment, LoopEditor.handleAddSegment,
        LoopEditor.updateLoop, bind, ret, uuidv4.
      cbn [fst with_top_loops Specification.loops Specification.id
           Specification.metadata Specification.examples].
      assert (F : Forall (fun s => Nat.eqb (Segment.id s) (uuids w) = false)
                    (Loop.segments loop)).
      { apply Forall_forall. intros s Is. apply (new_to K).
        eapply segment_id_in; eassumption. }
      pose proof (@addSegment_undone
                    (Segment.mk (uuids w) "SEG" "New Segment" Usage.O 0 1 [] None
                       None None None)
                    _ _ _ At [] (NoDup_loop_ids (proj1 K)) F) as U.
      cbn [app length Segment.id] in U. rewrite U.
      destruct spec; reflexivity.
    + unfold LoopEditor.handleDeleteLoop, LoopEditor.handleAddNestedLoop,
        LoopEditor.updateLoop, bind, ret, uuidv4.
      cbn [fst with_top_loops Specification.loops Specification.id
           Specification.metadata Specification.examples].
      assert (F : Forall (fun c => Nat.eqb (Loop.id c) (uuids w) = false)
                    (Loop.loops loop)).
      { apply Forall_forall. intros c Ic. apply (new_to K). apply loop_id_in.
        exact (LoopAt_in (@LoopAt_child _ _ _ c At Ic)). }
      pose proof (@addNestedLoop_undone
                    (Loop.mk (uuids w) "LOOP" (Some "New Nested Loop") Usage.O 0 1 [] []
                       None None None None)
                    _ _ _ At [] (NoDup_loop_ids (proj1 K)) F) as U.
      cbn [app length Loop.id] in U. rewrite U.
      destruct spec; reflexivity.
  - intros path segment At. destruct At as [loopPath parent s At Is].
    unfold SegmentEditor.handleDeleteElement, SegmentEditor.handleAddElement,
      bind, ret, uuidv4.
    cbn [fst]. destruct s; cbn [with_elements Segment.elements] in *.
    apply (@filter_out_last _ (fun e => Nat.eqb (Element.id e) (uuids w))).
    + apply Forall_forall. intros e Ie. apply (new_to K).
      eapply element_id_in; [exact (LoopAt_in At) | exact Is | exact Ie].
    + apply Nat.eqb_refl.
Qed.

(** A loop is added to the sample invoice and deleted. *)
Lemma undoing_an_addition_witness :
  LoopEditor.handleDeleteLoop [6%nat]
    (fst (TreeNavigation.handleAddLoop
            (snd (importOpenEDISpec Sample.legacyInvoice Sample.world)))
       Cases.invoice)
  = Cases.invoice.
Proof.
  apply (@undoing_an_addition
           (snd (importOpenEDISpec Sample.legacyInvoice Sample.world)) Cases.invoice).
  split.
  - vm_compute. repeat constructor; simpl; intuition discriminate.
  - vm_compute. repeat constructor.
Defined.

(** ** Paths that lead nowhere *)

Lemma at_path_beyond (targetPath : list nat) (depth id : nat) :
  (length targetPath <= depth)%nat -> at_path targetPath depth id = false.
Proof.
  intros H. unfold at_path.
  destruct (nth_error targetPath depth) eqn:E; [|reflexivity].
  apply nth_error_None in H. congruence.
Qed.

Lemma map_same (A : Type) (f : A -> A) (l : list A) :
  (forall x, In x l -> f x = x) -> map f l = l.
Proof.
  intros H. rewrite <- (map_id l) at 2. apply map_ext_in. exact H.
Qed.

Lemma filter_same (A : Type) (f : A -> bool) (l : list A) :
  (forall x, In x l -> f x = true) -> filter f l = l.
Proof.
  intros H. apply filter_all. apply Forall_forall. exact H.
Qed.

Lemma updateLoopInTree_nowhere (updates : Loop -> Loop) :
  forall path loops prefix,
    (forall l, ~ LoopAt loops path l) ->
    LoopEditor.updateLoopInTree updates (prefix ++ path) loops (length prefix) = loops.
Proof.
  induction path as [|id rest IH]; intros loops prefix H;
    unfold LoopEditor.updateLoopInTree; apply map_same; intros y Iy;
    rewrite updateLoopInTree_item_unfold.
  - rewrite at_path_beyond by (rewrite app_nil_r; lia). reflexivity.
  - rewrite at_path_here, is_level_1.
    destruct (Nat.eqb_spec (Loop.id y) id) as [E|]; [|reflexivity]. subst id.
    destruct rest as [|id' rest'].
    + exfalso. exact (H y (@LoopAt_here loops y Iy)).
    + specialize (IH (Loop.loops y) (prefix ++ [Loop.id y])%list).
      rewrite length_app, <- app_assoc in IH. cbn [length app] in IH.
      rewrite Nat.add_1_r in IH. rewrite IH; [apply with_loops_same|].
      intros l At. exact (H l (@LoopAt_below loops y _ l Iy At)).
Qed.

Lemma deleteFromLoops_nowhere :
  forall path loops prefix,
    (forall l, ~ LoopAt loops path l) ->
    LoopEditor.deleteFromLoops (prefix ++ path) loops (length prefix) = loops.
Proof.
  induction path as [|id rest IH]; intros loops prefix H;
    unfold LoopEditor.deleteFromLoops.
  - destruct (is_level (prefix ++ []) (length prefix) 1).
    + apply filter_same. intros y _.
      rewrite at_path_beyond by (rewrite app_nil_r; lia). reflexivity.
    + apply map_same. intros y _.
      rewrite at_path_beyond by (rewrite app_nil_r; lia). reflexivity.
  - rewrite is_level_1. destruct rest as [|id' rest'].
    + apply filter_same. intros y Iy. rewrite at_path_here.
      destruct (Nat.eqb_spec (Loop.id y) id) as [E|]; [|reflexivity]. subst id.
      exfalso. exact (H y (@LoopAt_here loops y Iy)).
    + apply map_same. intros y Iy. rewrite at_path_here.
      destruct (Nat.eqb_spec (Loop.id y) id) as [E|]; [|reflexivity]. subst id.
      rewrite deleteFromLoops_below_unfold.
      specialize (IH (Loop.loops y) (prefix ++ [Loop.id y])%list).
      rewrite length_app, <- app_assoc in IH. cbn [length app] in IH.
      rewrite Nat.add_1_r in IH. rewrite IH; [apply with_loops_same|].
      intros l At. exact (H l (@LoopAt_below loops y _ l Iy At)).
Qed.

Lemma SegmentAt_below loops (parent : Loop) path s :
  In parent loops -> SegmentAt (Loop.loops parent) path s ->
  SegmentAt loops (Loop.id parent :: path) s.
Proof.
  intros I At. destruct At as [loopPath l s At Is].
  exact (@SegmentAt_intro loops _ l s (@LoopAt_below loops parent _ l I At) Is).
Qed.

Section SegmentNowhere.

Variable onLoops : list nat -> list Loop -> nat -> list Loop.
Variable onItem : list nat -> nat -> Loop -> Loop.
Variable onSegments : list nat -> nat -> list Segment -> list Segment.

Hypothesis onLoops_maps :
  forall targetPath loops depth,
    onLoops targetPath loops depth = map (onItem targetPath depth) loops.
Hypothesis onItem_unfold :
  forall targetPath depth loop,
    onItem targetPath depth loop
    = if at_path targetPath depth (Loop.id loop) then
        if is_level targetPath depth 2 then
          with_segments loop (onSegments targetPath depth (Loop.segments loop))
        else with_loops loop (onLoops targetPath (Loop.loops loop) (S depth))
      else loop.
Hypothesis onSegments_same :
  forall prefix parent sid segments,
    (forall s, In s segments -> Nat.eqb (Segment.id s) sid = false) ->
    onSegments (prefix ++ [parent; sid]) (length prefix) segments = segments.

Lemma onLoops_nowhere :
  forall path loops prefix,
    (forall s, ~ SegmentAt loops path s) ->
    onLoops (prefix ++ path) loops (length prefix) = loops.
Proof.
  induction path as [|id rest IH]; intros loops prefix H;
    rewrite onLoops_maps; apply map_same; intros y Iy; rewrite onItem_unfold.
  - rewrite at_path_beyond by (rewrite app_nil_r; lia). reflexivity.
  - rewrite at_path_here, is_level_2.
    destruct (Nat.eqb_spec (Loop.id y) id) as [E|]; [|reflexivity]. subst id.
    assert (Below : onLoops (prefix ++ Loop.id y :: rest) (Loop.loops y) (S (length prefix))
                    = Loop.loops y).
    { specialize (IH (Loop.loops y) (prefix ++ [Loop.id y])%list).
      rewrite length_app, <- app_assoc in IH. cbn [length app] in IH.
      rewrite Nat.add_1_r in IH. apply IH.
      intros s At. exact (H s (@SegmentAt_below loops y _ s Iy At)). }
    destruct rest as [|sid [|x rest']].
    + rewrite Below. apply with_loops_same.
    + rewrite onSegments_same; [apply with_segments_same|].
      intros s Is. apply Nat.eqb_neq. intros E.
      apply (H s). rewrite <- E.
      exact (@SegmentAt_intro loops [Loop.id y] y s (@LoopAt_here loops y Iy) Is).
    + rewrite Below. apply with_loops_same.
Qed.

End SegmentNowhere.

(** An editor whose path leads to nothing changes nothing.  When no loop
    of the Specification is at the path, saving an edit of a loop or
    deleting a loop at that path gives back the Specification as it is;
    when no segment is at the path, so do saving an edit of a segment and
    deleting a segment. *)
Theorem stale_path_changes_nothing :
  forall path spec,
    ((forall l, ~ LoopAt (Specification.loops spec) path l) ->
     (forall updates, LoopEditor.updateLoop updates path spec = spec)
     /\ LoopEditor.handleDeleteLoop path spec = spec)
    /\ ((forall s, ~ SegmentAt (Specification.loops spec) path s) ->
        (forall updates, SegmentEditor.updateSegment updates path spec = spec)
        /\ SegmentEditor.handleDeleteSegment path spec = spec).
Proof.
  intros path spec. split.
  - intros H. split.
    + intros updates. unfold LoopEditor.updateLoop.
      pose proof (@updateLoopInTree_nowhere updates path (Specification.loops spec) [] H)
        as E.
      cbn [app length] in E. rewrite E. apply with_top_loops_same.
    + unfold LoopEditor.handleDeleteLoop.
      pose proof (@deleteFromLoops_nowhere path (Specification.loops spec) [] H) as E.
      cbn [app length] in E. rewrite E. apply with_top_loops_same.
  - intros H. split.
    + intros updates. unfold SegmentEditor.updateSegment.
      assert (E : SegmentEditor.updateInLoops updates ([] ++ path)
                    (Specification.loops spec) (length (@nil nat))
                  = Specification.loops spec).
      { apply (@onLoops_nowhere
                 (SegmentEditor.updateInLoops updates)
                 (SegmentEditor.updateInLoops_item updates)
                 (fun targetPath depth segments =>
                    map (fun s => if at_path targetPath (depth + 1) (Segment.id s)
                                  then updates s else s) segments)).
        - reflexivity.
        - apply updateInLoops_item_unfold.
        - intros prefix parent sid segments F. apply map_same. intros s Is.
          rewrite at_path_next, (F s Is). reflexivity.
        - exact H. }
      cbn [app length] in E. rewrite E. apply with_top_loops_same.
    + unfold SegmentEditor.handleDeleteSegment.
      assert (E : SegmentEditor.deleteFromLoops ([] ++ path)
                    (Specification.loops spec) (length (@nil nat))
                  = Specification.loops spec).
      { apply (@onLoops_nowhere
                 SegmentEditor.deleteFromLoops
                 SegmentEditor.deleteFromLoops_item
                 (fun targetPath depth segments =>
                    filter (fun s => negb (at_path targetPath (depth + 1) (Segment.id s)))
                      segments)).
        - reflexivity.
        - apply deleteFromLoops_item_unfold.
        - intros prefix parent sid segments F. apply filter_same. intros s Is.
          rewrite at_path_next, (F s Is). reflexivity.
        - exact H. }
      cbn [app length] in E. rewrite E. apply with_top_loops_same.
Qed.

(** No loop of the sample invoice has the path of the identifier 7. *)
Lemma stale_path_changes_nothing_witness :
  (forall updates, LoopEditor.updateLoop updates [7%nat] Cases.invoice = Cases.invoice)
  /\ LoopEditor.handleDeleteLoop [7%nat] Cases.invoice = Cases.invoice.
Proof.
  apply (proj1 (stale_path_changes_nothing [7%nat] Cases.invoice)).
  intros l At. inversion At as [loops l0 I | loops parent path l0 I Below]; subst.
  - destruct I as [<- | []]. discriminate.
  - inversion Below.
Defined.
